(** * ado-sync: the synchronisation core, embedded and verified

    A shallow embedding of the TypeScript sources of ado-sync
    (hierarchy utilities, diff engine, sync engine, work-item API,
    rate limiter, HTTP client and import engine) together with the
    properties of the specification that concern them.

    Conventions of the embedding
    - a JavaScript [number] that holds an id, a revision, a count or a
      time in milliseconds is a [Z]; fractional field values are outside
      the model (the code only compares them with [===]).  The integers
      that a JavaScript number holds exactly, and that [String] writes
      with their decimal digits, are the safe ones, of magnitude at
      most [2^53 - 1]; ids, revisions and times are such numbers, and a
      property about reading a number back from its digits carries
      [Js.isSafeInteger] as a hypothesis;
    - a JavaScript string is a [string] whose characters are its code
      units: the strings covered are those whose code units are below
      256 (ASCII and Latin-1).  On them [trim], [toLowerCase] and the
      classes and flags of the regular expressions of the sources are
      as in JavaScript;
    - an optional property ([x?: T], or [T | null]) is an [option];
      [None] stands for both [undefined] and [null], which the code
      never tells apart in the places embedded here;
    - asynchronous functions are functions on an explicit world: a call
      that is awaited either returns a value or throws. *)

From Stdlib Require Import ZArith String Ascii List Lia Bool.
From stdpp Require Import base tactics option list sorting gmap strings.

Local Open Scope string_scope.
Local Open Scope list_scope.

(** ** JavaScript primitives used by the sources *)

Module Js.

(** Values of type [unknown] that the comparison code receives. *)
Inductive value : Type :=
| VUndefined
| VNull
| VString (s : string)
| VNumber (n : Z)
| VArray (xs : list string).

Definition of_string (o : option string) : value :=
  match o with Some s => VString s | None => VUndefined end.

Definition of_number (o : option Z) : value :=
  match o with Some n => VNumber n | None => VUndefined end.

Definition of_array (o : option (list string)) : value :=
  match o with Some xs => VArray xs | None => VUndefined end.

(** [x === undefined || x === null] *)
Definition nullish (v : value) : bool :=
  match v with VUndefined | VNull => true | _ => false end.

(** Truthiness of a string and of a number. *)
Definition truthy_string (s : string) : bool := negb (String.eqb s "").
Definition truthy_number (n : Z) : bool := negb (Z.eqb n 0).

(** Truthiness of an optional number: [undefined], [null] and [0] are
    falsy.  [truthy_opt_number o = Some n] when the value is truthy. *)
Definition truthy_opt_number (o : option Z) : option Z :=
  match o with
  | Some n => if truthy_number n then Some n else None
  | None => None
  end.

Definition truthy_opt_string (o : option string) : option string :=
  match o with
  | Some s => if truthy_string s then Some s else None
  | None => None
  end.

(** White space and line terminators, the characters that [trim]
    removes and [\s] matches: below 256 these are tab, line feed,
    vertical tab, form feed, carriage return, space and the no-break
    space. *)
Definition is_space (c : ascii) : bool :=
  Ascii.is_space c || Ascii.eqb c (ascii_of_nat 160).

(** [String.prototype.trim] *)
Fixpoint trimStart (s : string) : string :=
  match s with
  | EmptyString => EmptyString
  | String c r => if is_space c then trimStart r else s
  end.

Definition trimEnd (s : string) : string :=
  String.rev (trimStart (String.rev s)).

Definition trim (s : string) : string := trimEnd (trimStart s).

(** [Array.prototype.sort] without a comparator, on an array of
    strings: ascending order of the code units. *)
Definition sort (xs : list string) : list string :=
  merge_sort String.le xs.

(** [s.startsWith(p)] and the rest of [s] after [p]. *)
Fixpoint strip_prefix (p s : string) : option string :=
  match p with
  | EmptyString => Some s
  | String a p' =>
      match s with
      | EmptyString => None
      | String b s' => if Ascii.eqb a b then strip_prefix p' s' else None
      end
  end.

(** [s.split(sep)] for a non-empty separator: the pieces between the
    occurrences of [sep], found from left to right.  [cur] holds the
    characters of the current piece in reverse; [skip] counts the
    characters of an occurrence of [sep] still to be passed over. *)
Fixpoint split_go (sep cur : string) (skip : nat) (s : string)
  : list string :=
  match s with
  | EmptyString => [String.rev cur]
  | String c r =>
      match skip with
      | S k => split_go sep cur k r
      | O =>
          match strip_prefix sep s with
          | Some _ =>
              String.rev cur :: split_go sep "" (String.length sep - 1) r
          | None => split_go sep (String c cur) O r
          end
      end
  end.

Definition split (sep s : string) : list string := split_go sep "" O s.

(** [xs.filter(Boolean)] on strings: the non-empty ones. *)
Definition filter_Boolean (xs : list string) : list string :=
  List.filter truthy_string xs.

(** [Array.prototype.join] *)
Fixpoint join (sep : string) (xs : list string) : string :=
  match xs with
  | [] => ""
  | [x] => x
  | x :: rest => x +:+ sep +:+ join sep rest
  end.

(** The ASCII letters without their case: what the [i] flag of a
    regular expression compares when the pattern is made of ASCII
    characters (a character from 128 on never matches one below). *)
Definition lower_ascii (c : ascii) : ascii :=
  let n := nat_of_ascii c in
  if (Nat.leb 65 n && Nat.leb n 90)%bool then ascii_of_nat (n + 32) else c.

(** [String.prototype.toLowerCase]: below 256 the upper-case letters
    are [A] to [Z] and, in Latin-1, 192 to 222 without the
    multiplication sign 215; each has its lower-case letter 32 places
    further. *)
Definition lower_char (c : ascii) : ascii :=
  let n := nat_of_ascii c in
  if ((Nat.leb 65 n && Nat.leb n 90)
      || (Nat.leb 192 n && Nat.leb n 222 && negb (Nat.eqb n 215)))%bool
  then ascii_of_nat (n + 32) else c.

Fixpoint toLowerCase (s : string) : string :=
  match s with
  | EmptyString => EmptyString
  | String c r => String (lower_char c) (toLowerCase r)
  end.

Definition is_digit (c : ascii) : bool :=
  let n := nat_of_ascii c in (Nat.leb 48 n && Nat.leb n 57)%bool.

Definition digit_value (c : ascii) : Z := Z.of_nat (nat_of_ascii c) - 48.

(** The longest prefix of decimal digits of [s], read as a number;
    [seen] tells whether a digit was read. *)
Fixpoint digits_go (acc : Z) (seen : bool) (s : string) : option Z :=
  match s with
  | EmptyString => if seen then Some acc else None
  | String c r =>
      if is_digit c then digits_go (10 * acc + digit_value c) true r
      else if seen then Some acc else None
  end.

(** [Number.MAX_SAFE_INTEGER] and [Number.isSafeInteger], for a
    number that is an integer. *)
Definition MAX_SAFE_INTEGER : Z := 2 ^ 53 - 1.

Definition isSafeInteger (n : Z) : bool :=
  ((- MAX_SAFE_INTEGER <=? n) && (n <=? MAX_SAFE_INTEGER))%Z.

(** [parseInt(s, 10)]: leading whitespace is skipped, a sign is
    accepted, then the longest run of digits is read; [None] is NaN.
    The number read is the one the digits denote when that is a safe
    integer (beyond, JavaScript rounds it to the nearest double). *)
Definition parseInt (s : string) : option Z :=
  match trimStart s with
  | String "-" r => Z.opp <$> digits_go 0 false r
  | String "+" r => digits_go 0 false r
  | r => digits_go 0 false r
  end.

(** Decimal rendering of an integer, as in a template literal.  This
    is what [String] gives for a safe integer (from [10^21] on it
    writes an exponent instead). *)
Definition digit_char (d : Z) : ascii := ascii_of_nat (48 + Z.to_nat d).

Fixpoint render_go (fuel : nat) (n : Z) (acc : string) : string :=
  match fuel with
  | O => acc
  | S k =>
      let acc' := String (digit_char (n mod 10)) acc in
      if (n <? 10)%Z then acc' else render_go k (n / 10) acc'
  end.

Definition toString (n : Z) : string :=
  if (n <? 0)%Z
  then String "-" (render_go (S (Z.to_nat (Z.log2 (- n)))) (- n) "")
  else render_go (S (Z.to_nat (Z.log2 n))) n "".

End Js.

(** ** Data model (types/work-item.ts, types/ado-api.ts, types/config.ts) *)

Record AdoComment := {
  comment_id : Z;
  comment_author : string;
  comment_date : string;
  comment_text : string }.

Record AdoPullRequest := {
  pr_id : Z;
  pr_title : string;
  pr_status : string;
  pr_url : string;
  pr_repository : option string }.

Record AdoHistoryEntry := {
  history_date : string;
  history_field : string;
  history_oldValue : string;
  history_newValue : string;
  history_changedBy : string }.

(** [AdoMetadata], the [_ado] block of a work item.  [md_state] and
    [md_assignedTo] are its [state] and [assignedTo]. *)
Record AdoMetadata := {
  md_workItemId : option Z;
  md_url : option string;
  md_rev : option Z;
  md_lastSyncedAt : option string;
  md_etag : option string;
  md_state : option string;
  md_assignedTo : option string;
  md_comments : option (list AdoComment);
  md_linkedPRs : option (list AdoPullRequest);
  md_history : option (list AdoHistoryEntry) }.

(** The scalar and array properties of a [WorkItem]. *)
Record WorkItemProps := {
  wi_type : string;
  wi_id : string;
  wi_title : string;
  wi_description : option string;
  wi_state : option string;
  wi_priority : option Z;
  wi_tags : option (list string);
  wi_assignedTo : option string;
  wi_areaPath : option string;
  wi_iterationPath : option string;
  wi_valueArea : option string;
  wi_businessValue : option Z;
  wi_targetDate : option string;
  wi_acceptanceCriteria : option string;
  wi_effort : option Z;
  wi_storyPoints : option Z;
  wi_activity : option string;
  wi_remainingWork : option Z;
  wi_originalEstimate : option Z;
  wi_completedWork : option Z }.

(** A [WorkItem]: its properties, its [_ado] block and its children.
    An absent [children] property is the empty list: every reader in
    the sources guards with [item.children && item.children.length > 0]
    or [if (item.children)] followed by a loop. *)
#[warnings="-register-all"]
Inductive WorkItem : Type :=
  mkWorkItem (props : WorkItemProps) (ado : option AdoMetadata)
             (children : list WorkItem).

Definition wi_props (w : WorkItem) : WorkItemProps :=
  match w with mkWorkItem p _ _ => p end.
Definition wi_ado (w : WorkItem) : option AdoMetadata :=
  match w with mkWorkItem _ a _ => a end.
Definition wi_children (w : WorkItem) : list WorkItem :=
  match w with mkWorkItem _ _ c => c end.

Inductive HierarchyType := full | medium | simple.

Record ProjectConfig := {
  pc_organization : string;
  pc_project : string;
  pc_areaPath : option string;
  pc_iterationPath : option string }.

Record WorkItemsDocument := {
  schemaVersion : string;
  hierarchyType : HierarchyType;
  project : ProjectConfig;
  workItems : list WorkItem }.

Inductive SyncAction := ACreate | AUpdate | ASkip | AConflict | ADelete.

Record SyncResult := {
  sr_localId : string;
  sr_action : SyncAction;
  sr_success : bool;
  sr_workItemId : option Z;
  sr_url : option string;
  sr_error : option string;
  sr_message : option string }.

Inductive DiffStatus := SNew | SModified | SDeleted | SUnchanged | SConflict.

(** The keys of [WorkItem] that the diff engine and the patch builder
    range over. *)
Inductive FieldName :=
| title | description | state | priority | assignedTo | areaPath
| iterationPath | acceptanceCriteria | effort | storyPoints
| businessValue | valueArea | targetDate | remainingWork
| originalEstimate | completedWork | activity | tags.

Record FieldChange := {
  fc_field : FieldName;
  fc_localValue : Js.value;
  fc_adoValue : Js.value }.

Record WorkItemDiff := {
  wd_localId : string;
  wd_adoId : option Z;
  wd_status : DiffStatus;
  wd_changes : list FieldChange }.

Record Conflict := {
  cf_localId : string;
  cf_adoId : Z;
  cf_field : string;
  cf_localValue : option Z;
  cf_adoValue : Z;
  cf_adoModifiedAt : string;
  cf_localSyncedAt : string }.

Record AdoIdentityRef := {
  displayName : string;
  uniqueName : string }.

Record AdoRelationAttributes := {
  attr_name : option string }.

Record AdoRelation := {
  rel : string;
  rel_url : string;
  rel_attributes : option AdoRelationAttributes }.

(** [AdoWorkItemFields]; [F_x] is the entry for the reference name
    ending in [x].  The interface declares [System.State],
    [System.AreaPath] and [System.IterationPath] without a question
    mark, but the object comes from the wire (and from the records the
    test suite builds) and the readers only index it, so the three are
    optional here as well: [None] is a record without the entry. *)
Record AdoWorkItemFields := {
  F_Title : string;
  F_Description : option string;
  F_State : option string;
  F_WorkItemType : string;
  F_AssignedTo : option AdoIdentityRef;
  F_AreaPath : option string;
  F_IterationPath : option string;
  F_ChangedDate : string;
  F_Tags : option string;
  F_Priority : option Z;
  F_ValueArea : option string;
  F_BusinessValue : option Z;
  F_Effort : option Z;
  F_StoryPoints : option Z;
  F_RemainingWork : option Z;
  F_OriginalEstimate : option Z;
  F_CompletedWork : option Z;
  F_TargetDate : option string;
  F_Activity : option string;
  F_AcceptanceCriteria : option string }.

Record AdoWorkItemResponse := {
  r_id : Z;
  r_rev : Z;
  r_url : string;
  r_fields : AdoWorkItemFields;
  r_relations : option (list AdoRelation) }.

Inductive PatchOp := op_add | op_remove | op_replace | op_test | op_move | op_copy.

(** The [value] of a patch operation: a field value, or the relation
    object of a link. *)
Inductive PatchValue :=
| PField (v : Js.value)
| PRelation (rel url : string).

Record JsonPatchOperation := {
  op : PatchOp;
  path : string;
  value : option PatchValue }.

Inductive Expand := ExNone | ExRelations | ExFields | ExLinks | ExAll.

Record DefaultsConfig := {
  d_areaPath : option string;
  d_iterationPath : option string;
  d_state : option string;
  d_priority : option Z }.

Inductive ConflictStrategy := ado_wins | yaml_wins | manual.

Record SyncConfig := {
  conflictStrategy : ConflictStrategy;
  batchSize : Z;
  includeComments : bool;
  includePRs : bool;
  includeHistory : bool }.

Record ResolvedConfig := {
  organization : string;
  cfg_project : string;
  defaults : DefaultsConfig;
  sync : SyncConfig }.

(** ** Diff engine (core/diff-engine.ts) *)

Definition COMPARE_FIELDS : list FieldName :=
  [ title; description; state; priority; assignedTo; areaPath;
    iterationPath; acceptanceCriteria; effort; storyPoints;
    businessValue; valueArea; targetDate; remainingWork;
    originalEstimate; completedWork; activity; tags ].

(** [local[f]] *)
Definition local_field (p : WorkItemProps) (f : FieldName) : Js.value :=
  match f with
  | title => Js.VString (wi_title p)
  | description => Js.of_string (wi_description p)
  | state => Js.of_string (wi_state p)
  | priority => Js.of_number (wi_priority p)
  | assignedTo => Js.of_string (wi_assignedTo p)
  | areaPath => Js.of_string (wi_areaPath p)
  | iterationPath => Js.of_string (wi_iterationPath p)
  | acceptanceCriteria => Js.of_string (wi_acceptanceCriteria p)
  | effort => Js.of_number (wi_effort p)
  | storyPoints => Js.of_number (wi_storyPoints p)
  | businessValue => Js.of_number (wi_businessValue p)
  | valueArea => Js.of_string (wi_valueArea p)
  | targetDate => Js.of_string (wi_targetDate p)
  | remainingWork => Js.of_number (wi_remainingWork p)
  | originalEstimate => Js.of_number (wi_originalEstimate p)
  | completedWork => Js.of_number (wi_completedWork p)
  | activity => Js.of_string (wi_activity p)
  | tags => Js.of_array (wi_tags p)
  end.

Definition getAdoFieldValue (ado : AdoWorkItemResponse) (f : FieldName)
  : Js.value :=
  let fields := r_fields ado in
  match f with
  | title => Js.VString (F_Title fields)
  | description => Js.of_string (F_Description fields)
  | state => Js.of_string (F_State fields)
  | priority => Js.of_number (F_Priority fields)
  | assignedTo => Js.of_string (displayName <$> F_AssignedTo fields)
  | areaPath => Js.of_string (F_AreaPath fields)
  | iterationPath => Js.of_string (F_IterationPath fields)
  | acceptanceCriteria => Js.of_string (F_AcceptanceCriteria fields)
  | effort => Js.of_number (F_Effort fields)
  | storyPoints => Js.of_number (F_StoryPoints fields)
  | businessValue => Js.of_number (F_BusinessValue fields)
  | valueArea => Js.of_string (F_ValueArea fields)
  | targetDate => Js.of_string (F_TargetDate fields)
  | remainingWork => Js.of_number (F_RemainingWork fields)
  | originalEstimate => Js.of_number (F_OriginalEstimate fields)
  | completedWork => Js.of_number (F_CompletedWork fields)
  | activity => Js.of_string (F_Activity fields)
  | tags =>
      match Js.truthy_opt_string (F_Tags fields) with
      | Some tagsString =>
          Js.VArray (Js.filter_Boolean (Js.split "; " tagsString))
      | None => Js.VUndefined
      end
  end.

(** [sortedA.every((val, idx) => val === sortedB[idx])] *)
Fixpoint every_same (xs ys : list string) : bool :=
  match xs, ys with
  | [], _ => true
  | x :: xs', y :: ys' => String.eqb x y && every_same xs' ys'
  | _ :: _, [] => false
  end.

Definition isEqual (a b : Js.value) : bool :=
  if Js.nullish a then Js.nullish b
  else if Js.nullish b then false
  else match a, b with
       | Js.VArray xs, Js.VArray ys =>
           if negb (Nat.eqb (length xs) (length ys)) then false
           else every_same (Js.sort xs) (Js.sort ys)
       | Js.VString s, Js.VString t => String.eqb (Js.trim s) (Js.trim t)
       | Js.VNumber m, Js.VNumber n => Z.eqb m n
       | _, _ => false
       end.

(** The loop of [diffWorkItem] over [COMPARE_FIELDS]. *)
Definition field_changes (local : WorkItem) (ado : AdoWorkItemResponse)
  : list FieldChange :=
  flat_map
    (fun f =>
       let localValue := local_field (wi_props local) f in
       let adoValue := getAdoFieldValue ado f in
       if isEqual localValue adoValue then []
       else [ {| fc_field := f; fc_localValue := localValue;
                 fc_adoValue := adoValue |} ])
    COMPARE_FIELDS.

(** [local._ado?.rev], when truthy. *)
Definition recorded_rev (local : WorkItem) : option Z :=
  Js.truthy_opt_number (wi_ado local ≫= md_rev).

(** [local._ado?.workItemId], when truthy. *)
Definition recorded_id (local : WorkItem) : option Z :=
  Js.truthy_opt_number (wi_ado local ≫= md_workItemId).

(** [local._ado?.rev && ado.rev > local._ado.rev] *)
Definition newer_revision (local : WorkItem) (ado : AdoWorkItemResponse)
  : bool :=
  match recorded_rev local with
  | Some r => (r <? r_rev ado)%Z
  | None => false
  end.

Definition diffWorkItem (local : WorkItem) (ado : option AdoWorkItemResponse)
  : WorkItemDiff :=
  match ado with
  | None =>
      {| wd_localId := wi_id (wi_props local);
         wd_adoId := None;
         wd_status := SNew;
         wd_changes :=
           map (fun f => {| fc_field := f;
                            fc_localValue := local_field (wi_props local) f;
                            fc_adoValue := Js.VUndefined |})
               (List.filter
                  (fun f => match local_field (wi_props local) f with
                            | Js.VUndefined => false
                            | _ => true
                            end)
                  COMPARE_FIELDS) |}
  | Some ado =>
      let changes := field_changes local ado in
      let status :=
        if Nat.ltb 0 (length changes)
        then if newer_revision local ado then SConflict else SModified
        else SUnchanged in
      {| wd_localId := wi_id (wi_props local);
         wd_adoId := Some (r_id ado);
         wd_status := status;
         wd_changes := changes |}
  end.

Definition hasLocalChanges (local : WorkItem) (ado : AdoWorkItemResponse)
  : bool :=
  Nat.ltb 0 (length (wd_changes (diffWorkItem local (Some ado)))).

Definition DiffStatus_eqb (a b : DiffStatus) : bool :=
  match a, b with
  | SNew, SNew | SModified, SModified | SDeleted, SDeleted
  | SUnchanged, SUnchanged | SConflict, SConflict => true
  | _, _ => false
  end.

Record DiffSummary := {
  sum_new : nat;
  sum_modified : nat;
  sum_unchanged : nat;
  sum_conflict : nat;
  sum_deleted : nat }.

Definition count_status (s : DiffStatus) (diffs : list WorkItemDiff) : nat :=
  length (List.filter (fun d => DiffStatus_eqb (wd_status d) s) diffs).

Definition getDiffSummary (diffs : list WorkItemDiff) : DiffSummary :=
  {| sum_new := count_status SNew diffs;
     sum_modified := count_status SModified diffs;
     sum_unchanged := count_status SUnchanged diffs;
     sum_conflict := count_status SConflict diffs;
     sum_deleted := count_status SDeleted diffs |}.

(** ** Hierarchy utilities (core/hierarchy.ts) *)

(** [WorkItemWithParent]: the spread of a work item with the [parent]
    and [depth] properties added.  Here the array is read as a value:
    [parent] is the parent entry itself. *)
#[warnings="-register-all"]
Inductive WorkItemWithParent : Type :=
  mkWithParent (item : WorkItem) (parent : option WorkItemWithParent)
               (depth : nat).

Definition wp_item (e : WorkItemWithParent) : WorkItem :=
  match e with mkWithParent i _ _ => i end.
Definition wp_parent (e : WorkItemWithParent) : option WorkItemWithParent :=
  match e with mkWithParent _ p _ => p end.
Definition wp_depth (e : WorkItemWithParent) : nat :=
  match e with mkWithParent _ _ d => d end.

(** The body of the [for] loop of [traverse] in [flattenHierarchy] for
    one [item]; [result] is the array being filled. *)
Fixpoint visit (item : WorkItem) (parent : option WorkItemWithParent)
  (depth : nat) (result : list WorkItemWithParent) {struct item}
  : list WorkItemWithParent :=
  let itemWithParent := mkWithParent item parent depth in
  let result := result ++ [itemWithParent] in
  match item with
  | mkWorkItem _ _ children =>
      if Nat.ltb 0 (length children) then
        (fix traverse (items : list WorkItem)
             (result : list WorkItemWithParent) :=
           match items with
           | [] => result
           | child :: rest =>
               traverse rest
                 (visit child (Some itemWithParent) (S depth) result)
           end) children result
      else result
  end.

Fixpoint traverse (items : list WorkItem) (parent : option WorkItemWithParent)
  (depth : nat) (result : list WorkItemWithParent)
  : list WorkItemWithParent :=
  match items with
  | [] => result
  | item :: rest => traverse rest parent depth (visit item parent depth result)
  end.

Definition flattenHierarchy (doc : WorkItemsDocument)
  : list WorkItemWithParent :=
  traverse (workItems doc) None 0 [].

(** The same for [flattenHierarchyReverse]: the children are traversed
    before the item is pushed. *)
Fixpoint visitReverse (item : WorkItem) (parent : option WorkItemWithParent)
  (depth : nat) (result : list WorkItemWithParent) {struct item}
  : list WorkItemWithParent :=
  let itemWithParent := mkWithParent item parent depth in
  let result :=
    match item with
    | mkWorkItem _ _ children =>
        if Nat.ltb 0 (length children) then
          (fix traverse (items : list WorkItem)
               (result : list WorkItemWithParent) :=
             match items with
             | [] => result
             | child :: rest =>
                 traverse rest
                   (visitReverse child (Some itemWithParent) (S depth) result)
             end) children result
        else result
    end in
  result ++ [itemWithParent].

Fixpoint traverseReverse (items : list WorkItem)
  (parent : option WorkItemWithParent) (depth : nat)
  (result : list WorkItemWithParent) : list WorkItemWithParent :=
  match items with
  | [] => result
  | item :: rest =>
      traverseReverse rest parent depth
        (visitReverse item parent depth result)
  end.

Definition flattenHierarchyReverse (doc : WorkItemsDocument)
  : list WorkItemWithParent :=
  traverseReverse (workItems doc) None 0 [].

(** *** Positions in a document

    A node of the tree is named by its position: the index of its root
    in [workItems], followed by the indices taken in the successive
    [children] arrays. *)
Definition position := list nat.

Fixpoint node_at (items : list WorkItem) (p : position) : option WorkItem :=
  match p with
  | [] => None
  | i :: q =>
      match items !! i with
      | None => None
      | Some w =>
          match q with
          | [] => Some w
          | _ :: _ => node_at (wi_children w) q
          end
      end
  end.

(** The entry expected for the node at a position: the node, its depth
    and the entry of its parent, found by walking down from the root. *)
Fixpoint entry_from (items : list WorkItem)
  (parent : option WorkItemWithParent) (depth : nat) (p : position)
  : option WorkItemWithParent :=
  match p with
  | [] => None
  | i :: q =>
      match items !! i with
      | None => None
      | Some w =>
          let e := mkWithParent w parent depth in
          match q with
          | [] => Some e
          | _ :: _ => entry_from (wi_children w) (Some e) (S depth) q
          end
      end
  end.

Definition entry_at (doc : WorkItemsDocument) (p : position)
  : option WorkItemWithParent :=
  entry_from (workItems doc) None 0 p.

(** [p] is the position of a proper ancestor of the node at [q]. *)
Definition ancestor (p q : position) : Prop :=
  exists r, r <> [] /\ q = p ++ r.

(** [x] occurs before [y] in [l]. *)
Definition before {A} (l : list A) (x y : A) : Prop :=
  exists i j, l !! i = Some x /\ l !! j = Some y /\ i < j.

(** ** Awaited calls

    An asynchronous call acts on the world [W] (the remote service,
    the clock) and either returns or throws; the world it leaves behind
    is kept in both cases. *)

Inductive Result (A : Type) : Type :=
| Ok (a : A)
| Throw (e : string).
Arguments Ok {A} a.
Arguments Throw {A} e.

Definition Async (W A : Type) : Type := W -> Result A * W.

Definition ret {W A} (a : A) : Async W A := fun w => (Ok a, w).

Definition throw {W A} (e : string) : Async W A := fun w => (Throw e, w).

Definition bind {W A B} (c : Async W A) (k : A -> Async W B) : Async W B :=
  fun w =>
    match c w with
    | (Ok a, w') => k a w'
    | (Throw e, w') => (Throw e, w')
    end.

(** [try { c } catch (err) { h err }] *)
Definition try_catch {W A} (c : Async W A) (h : string -> Async W A)
  : Async W A :=
  fun w =>
    match c w with
    | (Ok a, w') => (Ok a, w')
    | (Throw e, w') => h e w'
    end.

Notation "'let*' x ':=' c 'in' k" := (bind c (fun x => k))
  (at level 10, x name, c at level 100, k at level 200).

(** ** The client as its callers see it (ado/client.ts)

    [client.get], [client.post] and [client.patch] are generic in the
    type of the response body; one field per use in the sources gives
    each its type.  The record also holds the two enrichment calls of
    ado/comments.ts and ado/pull-requests.ts, which the engines only
    await, and the clock read by [new Date().toISOString()]. *)
Record AdoClient (W : Type) : Type := {
  getProject : string;
  getOrganization : string;
  (** [client.get<AdoWorkItemResponse>(path, params)] *)
  get_item : string -> option Expand -> Async W AdoWorkItemResponse;
  (** [client.post<AdoWorkItemResponse>(path, patchDocument)] *)
  post_item : string -> list JsonPatchOperation -> Async W AdoWorkItemResponse;
  (** [client.patch<AdoWorkItemResponse>(path, patchDocument)] *)
  patch_item : string -> list JsonPatchOperation -> Async W AdoWorkItemResponse;
  (** [client.post<BatchWorkItemsResponse>(path, {ids, $expand})], the
      [value] of the response *)
  post_batch : string -> list Z -> Expand -> Async W (list AdoWorkItemResponse);
  getAllComments : Z -> Async W (list AdoComment);
  getLinkedPullRequests : AdoWorkItemResponse -> Async W (list AdoPullRequest);
  toISOString_now : W -> string * W }.
Arguments getProject {W} _.
Arguments getOrganization {W} _.
Arguments get_item {W} _ _ _ _.
Arguments post_item {W} _ _ _ _.
Arguments patch_item {W} _ _ _ _.
Arguments post_batch {W} _ _ _ _ _.
Arguments getAllComments {W} _ _ _.
Arguments getLinkedPullRequests {W} _ _ _.
Arguments toISOString_now {W} _ _.

Definition getBaseUrl {W} (client : AdoClient W) : string :=
  "https://dev.azure.com/" +:+ getOrganization client.

(** ** Work-item API (ado/work-items.ts) *)

Definition FIELD_MAP (f : FieldName) : string :=
  match f with
  | title => "System.Title"
  | description => "System.Description"
  | state => "System.State"
  | assignedTo => "System.AssignedTo"
  | areaPath => "System.AreaPath"
  | iterationPath => "System.IterationPath"
  | priority => "Microsoft.VSTS.Common.Priority"
  | effort => "Microsoft.VSTS.Scheduling.Effort"
  | storyPoints => "Microsoft.VSTS.Scheduling.StoryPoints"
  | businessValue => "Microsoft.VSTS.Common.BusinessValue"
  | acceptanceCriteria => "Microsoft.VSTS.Common.AcceptanceCriteria"
  | valueArea => "Microsoft.VSTS.Common.ValueArea"
  | targetDate => "Microsoft.VSTS.Scheduling.TargetDate"
  | remainingWork => "Microsoft.VSTS.Scheduling.RemainingWork"
  | originalEstimate => "Microsoft.VSTS.Scheduling.OriginalEstimate"
  | completedWork => "Microsoft.VSTS.Scheduling.CompletedWork"
  | activity => "Microsoft.VSTS.Common.Activity"
  | tags => "System.Tags"
  end.

Definition LINK_PARENT : string := "System.LinkTypes.Hierarchy-Reverse".
Definition LINK_CHILD : string := "System.LinkTypes.Hierarchy-Forward".
Definition LINK_RELATED : string := "System.LinkTypes.Related".

(** The [yamlField] column of [fieldMappings], in its order. *)
Definition fieldMappings : list FieldName :=
  [ title; description; state; assignedTo; areaPath; iterationPath;
    priority; effort; storyPoints; businessValue; acceptanceCriteria;
    valueArea; targetDate; remainingWork; originalEstimate;
    completedWork; activity; tags ].

(** The [transform] of the [tags] mapping; the other mappings have
    none. *)
Definition transform (f : FieldName) (v : Js.value) : Js.value :=
  match f, v with
  | tags, Js.VArray xs => Js.VString (Js.join "; " xs)
  | _, _ => v
  end.

Definition buildPatchDocument (fields : WorkItemProps)
  : list JsonPatchOperation :=
  flat_map
    (fun f =>
       let v := local_field fields f in
       if Js.nullish v then []
       else [ {| op := op_add;
                 path := "/fields/" +:+ FIELD_MAP f;
                 value := Some (PField (transform f v)) |} ])
    fieldMappings.

Definition hex_char (n : nat) : ascii :=
  if Nat.ltb n 10 then ascii_of_nat (48 + n) else ascii_of_nat (55 + n).

(** The characters [encodeURIComponent] leaves as they are. *)
Definition uri_unreserved (c : ascii) : bool :=
  let n := nat_of_ascii c in
  (Nat.leb 65 n && Nat.leb n 90) || (Nat.leb 97 n && Nat.leb n 122)
  || (Nat.leb 48 n && Nat.leb n 57)
  || existsb (Ascii.eqb c) ["-"; "_"; "."; "!"; "~"; "*"; "'"; "("; ")"]%char.

Fixpoint encodeURIComponent (s : string) : string :=
  match s with
  | EmptyString => EmptyString
  | String c r =>
      if uri_unreserved c then String c (encodeURIComponent r)
      else
        let n := nat_of_ascii c in
        String "%" (String (hex_char (n / 16)) (String (hex_char (n mod 16))
          (encodeURIComponent r)))
  end.

(** [`${id}`] for an id that may be [null]. *)
Definition render_id (id : option Z) : string :=
  match id with Some n => Js.toString n | None => "null" end.

Definition createWorkItem {W} (client : AdoClient W) (type : string)
  (fields : WorkItemProps) : Async W AdoWorkItemResponse :=
  let patchDocument := buildPatchDocument fields in
  let project := getProject client in
  let encodedType := encodeURIComponent type in
  post_item client
    ("/" +:+ project +:+ "/_apis/wit/workitems/$" +:+ encodedType)
    patchDocument.

(** The patch document [updateWorkItem] sends. *)
Definition updatePatchDocument (fields : WorkItemProps)
  (expectedRev : option Z) : list JsonPatchOperation :=
  let patchDocument := buildPatchDocument fields in
  match expectedRev with
  | Some r =>
      {| op := op_test; path := "/rev";
         value := Some (PField (Js.VNumber r)) |} :: patchDocument
  | None => patchDocument
  end.

Definition updateWorkItem {W} (client : AdoClient W) (id : option Z)
  (fields : WorkItemProps) (expectedRev : option Z)
  : Async W AdoWorkItemResponse :=
  let patchDocument := updatePatchDocument fields expectedRev in
  let project := getProject client in
  patch_item client
    ("/" +:+ project +:+ "/_apis/wit/workitems/" +:+ render_id id)
    patchDocument.

(** [id] is optional because the callers in the sync engine pass
    [result.workItemId!]. *)
Definition getWorkItem {W} (client : AdoClient W) (id : option Z)
  (expand : option Expand) : Async W AdoWorkItemResponse :=
  let project := getProject client in
  get_item client
    ("/" +:+ project +:+ "/_apis/wit/workitems/" +:+ render_id id)
    expand.

(** Modelled from the spec: [chunk] of utils/index.ts, which is not
    among the sources; "chunk the id list" into consecutive runs of at
    most [size] ids. *)
Fixpoint chunk_go {A} (fuel : nat) (xs : list A) (size : nat)
  : list (list A) :=
  match fuel with
  | O => []
  | S k =>
      match xs with
      | [] => []
      | _ :: _ => take size xs :: chunk_go k (drop size xs) size
      end
  end.

Definition chunk {A} (xs : list A) (size : nat) : list (list A) :=
  chunk_go (length xs) xs size.

(** The loop of [getWorkItems] over the batches. *)
Fixpoint getWorkItems_batches {W} (client : AdoClient W)
  (batches : list (list Z)) (expand : option Expand)
  (results : list AdoWorkItemResponse)
  : Async W (list AdoWorkItemResponse) :=
  match batches with
  | [] => ret results
  | batch :: rest =>
      let* response :=
        post_batch client
          ("/" +:+ getProject client +:+ "/_apis/wit/workitemsbatch")
          batch (default ExRelations expand) in
      getWorkItems_batches client rest expand (results ++ response)
  end.

Definition getWorkItems {W} (client : AdoClient W) (ids : list Z)
  (expand : option Expand) : Async W (list AdoWorkItemResponse) :=
  if Nat.eqb (length ids) 0 then ret []
  else getWorkItems_batches client (chunk ids 200) expand [].

Definition addParentLink {W} (client : AdoClient W) (childId parentId : Z)
  : Async W AdoWorkItemResponse :=
  let baseUrl := getBaseUrl client in
  let project := getProject client in
  let patchDocument :=
    [ {| op := op_add; path := "/relations/-";
         value := Some (PRelation LINK_PARENT
           (baseUrl +:+ "/" +:+ project +:+ "/_apis/wit/workItems/"
              +:+ Js.toString parentId)) |} ] in
  patch_item client
    ("/" +:+ project +:+ "/_apis/wit/workitems/" +:+ Js.toString childId)
    patchDocument.

(** [extractAdoMetadata]; the clock is read for [lastSyncedAt]. *)
Definition extractAdoMetadata {W} (client : AdoClient W)
  (response : AdoWorkItemResponse) (project organization : string) (w : W)
  : AdoMetadata * W :=
  let fields := r_fields response in
  let (now, w') := toISOString_now client w in
  ({| md_workItemId := Some (r_id response);
      md_url := Some ("https://dev.azure.com/" +:+ organization +:+ "/"
                        +:+ project +:+ "/_workitems/edit/"
                        +:+ Js.toString (r_id response));
      md_rev := Some (r_rev response);
      md_lastSyncedAt := Some now;
      md_etag := None;
      md_state := F_State fields;
      md_assignedTo := displayName <$> F_AssignedTo fields;
      md_comments := None;
      md_linkedPRs := None;
      md_history := None |}, w').

(** [url.match(/\/workItems\/(\d+)$/)], then [parseInt] of the group:
    the url ends with [/workItems/] and a non-empty run of digits. *)
Fixpoint take_digits (s : string) : string * string :=
  match s with
  | EmptyString => (EmptyString, EmptyString)
  | String c r =>
      if Js.is_digit c
      then let (d, rest) := take_digits r in (String c d, rest)
      else (EmptyString, s)
  end.

Definition workItems_id_of_url (url : string) : option Z :=
  let (rdigits, rrest) := take_digits (String.rev url) in
  match rdigits with
  | EmptyString => None
  | String _ _ =>
      match Js.strip_prefix (String.rev "/workItems/") rrest with
      | Some _ => Js.parseInt (String.rev rdigits)
      | None => None
      end
  end.

Definition getChildIds (workItem : AdoWorkItemResponse) : list Z :=
  match r_relations workItem with
  | None => []
  | Some relations =>
      omap (fun r => workItems_id_of_url (rel_url r))
           (List.filter (fun r => String.eqb (rel r) LINK_CHILD) relations)
  end.

(** ** Objects and references (core/sync-engine.ts)

    [flattenHierarchy] builds new objects, [{...item, parent, depth}]:
    shallow copies of the nodes of the document.  The sync engine
    assigns to the [_ado] property of the objects it holds, so the
    memory has two regions: the document, whose nodes are named by
    their position, and the array returned by [flattenHierarchy], whose
    objects are named by their index.  The [parent] of an object of the
    array is the index of the object built for its parent. *)

Record WorkItemObj := {
  o_item : WorkItem;
  o_parent : option nat;
  o_depth : nat }.

Inductive Ref :=
| InDocument (p : position)
| InArray (a : nat).

Record Memory := {
  m_doc : WorkItemsDocument;
  m_items : list WorkItemObj }.

(** [flattenHierarchy] on references: the new object is at index
    [result.length]. *)
Fixpoint visit_obj (item : WorkItem) (parent : option nat) (depth : nat)
  (result : list WorkItemObj) {struct item} : list WorkItemObj :=
  let itemWithParent := length result in
  let result :=
    result ++ [ {| o_item := item; o_parent := parent; o_depth := depth |} ] in
  match item with
  | mkWorkItem _ _ children =>
      if Nat.ltb 0 (length children) then
        (fix traverse (items : list WorkItem) (result : list WorkItemObj) :=
           match items with
           | [] => result
           | child :: rest =>
               traverse rest
                 (visit_obj child (Some itemWithParent) (S depth) result)
           end) children result
      else result
  end.

Fixpoint traverse_obj (items : list WorkItem) (parent : option nat)
  (depth : nat) (result : list WorkItemObj) : list WorkItemObj :=
  match items with
  | [] => result
  | item :: rest =>
      traverse_obj rest parent depth (visit_obj item parent depth result)
  end.

Definition flattenHierarchy_objects (doc : WorkItemsDocument)
  : list WorkItemObj :=
  traverse_obj (workItems doc) None 0 [].

(** Replace the [_ado] property of the node at a position. *)
Fixpoint set_ado_at (items : list WorkItem) (p : position)
  (v : AdoMetadata) : list WorkItem :=
  match p with
  | [] => items
  | i :: q =>
      match items !! i with
      | None => items
      | Some w =>
          match q with
          | [] => <[ i := mkWorkItem (wi_props w) (Some v) (wi_children w) ]> items
          | _ :: _ =>
              <[ i := mkWorkItem (wi_props w) (wi_ado w)
                        (set_ado_at (wi_children w) q v) ]> items
          end
      end
  end.

(** Reading and writing [item._ado] through a reference. *)
Definition deref (m : Memory) (item : Ref) : option WorkItem :=
  match item with
  | InDocument p => node_at (workItems (m_doc m)) p
  | InArray a => o_item <$> m_items m !! a
  end.

Definition assign_ado (item : Ref) (v : AdoMetadata) (m : Memory) : Memory :=
  match item with
  | InDocument p =>
      {| m_doc :=
           {| schemaVersion := schemaVersion (m_doc m);
              hierarchyType := hierarchyType (m_doc m);
              project := project (m_doc m);
              workItems := set_ado_at (workItems (m_doc m)) p v |};
         m_items := m_items m |}
  | InArray a =>
      {| m_doc := m_doc m;
         m_items :=
           match m_items m !! a with
           | Some o =>
               <[ a := {| o_item := mkWorkItem (wi_props (o_item o)) (Some v)
                                      (wi_children (o_item o));
                          o_parent := o_parent o;
                          o_depth := o_depth o |} ]> (m_items m)
           | None => m_items m
           end |}
  end.

(** [{...item._ado, ...metadata}].  [metadata] is an object built by
    [extractAdoMetadata], to which [comments] and [linkedPRs] may have
    been added: its six own properties overwrite the old ones (also
    when their value is [undefined]), the others are kept from the old
    block unless [metadata] has them. *)
Definition spread_metadata (old : option AdoMetadata) (metadata : AdoMetadata)
  : AdoMetadata :=
  let keep {A} (f : AdoMetadata -> option A) : option A :=
    match f metadata with
    | Some x => Some x
    | None => old ≫= f
    end in
  {| md_workItemId := md_workItemId metadata;
     md_url := md_url metadata;
     md_rev := md_rev metadata;
     md_lastSyncedAt := md_lastSyncedAt metadata;
     md_etag := keep md_etag;
     md_state := md_state metadata;
     md_assignedTo := md_assignedTo metadata;
     md_comments := keep md_comments;
     md_linkedPRs := keep md_linkedPRs;
     md_history := keep md_history |}.

Definition updateItemMetadata (item : Ref) (metadata : AdoMetadata)
  (m : Memory) : Memory :=
  match deref m item with
  | Some w => assign_ado item (spread_metadata (wi_ado w) metadata) m
  | None => m
  end.

Record PushOptions := {
  dryRun : bool;
  force : bool;
  createOnly : bool;
  updateOnly : bool;
  filter : option string }.

Record PullOptions := {
  pull_includeComments : bool;
  pull_includePRs : bool;
  pull_includeHistory : bool;
  pull_overwriteLocal : bool }.

Record SyncDecision := {
  action : SyncAction;
  reason : string;
  conflict : option Conflict }.

Definition determineSyncAction {W} (client : AdoClient W) (item : WorkItem)
  (options : PushOptions) (w : W) : SyncDecision * W :=
  match recorded_id item with
  | None =>
      if updateOnly options
      then ({| action := ASkip;
               reason := "Update-only mode, skipping new item";
               conflict := None |}, w)
      else ({| action := ACreate; reason := "No ADO ID - new item";
               conflict := None |}, w)
  | Some adoId =>
      if createOnly options
      then ({| action := ASkip;
               reason := "Create-only mode, skipping existing item";
               conflict := None |}, w)
      else
        match getWorkItem client (Some adoId) (Some ExRelations) w with
        | (Throw _, w') =>
            if updateOnly options
            then ({| action := ASkip;
                     reason := "ADO item not found, skipping in update-only mode";
                     conflict := None |}, w')
            else ({| action := ACreate;
                     reason := "ADO item deleted - recreating";
                     conflict := None |}, w')
        | (Ok adoItem, w') =>
            if negb (force options) && newer_revision item adoItem
            then
              ({| action := AConflict;
                  reason := "ADO modified since last sync";
                  conflict :=
                    Some {| cf_localId := wi_id (wi_props item);
                            cf_adoId := adoId;
                            cf_field := "revision";
                            cf_localValue := wi_ado item ≫= md_rev;
                            cf_adoValue := r_rev adoItem;
                            cf_adoModifiedAt :=
                              F_ChangedDate (r_fields adoItem);
                            cf_localSyncedAt :=
                              default "unknown"
                                (wi_ado item ≫= md_lastSyncedAt) |} |},
               w')
            else if hasLocalChanges item adoItem
            then ({| action := AUpdate; reason := "Local changes detected";
                     conflict := None |}, w')
            else ({| action := ASkip; reason := "No changes";
                     conflict := None |}, w')
        end
  end.

Definition applyDefaults (item : WorkItemProps) (config : ResolvedConfig)
  : WorkItemProps :=
  let or_default {A} (x d : option A) : option A :=
    match x with Some _ => x | None => d end in
  {| wi_type := wi_type item;
     wi_id := wi_id item;
     wi_title := wi_title item;
     wi_description := wi_description item;
     wi_state := or_default (wi_state item) (d_state (defaults config));
     wi_priority := or_default (wi_priority item) (d_priority (defaults config));
     wi_tags := wi_tags item;
     wi_assignedTo := wi_assignedTo item;
     wi_areaPath := or_default (wi_areaPath item) (d_areaPath (defaults config));
     wi_iterationPath :=
       or_default (wi_iterationPath item) (d_iterationPath (defaults config));
     wi_valueArea := wi_valueArea item;
     wi_businessValue := wi_businessValue item;
     wi_targetDate := wi_targetDate item;
     wi_acceptanceCriteria := wi_acceptanceCriteria item;
     wi_effort := wi_effort item;
     wi_storyPoints := wi_storyPoints item;
     wi_activity := wi_activity item;
     wi_remainingWork := wi_remainingWork item;
     wi_originalEstimate := wi_originalEstimate item;
     wi_completedWork := wi_completedWork item |}.

Definition edit_url (config : ResolvedConfig) (id : option Z) : string :=
  "https://dev.azure.com/" +:+ organization config +:+ "/"
    +:+ cfg_project config +:+ "/_workitems/edit/" +:+ render_id id.

(** [executeAction]; [m] is the memory in which [item.parent] is
    followed, [item] the object the loop holds. *)
Definition executeAction {W} (client : AdoClient W) (m : Memory)
  (item : WorkItemObj) (decision : SyncDecision) (config : ResolvedConfig)
  : Async W SyncResult :=
  let localId := wi_id (wi_props (o_item item)) in
  match action decision with
  | ACreate =>
      let fields := applyDefaults (wi_props (o_item item)) config in
      let* response :=
        createWorkItem client (wi_type (wi_props (o_item item))) fields in
      let parent : option WorkItemObj :=
        match o_parent item with
        | Some a => m_items m !! a
        | None => None
        end in
      let parentId :=
        Js.truthy_opt_number
          (match parent with
           | Some parent => wi_ado (o_item parent) ≫= md_workItemId
           | None => None
           end) in
      let* _ :=
        match parentId with
        | Some parentId =>
            let* _ := addParentLink client (r_id response) parentId in ret tt
        | None => ret tt
        end in
      ret {| sr_localId := localId;
             sr_action := ACreate;
             sr_success := true;
             sr_workItemId := Some (r_id response);
             sr_url := Some (edit_url config (Some (r_id response)));
             sr_error := None;
             sr_message :=
               Some ("Created work item #" +:+ Js.toString (r_id response)) |}
  | AUpdate =>
      match wi_ado (o_item item) with
      | None =>
          (* [item._ado!.workItemId] on an item without [_ado] *)
          throw "Cannot read properties of undefined (reading 'workItemId')"
      | Some ado =>
          let adoId := md_workItemId ado in
          let expectedRev := md_rev ado in
          let* _ :=
            updateWorkItem client adoId (wi_props (o_item item)) expectedRev in
          ret {| sr_localId := localId;
                 sr_action := AUpdate;
                 sr_success := true;
                 sr_workItemId := adoId;
                 sr_url := Some (edit_url config adoId);
                 sr_error := None;
                 sr_message :=
                   Some ("Updated work item #" +:+ render_id adoId) |}
      end
  | ASkip =>
      ret {| sr_localId := localId;
             sr_action := ASkip;
             sr_success := true;
             sr_workItemId := wi_ado (o_item item) ≫= md_workItemId;
             sr_url := None;
             sr_error := None;
             sr_message := Some (reason decision) |}
  | AConflict =>
      ret {| sr_localId := localId;
             sr_action := AConflict;
             sr_success := false;
             sr_workItemId := wi_ado (o_item item) ≫= md_workItemId;
             sr_url := None;
             sr_error := Some (reason decision);
             sr_message := None |}
  | ADelete =>
      ret {| sr_localId := localId;
             sr_action := ASkip;
             sr_success := true;
             sr_workItemId := None;
             sr_url := None;
             sr_error := None;
             sr_message := Some "Unknown action" |}
  end.

(** Modelled from the spec: [matchesFilter] of utils/index.ts, which is
    not among the sources; a glob-style pattern in which [*] stands for
    any run of characters, [?] for exactly one character and every
    other character for itself. *)
Fixpoint matchesFilter_from (pattern : string) (id : string) : bool :=
  match pattern with
  | EmptyString => String.eqb id ""
  | String "*" pattern' =>
      (fix star (id : string) : bool :=
         matchesFilter_from pattern' id
         || match id with
            | EmptyString => false
            | String _ id' => star id'
            end) id
  | String "?" pattern' =>
      match id with
      | EmptyString => false
      | String _ id' => matchesFilter_from pattern' id'
      end
  | String c pattern' =>
      match id with
      | EmptyString => false
      | String d id' => Ascii.eqb c d && matchesFilter_from pattern' id'
      end
  end.

Definition matchesFilter (id pattern : string) : bool :=
  matchesFilter_from pattern id.

Definition SyncAction_verb (a : SyncAction) : string :=
  match a with
  | ACreate => "create" | AUpdate => "update" | ASkip => "skip"
  | AConflict => "conflict" | ADelete => "delete"
  end.

Definition is_create_or_update (a : SyncAction) : bool :=
  match a with ACreate | AUpdate => true | _ => false end.

(** The state of the loops of [pushWorkItems] and [pullWorkItems]: the
    memory and the [results] array. *)
Record Run := {
  run_mem : Memory;
  run_results : list SyncResult }.

Definition push_result (r : SyncResult) (s : Run) : Run :=
  {| run_mem := run_mem s; run_results := run_results s ++ [r] |}.

(** The body of the [for] loop of [pushWorkItems] for the object at
    index [a] of the array. *)
Definition push_step {W} (client : AdoClient W) (config : ResolvedConfig)
  (options : PushOptions) (a : nat) (s : Run) (w : W) : Run * W :=
  match m_items (run_mem s) !! a with
  | None => (s, w)
  | Some item =>
      let localId := wi_id (wi_props (o_item item)) in
      let (decision, w) := determineSyncAction client (o_item item) options w in
      if dryRun options then
        (push_result
           {| sr_localId := localId;
              sr_action := action decision;
              sr_success := true;
              sr_workItemId := None;
              sr_url := None;
              sr_error := None;
              sr_message :=
                Some ("[DRY RUN] Would " +:+ SyncAction_verb (action decision)
                        +:+ ": " +:+ reason decision) |} s, w)
      else
        let failed (errorMessage : string) (s : Run) : Run :=
          push_result
            {| sr_localId := localId;
               sr_action := action decision;
               sr_success := false;
               sr_workItemId := None;
               sr_url := None;
               sr_error := Some errorMessage;
               sr_message := None |} s in
        match executeAction client (run_mem s) item decision config w with
        | (Throw errorMessage, w) => (failed errorMessage s, w)
        | (Ok result, w) =>
            let s := push_result result s in
            if sr_success result && is_create_or_update (sr_action result)
            then
              match getWorkItem client (sr_workItemId result)
                      (Some ExRelations) w with
              | (Throw errorMessage, w) => (failed errorMessage s, w)
              | (Ok adoItem, w) =>
                  let (metadata, w) :=
                    extractAdoMetadata client adoItem (cfg_project config)
                      (organization config) w in
                  ({| run_mem :=
                        updateItemMetadata (InArray a) metadata (run_mem s);
                      run_results := run_results s |}, w)
              end
            else (s, w)
        end
  end.

Fixpoint for_each {W S} (body : nat -> S -> W -> S * W) (items : list nat)
  (s : S) (w : W) : S * W :=
  match items with
  | [] => (s, w)
  | a :: rest => let (s', w') := body a s w in for_each body rest s' w'
  end.

(** The indices of the objects of [items] that satisfy [keep]:
    [items.filter(keep)], as references. *)
Definition filter_refs (keep : WorkItem -> bool) (items : list WorkItemObj)
  : list nat :=
  List.filter
    (fun a => match items !! a with
              | Some o => keep (o_item o)
              | None => false
              end)
    (seq 0 (length items)).

(** [pushWorkItems]: the results, and the memory when it returns. *)
Definition pushWorkItems {W} (client : AdoClient W) (doc : WorkItemsDocument)
  (config : ResolvedConfig) (options : PushOptions) (w : W)
  : (list SyncResult * Memory) * W :=
  let filter := default "*" (filter options) in
  let items := flattenHierarchy_objects doc in
  let filteredItems :=
    filter_refs (fun item => matchesFilter (wi_id (wi_props item)) filter)
      items in
  let (s, w) :=
    for_each (push_step client config options) filteredItems
      {| run_mem := {| m_doc := doc; m_items := items |};
         run_results := [] |} w in
  ((run_results s, run_mem s), w).

(** [new Map(adoItems.map(item => [item.id, item]))]: a later entry
    replaces an earlier one with the same id. *)
Definition adoMap_of (adoItems : list AdoWorkItemResponse)
  : gmap Z AdoWorkItemResponse :=
  fold_left (fun m item => <[ r_id item := item ]> m) adoItems ∅.

Definition with_comments (c : list AdoComment) (md : AdoMetadata)
  : AdoMetadata :=
  {| md_workItemId := md_workItemId md; md_url := md_url md;
     md_rev := md_rev md; md_lastSyncedAt := md_lastSyncedAt md;
     md_etag := md_etag md; md_state := md_state md;
     md_assignedTo := md_assignedTo md; md_comments := Some c;
     md_linkedPRs := md_linkedPRs md; md_history := md_history md |}.

Definition with_linkedPRs (prs : list AdoPullRequest) (md : AdoMetadata)
  : AdoMetadata :=
  {| md_workItemId := md_workItemId md; md_url := md_url md;
     md_rev := md_rev md; md_lastSyncedAt := md_lastSyncedAt md;
     md_etag := md_etag md; md_state := md_state md;
     md_assignedTo := md_assignedTo md; md_comments := md_comments md;
     md_linkedPRs := Some prs; md_history := md_history md |}.

Definition not_found_result (localId : string) (adoId : option Z)
  : SyncResult :=
  {| sr_localId := localId;
     sr_action := ASkip;
     sr_success := false;
     sr_workItemId := adoId;
     sr_url := None;
     sr_error := Some "Work item not found in ADO";
     sr_message := None |}.

(** The [try] block of the loop of [pullWorkItems]: the metadata to
    store. *)
Definition pull_metadata {W} (client : AdoClient W) (config : ResolvedConfig)
  (options : PullOptions) (adoId : Z) (adoItem : AdoWorkItemResponse)
  : Async W AdoMetadata :=
  fun w =>
    let (metadata, w) :=
      extractAdoMetadata client adoItem (cfg_project config)
        (organization config) w in
    (let* metadata :=
       (if pull_includeComments options
        then let* comments := getAllComments client adoId in
             ret (with_comments comments metadata)
        else ret metadata) in
     if pull_includePRs options
     then let* prs := getLinkedPullRequests client adoItem in
          ret (with_linkedPRs prs metadata)
     else ret metadata) w.

(** The body of the [for] loop of [pullWorkItems]. *)
Definition pull_step {W} (client : AdoClient W) (config : ResolvedConfig)
  (options : PullOptions) (adoMap : gmap Z AdoWorkItemResponse)
  (a : nat) (s : Run) (w : W) : Run * W :=
  match m_items (run_mem s) !! a with
  | None => (s, w)
  | Some item =>
      let localId := wi_id (wi_props (o_item item)) in
      let adoId := wi_ado (o_item item) ≫= md_workItemId in
      match adoId, match adoId with
                   | Some id => adoMap !! id
                   | None => None
                   end with
      | Some id, Some adoItem =>
          match pull_metadata client config options id adoItem w with
          | (Ok metadata, w) =>
              (push_result
                 {| sr_localId := localId;
                    sr_action := AUpdate;
                    sr_success := true;
                    sr_workItemId := adoId;
                    sr_url := None;
                    sr_error := None;
                    sr_message :=
                      Some ("Pulled updates for #" +:+ Js.toString id) |}
                 {| run_mem :=
                      updateItemMetadata (InArray a) metadata (run_mem s);
                    run_results := run_results s |}, w)
          | (Throw errorMessage, w) =>
              (push_result
                 {| sr_localId := localId;
                    sr_action := ASkip;
                    sr_success := false;
                    sr_workItemId := adoId;
                    sr_url := None;
                    sr_error := Some errorMessage;
                    sr_message := None |} s, w)
          end
      | _, _ => (push_result (not_found_result localId adoId) s, w)
      end
  end.

Definition has_ado_id (item : WorkItem) : bool :=
  match recorded_id item with Some _ => true | None => false end.

(** [pullWorkItems]: what it returns or throws, and the memory then. *)
Definition pullWorkItems {W} (client : AdoClient W) (doc : WorkItemsDocument)
  (config : ResolvedConfig) (options : PullOptions) (w : W)
  : (Result (list SyncResult) * Memory) * W :=
  let items := flattenHierarchy_objects doc in
  let m := {| m_doc := doc; m_items := items |} in
  let itemsWithAdoId := filter_refs has_ado_id items in
  if Nat.eqb (length itemsWithAdoId) 0 then ((Ok [], m), w)
  else
    let adoIds :=
      omap (fun a : nat =>
              match items !! a with
              | Some o => wi_ado (o_item o) ≫= md_workItemId
              | None => None
              end) itemsWithAdoId in
    match getWorkItems client adoIds (Some ExRelations) w with
    | (Throw e, w) => ((Throw e, m), w)
    | (Ok adoItems, w) =>
        let adoMap := adoMap_of adoItems in
        let (s, w) :=
          for_each (pull_step client config options adoMap) itemsWithAdoId
            {| run_mem := m; run_results := [] |} w in
        ((Ok (run_results s), run_mem s), w)
    end.

Definition ConflictStrategy_eqb (a b : ConflictStrategy) : bool :=
  match a, b with
  | ado_wins, ado_wins | yaml_wins, yaml_wins | manual, manual => true
  | _, _ => false
  end.

(** [syncWorkItems]: pull, then push on the same document. *)
Definition syncWorkItems {W} (client : AdoClient W) (doc : WorkItemsDocument)
  (config : ResolvedConfig) (strategy : ConflictStrategy)
  (sync_dryRun : bool) (w : W)
  : (Result (list SyncResult * list SyncResult) * WorkItemsDocument) * W :=
  match pullWorkItems client doc config
          {| pull_includeComments := includeComments (sync config);
             pull_includePRs := includePRs (sync config);
             pull_includeHistory := includeHistory (sync config);
             pull_overwriteLocal := false |} w with
  | ((Throw e, m), w) => ((Throw e, m_doc m), w)
  | ((Ok pullResults, m), w) =>
      let '((pushResults, m'), w) :=
        pushWorkItems client (m_doc m) config
          {| dryRun := sync_dryRun;
             force := ConflictStrategy_eqb strategy yaml_wins;
             createOnly := false;
             updateOnly := false;
             filter := None |} w in
      ((Ok (pullResults, pushResults), m_doc m'), w)
  end.

(** ** Rate limiter (ado/rate-limiter.ts) *)

(** The clock read by [Date.now()], in milliseconds, and the delays
    passed to [sleep] so far. *)
Record Clock := {
  now : Z;
  slept : list Z }.

(** Modelled from the spec: [sleep] of utils/index.ts, which is not
    among the sources; the caller is suspended for the delay, so the
    clock has advanced by it when the call returns (a delay that is not
    positive does not move the clock). *)
Definition sleep (ms : Z) (c : Clock) : Clock :=
  {| now := now c + Z.max 0 ms; slept := slept c ++ [ms] |}.

Record RateLimiterOptions := {
  opt_maxRequestsPerMinute : option Z;
  opt_windowMs : option Z }.

Record RateLimiter := {
  requestCount : Z;
  windowStart : Z;
  maxRequestsPerMinute : Z;
  windowMs : Z }.

(** [new RateLimiter(options)] *)
Definition RateLimiter_new (options : RateLimiterOptions) (c : Clock)
  : RateLimiter :=
  {| requestCount := 0;
     windowStart := now c;
     maxRequestsPerMinute := default 100%Z (opt_maxRequestsPerMinute options);
     windowMs := default 60000%Z (opt_windowMs options) |}.

Definition restart (rl : RateLimiter) (start : Z) : RateLimiter :=
  {| requestCount := 0;
     windowStart := start;
     maxRequestsPerMinute := maxRequestsPerMinute rl;
     windowMs := windowMs rl |}.

(** [this.requestCount >= this.maxRequestsPerMinute * 0.8].  Both
    numbers are integers; the comparison is made on [5 * requestCount]
    and [4 * maxRequestsPerMinute], which decides the same as the
    floating-point product for the integers a limiter is built with. *)
Definition at_threshold (rl : RateLimiter) : bool :=
  (4 * maxRequestsPerMinute rl <=? 5 * requestCount rl)%Z.

Definition throttle (rl : RateLimiter) (c : Clock) : RateLimiter * Clock :=
  let now_ := now c in
  let rl :=
    if (windowMs rl <=? now_ - windowStart rl)%Z then restart rl now_ else rl in
  let (rl, c) :=
    if at_threshold rl then
      let waitTime := (windowMs rl - (now_ - windowStart rl))%Z in
      let c := sleep waitTime c in
      (restart rl (now c), c)
    else (rl, c) in
  ({| requestCount := requestCount rl + 1;
      windowStart := windowStart rl;
      maxRequestsPerMinute := maxRequestsPerMinute rl;
      windowMs := windowMs rl |}, c).

Definition handleRetryAfter (retryAfterSeconds : Z) (rl : RateLimiter)
  (c : Clock) : RateLimiter * Clock :=
  let c := sleep (retryAfterSeconds * 1000) c in
  (restart rl (now c), c).

Definition getRequestCount (rl : RateLimiter) : Z := requestCount rl.

Definition reset (rl : RateLimiter) (c : Clock) : RateLimiter :=
  restart rl (now c).

(** [n] calls of [throttle] in a row. *)
Fixpoint throttle_times (n : nat) (rl : RateLimiter) (c : Clock)
  : RateLimiter * Clock :=
  match n with
  | O => (rl, c)
  | S k => let (rl', c') := throttle rl c in throttle_times k rl' c'
  end.

(** ** The HTTP client (ado/client.ts)

    The axios instance with its two interceptors.  [Req] is the
    request configuration, [Body] the response body.  The remote
    service is the list of the outcomes of the requests still to be put
    on the wire, one for each. *)

Record HttpResponse (Body : Type) := {
  status : Z;
  retry_after : option string;
  data : Body }.
Arguments status {Body} _.
Arguments retry_after {Body} _.
Arguments data {Body} _.

Inductive Outcome (Body : Type) :=
| Responded (r : HttpResponse Body)
| NoResponse (message : string).
Arguments Responded {Body} r.
Arguments NoResponse {Body} message.

(** What a rejected request carries: an [AxiosError], or the [Error]
    thrown by the request interceptor (no [response], no [config]). *)
Record AxiosError (Req Body : Type) := {
  err_message : string;
  err_response : option (HttpResponse Body);
  err_config : option Req }.
Arguments err_message {Req Body} _.
Arguments err_response {Req Body} _.
Arguments err_config {Req Body} _.

Record ClientState (Req : Type) := {
  rateLimiter : RateLimiter;
  clock : Clock;
  sent : list Req }.
Arguments rateLimiter {Req} _.
Arguments clock {Req} _.
Arguments sent {Req} _.

(** [parseInt(headers['retry-after'], 10) || 60] *)
Definition retryAfter_of (header : option string) : Z :=
  match header ≫= Js.parseInt with
  | Some n => if Js.truthy_number n then n else 60%Z
  | None => 60%Z
  end.

(** [handleError]; [replay] is [this.client.request]. *)
Definition handleError {Req Body R} (error : AxiosError Req Body)
  (replay : Req -> ClientState Req -> R)
  (rethrow : AxiosError Req Body -> ClientState Req -> R)
  (st : ClientState Req) : R :=
  match err_response error with
  | Some response =>
      if (status response =? 429)%Z then
        let retryAfter := retryAfter_of (retry_after response) in
        let (rl, c) := handleRetryAfter retryAfter (rateLimiter st) (clock st) in
        let st := {| rateLimiter := rl; clock := c; sent := sent st |} in
        match err_config error with
        | Some config => replay config st
        | None => rethrow error st
        end
      else rethrow error st
  | None => rethrow error st
  end.

(** [this.client.request(reqConfig)]: the request interceptor
    (throttle, then the token), the request itself, the response
    interceptor.  A status from 200 to 299 resolves, any other
    rejects.  [pat] is [config.pat ?? (await getPat(organization))]
    when that is truthy, [None] otherwise.  When the list of outcomes
    is exhausted the request gets no response. *)
Fixpoint request {Req Body} (pat : option string) (reqConfig : Req)
  (wire : list (Outcome Body)) (st : ClientState Req) {struct wire}
  : (AxiosError Req Body + HttpResponse Body)
    * ClientState Req * list (Outcome Body) :=
  let (rl, c) := throttle (rateLimiter st) (clock st) in
  let st := {| rateLimiter := rl; clock := c; sent := sent st |} in
  let rethrow rest := fun error st => (inl error, st, rest) in
  match pat with
  | None =>
      handleError
        {| err_message := "No PAT found for organization";
           err_response := None; err_config := None |}
        (fun _ st => (inl {| err_message := "No PAT found for organization";
                             err_response := None; err_config := None |},
                      st, wire))
        (rethrow wire) st
  | Some _ =>
      let st := {| rateLimiter := rateLimiter st; clock := clock st;
                   sent := sent st ++ [reqConfig] |} in
      match wire with
      | [] =>
          handleError
            {| err_message := "Network Error"; err_response := None;
               err_config := Some reqConfig |}
            (fun _ st => (inl {| err_message := "Network Error";
                                 err_response := None;
                                 err_config := Some reqConfig |}, st, []))
            (rethrow []) st
      | NoResponse message :: rest =>
          handleError
            {| err_message := message; err_response := None;
               err_config := Some reqConfig |}
            (fun config st => request pat config rest st)
            (rethrow rest) st
      | Responded response :: rest =>
          if (200 <=? status response)%Z && (status response <? 300)%Z
          then (inr response, st, rest)
          else
            handleError
              {| err_message := "Request failed with status code "
                                  +:+ Js.toString (status response);
                 err_response := Some response;
                 err_config := Some reqConfig |}
              (fun config st => request pat config rest st)
              (rethrow rest) st
      end
  end.

(** ** Import engine (core/import-engine.ts) *)

Definition LF : string := String (ascii_of_nat 10) "".
Definition QUOTE : string := String (ascii_of_nat 34) "".

(** [s] starts with [p], letters compared without case (the [i] flag). *)
Fixpoint strip_prefix_ci (p s : string) : option string :=
  match p with
  | EmptyString => Some s
  | String a p' =>
      match s with
      | EmptyString => None
      | String b s' =>
          if Ascii.eqb (Js.lower_ascii a) (Js.lower_ascii b)
          then strip_prefix_ci p' s' else None
      end
  end.

(** [s.replace(/pat/gi, rep)] for a literal, non-empty [pat]. *)
Fixpoint replace_ci_go (pat rep : string) (skip : nat) (s : string) : string :=
  match s with
  | EmptyString => EmptyString
  | String c r =>
      match skip with
      | S k => replace_ci_go pat rep k r
      | O =>
          match strip_prefix_ci pat s with
          | Some _ => rep +:+ replace_ci_go pat rep (String.length pat - 1) r
          | None => String c (replace_ci_go pat rep O r)
          end
      end
  end.

Definition replace_ci (pat rep s : string) : string :=
  replace_ci_go pat rep O s.

(** The length of a match of [/<br\s*\/?>/i] at the start of [s]. *)
Fixpoint skip_spaces (n : nat) (s : string) : nat * string :=
  match s with
  | String c r => if Js.is_space c then skip_spaces (S n) r else (n, s)
  | EmptyString => (n, s)
  end.

Definition match_br (s : string) : option nat :=
  match strip_prefix_ci "<br" s with
  | None => None
  | Some r =>
      let (n, r) := skip_spaces 3 r in
      match r with
      | String "/" (String ">" _) => Some (n + 2)
      | String ">" _ => Some (n + 1)
      | _ => None
      end
  end.

(** The length of a match of [/<[^>]+>/] at the start of [s]. *)
Fixpoint until_gt (n : nat) (s : string) : option nat :=
  match s with
  | EmptyString => None
  | String ">" _ => Some (S n)
  | String _ r => until_gt (S n) r
  end.

Definition match_tag (s : string) : option nat :=
  match s with
  | String "<" (String ">" _) => None
  | String "<" r => until_gt 1 r
  | _ => None
  end.

(** The length of a match of [/\n{3,}/] at the start of [s]. *)
Fixpoint count_lf (s : string) : nat :=
  match s with
  | String c r => if Ascii.eqb c (ascii_of_nat 10) then S (count_lf r) else O
  | EmptyString => O
  end.

Definition match_blank_lines (s : string) : option nat :=
  let n := count_lf s in if Nat.leb 3 n then Some n else None.

(** [s.replace(re, rep)] with the [g] flag, for a pattern given by the
    length of its match at a position. *)
Fixpoint replace_matches (m : string -> option nat) (rep : string)
  (skip : nat) (s : string) : string :=
  match s with
  | EmptyString => EmptyString
  | String c r =>
      match skip with
      | S k => replace_matches m rep k r
      | O =>
          match m s with
          | Some (S k) => rep +:+ replace_matches m rep k r
          | _ => String c (replace_matches m rep O r)
          end
      end
  end.

Definition stripHtml (html : string) : string :=
  if negb (Js.truthy_string html) then ""
  else
    let text := replace_matches match_br LF O html in
    let text := replace_ci "</p>" (LF +:+ LF) text in
    let text := replace_ci "</div>" LF text in
    let text := replace_ci "</li>" LF text in
    let text := replace_ci "<li>" "- " text in
    let text := replace_ci "&nbsp;" " " text in
    let text := replace_ci "&amp;" "&" text in
    let text := replace_ci "&lt;" "<" text in
    let text := replace_ci "&gt;" ">" text in
    let text := replace_ci "&quot;" QUOTE text in
    let text := replace_matches match_tag "" O text in
    Js.trim (replace_matches match_blank_lines (LF +:+ LF) O text).

(** [type.toLowerCase().replace(/\s+/g, '-')] *)
Fixpoint dash_spaces (in_run : bool) (s : string) : string :=
  match s with
  | EmptyString => EmptyString
  | String c r =>
      if Js.is_space c
      then if in_run then dash_spaces true r
           else String "-" (dash_spaces true r)
      else String c (dash_spaces false r)
  end.

Definition getTypePrefix (type : string) : string :=
  if String.eqb type "Epic" then "epic"
  else if String.eqb type "Feature" then "feat"
  else if String.eqb type "Product Backlog Item" then "pbi"
  else if String.eqb type "User Story" then "story"
  else if String.eqb type "Task" then "task"
  else if String.eqb type "Bug" then "bug"
  else if String.eqb type "Issue" then "issue"
  else dash_spaces false (Js.toLowerCase type).

Definition generateLocalId (type : string) (adoId : Z) : string :=
  getTypePrefix type +:+ "-" +:+ Js.toString adoId.

Definition transformAdoToYaml {W} (client : AdoClient W)
  (adoItem : AdoWorkItemResponse) (config : ResolvedConfig) (w : W)
  : WorkItem * W :=
  let fields := r_fields adoItem in
  let type := F_WorkItemType fields in
  let localId := generateLocalId type (r_id adoItem) in
  let (ado, w) :=
    extractAdoMetadata client adoItem (cfg_project config)
      (organization config) w in
  (mkWorkItem
     {| wi_type := type;
        wi_id := localId;
        wi_title := F_Title fields;
        wi_description := stripHtml <$> Js.truthy_opt_string (F_Description fields);
        wi_state := Js.truthy_opt_string (F_State fields);
        wi_priority := Js.truthy_opt_number (F_Priority fields);
        wi_tags :=
          (fun t => Js.filter_Boolean (map Js.trim (Js.split ";" t)))
            <$> Js.truthy_opt_string (F_Tags fields);
        wi_assignedTo :=
          (fun who => if Js.truthy_string (displayName who)
                      then displayName who else uniqueName who)
            <$> F_AssignedTo fields;
        wi_areaPath := Js.truthy_opt_string (F_AreaPath fields);
        wi_iterationPath := Js.truthy_opt_string (F_IterationPath fields);
        wi_valueArea := Js.truthy_opt_string (F_ValueArea fields);
        wi_businessValue := Js.truthy_opt_number (F_BusinessValue fields);
        wi_targetDate := Js.truthy_opt_string (F_TargetDate fields);
        wi_acceptanceCriteria :=
          stripHtml <$> Js.truthy_opt_string (F_AcceptanceCriteria fields);
        wi_effort := Js.truthy_opt_number (F_Effort fields);
        wi_storyPoints := Js.truthy_opt_number (F_StoryPoints fields);
        wi_activity := Js.truthy_opt_string (F_Activity fields);
        wi_remainingWork := Js.truthy_opt_number (F_RemainingWork fields);
        wi_originalEstimate := Js.truthy_opt_number (F_OriginalEstimate fields);
        wi_completedWork := Js.truthy_opt_number (F_CompletedWork fields) |}
     (Some ado) [], w).

Definition shouldIncludeItem (item : WorkItem) (filterTag filterType : option string)
  : bool :=
  match Js.truthy_opt_string filterTag, Js.truthy_opt_string filterType with
  | None, None => true
  | tag, type =>
      if match type with
         | Some t => negb (String.eqb (wi_type (wi_props item)) t)
         | None => false
         end
      then false
      else
        match tag with
        | Some t =>
            let itemTags := default [] (wi_tags (wi_props item)) in
            existsb (fun tag' => String.eqb (Js.toLowerCase tag')
                                   (Js.toLowerCase t)) itemTags
        | None => true
        end
  end.

Record ImportResult := {
  ir_adoId : Z;
  ir_localId : string;
  ir_type : string;
  ir_title : string;
  ir_success : bool;
  ir_error : option string;
  ir_childCount : nat }.

(** The [context] of [fetchWorkItemTree], without its [results] array,
    which is threaded with the world. *)
Record ImportContext := {
  ctx_includeComments : bool;
  ctx_includePRs : bool;
  maxDepth : Z;
  filterTag : option string;
  filterType : option string;
  currentDepth : Z;
  isRoot : option bool;
  filterDisabled : option bool }.

Definition descend (context : ImportContext) (filterDisabled' : option bool)
  : ImportContext :=
  {| ctx_includeComments := ctx_includeComments context;
     ctx_includePRs := ctx_includePRs context;
     maxDepth := maxDepth context;
     filterTag := filterTag context;
     filterType := filterType context;
     currentDepth := currentDepth context + 1;
     isRoot := Some false;
     filterDisabled := filterDisabled' |}.

Definition truthy_flag (b : option bool) : bool := default false b.

Definition hasFilters (context : ImportContext) : bool :=
  match Js.truthy_opt_string (filterTag context),
        Js.truthy_opt_string (filterType context) with
  | None, None => false
  | _, _ => true
  end.

Definition shouldApplyFilter (context : ImportContext) : bool :=
  hasFilters context && negb (truthy_flag (filterDisabled context))
  && truthy_flag (isRoot context).

Definition set_ado (item : WorkItem) (f : AdoMetadata -> AdoMetadata)
  : WorkItem :=
  mkWorkItem (wi_props item) (f <$> wi_ado item) (wi_children item).

(** The enrichment of a fetched item with its comments and pull
    requests; a failing call is ignored. *)
Definition enrich {W} (client : AdoClient W) (context : ImportContext)
  (workItemId : Z) (adoItem : AdoWorkItemResponse) (workItem : WorkItem)
  (w : W) : WorkItem * W :=
  let (workItem, w) :=
    if ctx_includeComments context then
      match getAllComments client workItemId w with
      | (Ok comments, w) =>
          (if Nat.ltb 0 (length comments)
           then set_ado workItem (with_comments comments) else workItem, w)
      | (Throw _, w) => (workItem, w)
      end
    else (workItem, w) in
  if ctx_includePRs context then
    match getLinkedPullRequests client adoItem w with
    | (Ok prs, w) =>
        (if Nat.ltb 0 (length prs)
         then set_ado workItem (with_linkedPRs prs) else workItem, w)
    | (Throw _, w) => (workItem, w)
    end
  else (workItem, w).

(** The world and the [results] array of an import. *)
Record ImportState (W : Type) := {
  is_world : W;
  is_results : list ImportResult }.
Arguments is_world {W} _.
Arguments is_results {W} _.

(** The loop of [fetchWorkItemTree] over [childIds]; [fetch] is the
    recursive call, [children] the array being filled. *)
Fixpoint fetch_children {W}
  (fetch : Z -> ImportState W -> option (option WorkItem * ImportState W))
  (shouldApplyFilter : bool) (filterTag filterType : option string)
  (childIds : list Z) (children : list WorkItem) (s : ImportState W)
  : option (list WorkItem * ImportState W) :=
  match childIds with
  | [] => Some (children, s)
  | childId :: rest =>
      match fetch childId s with
      | None => None
      | Some (None, s) =>
          fetch_children fetch shouldApplyFilter filterTag filterType
            rest children s
      | Some (Some child, s) =>
          if shouldApplyFilter then
            let matchesFilter := shouldIncludeItem child filterTag filterType in
            if matchesFilter
            then fetch_children fetch shouldApplyFilter filterTag filterType
                   rest (children ++ [child]) s
            else fetch_children fetch shouldApplyFilter filterTag filterType
                   rest children s
          else fetch_children fetch shouldApplyFilter filterTag filterType
                 rest (children ++ [child]) s
      end
  end.

(** [fetchWorkItemTree].  The recursion of the source is bounded by
    the depth check; [fuel] makes it structural, and [None] is returned
    only when the fuel is exhausted. *)
Fixpoint fetchWorkItemTree {W} (fuel : nat) (client : AdoClient W)
  (workItemId : Z) (config : ResolvedConfig) (context : ImportContext)
  (s : ImportState W) {struct fuel}
  : option (option WorkItem * ImportState W) :=
  if (maxDepth context <? currentDepth context)%Z then Some (None, s)
  else
    match fuel with
    | O => None
    | S fuel =>
        match getWorkItem client (Some workItemId) (Some ExRelations)
                (is_world s) with
        | (Throw message, w) =>
            Some (None,
                  {| is_world := w;
                     is_results :=
                       is_results s ++
                       [ {| ir_adoId := workItemId;
                            ir_localId := "ado-" +:+ Js.toString workItemId;
                            ir_type := "Unknown";
                            ir_title := "Failed to fetch";
                            ir_success := false;
                            ir_error := Some message;
                            ir_childCount := 0 |} ] |})
        | (Ok adoItem, w) =>
            let (workItem, w) := transformAdoToYaml client adoItem config w in
            let (workItem, w) :=
              enrich client context workItemId adoItem workItem w in
            let childIds := getChildIds adoItem in
            let s :=
              {| is_world := w;
                 is_results :=
                   is_results s ++
                   [ {| ir_adoId := workItemId;
                        ir_localId := wi_id (wi_props workItem);
                        ir_type := wi_type (wi_props workItem);
                        ir_title := wi_title (wi_props workItem);
                        ir_success := true;
                        ir_error := None;
                        ir_childCount := length childIds |} ] |} in
            let fetched :=
              fetch_children
                (fun childId s =>
                   fetchWorkItemTree fuel client childId config
                     (descend context
                        (if shouldApplyFilter context then Some true
                         else filterDisabled context)) s)
                (shouldApplyFilter context) (filterTag context)
                (filterType context) childIds [] s in
            match fetched with
            | None => None
            | Some (children, s) =>
                Some (Some (mkWorkItem (wi_props workItem) (wi_ado workItem)
                              children), s)
            end
        end
    end.

Fixpoint collectTypes (item : WorkItem) (types : list string) : list string :=
  let types := wi_type (wi_props item) :: types in
  match item with
  | mkWorkItem _ _ children =>
      (fix loop (children : list WorkItem) (types : list string) :=
         match children with
         | [] => types
         | child :: rest => loop rest (collectTypes child types)
         end) children types
  end.

Definition detectHierarchyType (rootItem : WorkItem) : HierarchyType :=
  let types := collectTypes rootItem [] in
  let has (t : string) := existsb (String.eqb t) types in
  let hasEpic := has "Epic" in
  let hasFeature := has "Feature" in
  let hasPBI := has "Product Backlog Item" || has "User Story" in
  if hasEpic && hasFeature && hasPBI then full
  else if hasFeature && hasPBI then medium
  else simple.

Record ImportOptions := {
  io_includeComments : option bool;
  io_includePRs : option bool;
  io_maxDepth : option Z;
  io_filterTag : option string;
  io_filterType : option string }.

Definition root_context (options : ImportOptions) : ImportContext :=
  {| ctx_includeComments := default true (io_includeComments options);
     ctx_includePRs := default true (io_includePRs options);
     maxDepth := default 10%Z (io_maxDepth options);
     filterTag := io_filterTag options;
     filterType := io_filterType options;
     currentDepth := 0;
     isRoot := Some true;
     filterDisabled := None |}.

(** The calls of [fetchWorkItemTree] nest at most this deep. *)
Definition depth_budget (context : ImportContext) : nat :=
  Z.to_nat (maxDepth context - currentDepth context + 1).

Definition importFromAdo {W} (client : AdoClient W) (parentId : Z)
  (config : ResolvedConfig) (options : ImportOptions) (w : W)
  : Result (WorkItemsDocument * list ImportResult) * W :=
  let context := root_context options in
  match fetchWorkItemTree (depth_budget context) client parentId config
          context {| is_world := w; is_results := [] |} with
  | None => (Throw "Maximum call stack size exceeded", w)
  | Some (None, s) =>
      (Throw ("Could not fetch work item " +:+ Js.toString parentId),
       is_world s)
  | Some (Some tree, s) =>
      (Ok ({| schemaVersion := "1.0";
              hierarchyType := detectHierarchyType tree;
              project := {| pc_organization := organization config;
                            pc_project := cfg_project config;
                            pc_areaPath := None;
                            pc_iterationPath := None |};
              workItems := [tree] |}, is_results s), is_world s)
  end.

(** ** A small remote service for the closed examples

    An in-memory service holding work items: a read finds the item by
    the id that ends the path, a write checks a leading [test] of
    [/rev] against the stored revision, stores a new title when the
    patch adds one and increases the revision, a creation stores a new
    item of revision 1 under the next id. *)

Module Demo.

Record Service := {
  stored : list AdoWorkItemResponse;
  log : list (string * list JsonPatchOperation) }.

Definition blank_fields (type title_ : string) : AdoWorkItemFields :=
  {| F_Title := title_; F_Description := None; F_State := Some "New";
     F_WorkItemType := type; F_AssignedTo := None; F_AreaPath := Some "Area";
     F_IterationPath := Some "Iteration"; F_ChangedDate := "2024-01-02T00:00:00Z";
     F_Tags := None; F_Priority := None; F_ValueArea := None;
     F_BusinessValue := None; F_Effort := None; F_StoryPoints := None;
     F_RemainingWork := None; F_OriginalEstimate := None;
     F_CompletedWork := None; F_TargetDate := None; F_Activity := None;
     F_AcceptanceCriteria := None |}.

Definition with_title (t : string) (f : AdoWorkItemFields) : AdoWorkItemFields :=
  {| F_Title := t; F_Description := F_Description f; F_State := F_State f;
     F_WorkItemType := F_WorkItemType f; F_AssignedTo := F_AssignedTo f;
     F_AreaPath := F_AreaPath f; F_IterationPath := F_IterationPath f;
     F_ChangedDate := F_ChangedDate f; F_Tags := F_Tags f;
     F_Priority := F_Priority f; F_ValueArea := F_ValueArea f;
     F_BusinessValue := F_BusinessValue f; F_Effort := F_Effort f;
     F_StoryPoints := F_StoryPoints f; F_RemainingWork := F_RemainingWork f;
     F_OriginalEstimate := F_OriginalEstimate f;
     F_CompletedWork := F_CompletedWork f; F_TargetDate := F_TargetDate f;
     F_Activity := F_Activity f;
     F_AcceptanceCriteria := F_AcceptanceCriteria f |}.

Definition id_of_path (url : string) : option Z :=
  let (rdigits, _) := take_digits (String.rev url) in
  Js.parseInt (String.rev rdigits).

Definition find_item (id : Z) (sv : Service) : option AdoWorkItemResponse :=
  List.find (fun it => Z.eqb (r_id it) id) (stored sv).

Definition patched_title (ops : list JsonPatchOperation) : option string :=
  match List.find (fun o => String.eqb (path o) "/fields/System.Title") ops with
  | Some {| value := Some (PField (Js.VString t)) |} => Some t
  | _ => None
  end.

Definition expected_rev (ops : list JsonPatchOperation) : option Z :=
  match ops with
  | {| op := op_test; path := "/rev";
       value := Some (PField (Js.VNumber r)) |} :: _ => Some r
  | _ => None
  end.

Definition store (it : AdoWorkItemResponse) (sv : Service)
  (entry : string * list JsonPatchOperation) : Service :=
  {| stored := it :: List.filter (fun x => negb (Z.eqb (r_id x) (r_id it)))
                       (stored sv);
     log := log sv ++ [entry] |}.

Definition get (url : string) (_ : option Expand)
  : Async Service AdoWorkItemResponse :=
  fun sv =>
    match id_of_path url ≫= (fun id => find_item id sv) with
    | Some it => (Ok it, sv)
    | None => (Throw "Request failed with status code 404", sv)
    end.

Definition patch (url : string) (ops : list JsonPatchOperation)
  : Async Service AdoWorkItemResponse :=
  fun sv =>
    match id_of_path url ≫= (fun id => find_item id sv) with
    | None => (Throw "Request failed with status code 404", sv)
    | Some it =>
        if match expected_rev ops with
           | Some r => negb (Z.eqb r (r_rev it))
           | None => false
           end
        then (Throw "Request failed with status code 412",
              {| stored := stored sv; log := log sv ++ [(url, ops)] |})
        else
          let it' :=
            {| r_id := r_id it; r_rev := r_rev it + 1; r_url := r_url it;
               r_fields :=
                 match patched_title ops with
                 | Some t => with_title t (r_fields it)
                 | None => r_fields it
                 end;
               r_relations := r_relations it |} in
          (Ok it', store it' sv (url, ops))
    end.

Definition post (url : string) (ops : list JsonPatchOperation)
  : Async Service AdoWorkItemResponse :=
  fun sv =>
    let id := (1000 + Z.of_nat (length (stored sv)))%Z in
    let it :=
      {| r_id := id; r_rev := 1; r_url := "";
         r_fields := blank_fields "Product Backlog Item"
                       (default "" (patched_title ops));
         r_relations := None |} in
    (Ok it, store it sv (url, ops)).

Definition batch (url : string) (ids : list Z) (_ : Expand)
  : Async Service (list AdoWorkItemResponse) :=
  fun sv => (Ok (omap (fun id => find_item id sv) ids), sv).

Definition client : AdoClient Service :=
  {| getProject := "proj";
     getOrganization := "org";
     get_item := get;
     post_item := post;
     patch_item := patch;
     post_batch := batch;
     getAllComments := fun _ => ret [];
     getLinkedPullRequests := fun _ => ret [];
     toISOString_now := fun sv => ("2024-01-03T00:00:00.000Z", sv) |}.

Definition config : ResolvedConfig :=
  {| organization := "org";
     cfg_project := "proj";
     defaults := {| d_areaPath := None; d_iterationPath := None;
                    d_state := None; d_priority := None |};
     sync := {| conflictStrategy := manual; batchSize := 50;
                includeComments := false; includePRs := false;
                includeHistory := false |} |}.

Definition props (type id_ title_ : string) : WorkItemProps :=
  {| wi_type := type; wi_id := id_; wi_title := title_;
     wi_description := None; wi_state := None; wi_priority := None;
     wi_tags := None; wi_assignedTo := None; wi_areaPath := None;
     wi_iterationPath := None; wi_valueArea := None;
     wi_businessValue := None; wi_targetDate := None;
     wi_acceptanceCriteria := None; wi_effort := None;
     wi_storyPoints := None; wi_activity := None; wi_remainingWork := None;
     wi_originalEstimate := None; wi_completedWork := None |}.

Definition linked (id rev : Z) : AdoMetadata :=
  {| md_workItemId := Some id; md_url := None; md_rev := Some rev;
     md_lastSyncedAt := Some "2024-01-01T00:00:00.000Z"; md_etag := None;
     md_state := None; md_assignedTo := None; md_comments := None;
     md_linkedPRs := None; md_history := None |}.

Definition document (items : list WorkItem) : WorkItemsDocument :=
  {| schemaVersion := "1.0"; hierarchyType := simple;
     project := {| pc_organization := "org"; pc_project := "proj";
                   pc_areaPath := None; pc_iterationPath := None |};
     workItems := items |}.

Definition remote (id rev : Z) (title_ : string) : AdoWorkItemResponse :=
  {| r_id := id; r_rev := rev; r_url := "";
     r_fields := blank_fields "Product Backlog Item" title_;
     r_relations := None |}.

Definition push_all : PushOptions :=
  {| dryRun := false; force := false; createOnly := false;
     updateOnly := false; filter := None |}.

Definition pull_plain : PullOptions :=
  {| pull_includeComments := false; pull_includePRs := false;
     pull_includeHistory := false; pull_overwriteLocal := false |}.

(** One backlog item linked to remote item 123 at revision 1, whose
    title was edited locally. *)
Definition edited_item : WorkItem :=
  mkWorkItem (props "Product Backlog Item" "pbi-001" "New title")
             (Some (linked 123 1)) [].

Definition service_with_123 : Service :=
  {| stored := [remote 123 1 "Old title"]; log := [] |}.

(** A feature with two backlog items, tagged [frontend] and [backend];
    the first has a task. *)
Definition child_link (id : Z) : AdoRelation :=
  {| rel := LINK_CHILD;
     rel_url := "https://dev.azure.com/org/proj/_apis/wit/workItems/"
                  +:+ Js.toString id;
     rel_attributes := None |}.

Definition node (id : Z) (type title_ : string) (tags_ : option string)
  (children : list Z) : AdoWorkItemResponse :=
  let f := blank_fields type title_ in
  {| r_id := id; r_rev := 1; r_url := "";
     r_fields :=
       {| F_Title := F_Title f; F_Description := F_Description f;
          F_State := F_State f; F_WorkItemType := F_WorkItemType f;
          F_AssignedTo := F_AssignedTo f; F_AreaPath := F_AreaPath f;
          F_IterationPath := F_IterationPath f;
          F_ChangedDate := F_ChangedDate f; F_Tags := tags_;
          F_Priority := F_Priority f; F_ValueArea := F_ValueArea f;
          F_BusinessValue := F_BusinessValue f; F_Effort := F_Effort f;
          F_StoryPoints := F_StoryPoints f;
          F_RemainingWork := F_RemainingWork f;
          F_OriginalEstimate := F_OriginalEstimate f;
          F_CompletedWork := F_CompletedWork f;
          F_TargetDate := F_TargetDate f; F_Activity := F_Activity f;
          F_AcceptanceCriteria := F_AcceptanceCriteria f |};
     r_relations := Some (map child_link children) |}.

Definition service_with_tree : Service :=
  {| stored :=
       [ node 1 "Feature" "Checkout" None [2; 3]%Z;
         node 2 "Product Backlog Item" "Cart page" (Some "frontend; ui") [4]%Z;
         node 3 "Product Backlog Item" "Cart API" (Some "backend") [];
         node 4 "Task" "Write tests" (Some "qa") [] ];
     log := [] |}.

(** The local ids of a tree, parent first, with their depths. *)
Definition outline (doc : WorkItemsDocument) : list (string * nat) :=
  map (fun e => (wi_id (wi_props (wp_item e)), wp_depth e))
      (flattenHierarchy doc).

End Demo.

(** ** Notions used to state the properties *)

(** The state of the client after a request answered by 429 with the
    given retry-after header: throttled, sent, slept, counter reset. *)
Definition after_429 {Req} (reqConfig : Req) (header : option string)
  (st : ClientState Req) : ClientState Req :=
  let (rl, c) := throttle (rateLimiter st) (clock st) in
  let (rl, c) := handleRetryAfter (retryAfter_of header) rl c in
  {| rateLimiter := rl; clock := c; sent := sent st ++ [reqConfig] |}.

(** The same import context, or options, with no filter. *)
Definition without_filters (context : ImportContext) : ImportContext :=
  {| ctx_includeComments := ctx_includeComments context;
     ctx_includePRs := ctx_includePRs context;
     maxDepth := maxDepth context;
     filterTag := None;
     filterType := None;
     currentDepth := currentDepth context;
     isRoot := isRoot context;
     filterDisabled := filterDisabled context |}.

Definition unfiltered (options : ImportOptions) : ImportOptions :=
  {| io_includeComments := io_includeComments options;
     io_includePRs := io_includePRs options;
     io_maxDepth := io_maxDepth options;
     io_filterTag := None;
     io_filterType := None |}.

(** An item whose direct children are restricted to those that pass
    the filter; the children that remain are left as they are. *)
Definition prune (filterTag filterType : option string) (item : WorkItem)
  : WorkItem :=
  mkWorkItem (wi_props item) (wi_ado item)
    (List.filter (fun child => shouldIncludeItem child filterTag filterType)
       (wi_children item)).

(** The positions below an item (relative to it, [[]] being the item
    itself) and in a list of items whose first index is [i], in the
    order parent first, and in the order children first. *)
Fixpoint preorder_item (w : WorkItem) : list position :=
  match w with
  | mkWorkItem _ _ children =>
      [] :: (fix go (i : nat) (cs : list WorkItem) : list position :=
               match cs with
               | [] => []
               | c :: r => (cons i <$> preorder_item c) ++ go (S i) r
               end) 0 children
  end.

Fixpoint preorder_from (i : nat) (ws : list WorkItem) : list position :=
  match ws with
  | [] => []
  | w :: r => (cons i <$> preorder_item w) ++ preorder_from (S i) r
  end.

Fixpoint postorder_item (w : WorkItem) : list position :=
  match w with
  | mkWorkItem _ _ children =>
      (fix go (i : nat) (cs : list WorkItem) : list position :=
         match cs with
         | [] => []
         | c :: r => (cons i <$> postorder_item c) ++ go (S i) r
         end) 0 children ++ [[]]
  end.

Fixpoint postorder_from (i : nat) (ws : list WorkItem) : list position :=
  match ws with
  | [] => []
  | w :: r => (cons i <$> postorder_item w) ++ postorder_from (S i) r
  end.

(** Two contexts that differ at most in the filter and in
    [filterDisabled]. *)
Definition same_scope (c1 c2 : ImportContext) : Prop :=
  ctx_includeComments c1 = ctx_includeComments c2
  /\ ctx_includePRs c1 = ctx_includePRs c2
  /\ maxDepth c1 = maxDepth c2
  /\ currentDepth c1 = currentDepth c2
  /\ isRoot c1 = isRoot c2.

(** [item._ado] read through a reference. *)
Definition ado_of (m : Memory) (item : Ref) : option AdoMetadata :=
  match deref m item with
  | Some w => wi_ado w
  | None => None
  end.

(** The value a call returned, if it returned. *)
Definition Ok_value {A} (r : Result A) : option A :=
  match r with Ok a => Some a | Throw _ => None end.

(** The nodes of a document, parent first. *)
Definition document_nodes (doc : WorkItemsDocument) : list WorkItem :=
  wp_item <$> flattenHierarchy doc.

(** The ids that [pullWorkItems] asks for in its batch request. *)
Definition pull_adoIds (doc : WorkItemsDocument) : list Z :=
  omap (fun item => wi_ado item ≫= md_workItemId)
    (List.filter has_ado_id (document_nodes doc)).

(** The results that [pullWorkItems] reports for an item linked to
    the work item [id]: pulled, or failed with a message. *)
Definition pulled_result (localId : string) (id : Z) : SyncResult :=
  {| sr_localId := localId;
     sr_action := AUpdate;
     sr_success := true;
     sr_workItemId := Some id;
     sr_url := None;
     sr_error := None;
     sr_message := Some ("Pulled updates for #" +:+ Js.toString id) |}.

Definition pull_failure (localId : string) (id : Z) (errorMessage : string)
  : SyncResult :=
  {| sr_localId := localId;
     sr_action := ASkip;
     sr_success := false;
     sr_workItemId := Some id;
     sr_url := None;
     sr_error := Some errorMessage;
     sr_message := None |}.

(** One of the two calls that can fail inside the [try] block of the
    pull, the one for the comments or the one for the pull requests of
    the work item [id], is asked for by the options and throws [e] in
    some state of the service. *)
Definition enrichment_fails {W} (client : AdoClient W) (options : PullOptions)
  (adoItems : list AdoWorkItemResponse) (id : Z) (e : string) : Prop :=
  (pull_includeComments options = true
   /\ exists w w', getAllComments client id w = (Throw e, w'))
  \/ (pull_includePRs options = true
      /\ exists adoItem w w',
           adoItem ∈ adoItems /\ r_id adoItem = id
           /\ getLinkedPullRequests client adoItem w = (Throw e, w')).

(** What [pullWorkItems] reports for an item that records the remote
    id [id], given the batch response: the not-found failure when [id]
    is not among the ids returned; otherwise the pulled result, unless
    a call for comments or pull requests threw, in which case it is
    the failure with the message thrown. *)
Definition pull_result_for {W} (client : AdoClient W) (options : PullOptions)
  (adoItems : list AdoWorkItemResponse) (item : WorkItem) (r : SyncResult)
  : Prop :=
  exists id,
    recorded_id item = Some id
    /\ (id ∉ (r_id <$> adoItems) ->
        r = not_found_result (wi_id (wi_props item)) (Some id))
    /\ (id ∈ (r_id <$> adoItems) ->
        r = pulled_result (wi_id (wi_props item)) id
        \/ exists e,
             enrichment_fails client options adoItems id e
             /\ r = pull_failure (wi_id (wi_props item)) id e).

(** The metadata read off a work item of the response: all that
    [extractAdoMetadata] returns but the time of the call. *)
Definition metadata_of (config : ResolvedConfig)
  (adoItem : AdoWorkItemResponse) (md : AdoMetadata) : Prop :=
  md_workItemId md = Some (r_id adoItem)
  /\ md_rev md = Some (r_rev adoItem)
  /\ md_url md
     = Some ("https://dev.azure.com/" +:+ organization config +:+ "/"
               +:+ cfg_project config +:+ "/_workitems/edit/"
               +:+ Js.toString (r_id adoItem))
  /\ md_state md = F_State (r_fields adoItem)
  /\ md_assignedTo md = displayName <$> F_AssignedTo (r_fields adoItem).

(** An object of the array with another [_ado] block. *)
Definition replace_ado (o : WorkItemObj) (ado : option AdoMetadata)
  : WorkItemObj :=
  {| o_item := mkWorkItem (wi_props (o_item o)) ado (wi_children (o_item o));
     o_parent := o_parent o;
     o_depth := o_depth o |}.

(** What [pullWorkItems] does to an object [o] of the array returned
    by [flattenHierarchy], [o'] being the object afterwards: nothing
    when the item has no remote id or when its id is missing from the
    response; otherwise the metadata of a work item of the response
    with that id is spread over its [_ado] block, unless a call for
    comments or pull requests threw. *)
Definition pull_object_for {W} (client : AdoClient W)
  (config : ResolvedConfig) (options : PullOptions)
  (adoItems : list AdoWorkItemResponse) (o o' : WorkItemObj) : Prop :=
  match recorded_id (o_item o) with
  | None => o' = o
  | Some id =>
      (id ∉ (r_id <$> adoItems) -> o' = o)
      /\ (id ∈ (r_id <$> adoItems) ->
          (exists adoItem md,
              adoItem ∈ adoItems /\ r_id adoItem = id
              /\ metadata_of config adoItem md
              /\ o' = replace_ado o
                        (Some (spread_metadata (wi_ado (o_item o)) md)))
          \/ ((exists e, enrichment_fails client options adoItems id e)
              /\ o' = o))
  end.

(** An index of the array and an entry stand for the same parent: the
    object at the index holds the item and the depth of the entry. *)
Definition same_parent (objects : list WorkItemObj) (a : option nat)
  (e : option WorkItemWithParent) : Prop :=
  match a, e with
  | None, None => True
  | Some a, Some e =>
      exists o, objects !! a = Some o /\ o_item o = wp_item e
                /\ o_depth o = wp_depth e
  | _, _ => False
  end.

(** An object of the array and an entry of the list agree: same item,
    same depth, same parent. *)
Definition agree (objects : list WorkItemObj) (o : WorkItemObj)
  (e : WorkItemWithParent) : Prop :=
  o_item o = wp_item e /\ o_depth o = wp_depth e
  /\ same_parent objects (o_parent o) (wp_parent e).

(** The objects built for a subtree agree with the entries listed for
    it. *)
Definition same_items (w : WorkItem) : Prop :=
  forall parent parent' depth result result',
    same_parent result parent parent' ->
    exists objects entries,
      visit_obj w parent depth result = result ++ objects
      /\ visit w parent' depth result' = result' ++ entries
      /\ Forall2 (agree (result ++ objects)) objects entries.

(** What a traversal appends is the list of the entries at the
    positions of the corresponding order. *)
Definition appends_entries (order : WorkItem -> list position)
  (step : WorkItem -> option WorkItemWithParent -> nat ->
          list WorkItemWithParent -> list WorkItemWithParent)
  (w : WorkItem) : Prop :=
  forall pre suf parent depth result,
  exists entries,
    step w parent depth result = result ++ entries
    /\ Forall2
         (fun e q => entry_from (pre ++ w :: suf) parent depth
                       (length pre :: q) = Some e)
         entries (order w).

Definition appends_entries_list (order : nat -> list WorkItem -> list position)
  (steps : list WorkItem -> option WorkItemWithParent -> nat ->
           list WorkItemWithParent -> list WorkItemWithParent)
  (ws : list WorkItem) : Prop :=
  forall pre parent depth result,
  exists entries,
    steps ws parent depth result = result ++ entries
    /\ Forall2 (fun e q => entry_from (pre ++ ws) parent depth q = Some e)
         entries (order (length pre) ws).

(** ** Hierarchy utilities: lookups and measures (core/hierarchy.ts) *)

(** A [for] loop over [items] that returns the first result found. *)
Fixpoint first_some {A B} (f : A -> option B) (items : list A) : option B :=
  match items with
  | [] => None
  | item :: rest =>
      match f item with
      | Some found => Some found
      | None => first_some f rest
      end
  end.

(** The body of the loop of [traverse] in [getItemsAtDepth] for one
    [item]. *)
Fixpoint getItemsAtDepth_visit (targetDepth : Z) (depth : nat)
  (result : list WorkItem) (item : WorkItem) {struct item} : list WorkItem :=
  let result :=
    if Z.eqb (Z.of_nat depth) targetDepth then result ++ [item] else result in
  match item with
  | mkWorkItem _ _ children =>
      if Nat.ltb 0 (length children) && Z.ltb (Z.of_nat depth) targetDepth
      then fold_left (getItemsAtDepth_visit targetDepth (S depth))
             children result
      else result
  end.

Definition getItemsAtDepth (doc : WorkItemsDocument) (targetDepth : Z)
  : list WorkItem :=
  fold_left (getItemsAtDepth_visit targetDepth 0) (workItems doc) [].

(** The body of the loop of [traverse] in [getMaxDepth] for one
    [item]; [deepest] is the variable [maxDepth]. *)
Fixpoint getMaxDepth_visit (depth : nat) (deepest : nat) (item : WorkItem)
  {struct item} : nat :=
  match item with
  | mkWorkItem _ _ children =>
      if Nat.ltb 0 (length children)
      then fold_left (getMaxDepth_visit (S depth)) children
             (Nat.max deepest (S depth))
      else deepest
  end.

Definition getMaxDepth (doc : WorkItemsDocument) : nat :=
  fold_left (getMaxDepth_visit 0) (workItems doc) (Nat.max 0 0).

(** The body of the loop of [search] in [findItemById] and in
    [findItemByAdoId], which differ in the test only. *)
Fixpoint search_item (test : WorkItem -> bool) (item : WorkItem)
  {struct item} : option WorkItem :=
  if test item then Some item
  else match item with
       | mkWorkItem _ _ children =>
           if Nat.ltb 0 (length children)
           then first_some (search_item test) children
           else None
       end.

(** [item.id === id] *)
Definition has_id (id : string) (item : WorkItem) : bool :=
  String.eqb (wi_id (wi_props item)) id.

(** [item._ado?.workItemId === adoId] *)
Definition has_workItemId (adoId : Z) (item : WorkItem) : bool :=
  match wi_ado item ≫= md_workItemId with
  | Some n => Z.eqb n adoId
  | None => false
  end.

Definition findItemById (doc : WorkItemsDocument) (id : string)
  : option WorkItem :=
  first_some (search_item (has_id id)) (workItems doc).

Definition findItemByAdoId (doc : WorkItemsDocument) (adoId : Z)
  : option WorkItem :=
  first_some (search_item (has_workItemId adoId)) (workItems doc).

(** The body of the loop of [search] in [getAncestors]: the path that
    was pushed to [ancestors] when the search returned [true]. *)
Fixpoint getAncestors_search (id : string) (path : list WorkItem)
  (item : WorkItem) {struct item} : option (list WorkItem) :=
  if has_id id item then Some path
  else match item with
       | mkWorkItem _ _ children =>
           if Nat.ltb 0 (length children)
           then first_some (getAncestors_search id (path ++ [item])) children
           else None
       end.

Definition getAncestors (doc : WorkItemsDocument) (id : string)
  : list WorkItem :=
  match first_some (getAncestors_search id []) (workItems doc) with
  | Some ancestors => ancestors
  | None => []
  end.

(** The body of the loop of [collect] in [getDescendants]. *)
Fixpoint collect (descendants : list WorkItem) (child : WorkItem)
  {struct child} : list WorkItem :=
  let descendants := descendants ++ [child] in
  match child with
  | mkWorkItem _ _ children =>
      if Nat.ltb 0 (length children)
      then fold_left collect children descendants
      else descendants
  end.

Definition getDescendants (item : WorkItem) : list WorkItem :=
  if Nat.ltb 0 (length (wi_children item))
  then fold_left collect (wi_children item) []
  else [].

(** The body of the loop of [traverse] in [countItems]. *)
Fixpoint countItems_visit (count : nat) (item : WorkItem) {struct item}
  : nat :=
  let count := S count in
  match item with
  | mkWorkItem _ _ children =>
      if Nat.ltb 0 (length children)
      then fold_left countItems_visit children count
      else count
  end.

Definition countItems (items : list WorkItem) : nat :=
  fold_left countItems_visit items 0.

Definition getValidRootTypes (hierarchyType : HierarchyType) : list string :=
  match hierarchyType with
  | full => ["Epic"]
  | medium => ["Feature"]
  | simple => ["Product Backlog Item"; "User Story"; "Bug"]
  end.

(** [childTypes[parentType] ?? []] *)
Definition getValidChildTypes (parentType : string) : list string :=
  if String.eqb parentType "Epic" then ["Feature"]
  else if String.eqb parentType "Feature"
       then ["Product Backlog Item"; "User Story"; "Bug"]
  else if String.eqb parentType "Product Backlog Item" then ["Task"]
  else if String.eqb parentType "User Story" then ["Task"]
  else if String.eqb parentType "Bug" then ["Task"]
  else if String.eqb parentType "Task" then []
  else if String.eqb parentType "Issue" then ["Task"]
  else [].

(** The body of the loop of [traverse] in [buildIdMap]. *)
Fixpoint buildIdMap_visit (map : gmap string WorkItem) (item : WorkItem)
  {struct item} : gmap string WorkItem :=
  let map := <[ wi_id (wi_props item) := item ]> map in
  match item with
  | mkWorkItem _ _ children =>
      if Nat.ltb 0 (length children)
      then fold_left buildIdMap_visit children map
      else map
  end.

Definition buildIdMap (doc : WorkItemsDocument) : gmap string WorkItem :=
  fold_left buildIdMap_visit (workItems doc) ∅.

(** The body of the loop of [traverse] in [buildAdoIdMap]. *)
Fixpoint buildAdoIdMap_visit (map : gmap Z WorkItem) (item : WorkItem)
  {struct item} : gmap Z WorkItem :=
  let map :=
    match recorded_id item with
    | Some workItemId => <[ workItemId := item ]> map
    | None => map
    end in
  match item with
  | mkWorkItem _ _ children =>
      if Nat.ltb 0 (length children)
      then fold_left buildAdoIdMap_visit children map
      else map
  end.

Definition buildAdoIdMap (doc : WorkItemsDocument) : gmap Z WorkItem :=
  fold_left buildAdoIdMap_visit (workItems doc) ∅.

(** *** Notions used to state the properties of the lookups *)

(** The nodes of a subtree, parent first. *)
Fixpoint subtree (w : WorkItem) : list WorkItem :=
  match w with
  | mkWorkItem _ _ children => w :: flat_map subtree children
  end.

(** The entries of a subtree, parent first, given the entry of the
    parent of its root and the depth of its root. *)
Fixpoint subtree_entries (parent : option WorkItemWithParent) (depth : nat)
  (w : WorkItem) {struct w} : list WorkItemWithParent :=
  match w with
  | mkWorkItem _ _ children =>
      let e := mkWithParent w parent depth in
      e :: flat_map (subtree_entries (Some e) (S depth)) children
  end.

(** The items met when following [parent] from an entry up to a root,
    outermost first. *)
Fixpoint parent_chain (e : WorkItemWithParent) : list WorkItem :=
  match e with
  | mkWithParent _ parent _ =>
      match parent with
      | Some p => parent_chain p ++ [wp_item p]
      | None => []
      end
  end.

(** The local ids of the nodes of a document, parent first. *)
Definition document_ids (doc : WorkItemsDocument) : list string :=
  (fun item => wi_id (wi_props item)) <$> document_nodes doc.

(** ** A small local document for the closed examples

    A feature with two backlog items, the first of which has a task. *)

Module Sample.

Definition task1 : WorkItem :=
  mkWorkItem (Demo.props "Task" "task-1" "Write tests") None [].

Definition pbi1 : WorkItem :=
  mkWorkItem (Demo.props "Product Backlog Item" "pbi-1" "Cart page")
    (Some (Demo.linked 2 1)) [task1].

Definition pbi2 : WorkItem :=
  mkWorkItem (Demo.props "Product Backlog Item" "pbi-2" "Cart API") None [].

Definition feature1 : WorkItem :=
  mkWorkItem (Demo.props "Feature" "feat-1" "Checkout")
    (Some (Demo.linked 1 1)) [pbi1; pbi2].

Definition doc : WorkItemsDocument :=
  {| schemaVersion := "1.0"; hierarchyType := medium;
     project := {| pc_organization := "org"; pc_project := "proj";
                   pc_areaPath := None; pc_iterationPath := None |};
     workItems := [feature1] |}.

End Sample.

(** ** Diff of a document (core/diff-engine.ts) *)

(** [adoId ? adoItems.get(adoId) ?? null : null] *)
Definition remote_of (adoItems : gmap Z AdoWorkItemResponse)
  (item : WorkItem) : option AdoWorkItemResponse :=
  match recorded_id item with
  | Some adoId => adoItems !! adoId
  | None => None
  end.

Definition diffDocument (doc : WorkItemsDocument)
  (adoItems : gmap Z AdoWorkItemResponse) : list WorkItemDiff :=
  let flattened := flattenHierarchy doc in
  (fun item => diffWorkItem (wp_item item) (remote_of adoItems (wp_item item)))
    <$> flattened.

(** What [isEqual] holds of: two absent values, two strings equal
    after trimming, two equal numbers, or two arrays with the same
    elements counted with their multiplicity. *)
Inductive same_value : Js.value -> Js.value -> Prop :=
| same_nullish a b :
    Js.nullish a = true -> Js.nullish b = true -> same_value a b
| same_string s t :
    Js.trim s = Js.trim t -> same_value (Js.VString s) (Js.VString t)
| same_number n : same_value (Js.VNumber n) (Js.VNumber n)
| same_array xs ys : xs ≡ₚ ys -> same_value (Js.VArray xs) (Js.VArray ys).

(** ** Work-item API: the field map and the links (types/ado-api.ts,
    ado/work-items.ts) *)

#[local] Instance FieldName_eq_dec : EqDecision FieldName.
Proof. solve_decision. Defined.

(** [Object.entries(FIELD_MAP)], in the order of the declaration. *)
Definition FIELD_MAP_entries : list (FieldName * string) :=
  (fun k => (k, FIELD_MAP k))
    <$> [ title; description; state; assignedTo; areaPath; iterationPath;
          priority; effort; storyPoints; businessValue; acceptanceCriteria;
          valueArea; targetDate; remainingWork; originalEstimate;
          completedWork; activity; tags ].

(** [Object.fromEntries(Object.entries(FIELD_MAP).map(([k, v]) => [v, k]))] *)
Definition REVERSE_FIELD_MAP : gmap string FieldName :=
  fold_left (fun o kv => <[ kv.2 := kv.1 ]> o) FIELD_MAP_entries ∅.

(** [workItem.relations.some(rel => rel.rel === LINK_TYPES.PARENT)] *)
Definition hasParentLink (workItem : AdoWorkItemResponse) : bool :=
  match r_relations workItem with
  | None => false
  | Some relations =>
      existsb (fun r => String.eqb (rel r) LINK_PARENT) relations
  end.

Definition getParentId (workItem : AdoWorkItemResponse) : option Z :=
  match r_relations workItem with
  | None => None
  | Some relations =>
      match List.find (fun r => String.eqb (rel r) LINK_PARENT) relations with
      | None => None
      | Some parentRelation => workItems_id_of_url (rel_url parentRelation)
      end
  end.

(** The relation that [addParentLink] adds. *)
Definition parent_relation {W} (client : AdoClient W) (parentId : Z)
  : AdoRelation :=
  {| rel := LINK_PARENT;
     rel_url := getBaseUrl client +:+ "/" +:+ getProject client
                  +:+ "/_apis/wit/workItems/" +:+ Js.toString parentId;
     rel_attributes := None |}.

(** A string of decimal digits. *)
Fixpoint all_digits (s : string) : bool :=
  match s with
  | EmptyString => true
  | String c r => Js.is_digit c && all_digits r
  end.

(** *** Notions used to state the properties of push and sync *)

(** The same client with other POST and PATCH calls for work items. *)
Definition with_writes {W}
  (post' patch' : string -> list JsonPatchOperation ->
                  Async W AdoWorkItemResponse)
  (client : AdoClient W) : AdoClient W :=
  {| getProject := getProject client;
     getOrganization := getOrganization client;
     get_item := get_item client;
     post_item := post';
     patch_item := patch';
     post_batch := post_batch client;
     getAllComments := getAllComments client;
     getLinkedPullRequests := getLinkedPullRequests client;
     toISOString_now := toISOString_now client |}.

(** The nodes of the document that [pushWorkItems] processes: those
    whose id matches the filter, parent first. *)
Definition pushed_nodes (doc : WorkItemsDocument) (options : PushOptions)
  : list WorkItem :=
  List.filter
    (fun item => matchesFilter (wi_id (wi_props item))
                   (default "*" (filter options)))
    (document_nodes doc).

(** The options with which [syncWorkItems] pulls and pushes. *)
Definition sync_pull_options (config : ResolvedConfig) : PullOptions :=
  {| pull_includeComments := includeComments (sync config);
     pull_includePRs := includePRs (sync config);
     pull_includeHistory := includeHistory (sync config);
     pull_overwriteLocal := false |}.

Definition sync_push_options (strategy : ConflictStrategy)
  (sync_dryRun : bool) : PushOptions :=
  {| dryRun := sync_dryRun;
     force := ConflictStrategy_eqb strategy yaml_wins;
     createOnly := false;
     updateOnly := false;
     filter := None |}.

(** The local id of the object at an index of the array. *)
Definition id_at (m : Memory) (a : nat) : option string :=
  (fun o => wi_id (wi_props (o_item o))) <$> m_items m !! a.

(** The results that one turn of the loop of [pushWorkItems] adds for
    a node: one result, or the result of the action followed by the
    failure of the request that reads the item back; all under the id
    of the node. *)
Definition results_of_turn (n : WorkItem) (g : list SyncResult) : Prop :=
  Forall (fun r => sr_localId r = wi_id (wi_props n)) g
  /\ ((exists r, g = [r])
      \/ exists r1 r2,
           g = [r1; r2] /\ sr_success r1 = true
           /\ is_create_or_update (sr_action r1) = true
           /\ sr_success r2 = false /\ sr_workItemId r2 = None).

(** ** Status of a document (core/sync-engine.ts) *)

Inductive SyncStatus := st_synced | st_pending | st_conflict | st_new.

Record StatusEntry := {
  se_localId : string;
  se_adoId : option Z;
  se_status : SyncStatus;
  se_lastSyncedAt : option string }.

(** The body of the loop of [getSyncStatus] for one item. *)
Definition status_entry (adoMap : gmap Z AdoWorkItemResponse)
  (item : WorkItem) : StatusEntry :=
  match recorded_id item with
  | None =>
      {| se_localId := wi_id (wi_props item); se_adoId := None;
         se_status := st_new; se_lastSyncedAt := None |}
  | Some adoId =>
      let lastSyncedAt := wi_ado item ≫= md_lastSyncedAt in
      match adoMap !! adoId with
      | None =>
          {| se_localId := wi_id (wi_props item); se_adoId := Some adoId;
             se_status := st_pending; se_lastSyncedAt := lastSyncedAt |}
      | Some adoItem =>
          let diff := diffWorkItem item (Some adoItem) in
          {| se_localId := wi_id (wi_props item); se_adoId := Some adoId;
             se_status :=
               match wd_status diff with
               | SConflict => st_conflict
               | SModified => st_pending
               | _ => st_synced
               end;
             se_lastSyncedAt := lastSyncedAt |}
      end
  end.

Definition getSyncStatus {W} (client : AdoClient W) (doc : WorkItemsDocument)
  : Async W (list StatusEntry) :=
  let items := flattenHierarchy doc in
  let itemsWithAdoId :=
    List.filter (fun item => has_ado_id (wp_item item)) items in
  let adoIds :=
    omap (fun item => wi_ado (wp_item item) ≫= md_workItemId)
      itemsWithAdoId in
  let* adoItems :=
    (if Nat.ltb 0 (length adoIds)
     then getWorkItems client adoIds (Some ExNone)
     else ret []) in
  let adoMap := adoMap_of adoItems in
  ret ((fun item => status_entry adoMap (wp_item item)) <$> items).

(** What push decides for an item that the status reads as [status],
    when both read the same remote record and the push is neither
    forced nor restricted to creations: a conflict or an update as the
    status says, and for a synced item a skip, unless the remote
    revision is newer than the recorded one. *)
Definition push_action_for (status : SyncStatus) (newer : bool)
  : option SyncAction :=
  match status with
  | st_conflict => Some AConflict
  | st_pending => Some AUpdate
  | st_synced => Some (if newer then AConflict else ASkip)
  | st_new => None
  end.

(** A backlog item that sets the state and the paths of the remote
    item 123, linked to it at revision 1, and a service in which the
    item has moved on to revision 2 with the same fields. *)
Module Sample2.

Definition settled_props : WorkItemProps :=
  let p := Demo.props "Product Backlog Item" "pbi-001" "Cart page" in
  {| wi_type := wi_type p; wi_id := wi_id p; wi_title := wi_title p;
     wi_description := None; wi_state := Some "New"; wi_priority := None;
     wi_tags := None; wi_assignedTo := None; wi_areaPath := Some "Area";
     wi_iterationPath := Some "Iteration"; wi_valueArea := None;
     wi_businessValue := None; wi_targetDate := None;
     wi_acceptanceCriteria := None; wi_effort := None;
     wi_storyPoints := None; wi_activity := None; wi_remainingWork := None;
     wi_originalEstimate := None; wi_completedWork := None |}.

Definition settled_item : WorkItem :=
  mkWorkItem settled_props (Some (Demo.linked 123 1)) [].

Definition doc : WorkItemsDocument := Demo.document [settled_item].

Definition service : Demo.Service :=
  {| Demo.stored := [Demo.remote 123 2 "Cart page"]; Demo.log := [] |}.

End Sample2.

(** *** The life of a limiter

    What happens to a limiter and its clock after [new RateLimiter]:
    calls of its methods, and time that passes between them. *)
Inductive LimiterEvent :=
| Throttle
| RetryAfter (retryAfterSeconds : Z)
| Reset
| Elapse (ms : Z).

Definition limiter_step (st : RateLimiter * Clock) (e : LimiterEvent)
  : RateLimiter * Clock :=
  match e with
  | Throttle => throttle st.1 st.2
  | RetryAfter retryAfterSeconds =>
      handleRetryAfter retryAfterSeconds st.1 st.2
  | Reset => (reset st.1 st.2, st.2)
  | Elapse ms =>
      (st.1, {| now := now st.2 + Z.max 0 ms; slept := slept st.2 |})
  end.

Definition limiter_run (events : list LimiterEvent)
  (st : RateLimiter * Clock) : RateLimiter * Clock :=
  fold_left limiter_step events st.

(** *** Notions used to state the properties of the import *)

(** A node as the import builds it: linked to a work item, under the
    local id generated from its type and from the id of that item. *)
Definition imported_node (n : WorkItem) : Prop :=
  exists adoId,
    wi_ado n ≫= md_workItemId = Some adoId
    /\ wi_id (wi_props n) = generateLocalId (wi_type (wi_props n)) adoId.

(** The result log has a success for the node. *)
Definition reported (results : list ImportResult) (n : WorkItem) : Prop :=
  exists r,
    r ∈ results /\ ir_success r = true
    /\ ir_localId r = wi_id (wi_props n)
    /\ ir_type r = wi_type (wi_props n)
    /\ ir_title r = wi_title (wi_props n).

(** What holds of a tree fetched in a context, the log being
    [results]: its nodes are as the import builds them and are
    reported, and its entries, listed from depth [d], stay under the
    depth ceiling. *)
Definition fetched_tree (context : ImportContext)
  (results : list ImportResult) (tree : WorkItem) : Prop :=
  Forall imported_node (subtree tree)
  /\ Forall (reported results) (subtree tree)
  /\ forall parent d,
       Forall (fun e => (Z.of_nat (wp_depth e) + currentDepth context
                         <= maxDepth context + Z.of_nat d)%Z)
         (subtree_entries parent d tree).

(** ** Validation (yaml/validator.ts, yaml/parser.ts) *)

Record ValidationError := {
  ve_path : string;
  ve_message : string;
  ve_code : string }.

Record ValidationWarning := {
  vw_path : string;
  vw_message : string;
  vw_code : string }.

(** [items.forEach((item, index) => ...)] *)
Fixpoint forEach_index {A St} (f : A -> nat -> St -> St) (index : nat)
  (items : list A) (s : St) : St :=
  match items with
  | [] => s
  | item :: rest => forEach_index f (S index) rest (f item index s)
  end.

(** [`${path}[${index}]`] *)
Definition item_path (path : string) (index : nat) : string :=
  path +:+ "[" +:+ Js.toString (Z.of_nat index) +:+ "]".

(** The body of the loop of [collectIds] in [getAllLocalIds]. *)
Fixpoint collectIds (ids : gset string) (item : WorkItem) {struct item}
  : gset string :=
  let ids := {[ wi_id (wi_props item) ]} ∪ ids in
  match item with
  | mkWorkItem _ _ children =>
      if Nat.ltb 0 (length children)
      then fold_left collectIds children ids
      else ids
  end.

Definition getAllLocalIds (doc : WorkItemsDocument) : gset string :=
  fold_left collectIds (workItems doc) ∅.

(** The sets [seen] and [duplicates] and the [errors] array of
    [validateUniqueIds]. *)
Record UniqueIds := {
  ui_seen : gset string;
  ui_duplicates : gset string;
  ui_errors : list ValidationError }.

Definition duplicate_id_message (id : string) : string :=
  "Duplicate local ID: " +:+ QUOTE +:+ id +:+ QUOTE.

(** The callback of [forEach] in [checkIds]. *)
Fixpoint checkIds (path : string) (item : WorkItem) (index : nat)
  (st : UniqueIds) {struct item} : UniqueIds :=
  let itemPath := item_path path index in
  let id := wi_id (wi_props item) in
  let st :=
    if bool_decide (id ∈ ui_seen st)
    then {| ui_seen := ui_seen st;
            ui_duplicates := {[ id ]} ∪ ui_duplicates st;
            ui_errors :=
              ui_errors st
              ++ [ {| ve_path := itemPath +:+ ".id";
                      ve_message := duplicate_id_message id;
                      ve_code := "DUPLICATE_ID" |} ] |}
    else st in
  let st := {| ui_seen := {[ id ]} ∪ ui_seen st;
               ui_duplicates := ui_duplicates st;
               ui_errors := ui_errors st |} in
  match item with
  | mkWorkItem _ _ children =>
      if Nat.ltb 0 (length children)
      then forEach_index (checkIds (itemPath +:+ ".children")) 0 children st
      else st
  end.

(** [validateUniqueIds]: the [errors] array when it returns. *)
Definition validateUniqueIds (doc : WorkItemsDocument)
  (errors : list ValidationError) : list ValidationError :=
  ui_errors
    (forEach_index (checkIds "workItems") 0 (workItems doc)
       {| ui_seen := ∅; ui_duplicates := ∅; ui_errors := errors |}).

Definition validRootTypes (hierarchyType : HierarchyType) : list string :=
  match hierarchyType with
  | full => ["Epic"]
  | medium => ["Feature"]
  | simple => ["Product Backlog Item"; "User Story"; "Bug"]
  end.

(** [validChildTypes[item.type] ?? []] in [validateHierarchyTypes] *)
Definition validChildTypes (type : string) : list string :=
  if String.eqb type "Epic" then ["Feature"]
  else if String.eqb type "Feature"
       then ["Product Backlog Item"; "User Story"; "Bug"]
  else if String.eqb type "Product Backlog Item" then ["Task"]
  else if String.eqb type "User Story" then ["Task"]
  else if String.eqb type "Bug" then ["Task"]
  else if String.eqb type "Task" then []
  else [].

Definition HierarchyType_name (h : HierarchyType) : string :=
  match h with full => "full" | medium => "medium" | simple => "simple" end.

(** [allowedTypes.includes(item.type)] *)
Definition includes (xs : list string) (x : string) : bool :=
  existsb (String.eqb x) xs.

Record Findings := {
  f_errors : list ValidationError;
  f_warnings : list ValidationWarning }.

(** The callback of [forEach] in [checkHierarchy]. *)
Fixpoint checkHierarchy (hierarchyType : HierarchyType) (path : string)
  (allowedTypes : list string) (item : WorkItem) (index : nat)
  (st : Findings) {struct item} : Findings :=
  let itemPath := item_path path index in
  let type := wi_type (wi_props item) in
  let st :=
    if negb (includes allowedTypes type)
    then {| f_errors :=
              f_errors st
              ++ [ {| ve_path := itemPath +:+ ".type";
                      ve_message :=
                        "Invalid work item type " +:+ QUOTE +:+ type
                          +:+ QUOTE +:+ " for hierarchy " +:+ QUOTE
                          +:+ HierarchyType_name hierarchyType +:+ QUOTE
                          +:+ ". Expected one of: "
                          +:+ Js.join ", " allowedTypes;
                      ve_code := "INVALID_HIERARCHY_TYPE" |} ];
            f_warnings := f_warnings st |}
    else st in
  match item with
  | mkWorkItem _ _ children =>
      if Nat.ltb 0 (length children) then
        let childAllowed := validChildTypes type in
        let st :=
          if Nat.eqb (length childAllowed) 0 && Nat.ltb 0 (length children)
          then {| f_errors := f_errors st;
                  f_warnings :=
                    f_warnings st
                    ++ [ {| vw_path := itemPath +:+ ".children";
                            vw_message :=
                              "Work item type " +:+ QUOTE +:+ type +:+ QUOTE
                                +:+ " typically doesn't have children";
                            vw_code := "UNEXPECTED_CHILDREN" |} ] |}
          else st in
        forEach_index
          (checkHierarchy hierarchyType (itemPath +:+ ".children")
             childAllowed) 0 children st
      else st
  end.

(** [validateHierarchyTypes]: the [errors] and [warnings] arrays when
    it returns. *)
Definition validateHierarchyTypes (doc : WorkItemsDocument)
  (errors : list ValidationError) (warnings : list ValidationWarning)
  : Findings :=
  forEach_index
    (checkHierarchy (hierarchyType doc) "workItems"
       (validRootTypes (hierarchyType doc)))
    0 (workItems doc) {| f_errors := errors; f_warnings := warnings |}.

(** The callback of [forEach] in [checkItems] of
    [validateAdoConsistency]. *)
Fixpoint checkItems (path : string) (item : WorkItem) (index : nat)
  (warnings : list ValidationWarning) {struct item}
  : list ValidationWarning :=
  let itemPath := item_path path index in
  let warnings :=
    match recorded_id item, recorded_rev item with
    | Some _, None =>
        warnings
        ++ [ {| vw_path := itemPath +:+ "._ado";
                vw_message :=
                  "Work item " +:+ QUOTE +:+ wi_id (wi_props item) +:+ QUOTE
                    +:+ " has ADO ID but no revision number";
                vw_code := "MISSING_REV" |} ]
    | _, _ => warnings
    end in
  match item with
  | mkWorkItem _ _ children =>
      if Nat.ltb 0 (length children)
      then forEach_index (checkItems (itemPath +:+ ".children")) 0 children
             warnings
      else warnings
  end.

Definition validateAdoConsistency (doc : WorkItemsDocument)
  : list ValidationWarning :=
  forEach_index (checkItems "workItems") 0 (workItems doc) [].

(** *** Notions used to state the properties of the validation *)

(** The ids of a list that occur earlier in it or in [seen], in
    order: the occurrences that repeat an id. *)
Fixpoint repeated_from (seen : list string) (ids : list string)
  : list string :=
  match ids with
  | [] => []
  | id :: rest =>
      (if bool_decide (id ∈ seen) then [id] else [])
      ++ repeated_from (id :: seen) rest
  end.

(** The types of a subtree fit the tables: the type of the root is
    among [allowedTypes] and, recursively, the children fit the types
    allowed below their parent. *)
Fixpoint fits (allowedTypes : list string) (item : WorkItem) {struct item}
  : bool :=
  includes allowedTypes (wi_type (wi_props item))
  && match item with
     | mkWorkItem _ _ children =>
         forallb (fits (validChildTypes (wi_type (wi_props item)))) children
     end.

(** What [validateUniqueIds] keeps of its state, and how a node
    changes it. *)
Definition uniqueIds_view (st : UniqueIds) : gset string * list (string * string) :=
  (ui_seen st, (fun e => (ve_message e, ve_code e)) <$> ui_errors st).

Definition uniqueIds_step (v : gset string * list (string * string))
  (item : WorkItem) : gset string * list (string * string) :=
  let id := wi_id (wi_props item) in
  ({[ id ]} ∪ v.1,
   if bool_decide (id ∈ v.1)
   then v.2 ++ [(duplicate_id_message id, "DUPLICATE_ID")]
   else v.2).

(** How many levels the tables allow below an item of a type. *)
Definition type_rank (type : string) : nat :=
  if String.eqb type "Epic" then 3
  else if String.eqb type "Feature" then 2
  else if String.eqb type "Product Backlog Item" then 1
  else if String.eqb type "User Story" then 1
  else if String.eqb type "Bug" then 1
  else 0.

(** The greatest depth of a document whose types fit a hierarchy. *)
Definition hierarchy_depth (hierarchyType : HierarchyType) : nat :=
  match hierarchyType with full => 3 | medium => 2 | simple => 1 end.

(** [item._ado?.workItemId && !item._ado.rev] *)
Definition missing_rev (item : WorkItem) : bool :=
  match recorded_id item, recorded_rev item with
  | Some _, None => true
  | _, _ => false
  end.

(** ** The other counts of the items of a document *)

(** [countItems] of core/import-engine.ts: the items of a tree. *)
Module ImportEngine.

Fixpoint countItems (item : WorkItem) : nat :=
  match item with
  | mkWorkItem _ _ children =>
      fold_left (fun count child => count + countItems child) children 1
  end.

End ImportEngine.

(** [countItems] of commands/validate.ts. *)
Module ValidateCommand.

Fixpoint countItems_item (count : nat) (item : WorkItem) {struct item}
  : nat :=
  let count := S count in
  match item with
  | mkWorkItem _ _ children =>
      count + fold_left countItems_item children 0
  end.

Definition countItems (items : list WorkItem) : nat :=
  fold_left countItems_item items 0.

End ValidateCommand.

(** [countWorkItems] of yaml/parser.ts; its inner function is the one
    of [countItems] of the hierarchy utilities. *)
Definition countWorkItems (doc : WorkItemsDocument) : nat :=
  fold_left countItems_visit (workItems doc) 0.

(** [document.workItems.reduce((sum, item) => sum + countItems(item), 0)]
    of commands/import.ts *)
Definition totalItems (document : WorkItemsDocument) : nat :=
  fold_left (fun sum item => sum + ImportEngine.countItems item)
    (workItems document) 0.

(** ** Comments API (ado/comments.ts) *)

Module Comments.

(** [AdoCommentResponse], the properties that are read. *)
Record AdoCommentResponse := {
  id : Z;
  text : string;
  createdBy : AdoIdentityRef;
  createdDate : string }.

Record AdoCommentsResponse := {
  totalCount : Z;
  count : Z;
  comments : list AdoCommentResponse }.

(** The query parameters of the request. *)
Record Params := {
  top : option Z;
  continuationToken : option string;
  api_version : string }.

(** [client.get<AdoCommentsResponse>(path, params)] *)
Definition Get (W : Type) : Type :=
  string -> Params -> Async W AdoCommentsResponse.

Definition getComments {W} (project : string) (get : Get W) (workItemId : Z)
  (top_ : option Z) (continuationToken_ : option string)
  : Async W AdoCommentsResponse :=
  get ("/" +:+ project +:+ "/_apis/wit/workitems/"
         +:+ Js.toString workItemId +:+ "/comments")
      {| top := Js.truthy_opt_number top_;
         continuationToken := Js.truthy_opt_string continuationToken_;
         api_version := "7.1-preview.4" |}.

Definition transformComment (comment : AdoCommentResponse) : AdoComment :=
  {| comment_id := id comment;
     comment_author :=
       if Js.truthy_string (displayName (createdBy comment))
       then displayName (createdBy comment)
       else uniqueName (createdBy comment);
     comment_date := createdDate comment;
     comment_text := text comment |}.

(** The [while] loop of [getAllComments]: [fuel] bounds the number of
    turns, and [None] is returned only when it is exhausted.  The
    variable [continuationToken] is never assigned. *)
Fixpoint getAllComments_loop {W} (fuel : nat) (project : string)
  (get : Get W) (workItemId : Z) (comments_ : list AdoComment)
  (continuationToken_ : option string) (w : W)
  : option (Result (list AdoComment) * W) :=
  match fuel with
  | O => None
  | S fuel =>
      match getComments project get workItemId (Some 100%Z)
              continuationToken_ w with
      | (Throw e, w) => Some (Throw e, w)
      | (Ok response, w) =>
          let comments_ :=
            comments_ ++ (transformComment <$> comments response) in
          let hasMore := Z.eqb (count response) 100 in
          let hasMore :=
            if Z.ltb (count response) 100 then false else hasMore in
          if hasMore
          then getAllComments_loop fuel project get workItemId comments_
                 continuationToken_ w
          else Some (Ok comments_, w)
      end
  end.

Definition getAllComments {W} (fuel : nat) (project : string) (get : Get W)
  (workItemId : Z) (w : W) : option (Result (list AdoComment) * W) :=
  getAllComments_loop fuel project get workItemId [] None w.

(** The one request that [getAllComments] makes, again and again. *)
Definition path_of (project : string) (workItemId : Z) : string :=
  "/" +:+ project +:+ "/_apis/wit/workitems/" +:+ Js.toString workItemId
    +:+ "/comments".

Definition first_page : Params :=
  {| top := Some 100%Z; continuationToken := None;
     api_version := "7.1-preview.4" |}.

(** A service that answers the requests with the pages of a list, one
    after the other. *)
Definition paged : Get (list AdoCommentsResponse) :=
  fun _ _ pages =>
    match pages with
    | page :: rest => (Ok page, rest)
    | [] => (Throw "Request failed with status code 404", [])
    end.

End Comments.

(** ** Writer (yaml/writer.ts) *)

(** [Partial<AdoMetadata>]: for each property, whether the object has
    it, and its value then. *)
Record PartialAdoMetadata := {
  pm_workItemId : option (option Z);
  pm_url : option (option string);
  pm_rev : option (option Z);
  pm_lastSyncedAt : option (option string);
  pm_etag : option (option string);
  pm_state : option (option string);
  pm_assignedTo : option (option string);
  pm_comments : option (option (list AdoComment));
  pm_linkedPRs : option (option (list AdoPullRequest));
  pm_history : option (option (list AdoHistoryEntry)) }.

(** [{...(item._ado ?? {workItemId: null, url: null, rev: null,
    lastSyncedAt: null}), ...adoMetadata}] *)
Definition merge_metadata (old : option AdoMetadata)
  (adoMetadata : PartialAdoMetadata) : AdoMetadata :=
  let base :=
    default {| md_workItemId := None; md_url := None; md_rev := None;
               md_lastSyncedAt := None; md_etag := None; md_state := None;
               md_assignedTo := None; md_comments := None;
               md_linkedPRs := None; md_history := None |} old in
  {| md_workItemId := default (md_workItemId base) (pm_workItemId adoMetadata);
     md_url := default (md_url base) (pm_url adoMetadata);
     md_rev := default (md_rev base) (pm_rev adoMetadata);
     md_lastSyncedAt :=
       default (md_lastSyncedAt base) (pm_lastSyncedAt adoMetadata);
     md_etag := default (md_etag base) (pm_etag adoMetadata);
     md_state := default (md_state base) (pm_state adoMetadata);
     md_assignedTo := default (md_assignedTo base) (pm_assignedTo adoMetadata);
     md_comments := default (md_comments base) (pm_comments adoMetadata);
     md_linkedPRs := default (md_linkedPRs base) (pm_linkedPRs adoMetadata);
     md_history := default (md_history base) (pm_history adoMetadata) |}.

(** A [for] loop over [items] that stops at the first item for which
    the body returns [true], having changed that item in place: the
    array after the loop, or [None] when the loop ends with [false]. *)
Fixpoint update_first {A} (f : A -> option A) (items : list A)
  : option (list A) :=
  match items with
  | [] => None
  | item :: rest =>
      match f item with
      | Some item' => Some (item' :: rest)
      | None => cons item <$> update_first f rest
      end
  end.

(** The body of the loop of [updateItem] in
    [updateWorkItemAdoMetadata]: the item after the call when it
    returned [true]. *)
Fixpoint updateItem (localId : string) (adoMetadata : PartialAdoMetadata)
  (item : WorkItem) {struct item} : option WorkItem :=
  if has_id localId item
  then Some (mkWorkItem (wi_props item)
               (Some (merge_metadata (wi_ado item) adoMetadata))
               (wi_children item))
  else match item with
       | mkWorkItem props ado children =>
           if Nat.ltb 0 (length children)
           then mkWorkItem props ado
                  <$> update_first (updateItem localId adoMetadata) children
           else None
       end.

(** [updateWorkItemAdoMetadata]: what it returns, and the document
    then. *)
Definition updateWorkItemAdoMetadata (doc : WorkItemsDocument)
  (localId : string) (adoMetadata : PartialAdoMetadata)
  : bool * WorkItemsDocument :=
  match update_first (updateItem localId adoMetadata) (workItems doc) with
  | Some items =>
      (true, {| schemaVersion := schemaVersion doc;
                hierarchyType := hierarchyType doc;
                project := project doc;
                workItems := items |})
  | None => (false, doc)
  end.

(** What a node holds itself: its properties and its [_ado] block. *)
Definition own (n : WorkItem) : WorkItemProps * option AdoMetadata :=
  (wi_props n, wi_ado n).

(** [nodes'] is [nodes] in which the first node with the id has
    received the metadata, every node holding otherwise what it
    held. *)
Definition updated_first (localId : string) (adoMetadata : PartialAdoMetadata)
  (nodes nodes' : list WorkItem) : Prop :=
  exists i n,
    nodes !! i = Some n /\ has_id localId n = true
    /\ (forall j m, j < i -> nodes !! j = Some m -> has_id localId m = false)
    /\ own <$> nodes'
       = <[ i := (wi_props n, Some (merge_metadata (wi_ado n) adoMetadata)) ]>
           (own <$> nodes).

(** The outcome of [updateItem] on a list of nodes and on what the
    nodes become. *)
Definition update_outcome (localId : string) (adoMetadata : PartialAdoMetadata)
  (nodes : list WorkItem) (nodes' : option (list WorkItem)) : Prop :=
  match nodes' with
  | Some nodes' => updated_first localId adoMetadata nodes nodes'
  | None => Forall (fun m => has_id localId m = false) nodes
  end.

(** A tree has a node of a type; it has backlog items. *)
Definition has_type (root : WorkItem) (type : string) : Prop :=
  exists n, n ∈ subtree root /\ wi_type (wi_props n) = type.

Definition has_backlog (root : WorkItem) : Prop :=
  has_type root "Product Backlog Item" \/ has_type root "User Story".

(** *** Where a node is: its path in the document *)

(** The path of the node at a position of an array of items whose own
    path is [path]: [path[i]] for the item of index [i], and for a node
    below that item its path in the array [path[i].children]. *)
Fixpoint path_of (path : string) (p : position) : string :=
  match p with
  | [] => path
  | i :: q =>
      match q with
      | [] => item_path path i
      | _ :: _ => path_of (item_path path i +:+ ".children") q
      end
  end.

Definition position_path (p : position) : string := path_of "workItems" p.

(** The warning of [validateAdoConsistency] for an item, given the
    path of the item. *)
Definition missing_rev_warning (itemPath : string) (item : WorkItem)
  : ValidationWarning :=
  {| vw_path := itemPath +:+ "._ado";
     vw_message :=
       "Work item " +:+ QUOTE +:+ wi_id (wi_props item) +:+ QUOTE
         +:+ " has ADO ID but no revision number";
     vw_code := "MISSING_REV" |}.

(** The warning due for a node given with its position in an array of
    items of path [path]: one when the node lacks its revision. *)
Definition missing_rev_of (path : string) (pn : position * WorkItem)
  : list ValidationWarning :=
  if missing_rev pn.2
  then [missing_rev_warning (path_of path pn.1) pn.2] else [].

(** The warning due at a position of a document. *)
Definition missing_rev_at (items : list WorkItem) (p : position)
  : list ValidationWarning :=
  match node_at items p with
  | Some n => missing_rev_of "workItems" (p, n)
  | None => []
  end.

(** A document with a linked item that records no revision, below a
    linked item that does. *)
Module Sample3.

Definition unrevised : AdoMetadata :=
  {| md_workItemId := Some 7%Z; md_url := None; md_rev := None;
     md_lastSyncedAt := None; md_etag := None; md_state := None;
     md_assignedTo := None; md_comments := None; md_linkedPRs := None;
     md_history := None |}.

Definition task7 : WorkItem :=
  mkWorkItem (Demo.props "Task" "task-7" "Deploy") (Some unrevised) [].

Definition doc : WorkItemsDocument :=
  {| schemaVersion := "1.0"; hierarchyType := simple;
     project := {| pc_organization := "org"; pc_project := "proj";
                   pc_areaPath := None; pc_iterationPath := None |};
     workItems :=
       [ Sample.pbi2;
         mkWorkItem (Demo.props "Product Backlog Item" "pbi-1" "Cart page")
           (Some (Demo.linked 2 1)) [Sample.task1; task7] ] |}.

End Sample3.

(** A document for the pull: a backlog item whose work item 999 is gone
    from the remote service, its task linked to work item 123, which
    is there, and an item that was never pushed. *)
Module Sample4.

Definition gone : WorkItem :=
  mkWorkItem (Demo.props "Product Backlog Item" "pbi-001" "Gone")
    (Some (Demo.linked 999 1))
    [ mkWorkItem (Demo.props "Task" "task-001" "Kept")
        (Some (Demo.linked 123 1)) [] ].

Definition doc : WorkItemsDocument :=
  Demo.document
    [ gone;
      mkWorkItem (Demo.props "Product Backlog Item" "pbi-002" "Local")
        None [] ].

End Sample4.

(** *** The remote hierarchy, for the properties of the import *)

(** A remote service that answers the reads of an import in the same
    way throughout: in every world that is [stable] the work item [id]
    is read as [remote id] (or the read fails when there is none), and
    the calls that an import makes leave the world [stable]. *)
Record read_only {W} (client : AdoClient W) (stable : W -> Prop)
  (remote : Z -> option AdoWorkItemResponse) : Prop := {
  ro_item :
    forall id w, stable w ->
      stable (getWorkItem client (Some id) (Some ExRelations) w).2
      /\ match remote id with
         | Some r =>
             (getWorkItem client (Some id) (Some ExRelations) w).1 = Ok r
         | None =>
             exists e,
               (getWorkItem client (Some id) (Some ExRelations) w).1 = Throw e
         end;
  ro_comments :
    forall id w, stable w -> stable (getAllComments client id w).2;
  ro_pull_requests :
    forall r w, stable w -> stable (getLinkedPullRequests client r w).2;
  ro_clock :
    forall w, stable w -> stable (toISOString_now client w).2 }.

(** The properties that the import gives the node of a work item (the
    world is only read for the time of the call, which goes to the
    [_ado] block). *)
Definition imported_props {W} (client : AdoClient W) (config : ResolvedConfig)
  (w : W) (r : AdoWorkItemResponse) : WorkItemProps :=
  wi_props (transformAdoToYaml client r config w).1.

(** The hierarchy of the remote service below the work item [id], down
    to [depth] further levels, every work item with all its children
    that can be read, no filter applied; the nodes carry the properties
    [props_of] gives them and no [_ado] block. *)
Fixpoint remote_tree (remote : Z -> option AdoWorkItemResponse)
  (props_of : AdoWorkItemResponse -> WorkItemProps) (depth : nat) (id : Z)
  : option WorkItem :=
  match remote id with
  | None => None
  | Some r =>
      Some (mkWorkItem (props_of r) None
              match depth with
              | O => []
              | S d => omap (remote_tree remote props_of d) (getChildIds r)
              end)
  end.

Definition remote_children (remote : Z -> option AdoWorkItemResponse)
  (props_of : AdoWorkItemResponse -> WorkItemProps) (depth : nat)
  (ids : list Z) : list WorkItem :=
  match depth with
  | O => []
  | S d => omap (remote_tree remote props_of d) ids
  end.

(** A tree without its [_ado] blocks. *)
Fixpoint bare (item : WorkItem) : WorkItem :=
  match item with
  | mkWorkItem props _ children => mkWorkItem props None (bare <$> children)
  end.

(** A feature with two backlog items, each with a task.  The first
    backlog item carries the tag [frontend] and its task does not; the
    second does not carry it and its task does. *)
Module Backlog.

Definition service : Demo.Service :=
  {| Demo.stored :=
       [ Demo.node 1 "Feature" "Checkout" None [2; 3]%Z;
         Demo.node 2 "Product Backlog Item" "Cart page"
           (Some "frontend; ui") [4]%Z;
         Demo.node 3 "Product Backlog Item" "Cart API" (Some "backend") [5]%Z;
         Demo.node 4 "Task" "Write tests" (Some "qa") [];
         Demo.node 5 "Task" "Fix layout" (Some "frontend") [] ];
     Demo.log := [] |}.

Definition stable (sv : Demo.Service) : Prop := sv = service.

Definition remote (id : Z) : option AdoWorkItemResponse :=
  Ok_value (getWorkItem Demo.client (Some id) (Some ExRelations) service).1.

Definition frontend_only : ImportOptions :=
  {| io_includeComments := None; io_includePRs := None; io_maxDepth := None;
     io_filterTag := Some "Frontend"; io_filterType := None |}.

End Backlog.

(** Records as the test suite of the repository builds them
    (tests/core/diff-engine.test.ts, tests/core/sync-engine.test.ts):
    a response whose [fields] hold a title, a state and a type and
    nothing else, and the local item compared with it. *)
Module Suite.

Definition fields (title_ : string) (state_ : option string)
  : AdoWorkItemFields :=
  {| F_Title := title_; F_Description := None; F_State := state_;
     F_WorkItemType := "Product Backlog Item"; F_AssignedTo := None;
     F_AreaPath := None; F_IterationPath := None; F_ChangedDate := "";
     F_Tags := None; F_Priority := None; F_ValueArea := None;
     F_BusinessValue := None; F_Effort := None; F_StoryPoints := None;
     F_RemainingWork := None; F_OriginalEstimate := None;
     F_CompletedWork := None; F_TargetDate := None; F_Activity := None;
     F_AcceptanceCriteria := None |}.

Definition response (title_ : string) (state_ : option string)
  : AdoWorkItemResponse :=
  {| r_id := 123; r_rev := 1;
     r_url := "https://dev.azure.com/test-org/test-project/_apis/wit/workItems/123";
     r_fields := fields title_ state_; r_relations := None |}.

Definition metadata : AdoMetadata :=
  {| md_workItemId := Some 123%Z;
     md_url := Some "https://dev.azure.com/test-org/test-project/_workitems/edit/123";
     md_rev := Some 1%Z; md_lastSyncedAt := Some "2025-01-15T10:30:00Z";
     md_etag := None; md_state := None; md_assignedTo := None;
     md_comments := None; md_linkedPRs := None; md_history := None |}.

Definition item (title_ : string) : WorkItem :=
  mkWorkItem
    {| wi_type := "Product Backlog Item"; wi_id := "pbi-001";
       wi_title := title_; wi_description := None; wi_state := Some "New";
       wi_priority := None; wi_tags := None; wi_assignedTo := None;
       wi_areaPath := None; wi_iterationPath := None; wi_valueArea := None;
       wi_businessValue := None; wi_targetDate := None;
       wi_acceptanceCriteria := None; wi_effort := None;
       wi_storyPoints := None; wi_activity := None; wi_remainingWork := None;
       wi_originalEstimate := None; wi_completedWork := None |}
    (Some metadata) [].

End Suite.

(** * Properties *)

(** ** Diff engine *)

Lemma flat_map_nil_iff {A B} (f : A -> list B) (l : list A) :
  flat_map f l = [] <-> forall x, In x l -> f x = [].
Proof.
  induction l as [|a l IH]; simpl.
  - split; [intros _ x [] | reflexivity].
  - split.
    + intros H x [<- | Hx].
      * destruct (f a); [reflexivity | discriminate].
      * apply IH; [|assumption].
        destruct (f a); [assumption | discriminate].
    + intros H. rewrite (H a (or_introl eq_refl)). simpl.
      apply IH. intros x Hx. apply H. right. assumption.
Qed.

Lemma forallb_false_ex {A} (f : A -> bool) (l : list A) :
  forallb f l = false -> exists x, In x l /\ f x = false.
Proof.
  induction l as [|a l IH]; simpl; [discriminate|].
  destruct (f a) eqn:E; simpl.
  - intros H. destruct (IH H) as (x & Hx & Hf). eauto.
  - intros _. eauto.
Qed.

Lemma all_fields_compared (f : FieldName) : In f COMPARE_FIELDS.
Proof. destruct f; simpl; tauto. Qed.

Lemma field_changes_nil (local : WorkItem) (ado : AdoWorkItemResponse) :
  field_changes local ado = [] <->
  forall f, isEqual (local_field (wi_props local) f) (getAdoFieldValue ado f)
            = true.
Proof.
  unfold field_changes. rewrite flat_map_nil_iff. split.
  - intros H f. specialize (H f (all_fields_compared f)). simpl in H.
    destruct (isEqual _ _); [reflexivity | discriminate].
  - intros H f _. simpl. rewrite H. reflexivity.
Qed.

Lemma length_pos_not_nil {A} (l : list A) :
  Nat.ltb 0 (length l) = true <-> l <> [].
Proof.
  destruct l; simpl; split; intros H; try congruence; try reflexivity.
  discriminate.
Qed.

Lemma newer_revision_spec (local : WorkItem) (ado : AdoWorkItemResponse) :
  newer_revision local ado = true <->
  exists r, wi_ado local ≫= md_rev = Some r /\ r <> 0%Z /\ (r < r_rev ado)%Z.
Proof.
  unfold newer_revision, recorded_rev, Js.truthy_opt_number, Js.truthy_number.
  destruct (wi_ado local ≫= md_rev) as [r|].
  - destruct (Z.eqb_spec r 0); simpl.
    + split; [discriminate | intros (r' & [= <-] & Hr & _); contradiction].
    + rewrite Z.ltb_lt. split.
      * intros H. exists r. auto.
      * intros (r' & [= <-] & _ & H). exact H.
  - split; [discriminate | intros (r' & [=] & _)].
Qed.

(** C2.  For a local item and a present remote record, the status of
    [diffWorkItem] is [conflict] exactly when some compared field
    differs, the item records a revision (its [_ado.rev] is a number
    other than 0, the test the code makes) and the remote revision is
    strictly greater; with a differing field but without that it is
    [modified]; with no differing field it is [unchanged], whatever the
    revisions. *)
Theorem diffWorkItem_status (local : WorkItem) (ado : AdoWorkItemResponse) :
  let status := wd_status (diffWorkItem local (Some ado)) in
  let differs :=
    exists f, isEqual (local_field (wi_props local) f)
                (getAdoFieldValue ado f) = false in
  let newer :=
    exists r, wi_ado local ≫= md_rev = Some r /\ r <> 0%Z
              /\ (r < r_rev ado)%Z in
  (status = SConflict <-> differs /\ newer)
  /\ (differs /\ ~ newer -> status = SModified)
  /\ (~ differs -> status = SUnchanged).
Proof.
  cbn zeta. unfold diffWorkItem. cbn [wd_status].
  pose proof (field_changes_nil local ado) as Hnil.
  pose proof (newer_revision_spec local ado) as Hnew.
  pose proof (length_pos_not_nil (field_changes local ado)) as Hlen.
  assert (Hd : field_changes local ado <> [] <->
               exists f, isEqual (local_field (wi_props local) f)
                           (getAdoFieldValue ado f) = false).
  { rewrite Hnil. split.
    - intros H.
      destruct (List.forallb
                  (fun f => isEqual (local_field (wi_props local) f)
                              (getAdoFieldValue ado f)) COMPARE_FIELDS) eqn:E.
      + exfalso. apply H. intros f.
        rewrite forallb_forall in E. apply E, all_fields_compared.
      + apply forallb_false_ex in E. destruct E as (f & _ & Hf). eauto.
    - intros (f & Hf) H. rewrite H in Hf. discriminate. }
  destruct (Nat.ltb 0 (length (field_changes local ado))) eqn:El.
  - assert (Hne : field_changes local ado <> []) by (apply Hlen; reflexivity).
    apply Hd in Hne.
    destruct (newer_revision local ado) eqn:En.
    + assert (Hn := proj1 Hnew eq_refl).
      split; [tauto | split; [tauto | intros Hno; contradiction]].
    + assert (Hn : ~ (exists r, wi_ado local ≫= md_rev = Some r /\ r <> 0%Z
                                /\ (r < r_rev ado)%Z)).
      { intros H. apply Hnew in H. discriminate. }
      split; [split; [discriminate | tauto] |].
      split; [reflexivity | intros Hno; contradiction].
  - assert (Hno : ~ field_changes local ado <> []).
    { intros H. apply Hlen in H. congruence. }
    rewrite Hd in Hno.
    split; [split; [discriminate | tauto] |].
    split; [tauto | reflexivity].
Qed.

Lemma diffWorkItem_status_witness :
  wd_status (diffWorkItem Demo.edited_item (Some (Demo.remote 123 3 "Old title")))
  = SConflict.
Proof.
  apply (proj2 (proj1 (diffWorkItem_status Demo.edited_item
                         (Demo.remote 123 3 "Old title")))).
  split.
  - exists title. reflexivity.
  - exists 1%Z. split; [reflexivity|]. split; [discriminate | reflexivity].
Defined.

Lemma diffWorkItem_status_cases (local : WorkItem)
  (ado : option AdoWorkItemResponse) :
  In (wd_status (diffWorkItem local ado))
     [SNew; SModified; SConflict; SUnchanged].
Proof.
  destruct ado as [ado|]; unfold diffWorkItem; cbn [wd_status].
  - destruct (Nat.ltb 0 _); [destruct (newer_revision _ _)|]; simpl; tauto.
  - simpl; tauto.
Qed.

Lemma count_status_absent (s : DiffStatus) (diffs : list WorkItemDiff) :
  (forall d, In d diffs -> wd_status d <> s) -> count_status s diffs = 0.
Proof.
  unfold count_status. induction diffs as [|d l IH]; intros H; [reflexivity|].
  simpl. assert (Hd : wd_status d <> s) by (apply H; left; reflexivity).
  destruct (DiffStatus_eqb (wd_status d) s) eqn:E.
  - exfalso. apply Hd. destruct (wd_status d), s; simpl in E; congruence.
  - apply IH. intros d' Hd'. apply H. right. assumption.
Qed.

(** C10.  The status computed by [diffWorkItem] is one of [new],
    [modified], [conflict] and [unchanged], never [deleted]; hence the
    summary of any list of its outputs counts no [deleted]. *)
Theorem diff_never_deleted :
  (forall local ado,
      In (wd_status (diffWorkItem local ado))
         [SNew; SModified; SConflict; SUnchanged]
      /\ wd_status (diffWorkItem local ado) <> SDeleted)
  /\ (forall inputs : list (WorkItem * option AdoWorkItemResponse),
        sum_deleted
          (getDiffSummary
             (map (fun i => diffWorkItem (fst i) (snd i)) inputs)) = 0).
Proof.
  assert (H : forall local ado, wd_status (diffWorkItem local ado) <> SDeleted).
  { intros local ado E.
    pose proof (diffWorkItem_status_cases local ado) as Hc.
    rewrite E in Hc. simpl in Hc.
    repeat (destruct Hc as [Hc | Hc]; [discriminate|]). exact Hc. }
  split.
  - intros local ado. split; [apply diffWorkItem_status_cases | apply H].
  - intros inputs. unfold getDiffSummary. cbn [sum_deleted].
    apply count_status_absent. intros d Hd.
    apply in_map_iff in Hd. destruct Hd as ([l a] & <- & _). apply H.
Qed.

(** ** Push: the decision *)

Lemma hasLocalChanges_spec (local : WorkItem) (ado : AdoWorkItemResponse) :
  hasLocalChanges local ado = true
  <-> wd_changes (diffWorkItem local (Some ado)) <> [].
Proof. unfold hasLocalChanges. apply length_pos_not_nil. Qed.

(** C3.  The decision of push for an item: without a recorded remote
    id (a truthy [_ado.workItemId]) it is [create], or [skip] in
    update-only mode, and nothing is fetched; with one, in create-only
    mode, it is [skip]; when fetching the remote record fails it is
    [create], or [skip] in update-only mode; otherwise it is
    [conflict], carrying the recorded and the fetched revision, when
    [force] is not set, a revision is recorded and the fetched one is
    strictly greater; otherwise [update] when the diff engine reports a
    field change, else [skip]. *)
Theorem determineSyncAction_cases {W} (client : AdoClient W) (item : WorkItem)
  (options : PushOptions) (w : W) :
  let decision := fst (determineSyncAction client item options w) in
  let fetched := getWorkItem client (recorded_id item) (Some ExRelations) w in
  (recorded_id item = None ->
     action decision = (if updateOnly options then ASkip else ACreate)
     /\ snd (determineSyncAction client item options w) = w)
  /\ (recorded_id item <> None -> createOnly options = true ->
       action decision = ASkip
       /\ snd (determineSyncAction client item options w) = w)
  /\ (recorded_id item <> None -> createOnly options = false ->
       forall e w', fetched = (Throw e, w') ->
         action decision = (if updateOnly options then ASkip else ACreate))
  /\ (recorded_id item <> None -> createOnly options = false ->
       forall adoItem w', fetched = (Ok adoItem, w') ->
         let stale :=
           force options = false
           /\ exists rev, wi_ado item ≫= md_rev = Some rev /\ rev <> 0%Z
                           /\ (rev < r_rev adoItem)%Z in
         (stale ->
            action decision = AConflict
            /\ exists c, conflict decision = Some c
                 /\ cf_localValue c = wi_ado item ≫= md_rev
                 /\ cf_adoValue c = r_rev adoItem)
         /\ (~ stale ->
              wd_changes (diffWorkItem item (Some adoItem)) <> [] ->
              action decision = AUpdate)
         /\ (~ stale ->
              wd_changes (diffWorkItem item (Some adoItem)) = [] ->
              action decision = ASkip)).
Proof.
  cbn zeta. unfold determineSyncAction.
  destruct (recorded_id item) as [adoId|] eqn:Eid.
  - split; [discriminate|].
    destruct (createOnly options) eqn:Ec.
    + split; [intros _ _; split; reflexivity|].
      split; intros _ [=].
    + split; [intros _ [=]|].
      destruct (getWorkItem client (Some adoId) (Some ExRelations) w)
        as [[adoItem | e] w1] eqn:Ef.
      * split; [intros _ _ e w' [=]|].
        intros _ _ adoItem' w' [= <- <-].
        pose proof (newer_revision_spec item adoItem) as Hnew.
        pose proof (hasLocalChanges_spec item adoItem) as Hch.
        destruct (force options) eqn:Efo; simpl.
        -- split; [intros [[=] _]|].
           destruct (hasLocalChanges item adoItem) eqn:Eh; cbn [fst action];
             split; intros _ H; try reflexivity.
           ++ exfalso. apply (proj1 Hch eq_refl). exact H.
           ++ apply Hch in H. discriminate.
        -- destruct (newer_revision item adoItem) eqn:En; cbn [fst action conflict].
           ++ split.
              ** intros _. split; [reflexivity|].
                 eexists. split; [reflexivity|]. split; reflexivity.
              ** assert (Hs : exists rev, wi_ado item ≫= md_rev = Some rev
                                /\ rev <> 0%Z /\ (rev < r_rev adoItem)%Z)
                   by (apply Hnew; reflexivity).
                 split; intros Hno; exfalso; apply Hno; split; auto.
           ++ split.
              ** intros [_ Hs]. apply Hnew in Hs. discriminate.
              ** destruct (hasLocalChanges item adoItem) eqn:Eh;
                   cbn [fst action]; split; intros _ H; try reflexivity.
                 --- exfalso. apply (proj1 Hch eq_refl). exact H.
                 --- apply Hch in H. discriminate.
      * split.
        -- intros _ _ e' w' [= <- <-].
           destruct (updateOnly options); reflexivity.
        -- intros _ _ adoItem w' [=].
  - split.
    + intros _. destruct (updateOnly options); split; reflexivity.
    + split; [congruence|]. split; congruence.
Qed.

Lemma determineSyncAction_cases_witness :
  action (fst (determineSyncAction Demo.client Demo.edited_item Demo.push_all
                 {| Demo.stored := [Demo.remote 123 3 "Old title"];
                    Demo.log := [] |}))
  = AConflict.
Proof.
  apply (proj1 (proj2 (proj2 (proj2
           (determineSyncAction_cases Demo.client Demo.edited_item
              Demo.push_all
              {| Demo.stored := [Demo.remote 123 3 "Old title"];
                 Demo.log := [] |})))
           ltac:(discriminate) eq_refl
           (Demo.remote 123 3 "Old title") _ eq_refl)).
  split; [reflexivity|].
  exists 1%Z. split; [reflexivity|]. split; [discriminate | reflexivity].
Defined.

(** C4.  An [update] executed for an item whose [_ado] block records
    revision [r] sends one request, a PATCH whose document is a [test]
    of [/rev] against [r] followed by the field operations; the update
    is not sent without that precondition. *)
Theorem update_conditioned_on_revision {W} (client : AdoClient W)
  (m : Memory) (item : WorkItemObj) (decision : SyncDecision)
  (config : ResolvedConfig) (ado : AdoMetadata) (r : Z) (w : W) :
  action decision = AUpdate ->
  wi_ado (o_item item) = Some ado ->
  md_rev ado = Some r ->
  exists url result,
    executeAction client m item decision config w
    = (let* _ :=
         patch_item client url
           ({| op := op_test; path := "/rev";
               value := Some (PField (Js.VNumber r)) |}
              :: buildPatchDocument (wi_props (o_item item))) in
       ret result) w
    /\ sr_action result = AUpdate.
Proof.
  intros Ha Hado Hrev. unfold executeAction. rewrite Ha, Hado.
  unfold updateWorkItem, updatePatchDocument. rewrite Hrev.
  eexists. eexists. split; reflexivity.
Qed.

Lemma update_conditioned_on_revision_witness :
  exists url result,
    executeAction Demo.client
      {| m_doc := Demo.document [Demo.edited_item]; m_items := [] |}
      {| o_item := Demo.edited_item; o_parent := None; o_depth := 0 |}
      {| action := AUpdate; reason := "Local changes detected";
         conflict := None |}
      Demo.config Demo.service_with_123
    = (let* _ :=
         patch_item Demo.client url
           ({| op := op_test; path := "/rev";
               value := Some (PField (Js.VNumber 1)) |}
              :: buildPatchDocument (wi_props Demo.edited_item)) in
       ret result) Demo.service_with_123
    /\ sr_action result = AUpdate.
Proof.
  apply (update_conditioned_on_revision Demo.client _
           {| o_item := Demo.edited_item; o_parent := None; o_depth := 0 |}
           _ _ (Demo.linked 123 1) 1%Z); reflexivity.
Defined.

(** ** Rate limiter *)

Lemma throttle_below (rl : RateLimiter) (c : Clock) :
  (now c - windowStart rl < windowMs rl)%Z ->
  (5 * requestCount rl < 4 * maxRequestsPerMinute rl)%Z ->
  throttle rl c
  = ({| requestCount := requestCount rl + 1;
        windowStart := windowStart rl;
        maxRequestsPerMinute := maxRequestsPerMinute rl;
        windowMs := windowMs rl |}, c).
Proof.
  intros Hw Hc. unfold throttle, at_threshold.
  destruct (Z.leb_spec (windowMs rl) (now c - windowStart rl)); [lia|].
  destruct (Z.leb_spec (4 * maxRequestsPerMinute rl) (5 * requestCount rl));
    [lia | reflexivity].
Qed.

Lemma throttle_at_threshold (rl : RateLimiter) (c : Clock) :
  (now c - windowStart rl < windowMs rl)%Z ->
  (4 * maxRequestsPerMinute rl <= 5 * requestCount rl)%Z ->
  let waitTime := (windowMs rl - (now c - windowStart rl))%Z in
  throttle rl c
  = ({| requestCount := 1;
        windowStart := now (sleep waitTime c);
        maxRequestsPerMinute := maxRequestsPerMinute rl;
        windowMs := windowMs rl |}, sleep waitTime c).
Proof.
  intros Hw Hc. unfold throttle, at_threshold.
  destruct (Z.leb_spec (windowMs rl) (now c - windowStart rl)); [lia|].
  destruct (Z.leb_spec (4 * maxRequestsPerMinute rl) (5 * requestCount rl));
    [reflexivity | lia].
Qed.

Lemma throttle_count (rl : RateLimiter) (c : Clock) :
  let count0 :=
    if (windowMs rl <=? now c - windowStart rl)%Z then 0%Z
    else requestCount rl in
  requestCount (fst (throttle rl c))
  = (if (4 * maxRequestsPerMinute rl <=? 5 * count0)%Z then 1 else count0 + 1)%Z
  /\ maxRequestsPerMinute (fst (throttle rl c)) = maxRequestsPerMinute rl
  /\ windowMs (fst (throttle rl c)) = windowMs rl.
Proof.
  unfold throttle, at_threshold.
  destruct (Z.leb_spec (windowMs rl) (now c - windowStart rl)); simpl;
    match goal with
    | |- context [(4 * ?n <=? 5 * ?k)%Z] => destruct (Z.leb_spec (4 * n) (5 * k))
    end; simpl; auto.
Qed.

Lemma throttle_times_below (n : nat) (rl : RateLimiter) (c : Clock) :
  (now c - windowStart rl < windowMs rl)%Z ->
  (5 * (requestCount rl + Z.of_nat n) <= 4 * maxRequestsPerMinute rl)%Z ->
  throttle_times n rl c
  = ({| requestCount := requestCount rl + Z.of_nat n;
        windowStart := windowStart rl;
        maxRequestsPerMinute := maxRequestsPerMinute rl;
        windowMs := windowMs rl |}, c).
Proof.
  revert rl. induction n as [|n IH]; intros rl Hw Hc.
  - simpl. rewrite Z.add_0_r. destruct rl; reflexivity.
  - cbn [throttle_times]. rewrite throttle_below by lia.
    rewrite IH; cbn [requestCount windowStart maxRequestsPerMinute windowMs];
      [|lia|lia].
    do 2 f_equal. lia.
Qed.

Lemma throttle_times_add (n k : nat) (rl : RateLimiter) (c : Clock) :
  throttle_times (n + k) rl c
  = let (rl', c') := throttle_times n rl c in throttle_times k rl' c'.
Proof.
  revert rl c. induction n as [|n IH]; intros rl c; [reflexivity|].
  simpl. destruct (throttle rl c) as [rl' c']. apply IH.
Qed.

(** C6.  The limiter allows 100 requests per 60 s by default.  A call
    of [throttle] first starts a new window (counter 0) when the window
    has elapsed; then, when the counter has reached 80% of the
    allowance, it sleeps for the rest of the window and resets the
    counter, and only then counts the call.  With an allowance of 10
    the first eight calls of a window do not sleep and the ninth
    sleeps and leaves the counter at 1; a call made after the window
    has elapsed leaves the counter at 1; and for a positive allowance
    [N] with [0.8 * N] an integer the counter is at most [0.8 * N] after
    any call. *)
Theorem throttle_discipline :
  (forall c,
      let rl := RateLimiter_new {| opt_maxRequestsPerMinute := None;
                                   opt_windowMs := None |} c in
      maxRequestsPerMinute rl = 100%Z /\ windowMs rl = 60000%Z
      /\ requestCount rl = 0%Z)
  /\ (forall rl c,
        let started :=
          if (windowMs rl <=? now c - windowStart rl)%Z then now c
          else windowStart rl in
        let count0 :=
          if (windowMs rl <=? now c - windowStart rl)%Z then 0%Z
          else requestCount rl in
        let waitTime := (windowMs rl - (now c - started))%Z in
        ((4 * maxRequestsPerMinute rl <= 5 * count0)%Z ->
           snd (throttle rl c) = sleep waitTime c
           /\ requestCount (fst (throttle rl c)) = 1%Z
           /\ windowStart (fst (throttle rl c)) = now (sleep waitTime c))
        /\ ((5 * count0 < 4 * maxRequestsPerMinute rl)%Z ->
             snd (throttle rl c) = c
             /\ requestCount (fst (throttle rl c)) = (count0 + 1)%Z
             /\ windowStart (fst (throttle rl c)) = started))
  /\ (forall c,
        let rl := RateLimiter_new {| opt_maxRequestsPerMinute := Some 10%Z;
                                     opt_windowMs := None |} c in
        (forall n, n <= 8 ->
           snd (throttle_times n rl c) = c
           /\ requestCount (fst (throttle_times n rl c)) = Z.of_nat n)
        /\ snd (throttle_times 9 rl c) = sleep 60000 c
        /\ requestCount (fst (throttle_times 9 rl c)) = 1%Z)
  /\ (forall rl c,
        (windowMs rl <= now c - windowStart rl)%Z ->
        requestCount (fst (throttle rl c)) = 1%Z)
  /\ (forall rl c,
        (0 < maxRequestsPerMinute rl)%Z ->
        (maxRequestsPerMinute rl mod 5 = 0)%Z ->
        forall n, 0 < n ->
        (5 * requestCount (fst (throttle_times n rl c))
         <= 4 * maxRequestsPerMinute rl)%Z).
Proof.
  split; [intros c; repeat split; reflexivity|].
  split.
  { intros rl c. cbn zeta. unfold throttle, at_threshold.
    destruct (Z.leb_spec (windowMs rl) (now c - windowStart rl));
      cbn [requestCount windowStart maxRequestsPerMinute windowMs restart];
      match goal with
      | |- context [(4 * ?n <=? 5 * ?k)%Z] =>
          destruct (Z.leb_spec (4 * n) (5 * k))
      end; cbn; split; intros H'; try lia; repeat split; reflexivity. }
  split.
  { intros c. cbn zeta.
    set (rl := RateLimiter_new _ c).
    assert (Hw : (now c - windowStart rl < windowMs rl)%Z)
      by (subst rl; simpl; lia).
    split.
    - intros n Hn. rewrite throttle_times_below; [| exact Hw |].
      + split; [reflexivity | subst rl; simpl; lia].
      + subst rl; simpl; lia.
    - change 9 with (8 + 1)%nat. rewrite throttle_times_add.
      rewrite throttle_times_below by (subst rl; simpl; lia).
      cbn [throttle_times].
      match goal with
      | |- context [throttle ?r c] =>
          rewrite (throttle_at_threshold r c) by (subst rl; simpl; lia)
      end.
      cbn [fst snd requestCount windowMs windowStart]. subst rl. simpl.
      split; [|reflexivity]. f_equal. lia. }
  split.
  { intros rl c H. destruct (throttle_count rl c) as (Hc & _).
    rewrite Hc. destruct (Z.leb_spec (windowMs rl) (now c - windowStart rl));
      [|lia].
    destruct (Z.leb_spec (4 * maxRequestsPerMinute rl) (5 * 0)); reflexivity. }
  intros rl c HN H5 n Hn. destruct n as [|n]; [lia|]. clear Hn.
  revert rl c HN H5. induction n as [|n IH]; intros rl c HN H5.
  - cbn [throttle_times]. destruct (throttle rl c) as [rl' c'] eqn:E.
    pose proof (Z_div_mod_eq_full (maxRequestsPerMinute rl) 5) as Hk.
    rewrite H5 in Hk.
    cbn [fst]. destruct (throttle_count rl c) as (Hc & HNeq & _).
    rewrite E in Hc. cbn [fst] in Hc. rewrite Hc.
    destruct (windowMs rl <=? now c - windowStart rl)%Z;
      match goal with
      | |- context [(4 * ?n <=? 5 * ?k)%Z] =>
          destruct (Z.leb_spec (4 * n) (5 * k))
      end; lia.
  - change (throttle_times (S (S n)) rl c)
      with (let (rl', c') := throttle rl c in throttle_times (S n) rl' c').
    destruct (throttle rl c) as [rl' c'] eqn:E.
    destruct (throttle_count rl c) as (_ & HNeq & _).
    rewrite E in HNeq. cbn [fst] in HNeq.
    specialize (IH rl' c'). rewrite HNeq in IH. apply IH; assumption.
Qed.

Lemma throttle_discipline_witness :
  (5 * requestCount
         (fst (throttle_times 9
                 (RateLimiter_new {| opt_maxRequestsPerMinute := Some 10%Z;
                                     opt_windowMs := None |}
                    {| now := 0; slept := [] |})
                 {| now := 0; slept := [] |}))
   <= 4 * 10)%Z.
Proof.
  apply (proj2 (proj2 (proj2 (proj2 throttle_discipline)))
           (RateLimiter_new {| opt_maxRequestsPerMinute := Some 10%Z;
                               opt_windowMs := None |}
              {| now := 0; slept := [] |})
           {| now := 0; slept := [] |});
    [simpl; lia | reflexivity | lia].
Defined.

(** ** HTTP client: the 429 response *)

Lemma request_429 {Req Body} (pat : string) (reqConfig : Req)
  (response : HttpResponse Body) (rest : list (Outcome Body))
  (st : ClientState Req) :
  status response = 429%Z ->
  request (Some pat) reqConfig (Responded response :: rest) st
  = request (Some pat) reqConfig rest
      (after_429 reqConfig (retry_after response) st).
Proof.
  intros H. cbn [request]. unfold after_429.
  destruct (throttle (rateLimiter st) (clock st)) as [rl c].
  rewrite H. cbn [Z.leb Z.ltb Z.compare Pos.compare Pos.compare_cont andb].
  unfold handleError. cbn [err_response err_config rateLimiter clock sent].
  rewrite H. rewrite Z.eqb_refl.
  destruct (handleRetryAfter _ rl c) as [rl' c']. reflexivity.
Qed.

Lemma sent_after_429 {Req} (reqConfig : Req) (header : option string)
  (st : ClientState Req) :
  sent (after_429 reqConfig header st) = sent st ++ [reqConfig].
Proof.
  unfold after_429. destruct (throttle _ _) as [rl c].
  destruct (handleRetryAfter _ rl c). reflexivity.
Qed.

(** A run of 429 answers is worked off one by one. *)
Lemma request_429s {Req Body} (pat : string) (reqConfig : Req)
  (busy : list (HttpResponse Body)) :
  Forall (fun r => status r = 429%Z) busy ->
  forall (wire : list (Outcome Body)) (st : ClientState Req),
    let st' :=
      fold_left (fun st r => after_429 reqConfig (retry_after r) st) busy st in
    request (Some pat) reqConfig ((Responded <$> busy) ++ wire) st
    = request (Some pat) reqConfig wire st'
    /\ sent st' = sent st ++ replicate (length busy) reqConfig.
Proof.
  induction 1 as [|r busy Hr _ IH]; intros wire st; cbv zeta.
  - cbn. rewrite app_nil_r. split; reflexivity.
  - cbn [fmap list_fmap app fold_left length replicate].
    rewrite request_429 by exact Hr.
    destruct (IH wire (after_429 reqConfig (retry_after r) st)) as [E Hs].
    split; [exact E|].
    rewrite Hs, sent_after_429, <- app_assoc. reflexivity.
Qed.

(** C5, as amended.  A request answered by 429 makes the client sleep
    for the retry-after delay in seconds (60 when the header is absent
    or is not a number, and also when it is 0), reset the rate-limit
    counter and send the same request again through the same pipeline.
    A 429 on the replay is therefore handled in the same way: after any
    run of such answers, whatever their headers, the request has been
    sent once for each of them and is sent once more, and a success
    that follows is returned.  Any other failure of the request or of a
    replay, a response with another status outside 200 to 299 or no
    response at all, is thrown as it is, without a further replay. *)
Theorem too_many_requests_is_replayed {Req Body} (pat : string)
  (reqConfig : Req) :
  (forall (response : HttpResponse Body) rest (st : ClientState Req),
      status response = 429%Z ->
      let st' := after_429 reqConfig (retry_after response) st in
      request (Some pat) reqConfig (Responded response :: rest) st
      = request (Some pat) reqConfig rest st'
      /\ requestCount (rateLimiter st') = 0%Z
      /\ windowStart (rateLimiter st') = now (clock st')
      /\ slept (clock st')
          = slept (snd (throttle (rateLimiter st) (clock st)))
              ++ [(retryAfter_of (retry_after response) * 1000)%Z])
  /\ (retryAfter_of None = 60%Z
       /\ forall h, (Js.parseInt h = None -> retryAfter_of (Some h) = 60%Z)
                    /\ (Js.parseInt h = Some 0%Z -> retryAfter_of (Some h) = 60%Z)
                    /\ (forall n, Js.parseInt h = Some n -> n <> 0%Z ->
                         retryAfter_of (Some h) = n))
  /\ (forall (busy : list (HttpResponse Body)) wire (st : ClientState Req),
        Forall (fun r => status r = 429%Z) busy ->
        let st' :=
          fold_left (fun st r => after_429 reqConfig (retry_after r) st)
            busy st in
        request (Some pat) reqConfig ((Responded <$> busy) ++ wire) st
        = request (Some pat) reqConfig wire st'
        /\ sent st' = sent st ++ replicate (length busy) reqConfig)
  /\ (forall (busy : list (HttpResponse Body)) (ok : HttpResponse Body) rest
             (st : ClientState Req),
        Forall (fun r => status r = 429%Z) busy ->
        (200 <= status ok < 300)%Z ->
        exists st',
          request (Some pat) reqConfig
            ((Responded <$> busy) ++ Responded ok :: rest) st
          = (inr ok, st', rest)
          /\ sent st' = sent st ++ replicate (S (length busy)) reqConfig)
  /\ (forall (busy : list (HttpResponse Body)) (failure : Outcome Body) rest
             (st : ClientState Req),
        Forall (fun r => status r = 429%Z) busy ->
        match failure with
        | Responded r => ~ (200 <= status r < 300)%Z /\ status r <> 429%Z
        | NoResponse _ => True
        end ->
        exists e st',
          request (Some pat) reqConfig
            ((Responded <$> busy) ++ failure :: rest) st
          = (inl e, st', rest)
          /\ err_response e
             = match failure with
               | Responded r => Some r
               | NoResponse _ => None
               end
          /\ match failure with
             | Responded _ => True
             | NoResponse message => err_message e = message
             end
          /\ err_config e = Some reqConfig
          /\ sent st' = sent st ++ replicate (S (length busy)) reqConfig).
Proof.
  split.
  { intros response rest st H. cbn zeta.
    split; [apply request_429; exact H|].
    unfold after_429. destruct (throttle _ _) as [rl c].
    unfold handleRetryAfter, restart, sleep. simpl. auto. }
  split.
  { split; [reflexivity|]. intros h. unfold retryAfter_of. cbn [mbind option_bind].
    split; [intros ->; reflexivity|].
    split; [intros ->; reflexivity|].
    intros n -> Hn. unfold Js.truthy_number.
    destruct (Z.eqb_spec n 0); [contradiction | reflexivity]. }
  split.
  { intros busy wire st Hb. apply request_429s. exact Hb. }
  assert (Hlast : forall k (l : list Req),
             (l ++ replicate k reqConfig) ++ [reqConfig]
             = l ++ replicate (S k) reqConfig).
  { intros k l. rewrite <- app_assoc. f_equal.
    change [reqConfig] with (replicate 1 reqConfig).
    rewrite <- replicate_add. f_equal. lia. }
  split.
  { intros busy ok rest st Hb Hok.
    destruct (request_429s pat reqConfig busy Hb (Responded ok :: rest) st)
      as [E Hs]. rewrite E. clear E.
    set (st1 := fold_left _ busy st) in *.
    cbn [request].
    destruct (throttle (rateLimiter st1) (clock st1)) as [rl c].
    cbn [rateLimiter clock sent].
    destruct (Z.leb_spec 200 (status ok)); [|lia].
    destruct (Z.ltb_spec (status ok) 300); [|lia].
    cbn [andb]. eexists. split; [reflexivity|].
    cbn [sent]. rewrite Hs. apply Hlast. }
  intros busy failure rest st Hb Hf.
  destruct (request_429s pat reqConfig busy Hb (failure :: rest) st)
    as [E Hs]. rewrite E. clear E.
  set (st1 := fold_left _ busy st) in *.
  cbn [request].
  destruct (throttle (rateLimiter st1) (clock st1)) as [rl c].
  cbn [rateLimiter clock sent].
  destruct failure as [r | message].
  - destruct Hf as [Hf H429].
    assert (E : ((200 <=? status r)%Z && (status r <? 300)%Z) = false).
    { destruct (Z.leb_spec 200 (status r));
        destruct (Z.ltb_spec (status r) 300); simpl; try reflexivity. lia. }
    rewrite E. unfold handleError. cbn [err_response].
    destruct (Z.eqb_spec (status r) 429); [contradiction|].
    eexists. eexists. split; [reflexivity|].
    split; [reflexivity|]. split; [exact I|]. split; [reflexivity|].
    cbn [sent]. rewrite Hs. apply Hlast.
  - unfold handleError. cbn [err_response].
    eexists. eexists. split; [reflexivity|].
    split; [reflexivity|]. split; [reflexivity|]. split; [reflexivity|].
    cbn [sent]. rewrite Hs. apply Hlast.
Qed.

(** C5 as stated does not hold, in two respects.  Here a first 429
    comes with the header [retry-after: 0] and a second 429, received
    on the replay, with [retry-after: 2], before a success.  The client
    sleeps 60 seconds for the first, not 0, and the second 429 is
    replayed again: the request is sent three times and succeeds. *)
Lemma second_429_is_replayed_again :
  let c0 := {| now := 0; slept := [] |} in
  let st0 :=
    {| rateLimiter := RateLimiter_new {| opt_maxRequestsPerMinute := None;
                                         opt_windowMs := None |} c0;
       clock := c0; sent := [] |} in
  let busy0 :=
    Responded {| status := 429; retry_after := Some "0"; data := "" |} in
  let busy2 :=
    Responded {| status := 429; retry_after := Some "2"; data := "" |} in
  let ok := {| status := 200; retry_after := None; data := "body" |} in
  exists st,
    request (Some "token") "GET /item" [busy0; busy2; Responded ok] st0
    = (inr ok, st, [])
    /\ sent st = ["GET /item"; "GET /item"; "GET /item"]
    /\ slept (clock st) = [60000; 2000]%Z.
Proof.
  cbn zeta. eexists. split; [vm_compute; reflexivity|].
  split; reflexivity.
Qed.

Lemma too_many_requests_is_replayed_witness :
  let c0 := {| now := 0; slept := [] |} in
  let st0 :=
    {| rateLimiter := RateLimiter_new {| opt_maxRequestsPerMinute := None;
                                         opt_windowMs := None |} c0;
       clock := c0; sent := [] |} in
  let busy := {| status := 429; retry_after := None; data := "" |} in
  exists e st,
    request (Some "token") "GET /item"
      [Responded busy; Responded busy; NoResponse "socket hang up"] st0
    = (inl e, st, [])
    /\ err_response e = None
    /\ err_message e = "socket hang up"
    /\ err_config e = Some "GET /item"
    /\ sent st = ["GET /item"; "GET /item"; "GET /item"].
Proof.
  cbn zeta.
  assert (Hb : Forall (fun r : HttpResponse string => status r = 429%Z)
                 [ {| status := 429; retry_after := None; data := "" |};
                   {| status := 429; retry_after := None; data := "" |} ])
    by (repeat constructor).
  exact (proj2 (proj2 (proj2 (proj2
           (too_many_requests_is_replayed "token" "GET /item"))))
           [ {| status := 429; retry_after := None; data := "" |};
             {| status := 429; retry_after := None; data := "" |} ]
           (NoResponse "socket hang up") []
           {| rateLimiter :=
                RateLimiter_new {| opt_maxRequestsPerMinute := None;
                                   opt_windowMs := None |}
                  {| now := 0; slept := [] |};
              clock := {| now := 0; slept := [] |}; sent := [] |}
           Hb I).
Defined.

(** ** Import: filtering *)

Lemma fetch_children_ext {W}
  (f g : Z -> ImportState W -> option (option WorkItem * ImportState W))
  (b : bool) (t ty : option string) (ids : list Z) (acc : list WorkItem)
  (s : ImportState W) :
  (forall id s, f id s = g id s) ->
  fetch_children f b t ty ids acc s = fetch_children g b t ty ids acc s.
Proof.
  intros H. revert acc s. induction ids as [|id ids IH]; intros acc s;
    [reflexivity|].
  cbn [fetch_children]. rewrite H.
  destruct (g id s) as [[[child|] s']|]; [|apply IH|reflexivity].
  destruct b; [destruct (shouldIncludeItem child t ty)|]; apply IH.
Qed.

Lemma fetch_children_unfiltered {W}
  (f : Z -> ImportState W -> option (option WorkItem * ImportState W))
  (t ty t' ty' : option string) (ids : list Z) (acc : list WorkItem)
  (s : ImportState W) :
  fetch_children f false t ty ids acc s
  = fetch_children f false t' ty' ids acc s.
Proof.
  revert acc s. induction ids as [|id ids IH]; intros acc s; [reflexivity|].
  cbn [fetch_children].
  destruct (f id s) as [[[child|] s']|]; [apply IH|apply IH|reflexivity].
Qed.

Lemma fetch_children_filtered {W}
  (f : Z -> ImportState W -> option (option WorkItem * ImportState W))
  (t ty t' ty' : option string) (ids : list Z) (acc : list WorkItem)
  (s : ImportState W) :
  fetch_children f true t ty ids
    (List.filter (fun c => shouldIncludeItem c t ty) acc) s
  = match fetch_children f false t' ty' ids acc s with
    | Some (children, s') =>
        Some (List.filter (fun c => shouldIncludeItem c t ty) children, s')
    | None => None
    end.
Proof.
  revert acc s. induction ids as [|id ids IH]; intros acc s; [reflexivity|].
  cbn [fetch_children].
  destruct (f id s) as [[[child|] s']|]; [|apply IH|reflexivity].
  rewrite <- IH. rewrite List.filter_app. cbn [List.filter].
  destruct (shouldIncludeItem child t ty); [reflexivity|].
  rewrite app_nil_r. reflexivity.
Qed.

Lemma enrich_same_scope {W} (client : AdoClient W) (c1 c2 : ImportContext)
  (id : Z) (adoItem : AdoWorkItemResponse) (workItem : WorkItem) (w : W) :
  same_scope c1 c2 ->
  enrich client c1 id adoItem workItem w
  = enrich client c2 id adoItem workItem w.
Proof.
  intros (H1 & H2 & _). unfold enrich. rewrite H1, H2. reflexivity.
Qed.

Lemma descend_same_scope (c1 c2 : ImportContext) (d1 d2 : option bool) :
  same_scope c1 c2 -> same_scope (descend c1 d1) (descend c2 d2).
Proof.
  intros (H1 & H2 & H3 & H4 & _). unfold same_scope, descend; simpl.
  rewrite H1, H2, H3, H4. auto.
Qed.

(** Below the root the filter plays no part. *)
Lemma fetch_below_root {W} (client : AdoClient W) (config : ResolvedConfig)
  (fuel : nat) :
  forall (id : Z) (c1 c2 : ImportContext) (s : ImportState W),
    same_scope c1 c2 -> isRoot c1 = Some false ->
    fetchWorkItemTree fuel client id config c1 s
    = fetchWorkItemTree fuel client id config c2 s.
Proof.
  induction fuel as [|fuel IH]; intros id c1 c2 s Hs Hr;
    pose proof Hs as (H1 & H2 & H3 & H4 & H5);
    cbn [fetchWorkItemTree]; rewrite H3, H4; [reflexivity|].
  destruct (maxDepth c2 <? currentDepth c2)%Z; [reflexivity|].
  destruct (getWorkItem client (Some id) (Some ExRelations) (is_world s))
    as [[adoItem | e] w]; [|reflexivity].
  destruct (transformAdoToYaml client adoItem config w) as [workItem w1].
  rewrite (enrich_same_scope client c1 c2) by exact Hs.
  destruct (enrich client c2 id adoItem workItem w1) as [workItem' w2].
  assert (Ha1 : shouldApplyFilter c1 = false).
  { unfold shouldApplyFilter. rewrite Hr. simpl. apply andb_false_r. }
  assert (Ha2 : shouldApplyFilter c2 = false).
  { unfold shouldApplyFilter. rewrite <- H5, Hr. simpl. apply andb_false_r. }
  rewrite Ha1, Ha2.
  rewrite (fetch_children_unfiltered _ (filterTag c1) (filterType c1)
             (filterTag c2) (filterType c2)).
  erewrite fetch_children_ext; [reflexivity|].
  intros id' s'. apply IH; [apply descend_same_scope; exact Hs | reflexivity].
Qed.

Lemma shouldIncludeItem_no_filter (context : ImportContext) (l : list WorkItem) :
  hasFilters context = false ->
  List.filter
    (fun c => shouldIncludeItem c (filterTag context) (filterType context)) l
  = l.
Proof.
  unfold hasFilters, shouldIncludeItem. intros H.
  destruct (Js.truthy_opt_string (filterTag context));
    destruct (Js.truthy_opt_string (filterType context)); try discriminate.
  induction l as [|x l IH]; [reflexivity|]. cbn [List.filter]. rewrite IH.
  reflexivity.
Qed.

Lemma fetch_at_root {W} (client : AdoClient W) (config : ResolvedConfig)
  (fuel : nat) (id : Z) (context : ImportContext) (s : ImportState W) :
  isRoot context = Some true ->
  truthy_flag (filterDisabled context) = false ->
  fetchWorkItemTree fuel client id config context s
  = match fetchWorkItemTree fuel client id config (without_filters context) s
    with
    | Some (Some tree, s') =>
        Some (Some (prune (filterTag context) (filterType context) tree), s')
    | other => other
    end.
Proof.
  intros Hr Hd. destruct fuel as [|fuel]; cbn [fetchWorkItemTree];
    change (maxDepth (without_filters context)) with (maxDepth context);
    change (currentDepth (without_filters context))
      with (currentDepth context);
    destruct (maxDepth context <? currentDepth context)%Z; try reflexivity.
  destruct (getWorkItem client (Some id) (Some ExRelations) (is_world s))
    as [[adoItem | e] w]; [|reflexivity].
  destruct (transformAdoToYaml client adoItem config w) as [workItem w1].
  assert (Hs : same_scope context (without_filters context))
    by (unfold same_scope; simpl; auto).
  rewrite <- (enrich_same_scope client _ _ id adoItem workItem w1 Hs).
  destruct (enrich client context id adoItem workItem w1) as [workItem' w2].
  assert (Ha0 : shouldApplyFilter (without_filters context) = false)
    by reflexivity.
  assert (Ha : shouldApplyFilter context = hasFilters context).
  { unfold shouldApplyFilter. rewrite Hr, Hd. simpl.
    rewrite !andb_true_r. reflexivity. }
  rewrite Ha0, Ha.
  set (s2 := {| is_world := w2; is_results := _ |}).
  set (f0 := fun (childId : Z) (s : ImportState W) =>
               fetchWorkItemTree fuel client childId config
                 (descend (without_filters context)
                    (filterDisabled (without_filters context))) s).
  assert (Hext : forall d childId s',
             fetchWorkItemTree fuel client childId config
               (descend context d) s' = f0 childId s').
  { intros d childId s'. subst f0. cbn beta.
    apply fetch_below_root; [apply descend_same_scope; exact Hs|reflexivity]. }
  destruct (hasFilters context) eqn:Eh.
  - rewrite (fetch_children_ext _ f0) by (intros; apply Hext).
    change (@nil WorkItem)
      with (List.filter
              (fun c => shouldIncludeItem c (filterTag context)
                          (filterType context)) (@nil WorkItem)) at 1.
    rewrite (fetch_children_filtered f0 _ _
               (filterTag (without_filters context))
               (filterType (without_filters context))).
    destruct (fetch_children f0 false _ _ _ [] s2) as [[children s3]|];
      reflexivity.
  - rewrite (fetch_children_ext _ f0) by (intros; apply Hext).
    rewrite (fetch_children_unfiltered f0 _ _
               (filterTag (without_filters context))
               (filterType (without_filters context))).
    destruct (fetch_children f0 false _ _ _ [] s2) as [[children s3]|];
      [|reflexivity].
    unfold prune. cbn [wi_props wi_ado wi_children].
    rewrite shouldIncludeItem_no_filter by exact Eh. reflexivity.
Qed.

Lemma fetch_children_total {W}
  (f : Z -> ImportState W -> option (option WorkItem * ImportState W))
  (b : bool) (t ty : option string) (ids : list Z) (acc : list WorkItem)
  (s : ImportState W) :
  (forall id s, f id s <> None) ->
  fetch_children f b t ty ids acc s <> None.
Proof.
  intros H. revert acc s. induction ids as [|id ids IH]; intros acc s;
    [discriminate|].
  cbn [fetch_children]. specialize (H id s).
  destruct (f id s) as [[[child|] s']|]; [| apply IH | contradiction].
  destruct b; [destruct (shouldIncludeItem child t ty)|]; apply IH.
Qed.

(** The depth check bounds the recursion: with the depth budget as
    fuel, [fetchWorkItemTree] returns. *)
Lemma fetch_total {W} (client : AdoClient W) (config : ResolvedConfig)
  (fuel : nat) :
  forall (id : Z) (context : ImportContext) (s : ImportState W),
    depth_budget context <= fuel ->
    fetchWorkItemTree fuel client id config context s <> None.
Proof.
  induction fuel as [|fuel IH]; intros id context s Hb;
    cbn [fetchWorkItemTree];
    destruct (Z.ltb_spec (maxDepth context) (currentDepth context));
    try discriminate.
  - unfold depth_budget in Hb. lia.
  - destruct (getWorkItem client (Some id) (Some ExRelations) (is_world s))
      as [[adoItem | e] w]; [|discriminate].
    destruct (transformAdoToYaml client adoItem config w) as [workItem w1].
    destruct (enrich client context id adoItem workItem w1) as [workItem' w2].
    match goal with
    | |- context [fetch_children ?f ?b ?t ?ty ?ids ?acc ?s0] =>
        pose proof (fetch_children_total f b t ty ids acc s0) as Ht;
        destruct (fetch_children f b t ty ids acc s0) as [[children s3]|]
    end; [discriminate|].
    exfalso. apply Ht; [|reflexivity].
    intros id' s'. apply IH. unfold depth_budget, descend in *. simpl. lia.
Qed.

(** ** Hierarchy: the two traversals *)

(** Induction on a work item, with the property known for its
    children. *)
Lemma WorkItem_children_ind (P : WorkItem -> Prop) :
  (forall props ado children,
      Forall P children -> P (mkWorkItem props ado children)) ->
  forall w, P w.
Proof.
  intros H. fix IH 1. intros [props ado children]. apply H.
  induction children as [|c cs IHcs]; constructor; [apply IH | exact IHcs].
Qed.

Lemma preorder_item_eq (w : WorkItem) :
  preorder_item w = [] :: preorder_from 0 (wi_children w).
Proof.
  destruct w as [props ado children]. reflexivity.
Qed.

Lemma postorder_item_eq (w : WorkItem) :
  postorder_item w = postorder_from 0 (wi_children w) ++ [[]].
Proof.
  destruct w as [props ado children]. reflexivity.
Qed.

Lemma visit_loop_eq (e : WorkItemWithParent) (depth : nat)
  (items : list WorkItem) (result : list WorkItemWithParent) :
  (fix traverse (items : list WorkItem) (result : list WorkItemWithParent) :=
     match items with
     | [] => result
     | child :: rest =>
         traverse rest (visit child (Some e) (S depth) result)
     end) items result
  = traverse items (Some e) (S depth) result.
Proof.
  revert result. induction items as [|x l IH]; intros res; [reflexivity|].
  cbn [traverse]. rewrite <- IH. reflexivity.
Qed.

Lemma visit_eq (w : WorkItem) (parent : option WorkItemWithParent)
  (depth : nat) (result : list WorkItemWithParent) :
  visit w parent depth result
  = traverse (wi_children w) (Some (mkWithParent w parent depth)) (S depth)
      (result ++ [mkWithParent w parent depth]).
Proof.
  destruct w as [props ado children]. cbn [wi_children].
  rewrite <- visit_loop_eq.
  destruct children as [|c cs]; reflexivity.
Qed.

Lemma visitReverse_loop_eq (e : WorkItemWithParent) (depth : nat)
  (items : list WorkItem) (result : list WorkItemWithParent) :
  (fix traverse (items : list WorkItem) (result : list WorkItemWithParent) :=
     match items with
     | [] => result
     | child :: rest =>
         traverse rest (visitReverse child (Some e) (S depth) result)
     end) items result
  = traverseReverse items (Some e) (S depth) result.
Proof.
  revert result. induction items as [|x l IH]; intros res; [reflexivity|].
  cbn [traverseReverse]. rewrite <- IH. reflexivity.
Qed.

Lemma visitReverse_eq (w : WorkItem) (parent : option WorkItemWithParent)
  (depth : nat) (result : list WorkItemWithParent) :
  visitReverse w parent depth result
  = traverseReverse (wi_children w) (Some (mkWithParent w parent depth))
      (S depth) result ++ [mkWithParent w parent depth].
Proof.
  destruct w as [props ado children]. cbn [wi_children].
  rewrite <- visitReverse_loop_eq.
  destruct children as [|c cs]; reflexivity.
Qed.

Lemma entry_from_here (pre suf : list WorkItem) (w : WorkItem)
  (parent : option WorkItemWithParent) (depth : nat) :
  entry_from (pre ++ w :: suf) parent depth [length pre]
  = Some (mkWithParent w parent depth).
Proof.
  cbn [entry_from]. rewrite list_lookup_middle by reflexivity. reflexivity.
Qed.

Lemma entry_from_below (pre suf : list WorkItem) (w : WorkItem)
  (parent : option WorkItemWithParent) (depth : nat) (q : position)
  (e : WorkItemWithParent) :
  entry_from (wi_children w) (Some (mkWithParent w parent depth)) (S depth) q
  = Some e ->
  entry_from (pre ++ w :: suf) parent depth (length pre :: q) = Some e.
Proof.
  destruct q as [|i q]; [discriminate|]. intros H.
  cbn [entry_from]. rewrite list_lookup_middle by reflexivity. exact H.
Qed.

Lemma traverse_appends (ws : list WorkItem) :
  Forall (appends_entries preorder_item visit) ws ->
  appends_entries_list preorder_from traverse ws.
Proof.
  induction 1 as [|w r Hw _ IH]; intros pre parent depth result.
  - exists []. split; [symmetry; apply app_nil_r | constructor].
  - destruct (Hw pre r parent depth result) as (l1 & E1 & F1).
    destruct (IH (pre ++ [w]) parent depth (result ++ l1)) as (l2 & E2 & F2).
    exists (l1 ++ l2). cbn [traverse preorder_from]. rewrite E1, E2.
    split; [symmetry; apply app_assoc|].
    apply Forall2_app.
    + apply Forall2_fmap_r. exact F1.
    + rewrite <- app_assoc in F2. cbn [app] in F2.
      rewrite length_app in F2. cbn [length] in F2.
      rewrite Nat.add_1_r in F2. exact F2.
Qed.

Lemma visit_appends (w : WorkItem) : appends_entries preorder_item visit w.
Proof.
  induction w as [props ado children IH] using WorkItem_children_ind.
  intros pre suf parent depth result. rewrite visit_eq, preorder_item_eq.
  cbn [wi_children].
  set (w := mkWorkItem props ado children).
  set (e := mkWithParent w parent depth).
  destruct (traverse_appends children IH [] (Some e) (S depth) (result ++ [e]))
    as (l & E & F).
  exists (e :: l). rewrite E. split; [rewrite <- app_assoc; reflexivity|].
  constructor; [apply entry_from_here|].
  eapply Forall2_impl; [exact F|]. intros x q Hx.
  apply entry_from_below. exact Hx.
Qed.

Lemma traverseReverse_appends (ws : list WorkItem) :
  Forall (appends_entries postorder_item visitReverse) ws ->
  appends_entries_list postorder_from traverseReverse ws.
Proof.
  induction 1 as [|w r Hw _ IH]; intros pre parent depth result.
  - exists []. split; [symmetry; apply app_nil_r | constructor].
  - destruct (Hw pre r parent depth result) as (l1 & E1 & F1).
    destruct (IH (pre ++ [w]) parent depth (result ++ l1)) as (l2 & E2 & F2).
    exists (l1 ++ l2). cbn [traverseReverse postorder_from]. rewrite E1, E2.
    split; [symmetry; apply app_assoc|].
    apply Forall2_app.
    + apply Forall2_fmap_r. exact F1.
    + rewrite <- app_assoc in F2. cbn [app] in F2.
      rewrite length_app in F2. cbn [length] in F2.
      rewrite Nat.add_1_r in F2. exact F2.
Qed.

Lemma visitReverse_appends (w : WorkItem) :
  appends_entries postorder_item visitReverse w.
Proof.
  induction w as [props ado children IH] using WorkItem_children_ind.
  intros pre suf parent depth result.
  rewrite visitReverse_eq, postorder_item_eq. cbn [wi_children].
  set (w := mkWorkItem props ado children).
  set (e := mkWithParent w parent depth).
  destruct (traverseReverse_appends children IH [] (Some e) (S depth) result)
    as (l & E & F).
  exists (l ++ [e]). rewrite E. split; [symmetry; apply app_assoc|].
  apply Forall2_app.
  - eapply Forall2_impl; [exact F|]. intros x q Hx.
    apply entry_from_below. exact Hx.
  - constructor; [apply entry_from_here | constructor].
Qed.

Lemma flattenHierarchy_entries (doc : WorkItemsDocument) :
  Forall2 (fun e p => entry_at doc p = Some e)
    (flattenHierarchy doc) (preorder_from 0 (workItems doc)).
Proof.
  destruct (traverse_appends (workItems doc)) with (pre := @nil WorkItem)
    (parent := @None WorkItemWithParent) (depth := 0)
    (result := @nil WorkItemWithParent) as (l & E & F).
  - apply Forall_forall. intros w _. apply visit_appends.
  - unfold flattenHierarchy. rewrite E. exact F.
Qed.

Lemma flattenHierarchyReverse_entries (doc : WorkItemsDocument) :
  Forall2 (fun e p => entry_at doc p = Some e)
    (flattenHierarchyReverse doc) (postorder_from 0 (workItems doc)).
Proof.
  destruct (traverseReverse_appends (workItems doc)) with (pre := @nil WorkItem)
    (parent := @None WorkItemWithParent) (depth := 0)
    (result := @nil WorkItemWithParent) as (l & E & F).
  - apply Forall_forall. intros w _. apply visitReverse_appends.
  - unfold flattenHierarchyReverse. rewrite E. exact F.
Qed.

Lemma preorder_from_elem (items : list WorkItem) :
  forall (i : nat) (p : position),
    p ∈ preorder_from i items
    <-> exists k w q, p = (i + k) :: q /\ items !! k = Some w
                      /\ q ∈ preorder_item w.
Proof.
  induction items as [|w r IH]; intros i p; cbn [preorder_from].
  - split; [intros H; inversion H | intros (k & w & q & _ & H & _)].
    rewrite lookup_nil in H. discriminate.
  - rewrite elem_of_app, list_elem_of_fmap, IH. split.
    + intros [(q & -> & Hq) | (k & w' & q & -> & Hk & Hq)].
      * exists 0, w, q. rewrite Nat.add_0_r. auto.
      * exists (S k), w', q. rewrite Nat.add_succ_r. auto.
    + intros (k & w' & q & -> & Hk & Hq). destruct k as [|k].
      * left. exists q. rewrite Nat.add_0_r. cbn in Hk.
        injection Hk as <-. auto.
      * right. exists k, w', q. rewrite Nat.add_succ_r. auto.
Qed.

Lemma preorder_from_split (l1 l2 : list WorkItem) (w : WorkItem) (i : nat) :
  preorder_from i (l1 ++ w :: l2)
  = preorder_from i l1 ++ (cons (i + length l1) <$> preorder_item w)
      ++ preorder_from (S (i + length l1)) l2.
Proof.
  revert i. induction l1 as [|x l1 IH]; intros i.
  - cbn [app preorder_from length]. rewrite Nat.add_0_r. reflexivity.
  - cbn [app preorder_from length]. rewrite IH, <- app_assoc.
    rewrite Nat.add_succ_r. reflexivity.
Qed.

Lemma postorder_from_split (l1 l2 : list WorkItem) (w : WorkItem) (i : nat) :
  postorder_from i (l1 ++ w :: l2)
  = postorder_from i l1 ++ (cons (i + length l1) <$> postorder_item w)
      ++ postorder_from (S (i + length l1)) l2.
Proof.
  revert i. induction l1 as [|x l1 IH]; intros i.
  - cbn [app postorder_from length]. rewrite Nat.add_0_r. reflexivity.
  - cbn [app postorder_from length]. rewrite IH, <- app_assoc.
    rewrite Nat.add_succ_r. reflexivity.
Qed.

Lemma preorder_nonempty (items : list WorkItem) (i : nat) :
  [] ∉ preorder_from i items.
Proof.
  intros H. apply preorder_from_elem in H.
  destruct H as (k & w & q & [=] & _).
Qed.

(** A position is listed exactly when it is the position of a node. *)
Lemma preorder_complete (p : position) :
  forall items, p ∈ preorder_from 0 items <-> is_Some (node_at items p).
Proof.
  induction p as [|k q IH]; intros items.
  - split; [intros H; exfalso; revert H; apply preorder_nonempty|].
    intros [x Hx]. discriminate.
  - rewrite preorder_from_elem. cbn [node_at]. split.
    + intros (k' & w & q' & [= <- <-] & Hk & Hq). rewrite Hk.
      rewrite preorder_item_eq in Hq. destruct q as [|j q]; [eauto|].
      apply IH. apply elem_of_cons in Hq. destruct Hq as [[=] | Hq]. exact Hq.
    + destruct (items !! k) as [w|] eqn:Hk; [|intros [x [=]]].
      intros Hn. exists k, w, q. split; [reflexivity|]. split; [exact Hk|].
      rewrite preorder_item_eq. destruct q as [|j q]; [left|].
      right. apply IH. exact Hn.
Qed.

Lemma postorder_Permutation_list (ws : list WorkItem) :
  Forall (fun w => postorder_item w ≡ₚ preorder_item w) ws ->
  forall i, postorder_from i ws ≡ₚ preorder_from i ws.
Proof.
  induction 1 as [|w r Hw _ IH]; intros i; [reflexivity|].
  cbn [postorder_from preorder_from]. rewrite Hw, IH. reflexivity.
Qed.

Lemma postorder_Permutation_item (w : WorkItem) :
  postorder_item w ≡ₚ preorder_item w.
Proof.
  induction w as [props ado children IH] using WorkItem_children_ind.
  rewrite postorder_item_eq, preorder_item_eq. cbn [wi_children].
  rewrite (postorder_Permutation_list children IH 0).
  symmetry. apply Permutation_cons_append.
Qed.

Lemma postorder_Permutation (items : list WorkItem) (i : nat) :
  postorder_from i items ≡ₚ preorder_from i items.
Proof.
  apply postorder_Permutation_list, Forall_forall.
  intros w _. apply postorder_Permutation_item.
Qed.

Lemma preorder_NoDup_list (ws : list WorkItem) :
  Forall (fun w => NoDup (preorder_item w)) ws ->
  forall i, NoDup (preorder_from i ws).
Proof.
  induction 1 as [|w r Hw _ IH]; intros i; cbn [preorder_from];
    [constructor|].
  apply NoDup_app. split; [|split; [|apply IH]].
  - apply NoDup_fmap_2; [|exact Hw]. intros x y [=]. assumption.
  - intros p Hp Hp'. apply list_elem_of_fmap in Hp. destruct Hp as (q & -> & _).
    apply preorder_from_elem in Hp'.
    destruct Hp' as (k & w' & q' & [= Hk _] & _). lia.
Qed.

Lemma preorder_NoDup_item (w : WorkItem) : NoDup (preorder_item w).
Proof.
  induction w as [props ado children IH] using WorkItem_children_ind.
  rewrite preorder_item_eq. cbn [wi_children]. apply NoDup_cons. split.
  - apply preorder_nonempty.
  - apply preorder_NoDup_list. exact IH.
Qed.

Lemma preorder_NoDup (items : list WorkItem) (i : nat) :
  NoDup (preorder_from i items).
Proof.
  apply preorder_NoDup_list, Forall_forall.
  intros w _. apply preorder_NoDup_item.
Qed.

Lemma before_app_l {A} (l k : list A) (x y : A) :
  before l x y -> before (l ++ k) x y.
Proof.
  intros (i & j & Hi & Hj & Hij). exists i, j.
  split; [|split; [|exact Hij]]; apply lookup_app_l_Some; assumption.
Qed.

Lemma before_app_r {A} (l k : list A) (x y : A) :
  before k x y -> before (l ++ k) x y.
Proof.
  intros (i & j & Hi & Hj & Hij). exists (length l + i), (length l + j).
  rewrite !lookup_app_r by lia.
  replace (length l + i - length l) with i by lia.
  replace (length l + j - length l) with j by lia.
  split; [exact Hi|]. split; [exact Hj | lia].
Qed.

Lemma before_fmap {A B} (f : A -> B) (l : list A) (x y : A) :
  before l x y -> before (f <$> l) (f x) (f y).
Proof.
  intros (i & j & Hi & Hj & Hij). exists i, j.
  rewrite !list_lookup_fmap, Hi, Hj. auto.
Qed.

Lemma before_head {A} (l : list A) (x y : A) :
  y ∈ l -> before (x :: l) x y.
Proof.
  intros H. apply list_elem_of_lookup in H. destruct H as (j & Hj).
  exists 0, (S j). split; [reflexivity|]. split; [exact Hj | lia].
Qed.

Lemma before_last {A} (l : list A) (x y : A) :
  x ∈ l -> before (l ++ [y]) x y.
Proof.
  intros H. apply list_elem_of_lookup in H. destruct H as (i & Hi).
  exists i, (length l). split; [apply lookup_app_l_Some; exact Hi|].
  split; [apply list_lookup_middle; reflexivity|].
  apply lookup_lt_Some in Hi. exact Hi.
Qed.

Lemma lookup_split {A} (l : list A) (k : nat) (x : A) :
  l !! k = Some x -> exists l1 l2, l = l1 ++ x :: l2 /\ length l1 = k.
Proof.
  intros H. exists (take k l), (drop (S k) l). split.
  - symmetry. apply take_drop_middle. exact H.
  - apply length_take_le. apply lookup_lt_Some in H. lia.
Qed.

(** In the order parent first, an ancestor comes before its
    descendants. *)
Lemma preorder_ancestor_first (p : position) :
  forall (items : list WorkItem) (r : position),
    p <> [] -> r <> [] -> (p ++ r) ∈ preorder_from 0 items ->
    before (preorder_from 0 items) p (p ++ r).
Proof.
  induction p as [|k p IH]; intros items r Hp Hr H; [contradiction|].
  cbn [app] in *. apply preorder_from_elem in H.
  destruct H as (k' & w & q & [= <- <-] & Hk & Hq).
  destruct (lookup_split _ _ _ Hk) as (l1 & l2 & -> & Hl).
  rewrite preorder_from_split. cbn [Nat.add]. rewrite Hl.
  apply before_app_r, before_app_l.
  change (k :: p) with (cons k p).
  change (k :: p ++ r) with (cons k (p ++ r)).
  apply before_fmap. rewrite preorder_item_eq in Hq |- *.
  apply elem_of_cons in Hq. destruct Hq as [Hq | Hq].
  { destruct p; [contradiction | discriminate]. }
  destruct p as [|j p].
  - apply before_head. exact Hq.
  - apply (before_app_r [[]]). apply IH; [discriminate | exact Hr | exact Hq].
Qed.

(** In the order children first, a descendant comes before its
    ancestors. *)
Lemma postorder_descendant_first (p : position) :
  forall (items : list WorkItem) (r : position),
    p <> [] -> r <> [] -> (p ++ r) ∈ postorder_from 0 items ->
    before (postorder_from 0 items) (p ++ r) p.
Proof.
  induction p as [|k p IH]; intros items r Hp Hr H; [contradiction|].
  cbn [app] in *. rewrite postorder_Permutation in H.
  apply preorder_from_elem in H.
  destruct H as (k' & w & q & [= <- <-] & Hk & Hq).
  destruct (lookup_split _ _ _ Hk) as (l1 & l2 & -> & Hl).
  rewrite postorder_from_split. cbn [Nat.add]. rewrite Hl.
  apply before_app_r, before_app_l.
  change (k :: p) with (cons k p).
  change (k :: p ++ r) with (cons k (p ++ r)).
  apply before_fmap. rewrite preorder_item_eq in Hq.
  rewrite postorder_item_eq.
  apply elem_of_cons in Hq. destruct Hq as [Hq | Hq].
  { destruct p; [contradiction | discriminate]. }
  rewrite <- (postorder_Permutation (wi_children w) 0) in Hq.
  destruct p as [|j p].
  - apply before_last. exact Hq.
  - apply before_app_l. apply IH; [discriminate | exact Hr | exact Hq].
Qed.

(** The entry at a position holds the node at that position, its
    depth, and the entry of its parent. *)
Lemma entry_from_facts (p : position) :
  forall items parent depth e,
    entry_from items parent depth p = Some e ->
    node_at items p = Some (wp_item e)
    /\ wp_depth e = depth + length p - 1
    /\ wp_parent e = match removelast p with
                     | [] => parent
                     | q => entry_from items parent depth q
                     end.
Proof.
  induction p as [|i q IH]; intros items parent depth e H; [discriminate|].
  cbn [entry_from node_at] in *.
  destruct (items !! i) as [w|] eqn:Hi; [|discriminate].
  destruct q as [|j q].
  - injection H as <-. cbn. repeat split; lia.
  - apply IH in H. destruct H as (Hn & Hd & Hp).
    split; [exact Hn|]. split; [rewrite Hd; cbn [length]; lia|].
    rewrite Hp. change (removelast (i :: j :: q)) with (i :: removelast (j :: q)).
    destruct (removelast (j :: q)) as [|j' q'] eqn:Er.
    + cbn [entry_from]. rewrite Hi. reflexivity.
    + cbn [entry_from]. rewrite Hi. reflexivity.
Qed.

(** C7.  [flattenHierarchy] lists the entry of every node of the
    document exactly once, an ancestor (so a parent) always before its
    descendants; [flattenHierarchyReverse] lists the same entries, a
    descendant (so a child) always before its ancestors.  The entry of
    a node holds the node, its depth (0 for a root) and the entry of
    its parent. *)
Theorem flatten_visits_each_node_once (doc : WorkItemsDocument) :
  exists pre post : list position,
    Forall2 (fun e p => entry_at doc p = Some e) (flattenHierarchy doc) pre
    /\ Forall2 (fun e p => entry_at doc p = Some e)
         (flattenHierarchyReverse doc) post
    /\ NoDup pre
    /\ (forall p, p ∈ pre <-> is_Some (node_at (workItems doc) p))
    /\ post ≡ₚ pre
    /\ (forall p q, p <> [] -> ancestor p q -> q ∈ pre -> before pre p q)
    /\ (forall p q, p <> [] -> ancestor p q -> q ∈ post -> before post q p)
    /\ (forall p e, entry_at doc p = Some e ->
          node_at (workItems doc) p = Some (wp_item e)
          /\ wp_depth e = length p - 1
          /\ wp_parent e = entry_at doc (removelast p)).
Proof.
  exists (preorder_from 0 (workItems doc)), (postorder_from 0 (workItems doc)).
  split; [apply flattenHierarchy_entries|].
  split; [apply flattenHierarchyReverse_entries|].
  split; [apply preorder_NoDup|].
  split; [intros p; apply preorder_complete|].
  split; [apply postorder_Permutation|].
  split.
  { intros p q Hp (r & Hr & ->) Hq. apply preorder_ancestor_first; assumption. }
  split.
  { intros p q Hp (r & Hr & ->) Hq.
    apply postorder_descendant_first; assumption. }
  intros p e H. unfold entry_at in *.
  destruct (entry_from_facts p _ _ _ _ H) as (Hn & Hd & Hp).
  split; [exact Hn|]. split; [exact Hd|].
  rewrite Hp. destruct (removelast p); reflexivity.
Qed.

Lemma flatten_visits_each_node_once_witness :
  let doc :=
    Demo.document
      [ mkWorkItem (Demo.props "Feature" "f" "F") None
          [ mkWorkItem (Demo.props "Task" "a" "A") None [];
            mkWorkItem (Demo.props "Task" "b" "B") None [] ] ] in
  exists pre post : list position,
    Forall2 (fun e p => entry_at doc p = Some e) (flattenHierarchy doc) pre
    /\ Forall2 (fun e p => entry_at doc p = Some e)
         (flattenHierarchyReverse doc) post
    /\ before pre [0] [0; 1]
    /\ before post [0; 1] [0].
Proof.
  cbn zeta.
  destruct (flatten_visits_each_node_once
              (Demo.document
                 [ mkWorkItem (Demo.props "Feature" "f" "F") None
                     [ mkWorkItem (Demo.props "Task" "a" "A") None [];
                       mkWorkItem (Demo.props "Task" "b" "B") None [] ] ]))
    as (pre & post & F & F' & _ & C & P & B & B' & _).
  exists pre, post. split; [exact F|]. split; [exact F'|].
  assert (Hin : [0; 1] ∈ pre) by (apply C; cbn; eauto).
  split.
  - apply B; [discriminate | exists [1]; split; [discriminate | reflexivity]
             | exact Hin].
  - apply B'; [discriminate | exists [1]; split; [discriminate | reflexivity]
              | rewrite P; exact Hin].
Defined.

(** ** Push and pull: the document and the array *)

Lemma updateItemMetadata_keeps_document (a : nat) (metadata : AdoMetadata)
  (m : Memory) :
  m_doc (updateItemMetadata (InArray a) metadata m) = m_doc m.
Proof.
  unfold updateItemMetadata. destruct (deref m (InArray a)); reflexivity.
Qed.

Lemma push_step_keeps_document {W} (client : AdoClient W)
  (config : ResolvedConfig) (options : PushOptions) (a : nat) (s : Run)
  (w : W) :
  m_doc (run_mem (fst (push_step client config options a s w)))
  = m_doc (run_mem s).
Proof.
  unfold push_step.
  destruct (m_items (run_mem s) !! a) as [item|]; [|reflexivity].
  destruct (determineSyncAction client (o_item item) options w)
    as [decision w1].
  destruct (dryRun options); [reflexivity|].
  destruct (executeAction client (run_mem s) item decision config w1)
    as [[result | e] w2]; [|reflexivity].
  destruct (sr_success result && is_create_or_update (sr_action result));
    [|reflexivity].
  destruct (getWorkItem client (sr_workItemId result) (Some ExRelations) w2)
    as [[adoItem | e] w3]; [|reflexivity].
  destruct (extractAdoMetadata client adoItem _ _ w3) as [metadata w4].
  cbn [fst run_mem]. apply updateItemMetadata_keeps_document.
Qed.

Lemma for_each_keeps_document {W} (body : nat -> Run -> W -> Run * W)
  (items : list nat) :
  (forall a s w, m_doc (run_mem (fst (body a s w))) = m_doc (run_mem s)) ->
  forall s w,
    m_doc (run_mem (fst (for_each body items s w))) = m_doc (run_mem s).
Proof.
  intros H. induction items as [|a rest IH]; intros s w; [reflexivity|].
  cbn [for_each]. specialize (H a s w).
  destruct (body a s w) as [s' w']. rewrite IH. exact H.
Qed.

(** Whatever the remote service answers, [pushWorkItems] returns with
    the document as it received it: the metadata fetched after a
    create or an update is stored in the objects of the array built by
    [flattenHierarchy], which are copies of the nodes. *)
Lemma pushWorkItems_keeps_document {W} (client : AdoClient W)
  (doc : WorkItemsDocument) (config : ResolvedConfig)
  (options : PushOptions) (w : W) :
  m_doc (snd (fst (pushWorkItems client doc config options w))) = doc.
Proof.
  unfold pushWorkItems.
  match goal with
  | |- context [for_each ?b ?l ?s0 w] =>
      pose proof (for_each_keeps_document b l
                    (push_step_keeps_document client config options) s0 w)
        as H;
      destruct (for_each b l s0 w) as [s w']
  end.
  exact H.
Qed.

(** C1 fails on the code.  A document with one item linked to remote
    item 123 at revision 1, whose title was edited, is pushed: the
    update succeeds and the remote revision becomes 2; the object of
    the array holds revision 2 and the new sync time, but the item
    looked up in the document still holds revision 1 and the old sync
    time. *)
Theorem push_leaves_document_stale :
  let doc := Demo.document [Demo.edited_item] in
  let run :=
    pushWorkItems Demo.client doc Demo.config Demo.push_all
      Demo.service_with_123 in
  let results := fst (fst run) in
  let m := snd (fst run) in
  map (fun r => (sr_action r, sr_success r, sr_workItemId r)) results
  = [(AUpdate, true, Some 123%Z)]
  /\ r_rev <$> Demo.find_item 123 (snd run) = Some 2%Z
  /\ (ado_of m (InArray 0) ≫= md_rev) = Some 2%Z
  /\ (ado_of m (InArray 0) ≫= md_lastSyncedAt)
     = Some "2024-01-03T00:00:00.000Z"
  /\ (ado_of m (InDocument [0]) ≫= md_rev) = Some 1%Z
  /\ (ado_of m (InDocument [0]) ≫= md_lastSyncedAt)
     = Some "2024-01-01T00:00:00.000Z"
  /\ m_doc m = doc
  /\ (let pulled :=
        pullWorkItems Demo.client doc Demo.config Demo.pull_plain
          {| Demo.stored := [Demo.remote 123 5 "Old title"];
             Demo.log := [] |} in
      let m := snd (fst pulled) in
      (map (fun r => (sr_action r, sr_success r)) <$> Ok_value (fst (fst pulled)))
      = Some [(AUpdate, true)]
      /\ (ado_of m (InArray 0) ≫= md_rev) = Some 5%Z
      /\ (ado_of m (InDocument [0]) ≫= md_rev) = Some 1%Z).
Proof. vm_compute. repeat split; reflexivity. Qed.

Lemma adoMap_of_lookup_None (adoItems : list AdoWorkItemResponse) (id : Z) :
  adoMap_of adoItems !! id = None <-> id ∉ (r_id <$> adoItems).
Proof.
  unfold adoMap_of.
  assert (H : forall (m : gmap Z AdoWorkItemResponse),
             fold_left (fun m item => <[ r_id item := item ]> m) adoItems m
               !! id = None
             <-> m !! id = None /\ id ∉ (r_id <$> adoItems)).
  { induction adoItems as [|x l IH]; intros m; cbn [fold_left fmap list_fmap].
    - split; [intros H; split; [exact H | apply not_elem_of_nil] | tauto].
    - rewrite IH, not_elem_of_cons. rewrite lookup_insert_None.
      split; intros H; repeat split; try tauto; intros E; symmetry in E; tauto. }
  rewrite H, lookup_empty. tauto.
Qed.

Lemma filter_refs_snoc (keep : WorkItem -> bool) (items : list WorkItemObj)
  (o : WorkItemObj) :
  filter_refs keep (items ++ [o])
  = filter_refs keep items
      ++ (if keep (o_item o) then [length items] else []).
Proof.
  unfold filter_refs. rewrite length_app. cbn [length].
  rewrite seq_app, List.filter_app. cbn [seq List.filter Nat.add].
  rewrite list_lookup_middle by reflexivity. f_equal.
  apply List.filter_ext_in. intros a Ha. apply in_seq in Ha.
  rewrite lookup_app_l by lia. reflexivity.
Qed.

(** The references kept by a filter name, in order, the objects whose
    item passes it; they are distinct and within the array. *)
Lemma filter_refs_spec (keep : WorkItem -> bool) (items : list WorkItemObj) :
  Forall2 (fun a n => o_item <$> items !! a = Some n)
    (filter_refs keep items) (List.filter keep (o_item <$> items))
  /\ NoDup (filter_refs keep items)
  /\ (forall a, a ∈ filter_refs keep items -> a < length items).
Proof.
  induction items as [|o items IH] using rev_ind.
  - split; [constructor|]. split; [constructor|].
    intros a Ha. inversion Ha.
  - destruct IH as (F & N & B). rewrite filter_refs_snoc.
    rewrite fmap_app, List.filter_app. cbn [fmap list_fmap List.filter].
    split; [|split].
    + apply Forall2_app.
      * eapply Forall2_impl; [exact F|]. intros a n Ha. cbn beta in *.
        destruct (items !! a) as [x|] eqn:Ex; [|discriminate].
        rewrite (lookup_app_l_Some _ _ _ _ Ex). exact Ha.
      * destruct (keep (o_item o)); constructor; [|constructor].
        rewrite list_lookup_middle by reflexivity. reflexivity.
    + apply NoDup_app. split; [exact N|]. split.
      * intros a Ha Ha'. apply B in Ha.
        destruct (keep (o_item o)); [|inversion Ha'].
        apply list_elem_of_singleton in Ha'. lia.
      * destruct (keep (o_item o)); [apply NoDup_singleton | constructor].
    + intros a Ha. rewrite length_app. cbn [length].
      apply elem_of_app in Ha. destruct Ha as [Ha | Ha].
      * apply B in Ha. lia.
      * destruct (keep (o_item o)); [|inversion Ha].
        apply list_elem_of_singleton in Ha. lia.
Qed.

Lemma visit_obj_loop_eq (e : nat) (depth : nat) (items : list WorkItem)
  (result : list WorkItemObj) :
  (fix traverse (items : list WorkItem) (result : list WorkItemObj) :=
     match items with
     | [] => result
     | child :: rest =>
         traverse rest (visit_obj child (Some e) (S depth) result)
     end) items result
  = traverse_obj items (Some e) (S depth) result.
Proof.
  revert result. induction items as [|x l IH]; intros res; [reflexivity|].
  cbn [traverse_obj]. rewrite <- IH. reflexivity.
Qed.

Lemma visit_obj_eq (w : WorkItem) (parent : option nat) (depth : nat)
  (result : list WorkItemObj) :
  visit_obj w parent depth result
  = traverse_obj (wi_children w) (Some (length result)) (S depth)
      (result ++ [ {| o_item := w; o_parent := parent; o_depth := depth |} ]).
Proof.
  destruct w as [props ado children]. cbn [wi_children].
  rewrite <- visit_obj_loop_eq.
  destruct children as [|c cs]; reflexivity.
Qed.

Lemma same_parent_app (objects more : list WorkItemObj) (a : option nat)
  (e : option WorkItemWithParent) :
  same_parent objects a e -> same_parent (objects ++ more) a e.
Proof.
  destruct a as [a|], e as [e|]; cbn; try tauto.
  intros (o & Ho & H). exists o. split; [|exact H].
  apply lookup_app_l_Some. exact Ho.
Qed.

Lemma agree_app (objects more : list WorkItemObj) (o : WorkItemObj)
  (e : WorkItemWithParent) :
  agree objects o e -> agree (objects ++ more) o e.
Proof.
  intros (H1 & H2 & H3). split; [exact H1|]. split; [exact H2|].
  apply same_parent_app. exact H3.
Qed.

Lemma traverse_same_items (ws : list WorkItem) :
  Forall same_items ws ->
  forall parent parent' depth result result',
    same_parent result parent parent' ->
    exists objects entries,
      traverse_obj ws parent depth result = result ++ objects
      /\ traverse ws parent' depth result' = result' ++ entries
      /\ Forall2 (agree (result ++ objects)) objects entries.
Proof.
  induction 1 as [|w r Hw _ IH];
    intros parent parent' depth result result' Hp.
  - exists [], []. rewrite !app_nil_r. split; [reflexivity|].
    split; [reflexivity | constructor].
  - destruct (Hw parent parent' depth result result' Hp)
      as (o1 & e1 & E1 & E1' & H1).
    destruct (IH parent parent' depth (result ++ o1) (result' ++ e1))
      as (o2 & e2 & E2 & E2' & H2).
    { apply same_parent_app. exact Hp. }
    exists (o1 ++ o2), (e1 ++ e2). cbn [traverse_obj traverse].
    rewrite E1, E1', E2, E2', <- !app_assoc.
    split; [reflexivity|]. split; [reflexivity|].
    apply Forall2_app.
    + eapply Forall2_impl; [exact H1|]. intros o e Hoe.
      rewrite app_assoc. apply agree_app. exact Hoe.
    + rewrite app_assoc. exact H2.
Qed.

Lemma visit_same_items (w : WorkItem) : same_items w.
Proof.
  induction w as [props ado children IH] using WorkItem_children_ind.
  intros parent parent' depth result result' Hp.
  rewrite visit_obj_eq, visit_eq. cbn [wi_children].
  set (w := mkWorkItem props ado children).
  set (o := {| o_item := w; o_parent := parent; o_depth := depth |}).
  set (e := mkWithParent w parent' depth).
  destruct (traverse_same_items children IH (Some (length result))
              (Some e) (S depth) (result ++ [o]) (result' ++ [e]))
    as (os & es & E & E' & H).
  { exists o. split; [apply list_lookup_middle; reflexivity|].
    split; reflexivity. }
  exists (o :: os), (e :: es).
  rewrite E, E', <- !app_assoc. cbn [app].
  split; [reflexivity|]. split; [reflexivity|].
  constructor.
  - split; [reflexivity|]. split; [reflexivity|].
    cbn [o_parent wp_parent o e]. apply same_parent_app. exact Hp.
  - rewrite <- app_assoc in H. exact H.
Qed.

(** The array of objects and the list of entries describe the same
    traversal: the object at an index and the entry at that index hold
    the same item at the same depth, and the index kept as [parent] is
    that of the object built for the parent. *)
Lemma flattenHierarchy_objects_agree (doc : WorkItemsDocument) :
  Forall2 (agree (flattenHierarchy_objects doc))
    (flattenHierarchy_objects doc) (flattenHierarchy doc).
Proof.
  destruct (traverse_same_items (workItems doc)) with
    (parent := @None nat) (parent' := @None WorkItemWithParent)
    (depth := 0) (result := @nil WorkItemObj)
    (result' := @nil WorkItemWithParent) as (o & e & E & E' & H).
  - apply Forall_forall. intros w _. apply visit_same_items.
  - exact I.
  - unfold flattenHierarchy_objects, flattenHierarchy.
    rewrite E, E'. exact H.
Qed.

Lemma agree_items (objects os : list WorkItemObj)
  (es : list WorkItemWithParent) :
  Forall2 (agree objects) os es -> o_item <$> os = wp_item <$> es.
Proof.
  induction 1 as [|o e os es (Hoe & _) _ IH]; [reflexivity|].
  cbn [fmap list_fmap]. rewrite Hoe. f_equal. exact IH.
Qed.

(** The array of objects holds the nodes of the document, parent
    first. *)
Lemma flattenHierarchy_objects_items (doc : WorkItemsDocument) :
  o_item <$> flattenHierarchy_objects doc = document_nodes doc.
Proof.
  unfold document_nodes.
  apply (agree_items (flattenHierarchy_objects doc)).
  apply flattenHierarchy_objects_agree.
Qed.

(** Every node listed is the node at some position of the document,
    and every node of the document is listed. *)
Lemma document_nodes_spec (doc : WorkItemsDocument) (n : WorkItem) :
  n ∈ document_nodes doc
  <-> exists p, node_at (workItems doc) p = Some n.
Proof.
  pose proof (flattenHierarchy_entries doc) as F.
  unfold document_nodes. rewrite list_elem_of_fmap. split.
  - intros (e & -> & He).
    apply list_elem_of_lookup in He. destruct He as (i & Hi).
    destruct (Forall2_lookup_l _ _ _ _ _ F Hi) as (p & _ & Hp).
    exists p. unfold entry_at in Hp.
    apply entry_from_facts in Hp. tauto.
  - intros (p & Hp).
    assert (Hin : p ∈ preorder_from 0 (workItems doc)).
    { apply preorder_complete. rewrite Hp. eauto. }
    apply list_elem_of_lookup in Hin. destruct Hin as (i & Hi).
    destruct (Forall2_lookup_r _ _ _ _ _ F Hi) as (e & He & Hpe).
    exists e. split; [|apply list_elem_of_lookup; eauto].
    unfold entry_at in Hpe. apply entry_from_facts in Hpe.
    destruct Hpe as (Hn & _). congruence.
Qed.

Lemma updateItemMetadata_other (a a' : nat) (metadata : AdoMetadata)
  (m : Memory) :
  a' <> a ->
  m_items (updateItemMetadata (InArray a) metadata m) !! a' = m_items m !! a'.
Proof.
  intros H. unfold updateItemMetadata.
  destruct (deref m (InArray a)); [|reflexivity].
  unfold assign_ado. cbn [m_items].
  destruct (m_items m !! a); [|reflexivity].
  apply list_lookup_insert_ne. auto.
Qed.

Lemma adoMap_of_lookup_Some (adoItems : list AdoWorkItemResponse) (id : Z)
  (adoItem : AdoWorkItemResponse) :
  adoMap_of adoItems !! id = Some adoItem ->
  adoItem ∈ adoItems /\ r_id adoItem = id.
Proof.
  unfold adoMap_of.
  assert (H : forall (m : gmap Z AdoWorkItemResponse),
             fold_left (fun m item => <[ r_id item := item ]> m) adoItems m
               !! id = Some adoItem ->
             m !! id = Some adoItem
             \/ (adoItem ∈ adoItems /\ r_id adoItem = id)).
  { induction adoItems as [|x l IH]; intros m; cbn [fold_left]; [tauto|].
    intros E. apply IH in E. destruct E as [E | [E1 E2]].
    - apply lookup_insert_Some in E. destruct E as [[E1 E2] | [_ E]].
      + right. subst. split; [left | reflexivity].
      + left. exact E.
    - right. split; [right; exact E1 | exact E2]. }
  intros E. apply H in E. destruct E as [E | E]; [|exact E].
  rewrite lookup_empty in E. discriminate.
Qed.

Lemma recorded_id_Some (item : WorkItem) (id : Z) :
  recorded_id item = Some id -> wi_ado item ≫= md_workItemId = Some id.
Proof.
  unfold recorded_id, Js.truthy_opt_number.
  destruct (wi_ado item ≫= md_workItemId) as [n|]; [|discriminate].
  destruct (Js.truthy_number n); [tauto | discriminate].
Qed.

(** The [try] block of the pull: the metadata it stores are those of
    the work item, and what it throws was thrown by one of the two
    enrichment calls. *)
Lemma pull_metadata_spec {W} (client : AdoClient W) (config : ResolvedConfig)
  (options : PullOptions) (adoId : Z) (adoItem : AdoWorkItemResponse) (w : W) :
  match fst (pull_metadata client config options adoId adoItem w) with
  | Ok md => metadata_of config adoItem md
  | Throw e =>
      (pull_includeComments options = true
       /\ exists w1 w2, getAllComments client adoId w1 = (Throw e, w2))
      \/ (pull_includePRs options = true
          /\ exists w1 w2,
               getLinkedPullRequests client adoItem w1 = (Throw e, w2))
  end.
Proof.
  unfold pull_metadata, extractAdoMetadata, metadata_of.
  destruct (toISOString_now client w) as [t w1].
  unfold bind, ret.
  destruct (pull_includeComments options), (pull_includePRs options).
  - destruct (getAllComments client adoId w1) as [[cs|e] w2] eqn:Ec;
      [|cbn; left; eauto].
    destruct (getLinkedPullRequests client adoItem w2) as [[prs|e] w3] eqn:Ep;
      [|cbn; right; eauto].
    cbn. repeat split; reflexivity.
  - destruct (getAllComments client adoId w1) as [[cs|e] w2] eqn:Ec;
      [|cbn; left; eauto].
    cbn. repeat split; reflexivity.
  - destruct (getLinkedPullRequests client adoItem w1) as [[prs|e] w2] eqn:Ep;
      [|cbn; right; eauto].
    cbn. repeat split; reflexivity.
  - cbn. repeat split; reflexivity.
Qed.

Lemma updateItemMetadata_here (a : nat) (o : WorkItemObj)
  (metadata : AdoMetadata) (m : Memory) :
  m_items m !! a = Some o ->
  m_items (updateItemMetadata (InArray a) metadata m) !! a
  = Some (replace_ado o (Some (spread_metadata (wi_ado (o_item o)) metadata)))
  /\ length (m_items (updateItemMetadata (InArray a) metadata m))
     = length (m_items m).
Proof.
  intros Ho. unfold updateItemMetadata, deref. rewrite Ho. cbn [fmap option_fmap option_map].
  unfold assign_ado. cbn [m_items]. rewrite Ho.
  split; [|apply length_insert].
  apply list_lookup_insert_eq. apply lookup_lt_Some in Ho. exact Ho.
Qed.

Lemma pull_step_spec {W} (client : AdoClient W) (config : ResolvedConfig)
  (options : PullOptions) (adoItems : list AdoWorkItemResponse)
  (a : nat) (o : WorkItemObj) (s : Run) (w : W) :
  m_items (run_mem s) !! a = Some o ->
  has_ado_id (o_item o) = true ->
  let s' := fst (pull_step client config options (adoMap_of adoItems) a s w) in
  (exists r, run_results s' = run_results s ++ [r]
             /\ pull_result_for client options adoItems (o_item o) r)
  /\ m_doc (run_mem s') = m_doc (run_mem s)
  /\ (forall a', a' <> a ->
        m_items (run_mem s') !! a' = m_items (run_mem s) !! a')
  /\ (exists o', m_items (run_mem s') !! a = Some o'
                 /\ pull_object_for client config options adoItems o o')
  /\ length (m_items (run_mem s')) = length (m_items (run_mem s)).
Proof.
  intros Ho Hid. cbn zeta. unfold pull_step. rewrite Ho.
  unfold has_ado_id in Hid.
  destruct (recorded_id (o_item o)) as [id|] eqn:Erec; [|discriminate].
  rewrite (recorded_id_Some _ _ Erec).
  unfold pull_result_for, pull_object_for. rewrite Erec.
  destruct (adoMap_of adoItems !! id) as [adoItem|] eqn:Em.
  - assert (Hin : id ∈ (r_id <$> adoItems)).
    { destruct (decide (id ∈ (r_id <$> adoItems))) as [H|H]; [exact H|].
      apply adoMap_of_lookup_None in H. congruence. }
    destruct (adoMap_of_lookup_Some _ _ _ Em) as [Hmem Hrid].
    pose proof (pull_metadata_spec client config options id adoItem w) as Hmd.
    destruct (pull_metadata client config options id adoItem w)
      as [[metadata | e] w']; cbn [fst] in Hmd.
    + cbn [fst push_result run_results run_mem].
      destruct (updateItemMetadata_here a o metadata (run_mem s) Ho)
        as [Hhere Hlen].
      split; [|split; [|split; [|split]]].
      * eexists. split; [reflexivity|]. exists id.
        split; [reflexivity|]. split; [intros H; contradiction|].
        intros _. left. reflexivity.
      * apply updateItemMetadata_keeps_document.
      * intros a' Ha. apply updateItemMetadata_other. exact Ha.
      * eexists. split; [exact Hhere|].
        split; [intros H; contradiction|]. intros _. left.
        exists adoItem, metadata. auto.
      * exact Hlen.
    + cbn [fst push_result run_results run_mem].
      assert (Hfail : enrichment_fails client options adoItems id e).
      { destruct Hmd as [[Hc Hx] | [Hp (w1 & w2 & Hx)]]; [left; auto|].
        right. split; [exact Hp|]. exists adoItem, w1, w2. auto. }
      split; [|split; [reflexivity | split; [reflexivity|split]]].
      * eexists. split; [reflexivity|]. exists id.
        split; [reflexivity|]. split; [intros H; contradiction|].
        intros _. right. exists e. split; [exact Hfail | reflexivity].
      * exists o. split; [exact Ho|].
        split; [intros H; contradiction|]. intros _. right. eauto.
      * reflexivity.
  - assert (Hout : id ∉ (r_id <$> adoItems))
      by (apply adoMap_of_lookup_None; exact Em).
    cbn [fst push_result run_results run_mem].
    split; [|split; [reflexivity | split; [reflexivity|split]]].
    + eexists. split; [reflexivity|]. exists id.
      split; [reflexivity|]. split; [intros _; reflexivity|].
      intros H. contradiction.
    + exists o. split; [exact Ho|]. split; [reflexivity|].
      intros H. contradiction.
    + reflexivity.
Qed.

Lemma Forall2_impl_elem {A B} (P Q : A -> B -> Prop) (l : list A)
  (k : list B) :
  Forall2 P l k -> (forall x y, x ∈ l -> P x y -> Q x y) -> Forall2 Q l k.
Proof.
  induction 1 as [|x y l k Hxy _ IH]; intros H; constructor.
  - apply H; [left | exact Hxy].
  - apply IH. intros x' y' Hin. apply H. right. exact Hin.
Qed.

(** The loop of the pull over the references [refs], the objects at
    [done] having been processed: each reference gets its result, and
    each object of the array is as the pull leaves it once its
    reference has been processed, untouched before. *)
Lemma for_each_pull_step {W} (client : AdoClient W) (config : ResolvedConfig)
  (options : PullOptions) (adoItems : list AdoWorkItemResponse)
  (items0 : list WorkItemObj) (refs : list nat) (nodes : list WorkItem) :
  forall (done : list nat) (s : Run) (w : W),
    NoDup refs ->
    (forall a, a ∈ refs -> a ∉ done) ->
    Forall2 (fun a n => o_item <$> items0 !! a = Some n) refs nodes ->
    Forall (fun n => has_ado_id n = true) nodes ->
    (forall a o, items0 !! a = Some o ->
       exists o', m_items (run_mem s) !! a = Some o'
                  /\ (a ∈ done ->
                      pull_object_for client config options adoItems o o')
                  /\ (a ∉ done -> o' = o)) ->
    let s' :=
      fst (for_each (pull_step client config options (adoMap_of adoItems))
             refs s w) in
    (exists rs, run_results s' = run_results s ++ rs
                /\ Forall2 (pull_result_for client options adoItems) nodes rs)
    /\ m_doc (run_mem s') = m_doc (run_mem s)
    /\ length (m_items (run_mem s')) = length (m_items (run_mem s))
    /\ (forall a o, items0 !! a = Some o ->
          exists o', m_items (run_mem s') !! a = Some o'
                     /\ (a ∈ done ++ refs ->
                         pull_object_for client config options adoItems o o')
                     /\ (a ∉ done ++ refs -> o' = o)).
Proof.
  revert nodes. induction refs as [|a refs IH];
    intros nodes done s w Hnd Hfresh F Hids Inv.
  - inversion F; subst. cbn [for_each fst]. rewrite app_nil_r.
    split; [|split; [reflexivity | split; [reflexivity | exact Inv]]].
    exists []. rewrite app_nil_r. split; [reflexivity | constructor].
  - inversion F as [|? n ? nodes' Ha F']; subst.
    apply NoDup_cons in Hnd. destruct Hnd as (Hna & Hnd).
    apply Forall_cons in Hids. destruct Hids as (Hid & Hids).
    cbn [for_each].
    destruct (items0 !! a) as [o|] eqn:Ho; [|discriminate].
    cbn in Ha. injection Ha as <-.
    assert (Hdone : a ∉ done) by (apply Hfresh; left).
    destruct (Inv a o Ho) as (o1 & Ho1 & _ & Hsame).
    specialize (Hsame Hdone). subst o1.
    pose proof (pull_step_spec client config options adoItems a o s w Ho1 Hid)
      as ((r & Er & Hr) & Hdoc & Hother & (o' & Ho' & Hobj) & Hlen).
    destruct (pull_step client config options (adoMap_of adoItems) a s w)
      as [s1 w1]. cbn [fst] in *.
    destruct (IH nodes' (done ++ [a]) s1 w1 Hnd) as
      ((rs & Ers & Hrs) & Hdoc' & Hlen' & Inv'); [| exact F' | exact Hids | |].
    { intros a' Ha' Hin. apply elem_of_app in Hin. destruct Hin as [Hin | Hin].
      - revert Hin. apply Hfresh. right. exact Ha'.
      - apply list_elem_of_singleton in Hin. subst a'. contradiction. }
    { intros a' o0 Ho0. destruct (decide (a' = a)) as [-> | Hne].
      - rewrite Ho in Ho0. injection Ho0 as <-.
        exists o'. split; [exact Ho'|]. split; [intros _; exact Hobj|].
        intros Hn. exfalso. apply Hn, elem_of_app. right. left.
      - destruct (Inv a' o0 Ho0) as (o2 & Ho2 & Hd2 & Hs2).
        exists o2. rewrite (Hother a' Hne). split; [exact Ho2|].
        split.
        + intros Hin. apply Hd2. apply elem_of_app in Hin.
          destruct Hin as [Hin | Hin]; [exact Hin|].
          apply list_elem_of_singleton in Hin. contradiction.
        + intros Hn. apply Hs2. intros Hin. apply Hn, elem_of_app.
          left. exact Hin. }
    split; [|split; [|split]].
    + exists (r :: rs). rewrite Ers, Er, <- app_assoc. split; [reflexivity|].
      constructor; assumption.
    + rewrite Hdoc'. exact Hdoc.
    + rewrite Hlen'. exact Hlen.
    + intros a' o0 Ho0. destruct (Inv' a' o0 Ho0) as (o2 & Ho2 & Hd2 & Hs2).
      exists o2. rewrite <- app_assoc in Hd2, Hs2. auto.
Qed.

Lemma omap_Forall2 {A B C} (f : A -> option C) (g : B -> option C)
  (l : list A) (k : list B) :
  Forall2 (fun a b => f a = g b) l k -> omap f l = omap g k.
Proof.
  induction 1 as [|a b l k Hab _ IH]; [reflexivity|].
  cbn [omap list_omap]. rewrite Hab, IH. reflexivity.
Qed.

Lemma pull_refs (doc : WorkItemsDocument) :
  let items := flattenHierarchy_objects doc in
  let refs := filter_refs has_ado_id items in
  Forall2 (fun a n => o_item <$> items !! a = Some n) refs
    (List.filter has_ado_id (document_nodes doc))
  /\ NoDup refs
  /\ omap (fun a : nat =>
             match items !! a with
             | Some o => wi_ado (o_item o) ≫= md_workItemId
             | None => None
             end) refs
     = pull_adoIds doc.
Proof.
  cbn zeta.
  destruct (filter_refs_spec has_ado_id (flattenHierarchy_objects doc))
    as (F & N & _).
  rewrite flattenHierarchy_objects_items in F.
  split; [exact F|]. split; [exact N|].
  unfold pull_adoIds. apply omap_Forall2.
  eapply Forall2_impl; [exact F|]. intros a n H. cbn beta in *.
  destruct (flattenHierarchy_objects doc !! a) as [o|]; [|discriminate].
  cbn in H. injection H as <-. reflexivity.
Qed.

Lemma filter_refs_elem (keep : WorkItem -> bool) (items : list WorkItemObj)
  (a : nat) (o : WorkItemObj) :
  items !! a = Some o ->
  (a ∈ filter_refs keep items <-> keep (o_item o) = true).
Proof.
  intros Ho. unfold filter_refs.
  rewrite list_elem_of_In, filter_In, in_seq, Ho.
  apply lookup_lt_Some in Ho. split; [tauto|]. intros H. split; [lia | exact H].
Qed.

(** C9.  [pullWorkItems] never changes the document.  When no item of
    the document has a remote id it returns an empty list of results
    and asks the remote service nothing.  When the batch request
    succeeds it returns one result for each item that has a remote id,
    in the order of the document: for an item whose id is missing from
    the response the failure "Work item not found in ADO", and for each
    of the others, those after a missing one included, the result
    "Pulled updates", unless a call for its comments or pull requests
    threw, in which case it is a failure with the message thrown.
    When neither comments nor pull requests are asked for, the results
    are thus determined by the document and the response.  The objects
    of the array returned by [flattenHierarchy] are then as follows:
    the object of an item without a remote id or whose id is missing is
    as before, with its metadata and its children; the object of an
    item that was pulled has the metadata of its work item spread over
    its [_ado] block. *)
Theorem pull_reports_missing_and_continues {W} (client : AdoClient W)
  (doc : WorkItemsDocument) (config : ResolvedConfig)
  (options : PullOptions) (w : W) :
  let run := pullWorkItems client doc config options w in
  let outcome := fst (fst run) in
  let m := snd (fst run) in
  m_doc m = doc
  /\ ((forall p n, node_at (workItems doc) p = Some n ->
                   recorded_id n = None) ->
      outcome = Ok [] /\ snd run = w)
  /\ (forall adoItems w',
        getWorkItems client (pull_adoIds doc) (Some ExRelations) w
        = (Ok adoItems, w') ->
        exists results,
          outcome = Ok results
          /\ Forall2 (pull_result_for client options adoItems)
               (List.filter has_ado_id (document_nodes doc)) results
          /\ Forall2 (pull_object_for client config options adoItems)
               (flattenHierarchy_objects doc) (m_items m)
          /\ (pull_includeComments options = false ->
              pull_includePRs options = false ->
              results
              = omap (fun item =>
                        id ← recorded_id item;
                        Some (if bool_decide (id ∈ (r_id <$> adoItems))
                              then pulled_result (wi_id (wi_props item)) id
                              else not_found_result (wi_id (wi_props item))
                                     (Some id)))
                  (List.filter has_ado_id (document_nodes doc)))).
Proof.
  assert (Hplain : forall adoItems nodes results,
             Forall2 (pull_result_for client options adoItems) nodes results ->
             pull_includeComments options = false ->
             pull_includePRs options = false ->
             results
             = omap (fun item =>
                       id ← recorded_id item;
                       Some (if bool_decide (id ∈ (r_id <$> adoItems))
                             then pulled_result (wi_id (wi_props item)) id
                             else not_found_result (wi_id (wi_props item))
                                    (Some id)))
                 nodes).
  { intros adoItems nodes results HF Hc Hp.
    induction HF as [|n r nodes results (id & Eid & Hout & Hin) _ IH];
      [reflexivity|].
    cbn [omap list_omap]. rewrite Eid. cbn [mbind option_bind].
    rewrite <- IH. f_equal.
    destruct (bool_decide_reflect (id ∈ (r_id <$> adoItems))) as [Hi | Hn].
    - destruct (Hin Hi) as [-> | (e & [[Hx _] | [Hx _]] & _)];
        [reflexivity | congruence | congruence].
    - apply Hout. exact Hn. }
  cbn zeta. destruct (pull_refs doc) as (F & N & Eids).
  unfold pullWorkItems.
  set (items := flattenHierarchy_objects doc) in *.
  set (refs := filter_refs has_ado_id items) in *.
  rewrite Eids.
  assert (Hids : Forall (fun n => has_ado_id n = true)
                   (List.filter has_ado_id (document_nodes doc))).
  { apply Forall_forall. intros n Hn.
    apply list_elem_of_In, filter_In in Hn. apply Hn. }
  assert (Hrest : forall a o, items !! a = Some o -> a ∉ refs ->
                    pull_object_for client config options [] o o
                    /\ recorded_id (o_item o) = None).
  { intros a o Ho Hn.
    assert (Hk : has_ado_id (o_item o) = false).
    { destruct (has_ado_id (o_item o)) eqn:Ek; [|reflexivity].
      exfalso. apply Hn. apply (filter_refs_elem has_ado_id items a o Ho).
      exact Ek. }
    unfold has_ado_id in Hk. unfold pull_object_for.
    destruct (recorded_id (o_item o)); [discriminate|]. auto. }
  destruct (Nat.eqb_spec (length refs) 0) as [E0 | Hne].
  - cbn [fst snd m_doc m_items].
    split; [reflexivity|]. split; [auto|].
    intros adoItems w' _. exists []. split; [reflexivity|].
    apply Forall2_length in F. rewrite E0 in F.
    assert (Hnil : List.filter has_ado_id (document_nodes doc) = []).
    { destruct (List.filter has_ado_id (document_nodes doc));
        [reflexivity | discriminate]. }
    rewrite Hnil.
    split; [constructor|]. split; [|reflexivity].
    apply Forall2_same_length_lookup. split; [reflexivity|].
    intros a o o' Ho Ho'. rewrite Ho in Ho'. injection Ho' as <-.
    assert (Hn : a ∉ refs).
    { destruct refs; [apply not_elem_of_nil | discriminate]. }
    destruct (Hrest a o Ho Hn) as [_ Hr].
    unfold pull_object_for. rewrite Hr. reflexivity.
  - assert (Hloop : forall adoItems w1,
               let s' :=
                 fst (for_each
                        (pull_step client config options (adoMap_of adoItems))
                        refs
                        {| run_mem := {| m_doc := doc; m_items := items |};
                           run_results := [] |} w1) in
               (exists rs, run_results s' = rs
                           /\ Forall2 (pull_result_for client options adoItems)
                                (List.filter has_ado_id (document_nodes doc))
                                rs)
               /\ m_doc (run_mem s') = doc
               /\ Forall2 (pull_object_for client config options adoItems)
                    items (m_items (run_mem s'))).
    { intros adoItems w1.
      pose proof (for_each_pull_step client config options adoItems items
                    refs (List.filter has_ado_id (document_nodes doc)) []
                    {| run_mem := {| m_doc := doc; m_items := items |};
                       run_results := [] |} w1 N) as H.
      destruct H as ((rs & Ers & Hrs) & Hdoc & Hlen & Inv);
        [intros a _; apply not_elem_of_nil | exact F | exact Hids | |].
      { intros a o Ho. exists o. cbn [run_mem m_items].
        split; [exact Ho|]. split; [intros Hin; inversion Hin | reflexivity]. }
      cbv zeta. split; [exists rs; split; [exact Ers | exact Hrs]|].
      split; [exact Hdoc|].
      apply Forall2_same_length_lookup. split; [symmetry; exact Hlen|].
      intros a o o' Ho Ho'. destruct (Inv a o Ho) as (o2 & Ho2 & Hd & Hs).
      rewrite Ho' in Ho2. injection Ho2 as <-.
      cbn [app] in Hd, Hs.
      destruct (decide (a ∈ refs)) as [Hin | Hn]; [apply Hd; exact Hin|].
      rewrite (Hs Hn). destruct (Hrest a o Ho Hn) as [_ Hr].
      unfold pull_object_for. rewrite Hr. reflexivity. }
    split; [|split].
    + destruct (getWorkItems client (pull_adoIds doc) (Some ExRelations) w)
        as [[adoItems | e] w1]; [|reflexivity].
      destruct (Hloop adoItems w1) as (_ & Hdoc & _).
      destruct (for_each _ refs _ w1) as [s' w2]. exact Hdoc.
    + intros Hnone. exfalso. apply Hne.
      apply Forall2_length in F. rewrite F.
      assert (Hnil : List.filter has_ado_id (document_nodes doc) = []).
      { destruct (List.filter has_ado_id (document_nodes doc)) as [|n l] eqn:E;
          [reflexivity|].
        assert (Hin : In n (List.filter has_ado_id (document_nodes doc)))
          by (rewrite E; left; reflexivity).
        apply filter_In in Hin. destruct Hin as (Hin & Hk).
        apply list_elem_of_In, document_nodes_spec in Hin.
        destruct Hin as (p & Hp). unfold has_ado_id in Hk.
        rewrite (Hnone p n Hp) in Hk. discriminate. }
      rewrite Hnil. reflexivity.
    + intros adoItems w' Eg. rewrite Eg.
      destruct (Hloop adoItems w') as ((rs & Ers & Hrs) & _ & Hobj).
      destruct (for_each _ refs _ w') as [s' w2]. cbn [fst snd] in *.
      exists rs. split; [rewrite Ers; reflexivity|].
      split; [exact Hrs|]. split; [exact Hobj|].
      apply Hplain. exact Hrs.
Qed.

Lemma pull_reports_missing_and_continues_witness :
  let run :=
    pullWorkItems Demo.client Sample4.doc Demo.config Demo.pull_plain
      Demo.service_with_123 in
  exists results,
    fst (fst run) = Ok results
    /\ Forall2 (pull_result_for Demo.client Demo.pull_plain
                  [Demo.remote 123 1 "Old title"])
         (List.filter has_ado_id (document_nodes Sample4.doc)) results
    /\ Forall2 (pull_object_for Demo.client Demo.config Demo.pull_plain
                  [Demo.remote 123 1 "Old title"])
         (flattenHierarchy_objects Sample4.doc) (m_items (snd (fst run)))
    /\ results
       = [ not_found_result "pbi-001" (Some 999%Z);
           pulled_result "task-001" 123 ].
Proof.
  cbn zeta.
  destruct (proj2 (proj2 (pull_reports_missing_and_continues Demo.client
                            Sample4.doc Demo.config Demo.pull_plain
                            Demo.service_with_123))
              [Demo.remote 123 1 "Old title"] Demo.service_with_123 eq_refl)
    as (results & E & Hres & Hobj & Hplain).
  exists results. split; [exact E|]. split; [exact Hres|].
  split; [exact Hobj|]. exact (Hplain eq_refl eq_refl).
Defined.

(** The run of the witness: the item whose work item is gone is
    reported as not found, its task, which comes after it, is pulled
    all the same, the item without a remote id is not reported; the
    object of the task holds revision 1 of work item 123 and the time
    of the pull, the object of the missing item is as it was. *)
Example pull_missing_then_found :
  let run :=
    pullWorkItems Demo.client Sample4.doc Demo.config Demo.pull_plain
      Demo.service_with_123 in
  fst (fst run)
  = Ok [ not_found_result "pbi-001" (Some 999%Z);
         pulled_result "task-001" 123 ]
  /\ (o_item <$> m_items (snd (fst run)) !! 0) = Some Sample4.gone
  /\ (ado_of (snd (fst run)) (InArray 1) ≫= md_lastSyncedAt)
     = Some "2024-01-03T00:00:00.000Z"
  /\ (ado_of (snd (fst run)) (InArray 1) ≫= md_state) = Some "New"
  /\ m_doc (snd (fst run)) = Sample4.doc.
Proof. vm_compute. repeat split; reflexivity. Qed.

(** ** Examples *)

Example matchesFilter_examples :
  matchesFilter "pbi-001" "pbi-*" = true
  /\ matchesFilter "task-001" "pbi-*" = false
  /\ matchesFilter "anything" "*" = true
  /\ matchesFilter "pbi-1" "pbi-?" = true
  /\ matchesFilter "pbi-12" "pbi-?" = false.
Proof. repeat split; reflexivity. Qed.

Example matchesFilter_more :
  matchesFilter "" "*" = true
  /\ matchesFilter "pbi-002" "pbi-001" = false
  /\ matchesFilter "task-001" "*-001" = true
  /\ matchesFilter "feature-auth-002" "feature-*-001" = false
  /\ matchesFilter "pbi-001" "pbi.001" = false
  /\ matchesFilter "pbi[1]" "pbi[1]" = true
  /\ matchesFilter "task-123-done" "task-???-*" = true.
Proof. repeat split; reflexivity. Qed.

Example chunk_examples :
  chunk [1; 2; 3; 4; 5; 6; 7; 8; 9; 10] 3
  = [[1; 2; 3]; [4; 5; 6]; [7; 8; 9]; [10]]
  /\ chunk [1; 2; 3] 5 = [[1; 2; 3]]
  /\ chunk (@nil nat) 5 = [].
Proof. repeat split; reflexivity. Qed.

Example isEqual_examples :
  isEqual (Js.VString "  Title ") (Js.VString "Title") = true
  /\ isEqual (Js.VArray ["b"; "a"]) (Js.VArray ["a"; "b"]) = true
  /\ isEqual (Js.VArray ["a"; "a"]) (Js.VArray ["a"]) = false
  /\ isEqual Js.VUndefined Js.VNull = true
  /\ isEqual (Js.VNumber 2) (Js.VString "2") = false.
Proof. repeat split; reflexivity. Qed.

Example stripHtml_example :
  stripHtml "<div>One<br/>two</div><ul><li>a &amp; b</li></ul>"
  = "One" +:+ LF +:+ "two" +:+ LF +:+ "- a & b".
Proof. reflexivity. Qed.

Example import_unfiltered :
  (fun r => Demo.outline (fst r))
    <$> Ok_value
          (fst (importFromAdo Demo.client 1 Demo.config
                  {| io_includeComments := None; io_includePRs := None;
                     io_maxDepth := None; io_filterTag := None;
                     io_filterType := None |} Demo.service_with_tree))
  = Some [("feat-1", 0); ("pbi-2", 1); ("task-4", 2); ("pbi-3", 1)].
Proof. vm_compute. reflexivity. Qed.

Example import_filtered_by_tag :
  (fun r => (Demo.outline (fst r), map ir_localId (snd r)))
    <$> Ok_value
          (fst (importFromAdo Demo.client 1 Demo.config
                  {| io_includeComments := None; io_includePRs := None;
                     io_maxDepth := None; io_filterTag := Some "Frontend";
                     io_filterType := None |} Demo.service_with_tree))
  = Some ([("feat-1", 0); ("pbi-2", 1); ("task-4", 2)],
          ["feat-1"; "pbi-2"; "task-4"; "pbi-3"]).
Proof. vm_compute. reflexivity. Qed.

Example flattenReverse_example :
  map (fun e => wi_id (wi_props (wp_item e)))
      (flattenHierarchyReverse
         (Demo.document
            [ mkWorkItem (Demo.props "Feature" "f" "F") None
                [ mkWorkItem (Demo.props "Task" "a" "A") None [];
                  mkWorkItem (Demo.props "Task" "b" "B") None [] ] ]))
  = ["a"; "b"; "f"].
Proof. reflexivity. Qed.

Example push_creates_and_links :
  let doc :=
    Demo.document
      [ mkWorkItem (Demo.props "Feature" "feat-1" "Linked parent")
          (Some (Demo.linked 123 1))
          [ mkWorkItem (Demo.props "Product Backlog Item" "pbi-001" "New")
              None [] ] ] in
  let run :=
    pushWorkItems Demo.client doc Demo.config
      {| dryRun := false; force := false; createOnly := false;
         updateOnly := false; filter := Some "pbi-*" |}
      {| Demo.stored := [Demo.remote 123 1 "Linked parent"];
         Demo.log := [] |} in
  map (fun r => (sr_localId r, sr_action r, sr_success r, sr_workItemId r))
      (fst (fst run))
  = [("pbi-001", ACreate, true, Some 1001%Z)]
  /\ map fst (Demo.log (snd run))
     = [ "/proj/_apis/wit/workitems/$Product%20Backlog%20Item";
         "/proj/_apis/wit/workitems/1001" ].
Proof. vm_compute. split; reflexivity. Qed.

(** ** Hierarchy: the lookups and the measures *)

Lemma subtree_eq (w : WorkItem) :
  subtree w = w :: flat_map subtree (wi_children w).
Proof. destruct w; reflexivity. Qed.

Lemma subtree_entries_eq (parent : option WorkItemWithParent) (depth : nat)
  (w : WorkItem) :
  subtree_entries parent depth w
  = mkWithParent w parent depth
    :: flat_map (subtree_entries (Some (mkWithParent w parent depth))
                   (S depth)) (wi_children w).
Proof. destruct w; reflexivity. Qed.

Lemma flat_map_fmap {A B C} (f : B -> C) (g : A -> list B) (l : list A) :
  f <$> flat_map g l = flat_map (fun x => f <$> g x) l.
Proof.
  induction l as [|x l IH]; [reflexivity|].
  cbn [flat_map]. rewrite fmap_app, IH. reflexivity.
Qed.

Lemma flat_map_ext_Forall {A B} (f g : A -> list B) (l : list A) :
  Forall (fun x => f x = g x) l -> flat_map f l = flat_map g l.
Proof.
  induction 1 as [|x l E _ IH]; [reflexivity|].
  cbn [flat_map]. rewrite E, IH. reflexivity.
Qed.

Lemma subtree_entries_items (w : WorkItem) :
  forall parent depth, wp_item <$> subtree_entries parent depth w = subtree w.
Proof.
  induction w as [props ado children IH] using WorkItem_children_ind.
  intros parent depth. rewrite subtree_entries_eq, subtree_eq.
  cbn [wi_children fmap list_fmap wp_item]. f_equal.
  change (wp_item <$> flat_map
            (subtree_entries
               (Some (mkWithParent (mkWorkItem props ado children) parent depth))
               (S depth)) children
          = flat_map subtree children).
  rewrite flat_map_fmap. apply flat_map_ext_Forall.
  eapply Forall_impl; [exact IH|]. intros c Hc. apply Hc.
Qed.

Lemma traverse_subtree_entries (ws : list WorkItem) :
  Forall (fun w => forall parent depth result,
            visit w parent depth result
            = result ++ subtree_entries parent depth w) ws ->
  forall parent depth result,
    traverse ws parent depth result
    = result ++ flat_map (subtree_entries parent depth) ws.
Proof.
  induction 1 as [|w r Hw _ IH]; intros parent depth result.
  - symmetry. apply app_nil_r.
  - cbn [traverse flat_map]. rewrite Hw, IH, <- app_assoc. reflexivity.
Qed.

Lemma visit_subtree_entries (w : WorkItem) :
  forall parent depth result,
    visit w parent depth result = result ++ subtree_entries parent depth w.
Proof.
  induction w as [props ado children IH] using WorkItem_children_ind.
  intros parent depth result. rewrite visit_eq, subtree_entries_eq.
  cbn [wi_children]. rewrite (traverse_subtree_entries children IH).
  rewrite <- app_assoc. reflexivity.
Qed.

Lemma flattenHierarchy_subtrees (doc : WorkItemsDocument) :
  flattenHierarchy doc = flat_map (subtree_entries None 0) (workItems doc).
Proof.
  unfold flattenHierarchy. rewrite traverse_subtree_entries; [reflexivity|].
  apply Forall_forall. intros w _. apply visit_subtree_entries.
Qed.

Lemma document_nodes_subtrees (doc : WorkItemsDocument) :
  document_nodes doc = flat_map subtree (workItems doc).
Proof.
  unfold document_nodes. rewrite flattenHierarchy_subtrees, flat_map_fmap.
  apply flat_map_ext_Forall, Forall_forall. intros w _.
  apply subtree_entries_items.
Qed.

Lemma find_app_or {A} (t : A -> bool) (l k : list A) :
  List.find t (l ++ k)
  = match List.find t l with Some x => Some x | None => List.find t k end.
Proof.
  induction l as [|x l IH]; [reflexivity|].
  cbn [app List.find]. destruct (t x); [reflexivity | exact IH].
Qed.

Lemma find_fmap {A B} (f : A -> B) (t : B -> bool) (l : list A) :
  List.find t (f <$> l) = f <$> List.find (fun x => t (f x)) l.
Proof.
  induction l as [|x l IH]; [reflexivity|].
  cbn [fmap list_fmap List.find]. destruct (t (f x)); [reflexivity | exact IH].
Qed.

(** A loop with an early return finds what [find] finds in the
    concatenation, when each turn does. *)
Lemma first_some_find {A B C} (f : A -> option C) (h : B -> C)
  (t : B -> bool) (g : A -> list B) (ws : list A) :
  Forall (fun w => f w = h <$> List.find t (g w)) ws ->
  first_some f ws = h <$> List.find t (flat_map g ws).
Proof.
  induction 1 as [|w r Hw _ IH]; [reflexivity|].
  cbn [first_some flat_map]. rewrite find_app_or, Hw.
  destruct (List.find t (g w)); [reflexivity | exact IH].
Qed.

Lemma search_item_eq (test : WorkItem -> bool) (w : WorkItem) :
  search_item test w
  = if test w then Some w
    else if Nat.ltb 0 (length (wi_children w))
         then first_some (search_item test) (wi_children w)
         else None.
Proof. destruct w; reflexivity. Qed.

Lemma search_item_find (test : WorkItem -> bool) (w : WorkItem) :
  search_item test w = List.find test (subtree w).
Proof.
  induction w as [props ado children IH] using WorkItem_children_ind.
  rewrite search_item_eq, subtree_eq. cbn [wi_children List.find].
  destruct (test _); [reflexivity|].
  destruct children as [|c cs]; [reflexivity|].
  change (Nat.ltb 0 (length (c :: cs))) with true. cbv iota.
  rewrite (first_some_find _ id test subtree).
  - apply option_fmap_id.
  - eapply Forall_impl; [exact IH|]. intros x Hx. rewrite Hx.
    symmetry. apply option_fmap_id.
Qed.

Lemma search_find (test : WorkItem -> bool) (doc : WorkItemsDocument) :
  first_some (search_item test) (workItems doc)
  = List.find test (document_nodes doc).
Proof.
  rewrite document_nodes_subtrees, (first_some_find _ id test subtree).
  - apply option_fmap_id.
  - apply Forall_forall. intros w _. rewrite search_item_find.
    symmetry. apply option_fmap_id.
Qed.

(** X1.  [findItemById] returns the first node of the document, in the
    order of [flattenHierarchy] (parent first), whose local id is the
    one asked for, and [findItemByAdoId] the first one whose recorded
    work item id is strictly equal to the number asked for; each
    returns [null] exactly when the document has no such node. *)
Theorem find_item_is_first_in_preorder (doc : WorkItemsDocument) :
  (forall id,
     findItemById doc id = List.find (has_id id) (document_nodes doc))
  /\ (forall adoId,
        findItemByAdoId doc adoId
        = List.find (has_workItemId adoId) (document_nodes doc))
  /\ (forall id,
        findItemById doc id = None <-> id ∉ document_ids doc)
  /\ (forall adoId,
        findItemByAdoId doc adoId = None
        <-> forall item, item ∈ document_nodes doc ->
                         wi_ado item ≫= md_workItemId <> Some adoId).
Proof.
  assert (Hnone : forall (t : WorkItem -> bool) l,
             List.find t l = None <-> forall x, x ∈ l -> t x = false).
  { intros t l. split.
    - intros H x Hx. apply list_elem_of_In in Hx.
      exact (find_none _ _ H x Hx).
    - intros H. induction l as [|x l IH]; [reflexivity|].
      cbn [List.find]. rewrite (H x) by left.
      apply IH. intros y Hy. apply H. right. exact Hy. }
  split; [|split; [|split]].
  - intros id. apply search_find.
  - intros adoId. apply search_find.
  - intros id. unfold findItemById. rewrite search_find, Hnone.
    unfold document_ids. rewrite list_elem_of_fmap. split.
    + intros H (x & -> & Hx). specialize (H x Hx). unfold has_id in H.
      rewrite String.eqb_refl in H. discriminate.
    + intros H x Hx. unfold has_id. apply String.eqb_neq. intros E.
      apply H. exists x. split; [symmetry; exact E | exact Hx].
  - intros adoId. unfold findItemByAdoId. rewrite search_find, Hnone.
    unfold has_workItemId. split; intros H x Hx; specialize (H x Hx).
    + destruct (wi_ado x ≫= md_workItemId) as [n|]; [|discriminate].
      intros [= ->]. rewrite Z.eqb_refl in H. discriminate.
    + destruct (wi_ado x ≫= md_workItemId) as [n|]; [|reflexivity].
      apply Z.eqb_neq. intros ->. apply H. reflexivity.
Qed.

Lemma getAncestors_search_eq (id : string) (path : list WorkItem)
  (w : WorkItem) :
  getAncestors_search id path w
  = if has_id id w then Some path
    else if Nat.ltb 0 (length (wi_children w))
         then first_some (getAncestors_search id (path ++ [w]))
                (wi_children w)
         else None.
Proof. destruct w; reflexivity. Qed.

Lemma getAncestors_search_find (id : string) (w : WorkItem) :
  forall parent depth,
    getAncestors_search id (parent_chain (mkWithParent w parent depth)) w
    = parent_chain
        <$> List.find (fun e => has_id id (wp_item e))
              (subtree_entries parent depth w).
Proof.
  induction w as [props ado children IH] using WorkItem_children_ind.
  intros parent depth. rewrite getAncestors_search_eq, subtree_entries_eq.
  cbn [wi_children List.find wp_item].
  set (w := mkWorkItem props ado children).
  set (e := mkWithParent w parent depth).
  destruct (has_id id w); [reflexivity|].
  destruct children as [|c cs]; [reflexivity|].
  change (Nat.ltb 0 (length (c :: cs))) with true. cbv iota.
  apply first_some_find.
  eapply Forall_impl; [exact IH|]. intros x Hx.
  exact (Hx (Some e) (S depth)).
Qed.

Lemma parent_chain_length (w : WorkItem) :
  forall parent depth,
    length (parent_chain (mkWithParent w parent depth)) = depth ->
    Forall (fun e => length (parent_chain e) = wp_depth e)
      (subtree_entries parent depth w).
Proof.
  induction w as [props ado children IH] using WorkItem_children_ind.
  intros parent depth Hd. rewrite subtree_entries_eq. cbn [wi_children].
  set (e := mkWithParent (mkWorkItem props ado children) parent depth) in *.
  constructor; [exact Hd|]. clearbody e.
  induction IH as [|c cs Hc _ IHcs]; [constructor|].
  cbn [flat_map]. apply Forall_app. split; [|exact IHcs].
  apply Hc. cbn [parent_chain]. rewrite length_app. cbn [length].
  fold (parent_chain e). rewrite Hd. lia.
Qed.

(** X2.  [getAncestors] returns the parent chain, outermost first, of
    the first node of the document (parent first) that has the id:
    the items met when following [parent] from the entry that
    [flattenHierarchy] lists for that node, as many as the depth of
    the entry; it returns the empty array when no node has the id. *)
Theorem getAncestors_is_parent_chain (doc : WorkItemsDocument) (id : string) :
  match List.find (fun e => has_id id (wp_item e)) (flattenHierarchy doc) with
  | Some e =>
      getAncestors doc id = parent_chain e
      /\ length (getAncestors doc id) = wp_depth e
  | None => getAncestors doc id = []
  end.
Proof.
  unfold getAncestors. rewrite flattenHierarchy_subtrees.
  rewrite (first_some_find _ parent_chain
             (fun e => has_id id (wp_item e)) (subtree_entries None 0)).
  2:{ apply Forall_forall. intros w _.
      exact (getAncestors_search_find id w None 0). }
  destruct (List.find _ _) as [e|] eqn:E; [|reflexivity].
  cbn [fmap option_fmap option_map]. split; [reflexivity|].
  apply find_some in E. destruct E as [E _].
  apply in_flat_map in E. destruct E as (w & _ & E).
  pose proof (parent_chain_length w None 0 eq_refl) as F.
  rewrite Forall_forall in F. apply F. apply list_elem_of_In. exact E.
Qed.

Lemma fold_left_add {A} (f : nat -> A -> nat) (g : A -> nat) (ws : list A) :
  Forall (fun w => forall n, f n w = n + g w) ws ->
  forall n, fold_left f ws n = n + list_sum (g <$> ws).
Proof.
  induction 1 as [|w r Hw _ IH]; intros n; cbn [fold_left]; [cbn; lia|].
  rewrite IH, Hw, fmap_cons. unfold list_sum. cbn [fold_right]. lia.
Qed.

Lemma length_flat_map {A B} (g : A -> list B) (ws : list A) :
  length (flat_map g ws) = list_sum ((fun w => length (g w)) <$> ws).
Proof.
  induction ws as [|w r IH]; [reflexivity|].
  cbn [flat_map]. rewrite length_app, IH, fmap_cons. reflexivity.
Qed.

Lemma countItems_visit_eq (count : nat) (w : WorkItem) :
  countItems_visit count w
  = if Nat.ltb 0 (length (wi_children w))
    then fold_left countItems_visit (wi_children w) (S count)
    else S count.
Proof. destruct w; reflexivity. Qed.

Lemma countItems_visit_subtree (w : WorkItem) :
  forall count, countItems_visit count w = count + length (subtree w).
Proof.
  induction w as [props ado children IH] using WorkItem_children_ind.
  intros count. rewrite countItems_visit_eq, subtree_eq. cbn [wi_children].
  destruct children as [|c cs]; [cbn; lia|].
  change (Nat.ltb 0 (length (c :: cs))) with true. cbv iota.
  rewrite (fold_left_add _ (fun w => length (subtree w)) _ IH).
  cbn [length]. rewrite length_flat_map. lia.
Qed.

Lemma countItems_subtrees (items : list WorkItem) :
  countItems items = length (flat_map subtree items).
Proof.
  unfold countItems.
  rewrite (fold_left_add _ (fun w => length (subtree w))).
  - rewrite length_flat_map. reflexivity.
  - apply Forall_forall. intros w _. apply countItems_visit_subtree.
Qed.

Lemma countItems_flatten (doc : WorkItemsDocument) :
  countItems (workItems doc) = length (flattenHierarchy doc).
Proof.
  rewrite countItems_subtrees, <- document_nodes_subtrees.
  unfold document_nodes. apply length_fmap.
Qed.

Lemma ImportEngine_countItems_subtree (w : WorkItem) :
  ImportEngine.countItems w = length (subtree w).
Proof.
  induction w as [props ado children IH] using WorkItem_children_ind.
  rewrite subtree_eq. cbn [ImportEngine.countItems wi_children length].
  rewrite (fold_left_add _ (fun w => length (subtree w))).
  - rewrite length_flat_map. reflexivity.
  - eapply Forall_impl; [exact IH|]. intros c Hc n. cbv beta.
    fold (ImportEngine.countItems c). rewrite Hc. reflexivity.
Qed.

Lemma ValidateCommand_countItems_item (w : WorkItem) :
  forall count,
    ValidateCommand.countItems_item count w = count + length (subtree w).
Proof.
  induction w as [props ado children IH] using WorkItem_children_ind.
  intros count. rewrite subtree_eq.
  cbn [ValidateCommand.countItems_item wi_children length].
  rewrite (fold_left_add _ (fun w => length (subtree w)) _ IH).
  rewrite length_flat_map. lia.
Qed.

(** X3.  The counts agree.  [countItems] of the hierarchy utilities,
    applied to the roots of a document, is the number of entries that
    [flattenHierarchy] lists, and that [flattenHierarchyReverse] lists;
    [countWorkItems] of the parser, [countItems] of the validate
    command and the total that the import command computes with
    [countItems] of the import engine give the same number. *)
Theorem countItems_is_flatten_length (doc : WorkItemsDocument) :
  countItems (workItems doc) = length (flattenHierarchy doc)
  /\ countItems (workItems doc) = length (flattenHierarchyReverse doc)
  /\ countWorkItems doc = countItems (workItems doc)
  /\ ValidateCommand.countItems (workItems doc) = countItems (workItems doc)
  /\ totalItems doc = countItems (workItems doc).
Proof.
  pose proof (countItems_flatten doc) as E.
  split; [exact E|]. split; [|split; [reflexivity|split]].
  - rewrite E.
    rewrite (Forall2_length _ _ _ (flattenHierarchy_entries doc)).
    rewrite (Forall2_length _ _ _ (flattenHierarchyReverse_entries doc)).
    symmetry. apply Permutation_length, postorder_Permutation.
  - rewrite countItems_subtrees. unfold ValidateCommand.countItems.
    rewrite (fold_left_add _ (fun w => length (subtree w)))
      by (apply Forall_forall; intros w _;
          apply ValidateCommand_countItems_item).
    rewrite length_flat_map. reflexivity.
  - rewrite countItems_subtrees. unfold totalItems.
    rewrite (fold_left_add _ (fun w => length (subtree w)))
      by (apply Forall_forall; intros w _ n;
          rewrite ImportEngine_countItems_subtree; reflexivity).
    rewrite length_flat_map. reflexivity.
Qed.

Lemma getMaxDepth_visit_eq (depth deepest : nat) (w : WorkItem) :
  getMaxDepth_visit depth deepest w
  = if Nat.ltb 0 (length (wi_children w))
    then fold_left (getMaxDepth_visit (S depth)) (wi_children w)
           (Nat.max deepest (S depth))
    else deepest.
Proof. destruct w; reflexivity. Qed.

Lemma getMaxDepth_fold (ws : list WorkItem) :
  Forall (fun w => forall parent depth deepest,
            getMaxDepth_visit depth deepest w
            = Nat.max deepest
                (list_max (wp_depth <$> tail (subtree_entries parent depth w))))
    ws ->
  forall parent depth deepest,
    depth <= deepest ->
    fold_left (getMaxDepth_visit depth) ws deepest
    = Nat.max deepest
        (list_max (wp_depth <$> flat_map (subtree_entries parent depth) ws)).
Proof.
  induction 1 as [|w r Hw _ IH]; intros parent depth deepest Hd.
  - cbn. lia.
  - cbn [fold_left flat_map]. rewrite (Hw parent), (IH parent) by lia.
    rewrite fmap_app, list_max_app, subtree_entries_eq.
    cbn [tail fmap list_fmap list_max fold_right wp_depth]. 
    fold (list_max (wp_depth <$> flat_map
            (subtree_entries (Some (mkWithParent w parent depth)) (S depth))
            (wi_children w))).
    lia.
Qed.

Lemma getMaxDepth_visit_subtree (w : WorkItem) :
  forall parent depth deepest,
    getMaxDepth_visit depth deepest w
    = Nat.max deepest
        (list_max (wp_depth <$> tail (subtree_entries parent depth w))).
Proof.
  induction w as [props ado children IH] using WorkItem_children_ind.
  intros parent depth deepest.
  rewrite getMaxDepth_visit_eq, subtree_entries_eq. cbn [wi_children tail].
  set (e := mkWithParent (mkWorkItem props ado children) parent depth).
  destruct children as [|c cs]; [cbn; lia|].
  change (Nat.ltb 0 (length (c :: cs))) with true. cbv iota.
  rewrite (getMaxDepth_fold _ IH (Some e)) by lia.
  cbn [flat_map]. rewrite fmap_app, list_max_app, subtree_entries_eq.
  cbn [fmap list_fmap list_max fold_right wp_depth]. lia.
Qed.

Lemma list_max_In (l : list nat) : l <> [] -> In (list_max l) l.
Proof.
  induction l as [|x l IH]; [congruence|]. intros _.
  cbn [list_max fold_right]. fold (list_max l).
  destruct l as [|y l]; [left; cbn; lia|].
  destruct (Nat.max_spec x (list_max (y :: l))) as [[_ ->] | [_ ->]].
  - right. apply IH. discriminate.
  - left. reflexivity.
Qed.

Lemma getMaxDepth_flatten (doc : WorkItemsDocument) :
  getMaxDepth doc = list_max (wp_depth <$> flattenHierarchy doc).
Proof.
  unfold getMaxDepth. rewrite flattenHierarchy_subtrees.
  rewrite (getMaxDepth_fold (workItems doc)) with (parent := None) by
    (try lia; apply Forall_forall; intros w _; apply getMaxDepth_visit_subtree).
  apply Nat.max_r. cbn. lia.
Qed.

(** X4.  [getMaxDepth] is the greatest depth among the entries that
    [flattenHierarchy] lists: no entry is deeper, and some entry is
    that deep unless the document has no items, when it is 0. *)
Theorem getMaxDepth_is_greatest_depth (doc : WorkItemsDocument) :
  getMaxDepth doc = list_max (wp_depth <$> flattenHierarchy doc)
  /\ Forall (fun e => wp_depth e <= getMaxDepth doc) (flattenHierarchy doc)
  /\ (workItems doc = [] -> getMaxDepth doc = 0)
  /\ (workItems doc <> [] ->
      exists e, e ∈ flattenHierarchy doc /\ wp_depth e = getMaxDepth doc).
Proof.
  pose proof (getMaxDepth_flatten doc) as E.
  split; [exact E|]. split; [|split].
  - rewrite E. apply Forall_forall. intros e He.
    assert (Hin : In (wp_depth e) (wp_depth <$> flattenHierarchy doc)).
    { apply list_elem_of_In, list_elem_of_fmap. eauto. }
    pose proof (proj1 (list_max_le (wp_depth <$> flattenHierarchy doc) _)
                  (Nat.le_refl _)) as Hall.
    rewrite List.Forall_forall in Hall. apply Hall. exact Hin.
  - intros Hnil. rewrite E. unfold flattenHierarchy. rewrite Hnil.
    reflexivity.
  - intros Hne. rewrite E.
    assert (Hl : wp_depth <$> flattenHierarchy doc <> []).
    { rewrite flattenHierarchy_subtrees.
      destruct (workItems doc) as [|x l]; [congruence|].
      cbn [flat_map]. rewrite subtree_entries_eq. discriminate. }
    pose proof (list_max_In _ Hl) as Hin.
    apply list_elem_of_In, list_elem_of_fmap in Hin.
    destruct Hin as (e & He & Hin). exists e. split; [exact Hin|].
    symmetry. exact He.
Qed.

Lemma getItemsAtDepth_visit_eq (targetDepth : Z) (depth : nat)
  (result : list WorkItem) (w : WorkItem) :
  getItemsAtDepth_visit targetDepth depth result w
  = let result :=
      if Z.eqb (Z.of_nat depth) targetDepth then result ++ [w] else result in
    if Nat.ltb 0 (length (wi_children w)) && Z.ltb (Z.of_nat depth) targetDepth
    then fold_left (getItemsAtDepth_visit targetDepth (S depth))
           (wi_children w) result
    else result.
Proof. destruct w; reflexivity. Qed.

Lemma subtree_entries_depth (w : WorkItem) :
  forall parent depth,
    Forall (fun e => depth <= wp_depth e) (subtree_entries parent depth w).
Proof.
  induction w as [props ado children IH] using WorkItem_children_ind.
  intros parent depth. rewrite subtree_entries_eq. cbn [wi_children].
  constructor; [cbn; lia|].
  generalize (Some (mkWithParent (mkWorkItem props ado children) parent depth)).
  intros e. induction IH as [|c cs Hc _ IHcs]; [constructor|].
  cbn [flat_map]. apply Forall_app. split; [|exact IHcs].
  eapply Forall_impl; [apply Hc|]. cbn. intros x Hx. lia.
Qed.

Lemma fold_left_append {A B} (f : list B -> A -> list B)
  (g : A -> list B) (ws : list A) :
  Forall (fun w => forall result, f result w = result ++ g w) ws ->
  forall result, fold_left f ws result = result ++ flat_map g ws.
Proof.
  induction 1 as [|w r Hw _ IH]; intros result; cbn [fold_left flat_map].
  - symmetry. apply app_nil_r.
  - rewrite IH, Hw, <- app_assoc. reflexivity.
Qed.

Lemma filter_flat_map {A B} (t : B -> bool) (g : A -> list B) (ws : list A) :
  List.filter t (flat_map g ws) = flat_map (fun w => List.filter t (g w)) ws.
Proof.
  induction ws as [|w r IH]; [reflexivity|].
  cbn [flat_map]. rewrite List.filter_app, IH. reflexivity.
Qed.

Lemma filter_none {A} (t : A -> bool) (l : list A) :
  Forall (fun x => t x = false) l -> List.filter t l = [].
Proof.
  induction 1 as [|x l Hx _ IH]; [reflexivity|].
  cbn [List.filter]. rewrite Hx. exact IH.
Qed.

(** The entries of a subtree that lie at the depth asked for. *)
Lemma getItemsAtDepth_visit_subtree (targetDepth : Z) (w : WorkItem) :
  forall parent depth result,
    getItemsAtDepth_visit targetDepth depth result w
    = result
      ++ (wp_item
            <$> List.filter
                  (fun e => Z.eqb (Z.of_nat (wp_depth e)) targetDepth)
                  (subtree_entries parent depth w)).
Proof.
  induction w as [props ado children IH] using WorkItem_children_ind.
  intros parent depth result.
  rewrite getItemsAtDepth_visit_eq, subtree_entries_eq.
  cbn [wi_children List.filter wp_depth]. cbv zeta.
  set (w := mkWorkItem props ado children).
  set (e := mkWithParent w parent depth).
  set (t := fun e => Z.eqb (Z.of_nat (wp_depth e)) targetDepth).
  assert (Hdeep : (Z.of_nat depth <? targetDepth)%Z = false ->
            List.filter t (flat_map (subtree_entries (Some e) (S depth))
                             children) = []).
  { intros Hlt. apply Z.ltb_ge in Hlt. apply filter_none.
    apply Forall_forall. intros x Hx. apply list_elem_of_In in Hx.
    apply in_flat_map in Hx.
    destruct Hx as (c & _ & Hx). apply list_elem_of_In in Hx.
    pose proof (subtree_entries_depth c (Some e) (S depth)) as F.
    rewrite Forall_forall in F. specialize (F x Hx). cbn in F.
    unfold t. apply Z.eqb_neq. lia. }
  assert (Hfold : forall result,
            fold_left (getItemsAtDepth_visit targetDepth (S depth))
              children result
            = result
              ++ (wp_item
                    <$> List.filter t
                          (flat_map (subtree_entries (Some e) (S depth))
                             children))).
  { intros res.
    rewrite (fold_left_append _
               (fun c => wp_item
                           <$> List.filter t
                                 (subtree_entries (Some e) (S depth) c))).
    - rewrite filter_flat_map, flat_map_fmap. reflexivity.
    - eapply Forall_impl; [exact IH|]. intros c Hc res'. apply Hc. }
  destruct (Nat.ltb 0 (length children)) eqn:Hlen.
  - destruct (Z.ltb (Z.of_nat depth) targetDepth) eqn:Hlt; cbn [andb].
    + rewrite Hfold.
      destruct (Z.eqb (Z.of_nat depth) targetDepth);
        cbn [fmap list_fmap wp_item]; rewrite <- ?app_assoc; reflexivity.
    + rewrite (Hdeep eq_refl).
      destruct (Z.eqb (Z.of_nat depth) targetDepth);
        cbn [fmap list_fmap wp_item]; rewrite ?app_nil_r; reflexivity.
  - destruct children; [|discriminate]. cbn [andb flat_map List.filter].
    destruct (Z.eqb (Z.of_nat depth) targetDepth);
      cbn [fmap list_fmap wp_item]; rewrite ?app_nil_r; reflexivity.
Qed.

(** X5.  [getItemsAtDepth] returns the items of the entries that
    [flattenHierarchy] lists at the depth asked for, in that order; in
    particular nothing for a negative depth. *)
Theorem getItemsAtDepth_is_flatten_at_depth (doc : WorkItemsDocument)
  (targetDepth : Z) :
  getItemsAtDepth doc targetDepth
  = wp_item
      <$> List.filter (fun e => Z.eqb (Z.of_nat (wp_depth e)) targetDepth)
            (flattenHierarchy doc).
Proof.
  unfold getItemsAtDepth. rewrite flattenHierarchy_subtrees.
  rewrite (fold_left_append _
             (fun w => wp_item
                         <$> List.filter
                               (fun e => Z.eqb (Z.of_nat (wp_depth e))
                                           targetDepth)
                               (subtree_entries None 0 w))).
  - rewrite filter_flat_map, flat_map_fmap. reflexivity.
  - apply Forall_forall. intros w _ result.
    apply getItemsAtDepth_visit_subtree.
Qed.

Lemma collect_eq (descendants : list WorkItem) (w : WorkItem) :
  collect descendants w
  = if Nat.ltb 0 (length (wi_children w))
    then fold_left collect (wi_children w) (descendants ++ [w])
    else descendants ++ [w].
Proof. destruct w; reflexivity. Qed.

Lemma collect_subtree (w : WorkItem) :
  forall descendants, collect descendants w = descendants ++ subtree w.
Proof.
  induction w as [props ado children IH] using WorkItem_children_ind.
  intros descendants. rewrite collect_eq, subtree_eq. cbn [wi_children].
  destruct children as [|c cs]; [reflexivity|].
  change (Nat.ltb 0 (length (c :: cs))) with true. cbv iota.
  rewrite (fold_left_append _ subtree _ IH), <- app_assoc. reflexivity.
Qed.

Lemma getDescendants_subtrees (item : WorkItem) :
  getDescendants item = flat_map subtree (wi_children item).
Proof.
  unfold getDescendants.
  destruct (wi_children item) as [|c cs] eqn:E; [reflexivity|].
  change (Nat.ltb 0 (length (c :: cs))) with true. cbv iota.
  rewrite (fold_left_append _ subtree); [reflexivity|].
  apply Forall_forall. intros w _. apply collect_subtree.
Qed.

Lemma subtrees_drop (ws : list WorkItem) :
  Forall (fun w => forall i x,
            subtree w !! i = Some x ->
            exists rest, drop i (subtree w) = subtree x ++ rest) ws ->
  forall i x,
    flat_map subtree ws !! i = Some x ->
    exists rest, drop i (flat_map subtree ws) = subtree x ++ rest.
Proof.
  induction 1 as [|w r Hw _ IH]; intros i x Hi; [discriminate|].
  cbn [flat_map] in *. apply lookup_app_Some in Hi.
  destruct Hi as [Hi | [Hlen Hi]].
  - destruct (Hw i x Hi) as (rest & E).
    exists (rest ++ flat_map subtree r).
    rewrite drop_app_le by (apply Nat.lt_le_incl; eapply lookup_lt_Some, Hi).
    rewrite E, <- app_assoc. reflexivity.
  - destruct (IH _ x Hi) as (rest & E). exists rest.
    rewrite drop_app_ge by exact Hlen. exact E.
Qed.

Lemma subtree_drop (w : WorkItem) :
  forall i x,
    subtree w !! i = Some x ->
    exists rest, drop i (subtree w) = subtree x ++ rest.
Proof.
  induction w as [props ado children IH] using WorkItem_children_ind.
  intros i x. rewrite subtree_eq. cbn [wi_children].
  destruct i as [|i].
  - intros [= <-]. exists []. rewrite app_nil_r, subtree_eq. reflexivity.
  - cbn [lookup list_lookup drop]. apply subtrees_drop. exact IH.
Qed.

(** X6.  [getDescendants] returns the proper descendants of an item,
    parent first, as many as [countItems] counts in its children; and
    in the list that [flattenHierarchy] makes of a document, every
    node is immediately followed by its descendants, in the order of
    [getDescendants]. *)
Theorem descendants_follow_their_node :
  (forall item,
     length (getDescendants item) = countItems (wi_children item))
  /\ (forall doc i item,
        document_nodes doc !! i = Some item ->
        exists rest,
          drop i (document_nodes doc)
          = item :: getDescendants item ++ rest).
Proof.
  split.
  - intros item. rewrite getDescendants_subtrees, countItems_subtrees.
    reflexivity.
  - intros doc i item. rewrite document_nodes_subtrees. intros Hi.
    destruct (subtrees_drop (workItems doc)) with (i := i) (x := item)
      as (rest & E); [|exact Hi|].
    + apply Forall_forall. intros w _. apply subtree_drop.
    + exists rest. rewrite E, subtree_eq, getDescendants_subtrees.
      reflexivity.
Qed.

Lemma descendants_follow_their_node_witness :
  document_nodes Sample.doc !! 1 = Some Sample.pbi1
  /\ exists rest,
       drop 1 (document_nodes Sample.doc)
       = Sample.pbi1 :: getDescendants Sample.pbi1 ++ rest.
Proof.
  split; [reflexivity|].
  apply (proj2 descendants_follow_their_node). reflexivity.
Defined.

Lemma buildIdMap_visit_eq (map : gmap string WorkItem) (w : WorkItem) :
  buildIdMap_visit map w
  = if Nat.ltb 0 (length (wi_children w))
    then fold_left buildIdMap_visit (wi_children w)
           (<[ wi_id (wi_props w) := w ]> map)
    else <[ wi_id (wi_props w) := w ]> map.
Proof. destruct w; reflexivity. Qed.

(** A traversal that updates an accumulator at each node is the fold
    of the update over the nodes, parent first. *)
Lemma fold_left_subtrees {S} (f step : S -> WorkItem -> S)
  (ws : list WorkItem) :
  Forall (fun w => forall s, f s w = fold_left step (subtree w) s) ws ->
  forall s, fold_left f ws s = fold_left step (flat_map subtree ws) s.
Proof.
  induction 1 as [|w r Hw _ IH]; intros s; [reflexivity|].
  cbn [fold_left flat_map]. rewrite fold_left_app, <- Hw. apply IH.
Qed.

Lemma buildIdMap_visit_subtree (w : WorkItem) :
  forall map,
    buildIdMap_visit map w
    = fold_left (fun map item => <[ wi_id (wi_props item) := item ]> map)
        (subtree w) map.
Proof.
  induction w as [props ado children IH] using WorkItem_children_ind.
  intros map. rewrite buildIdMap_visit_eq, subtree_eq.
  cbn [wi_children fold_left].
  destruct children as [|c cs]; [reflexivity|].
  change (Nat.ltb 0 (length (c :: cs))) with true. cbv iota.
  apply fold_left_subtrees. exact IH.
Qed.

Lemma last_filter_cons {A} (t : A -> bool) (x : A) (l : list A) :
  last (List.filter t (x :: l))
  = match last (List.filter t l) with
    | Some y => Some y
    | None => if t x then Some x else None
    end.
Proof.
  cbn [List.filter]. destruct (t x).
  - rewrite last_cons. reflexivity.
  - destruct (last (List.filter t l)); reflexivity.
Qed.

Lemma fold_insert_lookup `{Countable K} {A} (key : A -> option K)
  (l : list A) :
  forall (map : gmap K A) (k : K),
    fold_left (fun map x => match key x with
                            | Some k => <[ k := x ]> map
                            | None => map
                            end) l map !! k
    = match last (List.filter (fun x => bool_decide (key x = Some k)) l) with
      | Some x => Some x
      | None => map !! k
      end.
Proof.
  induction l as [|x l IH]; intros map k; [reflexivity|].
  cbn [fold_left]. rewrite IH, last_filter_cons.
  destruct (last (List.filter _ l)); [reflexivity|].
  destruct (key x) as [k'|] eqn:E.
  - destruct (decide (k' = k)) as [->|Hne].
    + rewrite bool_decide_eq_true_2 by reflexivity.
      apply lookup_insert_eq.
    + rewrite bool_decide_eq_false_2 by congruence.
      apply lookup_insert_ne. exact Hne.
  - rewrite bool_decide_eq_false_2 by congruence. reflexivity.
Qed.

Lemma filter_ext_eq {A} (t u : A -> bool) (l : list A) :
  (forall x, t x = u x) -> List.filter t l = List.filter u l.
Proof.
  intros E. induction l as [|x l IH]; [reflexivity|].
  cbn [List.filter]. rewrite E, IH. reflexivity.
Qed.

Lemma last_filter_find {A B} `{EqDecision B} (f : A -> B) (k : B)
  (l : list A) :
  NoDup (f <$> l) ->
  last (List.filter (fun x => bool_decide (f x = k)) l)
  = List.find (fun x => bool_decide (f x = k)) l.
Proof.
  induction l as [|x l IH]; [reflexivity|].
  rewrite fmap_cons, NoDup_cons. intros [Hx Hl].
  rewrite last_filter_cons, (IH Hl). cbn [List.find].
  destruct (decide (f x = k)) as [E|E].
  - rewrite bool_decide_eq_true_2 by exact E.
    destruct (List.find _ l) as [y|] eqn:Ey; [|reflexivity].
    apply find_some in Ey. destruct Ey as [Hy Ek].
    apply bool_decide_eq_true_1 in Ek. exfalso. apply Hx.
    rewrite E, <- Ek. apply list_elem_of_fmap. exists y.
    split; [reflexivity | apply list_elem_of_In; exact Hy].
  - rewrite bool_decide_eq_false_2 by exact E.
    destruct (List.find _ l); reflexivity.
Qed.

Lemma buildIdMap_fold (doc : WorkItemsDocument) :
  buildIdMap doc
  = fold_left (fun map item => <[ wi_id (wi_props item) := item ]> map)
      (document_nodes doc) ∅.
Proof.
  unfold buildIdMap. rewrite document_nodes_subtrees.
  apply fold_left_subtrees, Forall_forall. intros w _.
  apply buildIdMap_visit_subtree.
Qed.

(** X7.  [buildIdMap] maps an id to the last node of the document
    (parent first) that has it, where [findItemById] returns the
    first one; when the local ids of the document are pairwise
    distinct, a lookup in the map is [findItemById]. *)
Theorem buildIdMap_lookup (doc : WorkItemsDocument) (id : string) :
  buildIdMap doc !! id
  = last (List.filter (has_id id) (document_nodes doc))
  /\ (NoDup (document_ids doc) ->
      buildIdMap doc !! id = findItemById doc id).
Proof.
  assert (E : buildIdMap doc !! id
              = last (List.filter
                        (fun x => bool_decide (wi_id (wi_props x) = id))
                        (document_nodes doc))).
  { rewrite buildIdMap_fold.
    rewrite (fold_insert_lookup (fun x => Some (wi_id (wi_props x)))).
    rewrite lookup_empty.
    rewrite (filter_ext_eq _ (fun x => bool_decide (wi_id (wi_props x) = id))).
    - destruct (last _); reflexivity.
    - intros x. apply bool_decide_ext. split; congruence. }
  assert (T : forall x, has_id id x = bool_decide (wi_id (wi_props x) = id)).
  { intros x. unfold has_id.
    destruct (String.eqb_spec (wi_id (wi_props x)) id) as [e|n].
    - rewrite bool_decide_eq_true_2 by exact e. reflexivity.
    - rewrite bool_decide_eq_false_2 by exact n. reflexivity. }
  split.
  - rewrite E. f_equal. apply filter_ext_eq. intros x. symmetry. apply T.
  - intros Hnd. rewrite E.
    rewrite (last_filter_find (fun x => wi_id (wi_props x)) id) by exact Hnd.
    unfold findItemById. rewrite search_find. clear E Hnd.
    induction (document_nodes doc) as [|x l IH]; [reflexivity|].
    cbn [List.find]. rewrite T, IH. reflexivity.
Qed.

Lemma buildIdMap_lookup_witness :
  NoDup (document_ids Sample.doc)
  /\ buildIdMap Sample.doc !! "pbi-2" = findItemById Sample.doc "pbi-2".
Proof.
  assert (H : NoDup (document_ids Sample.doc)).
  { apply (bool_decide_unpack (NoDup (document_ids Sample.doc))).
    vm_compute. exact I. }
  split; [exact H|].
  apply (proj2 (buildIdMap_lookup Sample.doc "pbi-2")). exact H.
Defined.

(** ** Diff engine: the comparison and the diff of a document *)

Lemma every_same_eq (xs ys : list string) :
  length xs = length ys -> (every_same xs ys = true <-> xs = ys).
Proof.
  revert ys. induction xs as [|x xs IH]; intros [|y ys] Hlen;
    try discriminate; cbn [every_same].
  - tauto.
  - injection Hlen as Hlen. rewrite andb_true_iff, (IH ys Hlen).
    rewrite String.eqb_eq. split; [intros [-> ->]; reflexivity|].
    intros [= -> ->]. tauto.
Qed.

Lemma sort_eq_Permutation (xs ys : list string) :
  Js.sort xs = Js.sort ys <-> xs ≡ₚ ys.
Proof.
  unfold Js.sort. split.
  - intros E. rewrite <- (merge_sort_Permutation String.le xs), E.
    apply merge_sort_Permutation.
  - intros P. apply (Sorted_unique String.le).
    + apply Sorted_merge_sort. apply _.
    + apply Sorted_merge_sort. apply _.
    + rewrite !merge_sort_Permutation. exact P.
Qed.

Lemma isEqual_arrays (xs ys : list string) :
  isEqual (Js.VArray xs) (Js.VArray ys) = true <-> xs ≡ₚ ys.
Proof.
  cbn [isEqual Js.nullish]. rewrite <- sort_eq_Permutation.
  destruct (Nat.eqb_spec (length xs) (length ys)) as [E|E]; cbn [negb].
  - apply every_same_eq.
    unfold Js.sort. rewrite !(Permutation_length (merge_sort_Permutation _ _)).
    exact E.
  - split; [discriminate|]. intros P. exfalso. apply E.
    apply sort_eq_Permutation in P. apply Permutation_length. exact P.
Qed.

Lemma isEqual_same_value (a b : Js.value) :
  isEqual a b = true <-> same_value a b.
Proof.
  split.
  - destruct a as [| |s|m|xs], b as [| |t|n|ys]; cbn [isEqual Js.nullish];
      try discriminate; try (intros _; apply same_nullish; reflexivity).
    + rewrite String.eqb_eq. apply same_string.
    + rewrite Z.eqb_eq. intros ->. apply same_number.
    + intros E. apply same_array.
      apply isEqual_arrays. exact E.
  - intros [a' b' Ha Hb|s t E|n|xs ys P].
    + unfold isEqual. rewrite Ha. exact Hb.
    + cbn. apply String.eqb_eq. exact E.
    + cbn. apply Z.eqb_refl.
    + apply isEqual_arrays. exact P.
Qed.

(** X8.  [isEqual] is an equivalence on the values it compares:
    [undefined] and [null] are equal, strings are equal when they are
    after trimming, and two arrays of strings are equal exactly when
    one is a rearrangement of the other, whatever the order of their
    elements. *)
Theorem isEqual_equivalence :
  (forall a, isEqual a a = true)
  /\ (forall a b, isEqual a b = isEqual b a)
  /\ (forall a b c,
        isEqual a b = true -> isEqual b c = true -> isEqual a c = true)
  /\ (forall xs ys,
        isEqual (Js.VArray xs) (Js.VArray ys) = true <-> xs ≡ₚ ys)
  /\ (forall s t,
        isEqual (Js.VString s) (Js.VString t) = true
        <-> Js.trim s = Js.trim t)
  /\ isEqual Js.VUndefined Js.VNull = true.
Proof.
  assert (Hsym : forall a b, isEqual a b = true -> isEqual b a = true).
  { intros a b H. apply isEqual_same_value in H. apply isEqual_same_value.
    destruct H as [a b Ha Hb|s t E|n|xs ys P].
    - apply same_nullish; assumption.
    - apply same_string. symmetry. exact E.
    - apply same_number.
    - apply same_array. symmetry. exact P. }
  split; [|split; [|split; [|split; [|split]]]].
  - intros a. apply isEqual_same_value.
    destruct a; [apply same_nullish; reflexivity..| | |].
    + apply same_string. reflexivity.
    + apply same_number.
    + apply same_array. reflexivity.
  - intros a b. destruct (isEqual a b) eqn:E1, (isEqual b a) eqn:E2;
      try reflexivity.
    + apply Hsym in E1. congruence.
    + apply Hsym in E2. congruence.
  - intros a b c H1 H2.
    apply isEqual_same_value in H1. apply isEqual_same_value in H2.
    apply isEqual_same_value.
    destruct H1 as [a b Ha Hb|s t E|n|xs ys P].
    + apply same_nullish; [exact Ha|].
      inversion H2; subst; try discriminate; assumption.
    + inversion H2; subst; try discriminate.
      apply same_string. congruence.
    + exact H2.
    + inversion H2; subst; try discriminate.
      apply same_array. etransitivity; eassumption.
  - apply isEqual_arrays.
  - intros s t. cbn. apply String.eqb_eq.
  - reflexivity.
Qed.

Lemma isEqual_equivalence_witness :
  isEqual (Js.VArray ["ui"; "frontend"]) (Js.VArray ["frontend"; "ui"]) = true
  /\ isEqual (Js.VArray ["frontend"; "ui"]) (Js.VArray ["ui"; "ui"]) = false
  /\ isEqual (Js.VArray ["frontend"; "ui"]) (Js.VString " frontend; ui ")
     = false
  /\ isEqual (Js.VString "Done") (Js.VString " Done ") = true
  /\ isEqual (Js.VArray ["ui"; "frontend"]) (Js.VString "x") = false
  /\ isEqual (Js.VArray ["ui"; "frontend"]) (Js.VArray ["ui"; "frontend"])
     = true.
Proof.
  assert (H1 : isEqual (Js.VArray ["ui"; "frontend"])
                 (Js.VArray ["frontend"; "ui"]) = true) by reflexivity.
  assert (H2 : isEqual (Js.VArray ["frontend"; "ui"])
                 (Js.VArray ["ui"; "frontend"]) = true) by reflexivity.
  repeat (split; [reflexivity|]).
  exact (proj1 (proj2 (proj2 isEqual_equivalence)) _ _ _ H1 H2).
Defined.

Lemma count_status_total (diffs : list WorkItemDiff) :
  Forall (fun d => wd_status d <> SDeleted) diffs ->
  count_status SNew diffs + count_status SModified diffs
  + count_status SUnchanged diffs + count_status SConflict diffs
  = length diffs.
Proof.
  unfold count_status. induction 1 as [|d l Hd _ IH]; [reflexivity|].
  cbn [List.filter length].
  destruct (wd_status d); cbn [DiffStatus_eqb length]; try lia.
  congruence.
Qed.

(** X9.  [diffDocument] makes one diff per node of the document, in
    the order of [flattenHierarchy] and under the local id of the
    node; the diff is [new] exactly when the node records no remote id
    or the map has no record under the id it records; and the counts
    of [getDiffSummary] for new, modified, unchanged and conflict add
    up to the number of nodes that [countItems] gives. *)
Theorem diffDocument_covers_document (doc : WorkItemsDocument)
  (adoItems : gmap Z AdoWorkItemResponse) :
  let diffs := diffDocument doc adoItems in
  let summary := getDiffSummary diffs in
  wd_localId <$> diffs = document_ids doc
  /\ Forall2
       (fun item d =>
          d = diffWorkItem item (remote_of adoItems item)
          /\ (wd_status d = SNew
              <-> recorded_id item = None
                  \/ exists adoId, recorded_id item = Some adoId
                                   /\ adoItems !! adoId = None))
       (document_nodes doc) diffs
  /\ sum_new summary + sum_modified summary + sum_unchanged summary
     + sum_conflict summary
     = countItems (workItems doc).
Proof.
  cbv zeta. unfold diffDocument, document_ids, document_nodes.
  split; [|split].
  - rewrite <- !list_fmap_compose. apply list_fmap_ext. intros i e _.
    cbn. destruct (remote_of adoItems (wp_item e)); reflexivity.
  - apply Forall2_fmap. apply Forall_Forall2_diag, Forall_forall.
    intros e _. split; [reflexivity|].
    unfold remote_of. destruct (recorded_id (wp_item e)) as [adoId|].
    + destruct (adoItems !! adoId) as [ado|] eqn:E.
      * split.
        -- unfold diffWorkItem. cbn [wd_status].
           destruct (Nat.ltb 0 _); [destruct (newer_revision _ _)|];
             discriminate.
        -- intros [[=] | (id & [= <-] & E')]. congruence.
      * split; [|reflexivity]. intros _. right. eauto.
    + split; [|reflexivity]. intros _. left. reflexivity.
  - cbn [getDiffSummary sum_new sum_modified sum_unchanged sum_conflict].
    rewrite count_status_total.
    + rewrite length_fmap.
      symmetry. apply countItems_flatten.
    + apply Forall_fmap, Forall_forall. intros e _ E.
      pose proof (diffWorkItem_status_cases (wp_item e)
                    (remote_of adoItems (wp_item e))) as Hc.
      cbn in E. rewrite E in Hc. simpl in Hc.
      repeat (destruct Hc as [Hc | Hc]; [discriminate|]). exact Hc.
Qed.

(** ** Work-item API: numbers in urls, links, patch documents *)

Lemma append_cons (a : ascii) (s t : string) :
  String a s +:+ t = String a (s +:+ t).
Proof. reflexivity. Qed.

Lemma append_nil_r (s : string) : s +:+ "" = s.
Proof.
  induction s as [|a s IH]; [reflexivity|]. rewrite append_cons, IH.
  reflexivity.
Qed.

Lemma append_assoc (s t u : string) : (s +:+ t) +:+ u = s +:+ (t +:+ u).
Proof.
  induction s as [|a s IH]; [reflexivity|]. rewrite !append_cons, IH.
  reflexivity.
Qed.

Lemma rev_app_append (s t : string) :
  String.rev_app s t = String.rev s +:+ t.
Proof.
  unfold String.rev. revert t. induction s as [|a s IH]; intros t.
  - reflexivity.
  - cbn [String.rev_app]. rewrite (IH (String a t)), (IH (String a "")).
    rewrite append_assoc. reflexivity.
Qed.

Lemma rev_cons (a : ascii) (s : string) :
  String.rev (String a s) = String.rev s +:+ String a "".
Proof. unfold String.rev at 1. cbn [String.rev_app]. apply rev_app_append. Qed.

Lemma rev_append (s t : string) :
  String.rev (s +:+ t) = String.rev t +:+ String.rev s.
Proof.
  induction s as [|a s IH].
  - change ("" +:+ t) with t. symmetry. apply append_nil_r.
  - rewrite append_cons, !rev_cons, IH, append_assoc. reflexivity.
Qed.

Lemma rev_involutive (s : string) : String.rev (String.rev s) = s.
Proof.
  induction s as [|a s IH]; [reflexivity|].
  rewrite rev_cons, rev_append, IH. reflexivity.
Qed.

Lemma all_digits_append (s t : string) :
  all_digits (s +:+ t) = all_digits s && all_digits t.
Proof.
  induction s as [|a s IH]; [reflexivity|].
  rewrite append_cons. cbn [all_digits]. rewrite IH, andb_assoc. reflexivity.
Qed.

Lemma all_digits_rev (s : string) : all_digits (String.rev s) = all_digits s.
Proof.
  induction s as [|a s IH]; [reflexivity|].
  rewrite rev_cons, all_digits_append, IH. cbn [all_digits].
  rewrite andb_true_r. apply andb_comm.
Qed.

Lemma digit_char_spec (d : Z) :
  (0 <= d < 10)%Z ->
  Js.is_digit (Js.digit_char d) = true /\ Js.digit_value (Js.digit_char d) = d.
Proof.
  intros H.
  assert (E : (d = 0 \/ d = 1 \/ d = 2 \/ d = 3 \/ d = 4 \/ d = 5 \/ d = 6
               \/ d = 7 \/ d = 8 \/ d = 9)%Z) by lia.
  repeat (destruct E as [-> | E]; [split; reflexivity|]).
  subst. split; reflexivity.
Qed.

(** What [render_go] puts in front of [acc]: digits, at least one,
    that read back as [n]. *)
Lemma render_go_spec (fuel : nat) :
  forall n acc,
    (0 <= n < 2 ^ Z.of_nat fuel)%Z -> 0 < fuel ->
    exists ds,
      Js.render_go fuel n acc = ds +:+ acc
      /\ ds <> "" /\ all_digits ds = true
      /\ forall a seen rest,
           Js.digits_go a seen (ds +:+ rest)
           = Js.digits_go (a * 10 ^ Z.of_nat (String.length ds) + n) true rest.
Proof.
  induction fuel as [|k IH]; intros n acc Hn Hk; [lia|].
  cbn [Js.render_go].
  assert (Hd : (0 <= n mod 10 < 10)%Z) by (apply Z.mod_pos_bound; lia).
  destruct (digit_char_spec _ Hd) as [D1 D2].
  destruct (Z.ltb_spec n 10%Z) as [Hlt | Hge].
  - exists (String (Js.digit_char (n mod 10)) ""). split; [reflexivity|].
    split; [discriminate|]. split; [cbn; rewrite D1; reflexivity|].
    intros a seen rest. rewrite append_cons. cbn [Js.digits_go String.length].
    change ("" +:+ rest) with rest. rewrite D1, D2.
    rewrite Z.mod_small by lia. f_equal. lia.
  - assert (Hk' : 0 < k).
    { destruct k; [|lia]. cbn in Hn. lia. }
    assert (Hn' : (0 <= n / 10 < 2 ^ Z.of_nat k)%Z).
    { split; [apply Z.div_pos; lia|].
      apply Z.div_lt_upper_bound; [lia|].
      rewrite Nat2Z.inj_succ, Z.pow_succ_r in Hn by lia. lia. }
    destruct (IH (n / 10)%Z (String (Js.digit_char (n mod 10)) acc) Hn' Hk')
      as (ds & E & Hne & Hall & Hread).
    exists (ds +:+ String (Js.digit_char (n mod 10)) "").
    split; [rewrite E, append_assoc; reflexivity|].
    split; [destruct ds; [contradiction | discriminate]|].
    split; [rewrite all_digits_append, Hall; cbn; rewrite D1; reflexivity|].
    intros a seen rest. rewrite append_assoc, Hread, append_cons.
    cbn [Js.digits_go]. change ("" +:+ rest) with rest. rewrite D1, D2.
    f_equal.
    assert (L : String.length (ds +:+ String (Js.digit_char (n mod 10)) "")
                = S (String.length ds)).
    { clear. induction ds as [|c ds IHd]; [reflexivity|].
      rewrite append_cons. cbn [String.length]. rewrite IHd. reflexivity. }
    rewrite L, Nat2Z.inj_succ, Z.pow_succ_r by lia.
    pose proof (Z_div_mod_eq_full n 10). lia.
Qed.

Lemma toString_nonneg (n : Z) :
  (0 <= n)%Z ->
  exists ds,
    Js.toString n = ds /\ ds <> "" /\ all_digits ds = true
    /\ Js.digits_go 0%Z false ds = Some n.
Proof.
  intros Hn. unfold Js.toString.
  destruct (Z.ltb_spec n 0%Z) as [H|_]; [lia|].
  destruct (render_go_spec (S (Z.to_nat (Z.log2 n))) n "")
    as (ds & E & Hne & Hall & Hread); [|lia|].
  - split; [exact Hn|].
    rewrite Nat2Z.inj_succ, Z2Nat.id by apply Z.log2_nonneg.
    destruct (Z.eq_dec n 0%Z) as [->|Hz]; [cbn; lia|].
    apply Z.log2_spec. lia.
  - exists ds. rewrite E, append_nil_r. split; [reflexivity|].
    split; [exact Hne|]. split; [exact Hall|].
    rewrite <- (append_nil_r ds) at 1. rewrite Hread. cbn [Js.digits_go].
    f_equal.
Qed.

Lemma digit_not_space_nor_sign (c : ascii) :
  Js.is_digit c = true ->
  Js.is_space c = false /\ c <> "-"%char /\ c <> "+"%char.
Proof.
  destruct c as [[] [] [] [] [] [] [] []]; intros H; try discriminate H;
    repeat split; try reflexivity; discriminate.
Qed.

Lemma parseInt_digits (ds : string) (n : Z) :
  ds <> "" -> all_digits ds = true ->
  Js.digits_go 0%Z false ds = Some n -> Js.parseInt ds = Some n.
Proof.
  intros Hne Hall Hread. destruct ds as [|c r]; [contradiction|].
  cbn [all_digits] in Hall. apply andb_true_iff in Hall. destruct Hall as [Hc _].
  destruct (digit_not_space_nor_sign c Hc) as (Hs & Hm & Hp).
  unfold Js.parseInt. cbn [Js.trimStart]. rewrite Hs.
  destruct c as [[] [] [] [] [] [] [] []]; try exact Hread;
    exfalso; auto.
Qed.

Lemma parseInt_toString (n : Z) : Js.parseInt (Js.toString n) = Some n.
Proof.
  destruct (Z.ltb_spec n 0%Z) as [Hneg | Hpos].
  - destruct (toString_nonneg (- n)) as (ds & E & Hne & Hall & Hread); [lia|].
    unfold Js.toString in *.
    destruct (Z.ltb_spec n 0%Z) as [_|H]; [|lia].
    destruct (Z.ltb_spec (- n) 0%Z) as [H|_]; [lia|].
    rewrite E. unfold Js.parseInt. cbn [Js.trimStart].
    change (Js.is_space "-") with false. cbv iota.
    rewrite Hread. cbn. f_equal. lia.
  - destruct (toString_nonneg n Hpos) as (ds & E & Hne & Hall & Hread).
    rewrite E. apply parseInt_digits; assumption.
Qed.

Lemma take_digits_append (ds rest : string) :
  all_digits ds = true ->
  match rest with
  | EmptyString => True
  | String c _ => Js.is_digit c = false
  end ->
  take_digits (ds +:+ rest) = (ds, rest).
Proof.
  intros Hall Hrest. induction ds as [|c ds IH].
  - change ("" +:+ rest) with rest. destruct rest as [|c r]; [reflexivity|].
    cbn [take_digits]. rewrite Hrest. reflexivity.
  - cbn [all_digits] in Hall. apply andb_true_iff in Hall.
    destruct Hall as [Hc Hall]. rewrite append_cons. cbn [take_digits].
    rewrite Hc, (IH Hall). reflexivity.
Qed.

Lemma rev_not_empty (s : string) : s <> "" -> String.rev s <> "".
Proof.
  intros H E. apply H. rewrite <- (rev_involutive s), E. reflexivity.
Qed.

Lemma workItems_id_of_url_nonneg (prefix : string) (n : Z) :
  (0 <= n)%Z ->
  workItems_id_of_url (prefix +:+ "/workItems/" +:+ Js.toString n) = Some n.
Proof.
  intros Hn. destruct (toString_nonneg n Hn) as (ds & E & Hne & Hall & Hread).
  rewrite E. unfold workItems_id_of_url.
  rewrite !rev_append, append_assoc, take_digits_append.
  - pose proof (rev_not_empty ds Hne) as Hr.
    destruct (String.rev ds) as [|c r] eqn:Er; [contradiction|].
    rewrite <- Er, rev_involutive.
    change (Js.strip_prefix (String.rev "/workItems/")
              (String.rev "/workItems/" +:+ String.rev prefix))
      with (Some (String.rev prefix)).
    apply parseInt_digits; assumption.
  - rewrite all_digits_rev. exact Hall.
  - reflexivity.
Qed.

Lemma workItems_id_of_url_negative (prefix : string) (n : Z) :
  (n < 0)%Z ->
  workItems_id_of_url (prefix +:+ "/workItems/" +:+ Js.toString n) = None.
Proof.
  intros Hn.
  destruct (toString_nonneg (- n)) as (ds & E & Hne & Hall & _); [lia|].
  assert (Et : Js.toString n = String "-" ds).
  { unfold Js.toString in *.
    destruct (Z.ltb_spec n 0%Z) as [_|H]; [|lia].
    destruct (Z.ltb_spec (- n) 0%Z) as [H|_]; [lia|].
    rewrite E. reflexivity. }
  rewrite Et. unfold workItems_id_of_url.
  rewrite !rev_append, rev_cons, !append_assoc, take_digits_append.
  - pose proof (rev_not_empty ds Hne) as Hr.
    destruct (String.rev ds) as [|c r]; [contradiction|]. reflexivity.
  - rewrite all_digits_rev. exact Hall.
  - reflexivity.
Qed.

(** X11.  The number that a link url ends with is read back, for the
    ids that are safe integers (those a JavaScript number holds
    exactly and writes with its decimal digits).  The relation
    [addParentLink] adds for such a parent id that is not negative is
    one from which [getParentId] returns that id, and for which
    [hasParentLink] holds; for a negative id [getParentId] returns
    [null].  [getChildIds] returns, in order, the ids that the urls of
    the child links end with, when these are safe and not negative.
    [parseInt] reads back the decimal rendering of a safe integer. *)
Theorem link_ids_are_read_back {W} (client : AdoClient W) :
  (forall childId parentId,
     addParentLink client childId parentId
     = patch_item client
         ("/" +:+ getProject client +:+ "/_apis/wit/workitems/"
            +:+ Js.toString childId)
         [ {| op := op_add; path := "/relations/-";
              value := Some (PRelation
                               (rel (parent_relation client parentId))
                               (rel_url (parent_relation client parentId))) |} ])
  /\ (forall workItem relations parentId,
        Js.isSafeInteger parentId = true ->
        r_relations workItem = Some relations ->
        List.find (fun r => String.eqb (rel r) LINK_PARENT) relations
        = Some (parent_relation client parentId) ->
        hasParentLink workItem = true
        /\ getParentId workItem
           = if (parentId <? 0)%Z then None else Some parentId)
  /\ (forall workItem (links : list (string * Z)),
        r_relations workItem
        = Some ((fun l => {| rel := LINK_CHILD;
                             rel_url := l.1 +:+ "/workItems/"
                                          +:+ Js.toString l.2;
                             rel_attributes := None |}) <$> links) ->
        Forall (fun l => (0 <= l.2 <= Js.MAX_SAFE_INTEGER)%Z) links ->
        getChildIds workItem = snd <$> links)
  /\ (forall n, Js.isSafeInteger n = true ->
                Js.parseInt (Js.toString n) = Some n).
Proof.
  split; [reflexivity|].
  split; [|split; [|intros n _; apply parseInt_toString]].
  - intros workItem relations parentId _ Hrel Hfind.
    unfold hasParentLink, getParentId. rewrite Hrel, Hfind. split.
    + apply find_some in Hfind. destruct Hfind as [Hin _].
      apply existsb_exists. exists (parent_relation client parentId).
      split; [exact Hin | reflexivity].
    + cbn [parent_relation rel_url].
      replace (getBaseUrl client +:+ "/" +:+ getProject client
                 +:+ "/_apis/wit/workItems/" +:+ Js.toString parentId)
        with ((getBaseUrl client +:+ "/" +:+ getProject client
                 +:+ "/_apis/wit") +:+ "/workItems/" +:+ Js.toString parentId)
        by (rewrite !append_assoc; reflexivity).
      destruct (Z.ltb_spec parentId 0%Z) as [Hneg | Hpos].
      * apply workItems_id_of_url_negative. exact Hneg.
      * apply workItems_id_of_url_nonneg. exact Hpos.
  - intros workItem links Hrel Hpos. unfold getChildIds. rewrite Hrel.
    clear Hrel. induction Hpos as [|[p n] links [Hn _] _ IH]; [reflexivity|].
    rewrite !fmap_cons. cbn [List.filter rel].
    change (String.eqb LINK_CHILD LINK_CHILD) with true. cbv iota.
    cbn [omap list_omap rel_url fst snd].
    rewrite (workItems_id_of_url_nonneg p n Hn).
    f_equal. exact IH.
Qed.

Lemma link_ids_are_read_back_witness :
  getParentId
    {| r_id := 7; r_rev := 1; r_url := "";
       r_fields := Demo.blank_fields "Task" "Write tests";
       r_relations := Some [Demo.child_link 9;
                            parent_relation Demo.client 42] |}
  = Some 42%Z
  /\ getChildIds
       {| r_id := 7; r_rev := 1; r_url := "";
          r_fields := Demo.blank_fields "Task" "Write tests";
          r_relations :=
            Some ((fun l => {| rel := LINK_CHILD;
                               rel_url := l.1 +:+ "/workItems/"
                                            +:+ Js.toString l.2;
                               rel_attributes := None |})
                    <$> [("https://dev.azure.com/org/_apis/wit", 8%Z);
                         ("https://dev.azure.com/org/_apis/wit", 10%Z)]) |}
     = [8; 10]%Z.
Proof.
  destruct (link_ids_are_read_back Demo.client) as (_ & H2 & H3 & _).
  split.
  - eapply (H2 _ _ 42%Z); reflexivity.
  - apply (H3 _ [("https://dev.azure.com/org/_apis/wit", 8%Z);
                 ("https://dev.azure.com/org/_apis/wit", 10%Z)]).
    + reflexivity.
    + repeat constructor; cbn; discriminate.
Defined.

Lemma FIELD_MAP_inj (f g : FieldName) : FIELD_MAP f = FIELD_MAP g -> f = g.
Proof. destruct f, g; intros E; try reflexivity; discriminate E. Qed.

Lemma flat_map_option {A B} (t : A -> bool) (h : A -> B) (l : list A) :
  flat_map (fun x => if t x then [] else [h x]) l
  = h <$> List.filter (fun x => negb (t x)) l.
Proof.
  induction l as [|x l IH]; [reflexivity|].
  cbn [flat_map List.filter]. rewrite IH. destruct (t x); reflexivity.
Qed.

Lemma filter_Permutation_bool {A} (t : A -> bool) (l k : list A) :
  l ≡ₚ k -> List.filter t l ≡ₚ List.filter t k.
Proof.
  induction 1 as [|x l k _ IH|x y l|l k m _ IH1 _ IH2]; cbn [List.filter].
  - reflexivity.
  - destruct (t x); [constructor|]; exact IH.
  - destruct (t x), (t y); try reflexivity. apply perm_swap.
  - etransitivity; eassumption.
Qed.

Lemma fieldMappings_COMPARE_FIELDS : fieldMappings ≡ₚ COMPARE_FIELDS.
Proof.
  apply NoDup_Permutation.
  - apply (bool_decide_unpack (NoDup fieldMappings)). vm_compute. exact I.
  - apply (bool_decide_unpack (NoDup COMPARE_FIELDS)). vm_compute. exact I.
  - intros f. split; intros _; destruct f;
      apply list_elem_of_In; simpl; tauto.
Qed.

Lemma buildPatchDocument_filter (fields : WorkItemProps) :
  buildPatchDocument fields
  = (fun f => {| op := op_add; path := "/fields/" +:+ FIELD_MAP f;
                 value := Some (PField (transform f (local_field fields f))) |})
      <$> List.filter (fun f => negb (Js.nullish (local_field fields f)))
            fieldMappings.
Proof. unfold buildPatchDocument. apply flat_map_option. Qed.

(** X12.  The patch document built for an item writes no field twice:
    its operations are [add] operations on pairwise distinct
    [/fields/] paths, one for each field that the item sets, the title
    among them.  The fields it writes are those that the diff of the
    item as a new item lists as changes.  [REVERSE_FIELD_MAP] maps the
    reference name that [FIELD_MAP] gives a field back to the field. *)
Theorem patch_document_fields (item : WorkItem) :
  let operations := buildPatchDocument (wi_props item) in
  NoDup (path <$> operations)
  /\ Forall (fun o => op o = op_add) operations
  /\ "/fields/System.Title" ∈ path <$> operations
  /\ path <$> operations
     ≡ₚ (fun c => "/fields/" +:+ FIELD_MAP (fc_field c))
          <$> wd_changes (diffWorkItem item None)
  /\ (forall f, REVERSE_FIELD_MAP !! FIELD_MAP f = Some f)
  /\ (forall name f, REVERSE_FIELD_MAP !! name = Some f -> FIELD_MAP f = name).
Proof.
  cbv zeta. rewrite buildPatchDocument_filter.
  rewrite <- !list_fmap_compose.
  split; [|split; [|split; [|split; [|split]]]].
  - apply NoDup_fmap_2.
    + intros f g E. cbn in E. apply FIELD_MAP_inj.
      exact (String.app_inj "/fields/" _ _ E).
    + apply NoDup_ListNoDup, List.NoDup_filter, NoDup_ListNoDup.
      apply (bool_decide_unpack (NoDup fieldMappings)). vm_compute. exact I.
  - apply Forall_fmap, Forall_forall. reflexivity.
  - apply list_elem_of_fmap. exists title. split; [reflexivity|].
    apply list_elem_of_In, filter_In. split; [simpl; tauto | reflexivity].
  - unfold diffWorkItem. cbn [wd_changes].
    change (map ?f ?l) with (f <$> l). rewrite <- list_fmap_compose.
    apply fmap_Permutation.
    rewrite (filter_Permutation_bool _ _ _ fieldMappings_COMPARE_FIELDS).
    erewrite filter_ext_eq; [reflexivity|].
    intros f. cbv beta.
    destruct (local_field (wi_props item) f) eqn:E; try reflexivity.
    exfalso. unfold local_field, Js.of_string, Js.of_number, Js.of_array in E.
    destruct f;
      repeat match type of E with
             | context [match ?x with _ => _ end] => destruct x
             end; discriminate E.
  - intros f. destruct f; reflexivity.
  - intros name f E.
    assert (K : name ∈ (FIELD_MAP <$> COMPARE_FIELDS)).
    { destruct (decide (name ∈ (FIELD_MAP <$> COMPARE_FIELDS)))
        as [|Hn]; [assumption|].
      exfalso. unfold REVERSE_FIELD_MAP, FIELD_MAP_entries in E.
      cbn [fmap list_fmap fold_left fst snd] in E.
      repeat (rewrite lookup_insert_ne in E;
              [|intros <-; apply Hn; apply list_elem_of_In; simpl; tauto]).
      rewrite lookup_empty in E. discriminate. }
    apply list_elem_of_fmap in K. destruct K as (g & -> & _).
    assert (Eg : REVERSE_FIELD_MAP !! FIELD_MAP g = Some g)
      by (destruct g; reflexivity).
    congruence.
Qed.

Lemma patch_document_fields_witness :
  REVERSE_FIELD_MAP !! "System.Tags" = Some tags
  /\ FIELD_MAP tags = "System.Tags".
Proof.
  split; [reflexivity|].
  apply (proj2 (proj2 (proj2 (proj2 (proj2
           (patch_document_fields Demo.edited_item)))))).
  reflexivity.
Defined.

(** ** Push: the dry run; sync *)

Lemma for_each_ext {W S} (body body' : nat -> S -> W -> S * W)
  (items : list nat) :
  (forall a s w, body a s w = body' a s w) ->
  forall s w, for_each body items s w = for_each body' items s w.
Proof.
  intros E. induction items as [|a rest IH]; intros s w; [reflexivity|].
  cbn [for_each]. rewrite E. destruct (body' a s w) as [s' w']. apply IH.
Qed.

Lemma push_step_dry_run_writes {W} (client : AdoClient W)
  (post' patch' : string -> list JsonPatchOperation ->
                  Async W AdoWorkItemResponse)
  (config : ResolvedConfig) (options : PushOptions) :
  dryRun options = true ->
  forall a s w,
    push_step (with_writes post' patch' client) config options a s w
    = push_step client config options a s w.
Proof.
  intros Hdry a s w. unfold push_step. rewrite Hdry.
  destruct (m_items (run_mem s) !! a) as [item|]; reflexivity.
Qed.

(** What a dry run reports for an item. *)
Lemma for_each_dry_run {W} (client : AdoClient W) (config : ResolvedConfig)
  (options : PushOptions) (refs : list nat) (nodes : list WorkItem) :
  dryRun options = true ->
  forall (s : Run) (w : W),
    Forall2 (fun a n => o_item <$> m_items (run_mem s) !! a = Some n)
      refs nodes ->
    let s' := fst (for_each (push_step client config options) refs s w) in
    run_mem s' = run_mem s
    /\ exists rs,
         run_results s' = run_results s ++ rs
         /\ Forall2
              (fun n r =>
                 sr_localId r = wi_id (wi_props n)
                 /\ sr_success r = true /\ sr_workItemId r = None
                 /\ sr_url r = None /\ sr_error r = None)
              nodes rs.
Proof.
  intros Hdry. revert nodes.
  induction refs as [|a refs IH]; intros nodes s w F.
  - inversion F; subst. cbn. split; [reflexivity|].
    exists []. rewrite app_nil_r. split; [reflexivity | constructor].
  - inversion F as [|a' n refs' nodes' Ha F']; subst.
    cbn [for_each].
    destruct (m_items (run_mem s) !! a) as [item|] eqn:Ei; [|discriminate].
    injection Ha as Hn.
    assert (Estep : exists r w1,
              push_step client config options a s w = (push_result r s, w1)
              /\ sr_localId r = wi_id (wi_props n)
              /\ sr_success r = true /\ sr_workItemId r = None
              /\ sr_url r = None /\ sr_error r = None).
    { unfold push_step. rewrite Ei, Hdry.
      destruct (determineSyncAction client (o_item item) options w)
        as [decision w1].
      eexists _, _. split; [reflexivity|]. cbn. rewrite Hn. auto. }
    destruct Estep as (r & w1 & -> & Hr).
    destruct (IH nodes' (push_result r s) w1 F') as (Hm & rs & Ers & Frs).
    cbn zeta in *. split; [rewrite Hm; reflexivity|].
    exists (r :: rs). split.
    + rewrite Ers. cbn [push_result run_results].
      rewrite <- app_assoc. reflexivity.
    + constructor; [exact Hr | exact Frs].
Qed.

(** X13.  In a dry run [pushWorkItems] reports, for each node of the
    document whose id matches the filter and in the order of the
    document, one successful result without work item id; it changes
    neither the document nor the array it built, and it never calls
    POST or PATCH: with any other POST and PATCH the run is the
    same. *)
Theorem dry_run_writes_nothing {W} (client : AdoClient W)
  (doc : WorkItemsDocument) (config : ResolvedConfig)
  (options : PushOptions) (w : W) :
  dryRun options = true ->
  let run := pushWorkItems client doc config options w in
  run.1.2 = {| m_doc := doc; m_items := flattenHierarchy_objects doc |}
  /\ Forall2
       (fun n r =>
          sr_localId r = wi_id (wi_props n)
          /\ sr_success r = true /\ sr_workItemId r = None
          /\ sr_url r = None /\ sr_error r = None)
       (pushed_nodes doc options) run.1.1
  /\ forall post' patch',
       pushWorkItems (with_writes post' patch' client) doc config options w
       = run.
Proof.
  intros Hdry. cbn zeta. unfold pushWorkItems, pushed_nodes.
  set (keep := fun item : WorkItem =>
                 matchesFilter (wi_id (wi_props item))
                   (default "*" (filter options))).
  destruct (filter_refs_spec keep (flattenHierarchy_objects doc))
    as (F & _ & _).
  rewrite flattenHierarchy_objects_items in F.
  set (items := flattenHierarchy_objects doc) in *.
  set (s0 := {| run_mem := {| m_doc := doc; m_items := items |};
                run_results := [] |}).
  pose proof (for_each_dry_run client config options _ _ Hdry s0 w F)
    as (Hm & rs & Ers & Frs).
  split; [|split].
  - destruct (for_each _ _ s0 w) as [s' w']. exact Hm.
  - destruct (for_each _ _ s0 w) as [s' w']. cbn [fst snd] in *.
    rewrite Ers. exact Frs.
  - intros post' patch'.
    rewrite (for_each_ext _ _ _
               (push_step_dry_run_writes client post' patch' config options
                  Hdry)).
    reflexivity.
Qed.

Lemma dry_run_writes_nothing_witness :
  let options :=
    {| dryRun := true; force := false; createOnly := false;
       updateOnly := false; filter := Some "pbi-*" |} in
  (pushWorkItems Demo.client Sample.doc Demo.config options
     Demo.service_with_123).1.2
  = {| m_doc := Sample.doc; m_items := flattenHierarchy_objects Sample.doc |}.
Proof.
  cbn zeta.
  apply (proj1 (dry_run_writes_nothing Demo.client Sample.doc Demo.config
                  {| dryRun := true; force := false; createOnly := false;
                     updateOnly := false; filter := Some "pbi-*" |}
                  Demo.service_with_123 eq_refl)).
Defined.

Lemma pull_step_keeps_document {W} (client : AdoClient W)
  (config : ResolvedConfig) (options : PullOptions)
  (adoMap : gmap Z AdoWorkItemResponse) (a : nat) (s : Run) (w : W) :
  m_doc (run_mem (pull_step client config options adoMap a s w).1)
  = m_doc (run_mem s).
Proof.
  unfold pull_step. destruct (m_items (run_mem s) !! a) as [o|]; [|reflexivity].
  destruct (wi_ado (o_item o) ≫= md_workItemId) as [id|]; [|reflexivity].
  destruct (adoMap !! id) as [adoItem|]; [|reflexivity].
  destruct (pull_metadata client config options id adoItem w)
    as [[metadata | e] w']; [|reflexivity].
  cbn [fst push_result run_mem]. apply updateItemMetadata_keeps_document.
Qed.

Lemma pullWorkItems_keeps_document {W} (client : AdoClient W)
  (doc : WorkItemsDocument) (config : ResolvedConfig)
  (options : PullOptions) (w : W) :
  m_doc (pullWorkItems client doc config options w).1.2 = doc.
Proof.
  unfold pullWorkItems.
  destruct (Nat.eqb (length _) 0); [reflexivity|].
  destruct (getWorkItems client _ (Some ExRelations) w)
    as [[adoItems | e] w1]; [|reflexivity].
  match goal with
  | |- context [for_each ?b ?l ?s0 w1] =>
      assert (Hdoc : forall refs s w0,
                 m_doc (run_mem (for_each b refs s w0).1) = m_doc (run_mem s));
      [|specialize (Hdoc l s0 w1); destruct (for_each b l s0 w1) as [s' w2]]
  end.
  - induction refs as [|a refs IH]; intros s w0; [reflexivity|].
    cbn [for_each].
    pose proof (pull_step_keeps_document client config options
                  (adoMap_of adoItems) a s w0) as Hs.
    destruct (pull_step client config options (adoMap_of adoItems) a s w0)
      as [s1 w2]. rewrite IH. exact Hs.
  - exact Hdoc.
Qed.

(** X14.  [syncWorkItems] pulls, then pushes the document as it was
    given: the push decides with the revisions recorded before the
    pull.  It returns with the document unchanged; when the pull
    throws, nothing is pushed; the push is forced exactly for the
    strategy [yaml-wins]. *)
Theorem sync_pushes_the_document_as_given {W} (client : AdoClient W)
  (doc : WorkItemsDocument) (config : ResolvedConfig)
  (strategy : ConflictStrategy) (sync_dryRun : bool) (w : W) :
  let pull := pullWorkItems client doc config (sync_pull_options config) w in
  syncWorkItems client doc config strategy sync_dryRun w
  = match pull.1.1 with
    | Throw e => ((Throw e, doc), pull.2)
    | Ok pullResults =>
        let push :=
          pushWorkItems client doc config
            (sync_push_options strategy sync_dryRun) pull.2 in
        ((Ok (pullResults, push.1.1), doc), push.2)
    end.
Proof.
  cbn zeta. unfold syncWorkItems.
  fold (sync_pull_options config).
  fold (sync_push_options strategy sync_dryRun).
  pose proof (pullWorkItems_keeps_document client doc config
                (sync_pull_options config) w) as Hpull.
  destruct (pullWorkItems client doc config (sync_pull_options config) w)
    as [[[pullResults | e] m] w1]; cbn [fst snd] in *.
  - rewrite Hpull.
    pose proof (pushWorkItems_keeps_document client doc config
                  (sync_push_options strategy sync_dryRun) w1) as Hpush.
    destruct (pushWorkItems client doc config
                (sync_push_options strategy sync_dryRun) w1)
      as [[pushResults m'] w2]; cbn [fst snd] in *.
    rewrite Hpush. reflexivity.
  - rewrite Hpull. reflexivity.
Qed.

Lemma updateItemMetadata_id_at (a : nat) (metadata : AdoMetadata)
  (m : Memory) (b : nat) :
  id_at (updateItemMetadata (InArray a) metadata m) b = id_at m b.
Proof.
  unfold id_at, updateItemMetadata.
  destruct (deref m (InArray a)) as [x|]; [|reflexivity].
  unfold assign_ado. cbn [m_items].
  destruct (m_items m !! a) as [o|] eqn:Eo; [|reflexivity].
  destruct (decide (b = a)) as [->|Hne].
  - rewrite list_lookup_insert_eq by (eapply lookup_lt_Some, Eo).
    rewrite Eo. reflexivity.
  - rewrite list_lookup_insert_ne by auto. reflexivity.
Qed.

Lemma executeAction_localId {W} (client : AdoClient W) (m : Memory)
  (item : WorkItemObj) (decision : SyncDecision) (config : ResolvedConfig)
  (w w' : W) (result : SyncResult) :
  executeAction client m item decision config w = (Ok result, w') ->
  sr_localId result = wi_id (wi_props (o_item item)).
Proof.
  unfold executeAction, bind, ret, throw.
  destruct (action decision).
  - destruct (createWorkItem client _ _ w) as [[response | e] w1];
      [|discriminate].
    destruct (Js.truthy_opt_number _) as [parentId|].
    + destruct (addParentLink client _ _ w1) as [[r | e] w2];
        [|discriminate].
      intros [= <- _]. reflexivity.
    + intros [= <- _]. reflexivity.
  - destruct (wi_ado (o_item item)) as [ado|]; [|discriminate].
    destruct (updateWorkItem client _ _ _ w) as [[r | e] w1];
      [|discriminate].
    intros [= <- _]. reflexivity.
  - intros [= <- _]. reflexivity.
  - intros [= <- _]. reflexivity.
  - intros [= <- _]. reflexivity.
Qed.

Lemma push_step_results {W} (client : AdoClient W) (config : ResolvedConfig)
  (options : PushOptions) (a : nat) (n : WorkItem) (s : Run) (w : W) :
  id_at (run_mem s) a = Some (wi_id (wi_props n)) ->
  let s' := (push_step client config options a s w).1 in
  (exists g, run_results s' = run_results s ++ g /\ results_of_turn n g)
  /\ forall b, id_at (run_mem s') b = id_at (run_mem s) b.
Proof.
  intros Hid. cbn zeta. unfold push_step. unfold id_at in Hid.
  destruct (m_items (run_mem s) !! a) as [item|]; [|discriminate].
  injection Hid as Hid.
  destruct (determineSyncAction client (o_item item) options w)
    as [decision w1].
  assert (One : forall r : SyncResult,
            sr_localId r = wi_id (wi_props n) -> results_of_turn n [r]).
  { intros r Hr. split; [repeat constructor; exact Hr|]. left. eauto. }
  destruct (dryRun options).
  { cbn. split; [|reflexivity]. eexists. split; [reflexivity|].
    apply One. exact Hid. }
  destruct (executeAction client (run_mem s) item decision config w1)
    as [[result | e] w2] eqn:Ex.
  2:{ cbn. split; [|reflexivity]. eexists. split; [reflexivity|].
      apply One. exact Hid. }
  pose proof (executeAction_localId _ _ _ _ _ _ _ _ Ex) as Hr.
  rewrite Hid in Hr.
  destruct (sr_success result && is_create_or_update (sr_action result))
    eqn:Eok.
  2:{ cbn. split; [|reflexivity]. eexists. split; [reflexivity|].
      apply One. exact Hr. }
  apply andb_true_iff in Eok. destruct Eok as [Hs Hc].
  destruct (getWorkItem client (sr_workItemId result) (Some ExRelations) w2)
    as [[adoItem | e] w3].
  - destruct (extractAdoMetadata client adoItem _ _ w3) as [metadata w4].
    cbn [fst run_results run_mem push_result]. split.
    + eexists. split; [reflexivity|]. apply One. exact Hr.
    + intros b. apply updateItemMetadata_id_at.
  - cbn [fst run_results run_mem push_result]. split; [|reflexivity].
    eexists [result; _]. rewrite <- app_assoc. split; [reflexivity|].
    split; [repeat constructor; [exact Hr | exact Hid]|].
    right. eexists _, _. split; [reflexivity|]. auto.
Qed.

Lemma for_each_push_results {W} (client : AdoClient W)
  (config : ResolvedConfig) (options : PushOptions) (refs : list nat) :
  forall (nodes : list WorkItem) (s : Run) (w : W),
    Forall2 (fun a n => id_at (run_mem s) a = Some (wi_id (wi_props n)))
      refs nodes ->
    exists groups,
      run_results (for_each (push_step client config options) refs s w).1
      = run_results s ++ concat groups
      /\ Forall2 results_of_turn nodes groups.
Proof.
  induction refs as [|a refs IH]; intros nodes s w F.
  - inversion F; subst. exists []. cbn. rewrite app_nil_r.
    split; [reflexivity | constructor].
  - inversion F as [|a' n refs' nodes' Ha F']; subst. cbn [for_each].
    destruct (push_step_results client config options a n s w Ha)
      as ((g & Eg & Hg) & Hids).
    destruct (push_step client config options a s w) as [s1 w1].
    cbn [fst] in *.
    destruct (IH nodes' s1 w1) as (groups & Egs & Hgs).
    { eapply Forall2_impl; [exact F'|]. intros b m Hb. cbn beta.
      rewrite Hids. exact Hb. }
    exists (g :: groups). split; [|constructor; assumption].
    rewrite Egs, Eg. cbn [concat]. rewrite <- app_assoc. reflexivity.
Qed.

(** X15.  [pushWorkItems] reports on every node of the document whose
    id matches the filter, in the order of the document (parent
    first), whatever the remote service answers: its results are, node
    after node, either one result under the id of the node, or two of
    them, when the create or update succeeded and the request that
    reads the item back failed; the item is then reported once as a
    success and once as a failure. *)
Theorem push_reports_every_item {W} (client : AdoClient W)
  (doc : WorkItemsDocument) (config : ResolvedConfig)
  (options : PushOptions) (w : W) :
  exists groups,
    (pushWorkItems client doc config options w).1.1 = concat groups
    /\ Forall2 results_of_turn (pushed_nodes doc options) groups.
Proof.
  unfold pushWorkItems, pushed_nodes.
  set (keep := fun item : WorkItem =>
                 matchesFilter (wi_id (wi_props item))
                   (default "*" (filter options))).
  destruct (filter_refs_spec keep (flattenHierarchy_objects doc))
    as (F & _ & _).
  rewrite flattenHierarchy_objects_items in F.
  set (items := flattenHierarchy_objects doc) in *.
  set (s0 := {| run_mem := {| m_doc := doc; m_items := items |};
                run_results := [] |}).
  destruct (for_each_push_results client config options
              (filter_refs keep items)
              (List.filter keep (document_nodes doc)) s0 w)
    as (groups & E & Hg).
  - eapply Forall2_impl; [exact F|]. intros a n Ha. unfold id_at.
    cbn [run_mem m_items s0]. cbn beta in Ha.
    destruct (items !! a) as [o|]; [|discriminate].
    injection Ha as <-. reflexivity.
  - exists groups. split; [|exact Hg].
    destruct (for_each _ _ s0 w) as [s' w']. exact E.
Qed.

(** ** Status *)

Lemma filter_fmap_bool {A B} (f : A -> B) (t : B -> bool) (l : list A) :
  List.filter t (f <$> l) = f <$> List.filter (fun x => t (f x)) l.
Proof.
  induction l as [|x l IH]; [reflexivity|].
  cbn [fmap list_fmap List.filter]. rewrite IH.
  destruct (t (f x)); reflexivity.
Qed.

Lemma omap_fmap_compose {A B C} (f : A -> B) (g : B -> option C)
  (l : list A) :
  omap g (f <$> l) = omap (fun x => g (f x)) l.
Proof.
  induction l as [|x l IH]; [reflexivity|].
  cbn [fmap list_fmap omap list_omap]. rewrite IH. reflexivity.
Qed.

Lemma status_entry_push {W} (client : AdoClient W) (item : WorkItem)
  (adoMap : gmap Z AdoWorkItemResponse) (adoId : Z)
  (adoItem : AdoWorkItemResponse) (options : PushOptions) (w w' : W) :
  recorded_id item = Some adoId ->
  adoMap !! adoId = Some adoItem ->
  getWorkItem client (Some adoId) (Some ExRelations) w = (Ok adoItem, w') ->
  createOnly options = false -> force options = false ->
  push_action_for (se_status (status_entry adoMap item))
    (newer_revision item adoItem)
  = Some (action (determineSyncAction client item options w).1).
Proof.
  intros Hid Hmap Hget Hco Hf.
  unfold status_entry, determineSyncAction.
  rewrite Hid, Hmap, Hco, Hget, Hf. cbn [negb andb se_status].
  unfold hasLocalChanges, diffWorkItem. cbn [wd_status wd_changes].
  destruct (Nat.ltb 0 (length (field_changes item adoItem)));
    destruct (newer_revision item adoItem); reflexivity.
Qed.

(** X16.  When [getSyncStatus] returns, it has asked the remote
    service for the recorded ids in one batch (nothing when there are
    none) and it gives one entry per node of the document, parent
    first, under the id of the node: [new] exactly for a node without
    recorded remote id, [pending] for a node whose id the batch did not
    return.  For a node whose record was returned, a push that reads
    the same record (not forced, not create-only) reports a conflict
    where the status is [conflict] and updates where it is [pending];
    where the status is [synced] it skips the item, unless the remote
    revision is newer than the recorded one: then the push reports a
    conflict on an item that the status calls synced. *)
Theorem status_and_push_decision {W} (client : AdoClient W)
  (doc : WorkItemsDocument) (w w1 : W) (entries : list StatusEntry) :
  getSyncStatus client doc w = (Ok entries, w1) ->
  exists adoItems,
    (if Nat.ltb 0 (length (pull_adoIds doc))
     then getWorkItems client (pull_adoIds doc) (Some ExNone) w
          = (Ok adoItems, w1)
     else adoItems = [] /\ w1 = w)
    /\ Forall2
         (fun n e =>
            se_localId e = wi_id (wi_props n)
            /\ se_adoId e = recorded_id n
            /\ (se_status e = st_new <-> recorded_id n = None)
            /\ forall adoId,
                 recorded_id n = Some adoId ->
                 match adoMap_of adoItems !! adoId with
                 | None => se_status e = st_pending
                 | Some adoItem =>
                     forall options v v',
                       getWorkItem client (Some adoId) (Some ExRelations) v
                       = (Ok adoItem, v') ->
                       createOnly options = false ->
                       force options = false ->
                       push_action_for (se_status e)
                         (newer_revision n adoItem)
                       = Some (action
                                 (determineSyncAction client n options v).1)
                 end)
         (document_nodes doc) entries.
Proof.
  unfold getSyncStatus, bind, ret.
  assert (Eids : omap (fun item => wi_ado (wp_item item) ≫= md_workItemId)
                   (List.filter (fun item => has_ado_id (wp_item item))
                      (flattenHierarchy doc))
                 = pull_adoIds doc).
  { unfold pull_adoIds, document_nodes.
    rewrite filter_fmap_bool, omap_fmap_compose. reflexivity. }
  rewrite Eids. intros H.
  assert (Hrun : exists adoItems,
            (if Nat.ltb 0 (length (pull_adoIds doc))
             then getWorkItems client (pull_adoIds doc) (Some ExNone) w
                  = (Ok adoItems, w1)
             else adoItems = [] /\ w1 = w)
            /\ entries
               = (fun item => status_entry (adoMap_of adoItems) (wp_item item))
                   <$> flattenHierarchy doc).
  { destruct (Nat.ltb 0 (length (pull_adoIds doc))).
    - destruct (getWorkItems client (pull_adoIds doc) (Some ExNone) w)
        as [[adoItems | e] w2]; [|discriminate].
      injection H as <- <-. exists adoItems. split; reflexivity.
    - injection H as <- <-. exists []. repeat split. }
  destruct Hrun as (adoItems & Hbatch & ->).
  exists adoItems. split; [exact Hbatch|].
  unfold document_nodes. apply Forall2_fmap.
  apply Forall_Forall2_diag, Forall_forall. intros e _.
  set (n := wp_item e).
  split; [|split; [|split]].
  - unfold status_entry. destruct (recorded_id n); [|reflexivity].
    destruct (adoMap_of adoItems !! _); reflexivity.
  - unfold status_entry. destruct (recorded_id n); [|reflexivity].
    destruct (adoMap_of adoItems !! _); reflexivity.
  - unfold status_entry. destruct (recorded_id n) as [adoId|].
    + destruct (adoMap_of adoItems !! adoId) as [adoItem|];
        cbn [se_status]; [|split; discriminate].
      destruct (wd_status _); split; discriminate.
    + split; reflexivity.
  - intros adoId Hid.
    destruct (adoMap_of adoItems !! adoId) as [adoItem|] eqn:Em.
    + intros options v v' Hget Hco Hf.
      apply (status_entry_push client n _ adoId adoItem options v v');
        assumption.
    + unfold status_entry. rewrite Hid, Em. reflexivity.
Qed.

Lemma status_and_push_decision_witness :
  getSyncStatus Demo.client Sample2.doc Sample2.service
  = (Ok [ {| se_localId := "pbi-001"; se_adoId := Some 123%Z;
             se_status := st_synced;
             se_lastSyncedAt := Some "2024-01-01T00:00:00.000Z" |} ],
     Sample2.service)
  /\ action (determineSyncAction Demo.client Sample2.settled_item
               Demo.push_all Sample2.service).1 = AConflict.
Proof.
  assert (E : getSyncStatus Demo.client Sample2.doc Sample2.service
              = (Ok [ {| se_localId := "pbi-001"; se_adoId := Some 123%Z;
                         se_status := st_synced;
                         se_lastSyncedAt :=
                           Some "2024-01-01T00:00:00.000Z" |} ],
                 Sample2.service)) by reflexivity.
  split; [exact E|].
  destruct (status_and_push_decision Demo.client Sample2.doc Sample2.service
              Sample2.service _ E) as (adoItems & Hbatch & F).
  change (Nat.ltb 0 (length (pull_adoIds Sample2.doc))) with true in Hbatch.
  cbv iota in Hbatch.
  assert (Hc : getWorkItems Demo.client (pull_adoIds Sample2.doc)
                 (Some ExNone) Sample2.service
               = (Ok [Demo.remote 123 2 "Cart page"], Sample2.service))
    by reflexivity.
  rewrite Hc in Hbatch. injection Hbatch as <-.
  change (document_nodes Sample2.doc) with [Sample2.settled_item] in F.
  apply Forall2_cons_1 in F. destruct F as ((_ & _ & _ & H) & _).
  specialize (H 123%Z eq_refl).
  change (adoMap_of [Demo.remote 123 2 "Cart page"] !! 123%Z)
    with (Some (Demo.remote 123 2 "Cart page")) in H.
  specialize (H Demo.push_all Sample2.service Sample2.service
                eq_refl eq_refl eq_refl).
  cbn [se_status push_action_for] in H.
  change (newer_revision Sample2.settled_item
            (Demo.remote 123 2 "Cart page")) with true in H.
  cbv iota in H. symmetry. exact (Some_inj _ _ H).
Defined.

(** ** Rate limiter: any sequence of calls *)

Lemma limiter_step_invariant (st : RateLimiter * Clock) (e : LimiterEvent) :
  (windowStart st.1 <= now st.2)%Z ->
  (0 <= requestCount st.1)%Z ->
  let st' := limiter_step st e in
  (windowStart st'.1 <= now st'.2)%Z
  /\ (0 <= requestCount st'.1)%Z
  /\ (now st.2 <= now st'.2)%Z
  /\ maxRequestsPerMinute st'.1 = maxRequestsPerMinute st.1
  /\ windowMs st'.1 = windowMs st.1.
Proof.
  destruct st as [rl c]. cbn [fst snd]. intros Hs Hc.
  destruct e as [|s| |ms]; cbn [limiter_step fst snd].
  - unfold throttle, at_threshold.
    destruct (Z.leb_spec (windowMs rl) (now c - windowStart rl));
      cbn [requestCount windowStart maxRequestsPerMinute windowMs restart];
      match goal with
      | |- context [(4 * ?n <=? 5 * ?k)%Z] =>
          destruct (Z.leb_spec (4 * n) (5 * k))
      end; cbn; repeat split; lia.
  - cbn. repeat split; lia.
  - cbn. repeat split; lia.
  - cbn. repeat split; lia.
Qed.

Lemma throttle_sleep_bounds (rl : RateLimiter) (c : Clock) :
  (windowStart rl <= now c)%Z -> (0 < windowMs rl)%Z ->
  (throttle rl c).2 = c
  \/ exists waitTime,
       (0 < waitTime <= windowMs rl)%Z
       /\ (throttle rl c).2 = sleep waitTime c.
Proof.
  intros Hs Hw. unfold throttle, at_threshold.
  destruct (Z.leb_spec (windowMs rl) (now c - windowStart rl));
    cbn [requestCount windowStart maxRequestsPerMinute windowMs restart];
    match goal with
    | |- context [(4 * ?n <=? 5 * ?k)%Z] =>
        destruct (Z.leb_spec (4 * n) (5 * k))
    end; cbn [snd]; try (left; reflexivity);
    right; eexists; (split; [|reflexivity]); lia.
Qed.

(** X17.  Whatever calls of [throttle], [handleRetryAfter] and [reset]
    are made on a limiter after its construction, and whatever time
    passes between them, the window never starts in the future and the
    counter is never negative; so a call of [throttle] on a limiter
    with a positive window either does not sleep, or sleeps once for a
    time that is positive and at most one window.  When the allowance
    [N] is positive and [0.8 * N] is an integer, the counter never
    exceeds [0.8 * N]. *)
Theorem limiter_invariants (options : RateLimiterOptions) (c : Clock)
  (events : list LimiterEvent) :
  let st := limiter_run events (RateLimiter_new options c, c) in
  let N := default 100%Z (opt_maxRequestsPerMinute options) in
  let window := default 60000%Z (opt_windowMs options) in
  (windowStart st.1 <= now st.2)%Z
  /\ (0 <= requestCount st.1)%Z
  /\ (now c <= now st.2)%Z
  /\ maxRequestsPerMinute st.1 = N /\ windowMs st.1 = window
  /\ ((0 < window)%Z ->
      (throttle st.1 st.2).2 = st.2
      \/ exists waitTime,
           (0 < waitTime <= window)%Z
           /\ (throttle st.1 st.2).2 = sleep waitTime st.2)
  /\ ((0 < N)%Z -> (N mod 5 = 0)%Z ->
      (5 * requestCount st.1 <= 4 * N)%Z).
Proof.
  cbn zeta.
  set (N := default 100%Z (opt_maxRequestsPerMinute options)).
  set (window := default 60000%Z (opt_windowMs options)).
  assert (Inv : forall st : RateLimiter * Clock,
            (windowStart st.1 <= now st.2)%Z ->
            (0 <= requestCount st.1)%Z ->
            (now c <= now st.2)%Z ->
            maxRequestsPerMinute st.1 = N -> windowMs st.1 = window ->
            ((0 < N)%Z -> (N mod 5 = 0)%Z ->
             (5 * requestCount st.1 <= 4 * N)%Z) ->
            let st' := limiter_run events st in
            (windowStart st'.1 <= now st'.2)%Z
            /\ (0 <= requestCount st'.1)%Z
            /\ (now c <= now st'.2)%Z
            /\ maxRequestsPerMinute st'.1 = N /\ windowMs st'.1 = window
            /\ ((0 < N)%Z -> (N mod 5 = 0)%Z ->
                (5 * requestCount st'.1 <= 4 * N)%Z)).
  { unfold limiter_run. induction events as [|e events IH];
      intros st Hs Hc Hn HN Hw Hb; [cbn; auto 10|].
    cbn [fold_left].
    destruct (limiter_step_invariant st e Hs Hc) as (Hs' & Hc' & Hn' & HN' & Hw').
    apply IH; try assumption; try lia; try congruence.
    intros HNpos Hmod. specialize (Hb HNpos Hmod).
    destruct st as [rl k]. cbn [fst snd] in *.
    destruct e as [|s| |ms]; cbn [limiter_step fst snd];
      try (cbn; lia).
    destruct (throttle_count rl k) as (Ec & _ & _). rewrite Ec, HN.
    pose proof (Z_div_mod_eq_full N 5) as Hdiv. rewrite Hmod in Hdiv.
    destruct (Z.leb_spec (windowMs rl) (now k - windowStart rl));
      match goal with
      | |- context [(4 * ?n <=? 5 * ?j)%Z] =>
          destruct (Z.leb_spec (4 * n) (5 * j))
      end; lia. }
  destruct (Inv (RateLimiter_new options c, c))
    as (Hs & Hc & Hn & HN & Hw & Hb); cbn; try lia; try reflexivity.
  split; [exact Hs|]. split; [exact Hc|]. split; [exact Hn|].
  split; [exact HN|]. split; [exact Hw|]. split; [|exact Hb].
  intros Hpos. rewrite <- Hw in *.
  apply throttle_sleep_bounds; assumption.
Qed.

Lemma limiter_invariants_witness :
  let st :=
    limiter_run
      [Elapse 59999; Throttle; Throttle; RetryAfter 2; Throttle; Reset]
      (RateLimiter_new {| opt_maxRequestsPerMinute := Some 10%Z;
                          opt_windowMs := None |}
         {| now := 1000; slept := [] |},
       {| now := 1000; slept := [] |}) in
  (5 * requestCount st.1 <= 4 * 10)%Z
  /\ ((throttle st.1 st.2).2 = st.2
      \/ exists waitTime,
           (0 < waitTime <= 60000)%Z
           /\ (throttle st.1 st.2).2 = sleep waitTime st.2).
Proof.
  cbn zeta.
  destruct (limiter_invariants
              {| opt_maxRequestsPerMinute := Some 10%Z; opt_windowMs := None |}
              {| now := 1000; slept := [] |}
              [Elapse 59999; Throttle; Throttle; RetryAfter 2; Throttle;
               Reset])
    as (_ & _ & _ & _ & _ & Hsleep & Hcount).
  split.
  - exact (Hcount eq_refl eq_refl).
  - exact (Hsleep eq_refl).
Defined.

Lemma limiter_run_throttles (n : nat) (rl : RateLimiter) (c : Clock) :
  limiter_run (repeat Throttle n) (rl, c) = throttle_times n rl c.
Proof.
  revert rl c. induction n as [|n IH]; intros rl c; [reflexivity|].
  cbn [repeat limiter_run fold_left limiter_step fst snd throttle_times].
  destruct (throttle rl c) as [rl' c']. apply IH.
Qed.

Lemma throttle_expired (rl : RateLimiter) (c : Clock) :
  (windowMs rl <= now c - windowStart rl)%Z -> (0 < windowMs rl)%Z ->
  throttle rl c = throttle (restart rl (now c)) c.
Proof.
  intros He Hw. unfold throttle.
  destruct (Z.leb_spec (windowMs rl) (now c - windowStart rl)); [|lia].
  cbn [restart windowMs windowStart].
  destruct (Z.leb_spec (windowMs rl) (now c - now c)); [lia|].
  reflexivity.
Qed.

(** X18.  The limiter counts per window, and a window that has elapsed
    starts afresh: for a positive allowance [N] with [0.8 * N] an
    integer and a window longer than one millisecond, [0.8 * N] calls
    of [throttle] made in the last millisecond of the first window and
    [0.8 * N] more made one millisecond later all return without any
    sleep.  So [1.6 * N] requests pass within one millisecond: the
    limiter does not keep the number of requests in every period of one
    window under the allowance. *)
Theorem burst_across_windows (options : RateLimiterOptions) (c : Clock) :
  let N := default 100%Z (opt_maxRequestsPerMinute options) in
  let window := default 60000%Z (opt_windowMs options) in
  (0 < N)%Z -> (N mod 5 = 0)%Z -> (1 < window)%Z ->
  let k := Z.to_nat (4 * N / 5) in
  let st :=
    limiter_run
      (Elapse (window - 1) :: repeat Throttle k
         ++ Elapse 1 :: repeat Throttle k)
      (RateLimiter_new options c, c) in
  slept st.2 = slept c
  /\ now st.2 = (now c + window)%Z
  /\ (5 * Z.of_nat (k + k) = 8 * N)%Z.
Proof.
  cbn zeta.
  set (N := default 100%Z (opt_maxRequestsPerMinute options)).
  set (window := default 60000%Z (opt_windowMs options)).
  intros HN Hmod Hw.
  pose proof (Z_div_mod_eq_full N 5) as Hdiv. rewrite Hmod in Hdiv.
  assert (Hk : (5 * Z.of_nat (Z.to_nat (4 * N / 5)) = 4 * N)%Z).
  { rewrite Z2Nat.id by (apply Z.div_pos; lia).
    replace (4 * N)%Z with ((4 * (N / 5)) * 5)%Z at 1 by lia.
    rewrite Z.div_mul by lia. lia. }
  set (k := Z.to_nat (4 * N / 5)) in *.
  unfold limiter_run. cbn [fold_left limiter_step fst snd].
  rewrite fold_left_app. cbn [fold_left limiter_step fst snd].
  fold (limiter_run (repeat Throttle k)
          (RateLimiter_new options c,
           {| now := now c + Z.max 0 (window - 1); slept := slept c |})).
  rewrite (limiter_run_throttles k (RateLimiter_new options c)).
  rewrite (throttle_times_below k (RateLimiter_new options c));
    cbn [RateLimiter_new now requestCount windowStart maxRequestsPerMinute
           windowMs]; fold N; fold window; try lia.
  cbn [fst snd now slept].
  match goal with
  | |- context [fold_left limiter_step (repeat Throttle k) (?rl, ?c1)] =>
      fold (limiter_run (repeat Throttle k) (rl, c1));
      rewrite (limiter_run_throttles k rl c1);
      set (rl1 := rl); set (c2 := c1)
  end.
  assert (Hk' : exists k', k = S k').
  { destruct k as [|k']; [lia | eauto]. }
  destruct Hk' as (k' & Ek). rewrite Ek at 1 2. cbn [throttle_times].
  rewrite throttle_expired by (cbn; lia).
  change (let (rl', c') := throttle (restart rl1 (now c2)) c2 in
          throttle_times k' rl' c')
    with (throttle_times (S k') (restart rl1 (now c2)) c2).
  rewrite <- Ek.
  rewrite throttle_times_below by (cbn; lia).
  cbn [fst snd now slept c2]. split; [reflexivity|]. split; lia.
Qed.

Lemma burst_across_windows_witness :
  let c := {| now := 0; slept := [] |} in
  let st :=
    limiter_run
      (Elapse 59999 :: repeat Throttle 8 ++ Elapse 1 :: repeat Throttle 8)
      (RateLimiter_new {| opt_maxRequestsPerMinute := Some 10%Z;
                          opt_windowMs := None |} c, c) in
  slept st.2 = [] /\ now st.2 = 60000%Z.
Proof.
  cbn zeta.
  destruct (burst_across_windows
              {| opt_maxRequestsPerMinute := Some 10%Z; opt_windowMs := None |}
              {| now := 0; slept := [] |} eq_refl eq_refl eq_refl)
    as (H1 & H2 & _).
  split; [exact H1 | exact H2].
Defined.

(** ** Import: the shape of the tree *)

Lemma Forall_flat_map_intro {A B} (P : B -> Prop) (g : A -> list B)
  (l : list A) :
  Forall (fun x => Forall P (g x)) l -> Forall P (flat_map g l).
Proof.
  induction 1 as [|x l Hx _ IH]; [constructor|].
  cbn [flat_map]. apply Forall_app. split; assumption.
Qed.

Lemma reported_mono (rs rs' : list ImportResult) (n : WorkItem) :
  rs `prefix_of` rs' -> reported rs n -> reported rs' n.
Proof.
  intros [k ->] (r & Hr & H). exists r. split; [|exact H].
  apply elem_of_app. left. exact Hr.
Qed.

Lemma fetched_tree_mono (context : ImportContext)
  (rs rs' : list ImportResult) (tree : WorkItem) :
  rs `prefix_of` rs' -> fetched_tree context rs tree ->
  fetched_tree context rs' tree.
Proof.
  intros Hp (H1 & H2 & H3). split; [exact H1|]. split; [|exact H3].
  eapply Forall_impl; [exact H2|]. intros n. apply reported_mono. exact Hp.
Qed.

Lemma fetch_children_inv {W} (P : list ImportResult -> WorkItem -> Prop)
  (f : Z -> ImportState W -> option (option WorkItem * ImportState W))
  (b : bool) (t ty : option string) :
  (forall rs rs' c, rs `prefix_of` rs' -> P rs c -> P rs' c) ->
  (forall id s o s1,
     f id s = Some (o, s1) -> is_results s `prefix_of` is_results s1) ->
  (forall id s child s1,
     f id s = Some (Some child, s1) -> P (is_results s1) child) ->
  forall ids acc s children s',
    Forall (P (is_results s)) acc ->
    fetch_children f b t ty ids acc s = Some (children, s') ->
    Forall (P (is_results s')) children
    /\ is_results s `prefix_of` is_results s'.
Proof.
  intros Hmono Hgrow Hchild.
  induction ids as [|id ids IH]; intros acc s children s' Hacc E;
    cbn [fetch_children] in E.
  - injection E as <- <-. split; [exact Hacc | reflexivity].
  - destruct (f id s) as [[[child|] s1]|] eqn:Ef; [| |discriminate].
    + pose proof (Hgrow _ _ _ _ Ef) as Hp.
      pose proof (Hchild _ _ _ _ Ef) as Hc.
      assert (Hacc1 : Forall (P (is_results s1)) acc).
      { eapply Forall_impl; [exact Hacc|]. intros c. apply Hmono. exact Hp. }
      assert (Hacc2 : Forall (P (is_results s1)) (acc ++ [child])).
      { apply Forall_app. split; [exact Hacc1|]. repeat constructor. exact Hc. }
      destruct b; [destruct (shouldIncludeItem child t ty)|];
        (eapply IH in E; [|eassumption]);
        destruct E as [E1 E2]; (split; [exact E1|]);
        etransitivity; eassumption.
    + pose proof (Hgrow _ _ _ _ Ef) as Hp.
      eapply IH in E.
      * destruct E as [E1 E2]. split; [exact E1|].
        etransitivity; eassumption.
      * eapply Forall_impl; [exact Hacc|]. intros c. apply Hmono. exact Hp.
Qed.

Lemma fetch_results_grow {W} (client : AdoClient W) (config : ResolvedConfig)
  (fuel : nat) :
  forall id context (s : ImportState W) o s',
    fetchWorkItemTree fuel client id config context s = Some (o, s') ->
    is_results s `prefix_of` is_results s'.
Proof.
  induction fuel as [|fuel IH]; intros id context s o s' E;
    cbn [fetchWorkItemTree] in E;
    destruct (maxDepth context <? currentDepth context)%Z;
    try (injection E as <- <-; reflexivity); try discriminate.
  destruct (getWorkItem client (Some id) (Some ExRelations) (is_world s))
    as [[adoItem | e] w].
  2:{ injection E as <- <-. cbn. apply prefix_app_r. reflexivity. }
  destruct (transformAdoToYaml client adoItem config w) as [workItem w1].
  destruct (enrich client context id adoItem workItem w1) as [workItem' w2].
  match type of E with
  | context [fetch_children ?f ?b ?t ?ty ?ids ?acc ?s0] =>
      destruct (fetch_children f b t ty ids acc s0) as [[children s3]|] eqn:Ec;
      [|discriminate];
      pose proof (fun H1 H2 H3 Hacc =>
                    fetch_children_inv (fun _ _ => True) f b t ty H1 H2 H3
                      ids acc s0 children s3 Hacc Ec) as Hinv
  end.
  destruct Hinv as [_ Hp]; auto.
  - intros id' s1 o' s2. apply IH.
  - injection E as <- <-. etransitivity; [|exact Hp].
    cbn. apply prefix_app_r. reflexivity.
Qed.

Lemma enrich_keeps {W} (client : AdoClient W) (context : ImportContext)
  (id : Z) (adoItem : AdoWorkItemResponse) (workItem : WorkItem) (w : W) :
  let workItem' := (enrich client context id adoItem workItem w).1 in
  wi_props workItem' = wi_props workItem
  /\ wi_ado workItem' ≫= md_workItemId = wi_ado workItem ≫= md_workItemId.
Proof.
  cbn zeta. unfold enrich.
  assert (Hset : forall (x : WorkItem) f,
            (forall md, md_workItemId (f md) = md_workItemId md) ->
            wi_props (set_ado x f) = wi_props x
            /\ wi_ado (set_ado x f) ≫= md_workItemId
               = wi_ado x ≫= md_workItemId).
  { intros x f Hf. split; [reflexivity|]. unfold set_ado. cbn [wi_ado].
    destruct (wi_ado x) as [md|]; [|reflexivity]. cbn. apply Hf. }
  destruct (ctx_includeComments context).
  - destruct (getAllComments client id w) as [[comments | e] w1].
    + destruct (Nat.ltb 0 (length comments)).
      * destruct (Hset workItem (with_comments comments)) as [H1 H2];
          [reflexivity|].
        destruct (ctx_includePRs context); [|cbn; auto].
        destruct (getLinkedPullRequests client adoItem w1)
          as [[prs | e] w2]; [|cbn; auto].
        destruct (Nat.ltb 0 (length prs)); [|cbn; auto].
        destruct (Hset (set_ado workItem (with_comments comments))
                    (with_linkedPRs prs)) as [H3 H4]; [reflexivity|].
        cbn [fst]. split; congruence.
      * destruct (ctx_includePRs context); [|cbn; auto].
        destruct (getLinkedPullRequests client adoItem w1)
          as [[prs | e] w2]; [|cbn; auto].
        destruct (Nat.ltb 0 (length prs)); [|cbn; auto].
        apply Hset. reflexivity.
    + destruct (ctx_includePRs context); [|cbn; auto].
      destruct (getLinkedPullRequests client adoItem w1)
        as [[prs | e'] w2]; [|cbn; auto].
      destruct (Nat.ltb 0 (length prs)); [|cbn; auto].
      apply Hset. reflexivity.
  - destruct (ctx_includePRs context); [|cbn; auto].
    destruct (getLinkedPullRequests client adoItem w)
      as [[prs | e'] w2]; [|cbn; auto].
    destruct (Nat.ltb 0 (length prs)); [|cbn; auto].
    apply Hset. reflexivity.
Qed.

Lemma transformAdoToYaml_imported {W} (client : AdoClient W)
  (adoItem : AdoWorkItemResponse) (config : ResolvedConfig) (w : W) :
  let workItem := (transformAdoToYaml client adoItem config w).1 in
  wi_ado workItem ≫= md_workItemId = Some (r_id adoItem)
  /\ wi_id (wi_props workItem)
     = generateLocalId (wi_type (wi_props workItem)) (r_id adoItem).
Proof.
  cbn zeta. unfold transformAdoToYaml, extractAdoMetadata.
  destruct (toISOString_now client w) as [now_ w']. split; reflexivity.
Qed.

Lemma fetch_shape {W} (client : AdoClient W) (config : ResolvedConfig)
  (fuel : nat) :
  forall id context (s : ImportState W) tree s',
    fetchWorkItemTree fuel client id config context s = Some (Some tree, s') ->
    fetched_tree context (is_results s') tree.
Proof.
  induction fuel as [|fuel IH]; intros id context s tree s' E;
    cbn [fetchWorkItemTree] in E;
    destruct (Z.ltb_spec (maxDepth context) (currentDepth context))
      as [Hd | Hd]; try discriminate.
  destruct (getWorkItem client (Some id) (Some ExRelations) (is_world s))
    as [[adoItem | e] w]; [|discriminate].
  pose proof (transformAdoToYaml_imported client adoItem config w)
    as [Hid Hlocal].
  destruct (transformAdoToYaml client adoItem config w) as [workItem w1].
  pose proof (enrich_keeps client context id adoItem workItem w1)
    as [Hprops Hado].
  destruct (enrich client context id adoItem workItem w1) as [workItem' w2].
  cbn [fst] in *.
  set (context' := descend context
                     (if shouldApplyFilter context then Some true
                      else filterDisabled context)) in *.
  match type of E with
  | context [fetch_children ?f ?b ?t ?ty ?ids ?acc ?s0] =>
      destruct (fetch_children f b t ty ids acc s0) as [[children s3]|] eqn:Ec;
      [|discriminate];
      pose proof (fun H1 H2 H3 Hacc =>
                    fetch_children_inv (fetched_tree context') f b t ty
                      H1 H2 H3 ids acc s0 children s3 Hacc Ec) as Hinv
  end.
  destruct Hinv as [Hch Hp]; auto.
  - intros rs rs' c. apply fetched_tree_mono.
  - intros id' s1 o s2. apply fetch_results_grow.
  - intros id' s1 child s2. apply IH.
  - injection E as <- <-.
    set (tree := mkWorkItem (wi_props workItem') (wi_ado workItem') children).
    split; [|split].
    + rewrite subtree_eq. constructor.
      * exists (r_id adoItem). cbn [tree wi_ado wi_props].
        rewrite Hado, Hprops. split; assumption.
      * apply Forall_flat_map_intro. eapply Forall_impl; [exact Hch|].
        intros c Hc. apply Hc.
    + rewrite subtree_eq. constructor.
      * eapply reported_mono; [exact Hp|]. eexists. split.
        -- cbn [is_results]. apply elem_of_app. right. left.
        -- cbn. auto.
      * apply Forall_flat_map_intro. eapply Forall_impl; [exact Hch|].
        intros c Hc. apply Hc.
    + intros parent d. rewrite subtree_entries_eq. constructor.
      * cbn. lia.
      * apply Forall_flat_map_intro. eapply Forall_impl; [exact Hch|].
        intros c (_ & _ & Hc). cbn beta.
        eapply Forall_impl; [apply Hc|]. cbn. intros e He. lia.
Qed.

(** X19.  The document that [importFromAdo] returns has one root; none
    of its nodes lies deeper than the depth ceiling ([maxDepth], 10 by
    default), so [getMaxDepth] is at most the ceiling; every node is
    linked to a work item and carries the id generated from its type
    and the id of that item; and the result log has a success for
    every node, under its id, type and title.  With a negative ceiling
    nothing is fetched and the import throws. *)
Theorem imported_document_shape {W} (client : AdoClient W) (parentId : Z)
  (config : ResolvedConfig) (options : ImportOptions) (w : W) :
  (forall doc results w',
     importFromAdo client parentId config options w
     = (Ok (doc, results), w') ->
     length (workItems doc) = 1
     /\ (Z.of_nat (getMaxDepth doc) <= default 10 (io_maxDepth options))%Z
     /\ Forall imported_node (document_nodes doc)
     /\ Forall (reported results) (document_nodes doc))
  /\ ((default 10 (io_maxDepth options) < 0)%Z ->
      importFromAdo client parentId config options w
      = (Throw ("Could not fetch work item " +:+ Js.toString parentId), w)).
Proof.
  split.
  - intros doc results w' E. unfold importFromAdo in E.
    destruct (fetchWorkItemTree _ client parentId config _ _)
      as [[[tree|] s']|] eqn:Ef; try discriminate.
    injection E as <- <- <-.
    apply fetch_shape in Ef. destruct Ef as (H1 & H2 & H3).
    split; [reflexivity|].
    rewrite getMaxDepth_flatten, document_nodes_subtrees,
      flattenHierarchy_subtrees.
    cbn [workItems flat_map]. rewrite !app_nil_r.
    split; [|split; assumption].
    specialize (H3 None 0). cbn [root_context currentDepth maxDepth] in H3.
    assert (Hle : forall l : list nat,
              Forall (fun n => (Z.of_nat n <= default 10 (io_maxDepth options))%Z) l ->
              l <> [] ->
              (Z.of_nat (list_max l) <= default 10 (io_maxDepth options))%Z).
    { induction 1 as [|x l Hx Hl IHl]; [congruence|]. intros _.
      cbn [list_max fold_right]. destruct l as [|y l].
      - cbn. lia.
      - specialize (IHl ltac:(discriminate)).
        change (fold_right Nat.max 0 (y :: l)) with (list_max (y :: l)). lia. }
    apply Hle.
    + apply Forall_fmap. eapply Forall_impl; [exact H3|]. cbn. intros e He. lia.
    + rewrite subtree_entries_eq. discriminate.
  - intros Hneg. unfold importFromAdo.
    destruct (depth_budget (root_context options)) eqn:Eb;
      cbn [fetchWorkItemTree root_context maxDepth currentDepth];
      destruct (Z.ltb_spec (default 10%Z (io_maxDepth options)) 0%Z);
      try lia; reflexivity.
Qed.

Lemma imported_document_shape_witness :
  let options :=
    {| io_includeComments := None; io_includePRs := None;
       io_maxDepth := Some 1%Z; io_filterTag := None;
       io_filterType := None |} in
  exists doc results w',
    importFromAdo Demo.client 1 Demo.config options Demo.service_with_tree
    = (Ok (doc, results), w')
    /\ (Z.of_nat (getMaxDepth doc) <= 1)%Z
    /\ Forall imported_node (document_nodes doc)
    /\ Forall (reported results) (document_nodes doc).
Proof.
  cbn zeta.
  assert (E : exists doc results w',
            importFromAdo Demo.client 1 Demo.config
              {| io_includeComments := None; io_includePRs := None;
                 io_maxDepth := Some 1%Z; io_filterTag := None;
                 io_filterType := None |} Demo.service_with_tree
            = (Ok (doc, results), w'))
    by (eexists _, _, _; vm_compute; reflexivity).
  destruct E as (doc & results & w' & E). exists doc, results, w'.
  split; [exact E|].
  destruct (proj1 (imported_document_shape Demo.client 1 Demo.config _
                     Demo.service_with_tree) doc results w' E)
    as (_ & H2 & H3 & H4).
  split; [exact H2|]. split; assumption.
Defined.

Lemma getMaxDepth_is_greatest_depth_witness :
  workItems Sample.doc <> []
  /\ exists e, e ∈ flattenHierarchy Sample.doc
               /\ wp_depth e = getMaxDepth Sample.doc.
Proof.
  assert (H : workItems Sample.doc <> []) by discriminate.
  split; [exact H|].
  apply (proj2 (proj2 (proj2 (getMaxDepth_is_greatest_depth Sample.doc)))).
  exact H.
Defined.

(** ** Validation *)

(** An indexed traversal, seen through a view of its state that
    changes at each node by a step independent of the path and of the
    index, is the fold of the step over the nodes, parent first. *)
Lemma forEach_index_subtrees {St V} (view : St -> V)
  (step : V -> WorkItem -> V)
  (F : string -> WorkItem -> nat -> St -> St) (ws : list WorkItem) :
  Forall (fun w => forall path i st,
            view (F path w i st) = fold_left step (subtree w) (view st)) ws ->
  forall path i st,
    view (forEach_index (F path) i ws st)
    = fold_left step (flat_map subtree ws) (view st).
Proof.
  induction 1 as [|w r Hw _ IH]; intros path i st; [reflexivity|].
  cbn [forEach_index flat_map]. rewrite fold_left_app, IH, Hw. reflexivity.
Qed.

Lemma checkIds_eq (path : string) (w : WorkItem) (index : nat)
  (st : UniqueIds) :
  checkIds path w index st
  = let itemPath := item_path path index in
    let id := wi_id (wi_props w) in
    let st :=
      if bool_decide (id ∈ ui_seen st)
      then {| ui_seen := ui_seen st;
              ui_duplicates := {[ id ]} ∪ ui_duplicates st;
              ui_errors :=
                ui_errors st
                ++ [ {| ve_path := itemPath +:+ ".id";
                        ve_message := duplicate_id_message id;
                        ve_code := "DUPLICATE_ID" |} ] |}
      else st in
    let st := {| ui_seen := {[ id ]} ∪ ui_seen st;
                 ui_duplicates := ui_duplicates st;
                 ui_errors := ui_errors st |} in
    if Nat.ltb 0 (length (wi_children w))
    then forEach_index (checkIds (itemPath +:+ ".children")) 0
           (wi_children w) st
    else st.
Proof. destruct w; reflexivity. Qed.

Lemma checkIds_view (w : WorkItem) :
  forall path i st,
    uniqueIds_view (checkIds path w i st)
    = fold_left uniqueIds_step (subtree w) (uniqueIds_view st).
Proof.
  induction w as [props ado children IH] using WorkItem_children_ind.
  intros path i st. rewrite checkIds_eq, subtree_eq. cbv zeta.
  cbn [wi_children wi_props fold_left].
  set (w := mkWorkItem props ado children).
  assert (E : forall st' : UniqueIds,
            uniqueIds_view st' = uniqueIds_step (uniqueIds_view st) w ->
            uniqueIds_view
              (if Nat.ltb 0 (length children)
               then forEach_index
                      (checkIds (item_path path i +:+ ".children")) 0
                      children st'
               else st')
            = fold_left uniqueIds_step (flat_map subtree children)
                (uniqueIds_step (uniqueIds_view st) w)).
  { intros st' <-. destruct children as [|c cs]; [reflexivity|].
    change (Nat.ltb 0 (length (c :: cs))) with true. cbv iota.
    apply (forEach_index_subtrees uniqueIds_view uniqueIds_step checkIds).
    exact IH. }
  apply E. unfold uniqueIds_view, uniqueIds_step. cbn [fst snd wi_props w].
  destruct (bool_decide (wi_id props ∈ ui_seen st)); cbn [ui_seen ui_errors].
  - rewrite fmap_app. reflexivity.
  - reflexivity.
Qed.

Lemma uniqueIds_fold (nodes : list WorkItem) :
  forall (seen : gset string) (known : list string)
         (out : list (string * string)),
    (forall x, x ∈ seen <-> x ∈ known) ->
    (fold_left uniqueIds_step nodes (seen, out)).2
    = out ++ ((fun id => (duplicate_id_message id, "DUPLICATE_ID"))
                <$> repeated_from known
                      ((fun n => wi_id (wi_props n)) <$> nodes)).
Proof.
  induction nodes as [|n nodes IH]; intros seen known out Hs.
  - cbn. symmetry. apply app_nil_r.
  - cbn [fold_left]. unfold uniqueIds_step at 2. cbn [fst snd].
    rewrite fmap_cons. cbn [repeated_from].
    rewrite (IH _ (wi_id (wi_props n) :: known)).
    2:{ intros x. rewrite elem_of_union, elem_of_singleton, elem_of_cons, Hs.
        reflexivity. }
    rewrite (bool_decide_ext _ _ (Hs (wi_id (wi_props n)))).
    destruct (bool_decide (wi_id (wi_props n) ∈ known)).
    + rewrite fmap_app, <- app_assoc. reflexivity.
    + reflexivity.
Qed.

Lemma repeated_from_nil (ids : list string) :
  forall known,
    repeated_from known ids = []
    <-> NoDup ids /\ forall x, x ∈ ids -> x ∉ known.
Proof.
  induction ids as [|id ids IH]; intros known; cbn [repeated_from].
  - split; [|reflexivity]. intros _. split; [constructor|].
    intros x Hx. inversion Hx.
  - rewrite NoDup_cons. split.
    + intros E. apply app_eq_nil in E. destruct E as [E1 E2].
      apply IH in E2. destruct E2 as [Hnd Hk].
      assert (Hid : id ∉ known).
      { intros Hin. rewrite bool_decide_eq_true_2 in E1 by exact Hin.
        discriminate. }
      split; [split; [|exact Hnd]|].
      * intros Hin. apply (Hk id Hin). left.
      * intros x Hx. apply elem_of_cons in Hx. destruct Hx as [-> | Hx];
          [exact Hid|].
        intros Hin. apply (Hk x Hx). right. exact Hin.
    + intros [[Hid Hnd] Hk].
      rewrite bool_decide_eq_false_2 by (apply Hk; left).
      apply IH. split; [exact Hnd|]. intros x Hx Hin.
      apply elem_of_cons in Hin. destruct Hin as [-> | Hin];
        [contradiction|].
      apply (Hk x); [right; exact Hx | exact Hin].
Qed.

Lemma repeated_from_size (ids : list string) :
  forall known,
    length (repeated_from known ids)
    + size (list_to_set (known ++ ids) : gset string)
    = length ids + size (list_to_set known : gset string).
Proof.
  induction ids as [|id ids IH]; intros known.
  - rewrite app_nil_r. reflexivity.
  - cbn [repeated_from]. rewrite length_app. specialize (IH (id :: known)).
    assert (E1 : (list_to_set (known ++ id :: ids) : gset string)
                 = list_to_set ((id :: known) ++ ids)).
    { apply set_eq. intros x. rewrite !elem_of_list_to_set.
      cbn [app]. rewrite !elem_of_app, !elem_of_cons, elem_of_app. tauto. }
    rewrite E1. cbn [length]. cbn [list_to_set] in IH.
    destruct (decide (id ∈ known)) as [Hin | Hout].
    + rewrite bool_decide_eq_true_2 by exact Hin. cbn [length].
      assert (E2 : ({[id]} ∪ list_to_set known : gset string)
                   = list_to_set known).
      { apply set_eq. intros x.
        rewrite elem_of_union, elem_of_singleton, elem_of_list_to_set.
        split; [intros [-> | H]; assumption | auto]. }
      rewrite E2 in IH. lia.
    + rewrite bool_decide_eq_false_2 by exact Hout. cbn [length].
      rewrite size_union in IH.
      2:{ apply disjoint_singleton_l. rewrite elem_of_list_to_set.
          exact Hout. }
      rewrite size_singleton in IH. lia.
Qed.

Lemma collectIds_eq (ids : gset string) (w : WorkItem) :
  collectIds ids w
  = if Nat.ltb 0 (length (wi_children w))
    then fold_left collectIds (wi_children w)
           ({[ wi_id (wi_props w) ]} ∪ ids)
    else {[ wi_id (wi_props w) ]} ∪ ids.
Proof. destruct w; reflexivity. Qed.

Lemma collectIds_subtree (w : WorkItem) :
  forall ids,
    collectIds ids w
    = fold_left (fun ids n => {[ wi_id (wi_props n) ]} ∪ ids) (subtree w) ids.
Proof.
  induction w as [props ado children IH] using WorkItem_children_ind.
  intros ids. rewrite collectIds_eq, subtree_eq. cbn [wi_children fold_left].
  destruct children as [|c cs]; [reflexivity|].
  change (Nat.ltb 0 (length (c :: cs))) with true. cbv iota.
  apply fold_left_subtrees. exact IH.
Qed.

Lemma getAllLocalIds_set (doc : WorkItemsDocument) :
  getAllLocalIds doc = list_to_set (document_ids doc).
Proof.
  unfold getAllLocalIds, document_ids. rewrite document_nodes_subtrees.
  rewrite (fold_left_subtrees collectIds
             (fun ids n => {[ wi_id (wi_props n) ]} ∪ ids))
    by (apply Forall_forall; intros w _; apply collectIds_subtree).
  generalize (flat_map subtree (workItems doc)). intros nodes.
  assert (H : forall ids : gset string,
            fold_left (fun ids n => {[ wi_id (wi_props n) ]} ∪ ids) nodes ids
            = list_to_set ((fun n => wi_id (wi_props n)) <$> nodes) ∪ ids).
  { induction nodes as [|n nodes IH]; intros ids; cbn [fold_left].
    - apply set_eq. intros x. rewrite elem_of_union. cbn.
      rewrite elem_of_empty. tauto.
    - rewrite IH. apply set_eq. intros x. rewrite fmap_cons.
      cbn [list_to_set]. rewrite !elem_of_union. tauto. }
  rewrite H. apply set_eq. intros x. rewrite elem_of_union, elem_of_empty.
  tauto.
Qed.

Lemma validateUniqueIds_view (doc : WorkItemsDocument)
  (errors : list ValidationError) :
  (fun e => (ve_message e, ve_code e)) <$> validateUniqueIds doc errors
  = ((fun e => (ve_message e, ve_code e)) <$> errors)
    ++ ((fun id => (duplicate_id_message id, "DUPLICATE_ID"))
          <$> repeated_from [] (document_ids doc)).
Proof.
  unfold validateUniqueIds, document_ids. rewrite document_nodes_subtrees.
  set (st0 := {| ui_seen := ∅; ui_duplicates := ∅; ui_errors := errors |}).
  change ((fun e => (ve_message e, ve_code e))
            <$> ui_errors (forEach_index (checkIds "workItems") 0
                             (workItems doc) st0))
    with (uniqueIds_view
            (forEach_index (checkIds "workItems") 0 (workItems doc) st0)).2.
  rewrite (forEach_index_subtrees uniqueIds_view uniqueIds_step checkIds)
    by (apply Forall_forall; intros w _; apply checkIds_view).
  apply uniqueIds_fold. intros x. cbn. rewrite elem_of_empty.
  split; [contradiction | intros H; inversion H].
Qed.

Lemma validateUniqueIds_NoDup (doc : WorkItemsDocument) :
  validateUniqueIds doc [] = [] <-> NoDup (document_ids doc).
Proof.
  pose proof (validateUniqueIds_view doc []) as E. cbn [fmap list_fmap app] in E.
  split.
  - intros H. rewrite H in E. cbn in E. symmetry in E.
    apply fmap_nil_inv in E. apply repeated_from_nil in E. tauto.
  - intros H.
    assert (R : repeated_from [] (document_ids doc) = []).
    { apply repeated_from_nil. split; [exact H|].
      intros x _ Hx. inversion Hx. }
    rewrite R in E. apply fmap_nil_inv in E. exact E.
Qed.

(** X20.  [validateUniqueIds] adds one [DUPLICATE_ID] error for every
    node whose local id already occurred in the document (parent
    first), in that order, naming the id, and nothing else: it adds no
    error exactly when the local ids of the document are pairwise
    distinct, and the number of errors it adds and the number of ids
    that [getAllLocalIds] collects add up to the number of nodes that
    [countItems] gives. *)
Theorem validateUniqueIds_reports_repeats (doc : WorkItemsDocument) :
  (forall errors,
     (fun e => (ve_message e, ve_code e)) <$> validateUniqueIds doc errors
     = ((fun e => (ve_message e, ve_code e)) <$> errors)
       ++ ((fun id => (duplicate_id_message id, "DUPLICATE_ID"))
             <$> repeated_from [] (document_ids doc)))
  /\ (validateUniqueIds doc [] = [] <-> NoDup (document_ids doc))
  /\ length (validateUniqueIds doc []) + size (getAllLocalIds doc)
     = countItems (workItems doc)
  /\ getAllLocalIds doc = list_to_set (document_ids doc).
Proof.
  split; [apply validateUniqueIds_view|].
  pose proof (validateUniqueIds_view doc []) as E. cbn [fmap list_fmap app] in E.
  split; [apply validateUniqueIds_NoDup|].
  split; [|apply getAllLocalIds_set].
  apply (f_equal length) in E. rewrite !length_fmap in E. rewrite E.
    rewrite getAllLocalIds_set.
    pose proof (repeated_from_size (document_ids doc) []) as Hs.
    cbn [app list_to_set] in Hs. rewrite size_empty in Hs.
    rewrite Hs, countItems_flatten. unfold document_ids, document_nodes.
    rewrite !length_fmap. lia.
Qed.

Lemma checkHierarchy_eq (h : HierarchyType) (path : string)
  (allowedTypes : list string) (w : WorkItem) (index : nat) (st : Findings) :
  checkHierarchy h path allowedTypes w index st
  = let itemPath := item_path path index in
    let type := wi_type (wi_props w) in
    let st :=
      if negb (includes allowedTypes type)
      then {| f_errors :=
                f_errors st
                ++ [ {| ve_path := itemPath +:+ ".type";
                        ve_message :=
                          "Invalid work item type " +:+ QUOTE +:+ type
                            +:+ QUOTE +:+ " for hierarchy " +:+ QUOTE
                            +:+ HierarchyType_name h +:+ QUOTE
                            +:+ ". Expected one of: "
                            +:+ Js.join ", " allowedTypes;
                        ve_code := "INVALID_HIERARCHY_TYPE" |} ];
              f_warnings := f_warnings st |}
      else st in
    if Nat.ltb 0 (length (wi_children w)) then
      let childAllowed := validChildTypes type in
      let st :=
        if Nat.eqb (length childAllowed) 0
           && Nat.ltb 0 (length (wi_children w))
        then {| f_errors := f_errors st;
                f_warnings :=
                  f_warnings st
                  ++ [ {| vw_path := itemPath +:+ ".children";
                          vw_message :=
                            "Work item type " +:+ QUOTE +:+ type +:+ QUOTE
                              +:+ " typically doesn't have children";
                          vw_code := "UNEXPECTED_CHILDREN" |} ] |}
        else st in
      forEach_index
        (checkHierarchy h (itemPath +:+ ".children") childAllowed) 0
        (wi_children w) st
    else st.
Proof. destruct w; reflexivity. Qed.

Lemma fits_eq (allowedTypes : list string) (w : WorkItem) :
  fits allowedTypes w
  = includes allowedTypes (wi_type (wi_props w))
    && forallb (fits (validChildTypes (wi_type (wi_props w))))
         (wi_children w).
Proof. destruct w; reflexivity. Qed.

Lemma checkHierarchy_children (h : HierarchyType) (allowed : list string)
  (ws : list WorkItem) :
  Forall (fun w => forall path allowed i st,
            exists new,
              f_errors (checkHierarchy h path allowed w i st)
              = f_errors st ++ new
              /\ (new = [] <-> fits allowed w = true)) ws ->
  forall path i st,
    exists new,
      f_errors (forEach_index (checkHierarchy h path allowed) i ws st)
      = f_errors st ++ new
      /\ (new = [] <-> forallb (fits allowed) ws = true).
Proof.
  induction 1 as [|w r Hw _ IH]; intros path i st.
  - exists []. rewrite app_nil_r. split; [reflexivity|]. cbn. tauto.
  - cbn [forEach_index forallb].
    destruct (Hw path allowed i st) as (n1 & E1 & H1).
    destruct (IH path (S i) (checkHierarchy h path allowed w i st))
      as (n2 & E2 & H2).
    exists (n1 ++ n2). rewrite E2, E1, <- app_assoc.
    split; [reflexivity|].
    rewrite andb_true_iff, <- H1, <- H2. split.
    + intros E. apply app_eq_nil in E. exact E.
    + intros [-> ->]. reflexivity.
Qed.

Lemma checkHierarchy_fits (h : HierarchyType) (w : WorkItem) :
  forall path allowed i st,
    exists new,
      f_errors (checkHierarchy h path allowed w i st) = f_errors st ++ new
      /\ (new = [] <-> fits allowed w = true).
Proof.
  induction w as [props ado children IH] using WorkItem_children_ind.
  intros path allowed i st. rewrite checkHierarchy_eq, fits_eq. cbv zeta.
  cbn [wi_children wi_props].
  set (type := wi_type props).
  destruct (includes allowed type) eqn:Ein; cbn [negb andb].
  - destruct children as [|c cs].
    + exists []. rewrite app_nil_r. cbn. tauto.
    + change (Nat.ltb 0 (length (c :: cs))) with true. cbv iota.
      match goal with
      | |- context [forEach_index _ 0 _ ?s1] =>
          destruct (checkHierarchy_children h (validChildTypes type)
                      (c :: cs) IH (item_path path i +:+ ".children") 0 s1)
            as (new & E & Hn)
      end.
      exists new. rewrite E. split; [|exact Hn].
      destruct (Nat.eqb _ 0 && true); reflexivity.
  - destruct children as [|c cs].
    + eexists [_]. split; [reflexivity|]. split; discriminate.
    + change (Nat.ltb 0 (length (c :: cs))) with true. cbv iota.
      match goal with
      | |- context [forEach_index _ 0 _ ?s1] =>
          destruct (checkHierarchy_children h (validChildTypes type)
                      (c :: cs) IH (item_path path i +:+ ".children") 0 s1)
            as (new & E & Hn)
      end.
      eexists (_ :: new). rewrite E. split.
      * destruct (Nat.eqb _ 0 && true); cbn [f_errors];
          rewrite <- app_assoc; reflexivity.
      * split; discriminate.
Qed.

Lemma includes_In (xs : list string) (x : string) :
  includes xs x = true <-> In x xs.
Proof.
  unfold includes. rewrite existsb_exists. split.
  - intros (y & Hy & E). apply String.eqb_eq in E. subst. exact Hy.
  - intros H. exists x. split; [exact H | apply String.eqb_refl].
Qed.

Lemma validChildTypes_cases (type child : string) :
  In child (validChildTypes type) ->
  type_rank child < type_rank type /\ child <> "Issue".
Proof.
  unfold validChildTypes.
  destruct (String.eqb_spec type "Epic") as [->|_];
    [simpl; intros [<-|[]]; split; [cbn; lia | discriminate]|].
  destruct (String.eqb_spec type "Feature") as [->|_];
    [simpl; intros [<-|[<-|[<-|[]]]]; split; (cbn; lia) || discriminate|].
  destruct (String.eqb_spec type "Product Backlog Item") as [->|_];
    [simpl; intros [<-|[]]; split; [cbn; lia | discriminate]|].
  destruct (String.eqb_spec type "User Story") as [->|_];
    [simpl; intros [<-|[]]; split; [cbn; lia | discriminate]|].
  destruct (String.eqb_spec type "Bug") as [->|_];
    [simpl; intros [<-|[]]; split; [cbn; lia | discriminate]|].
  destruct (String.eqb_spec type "Task") as [->|_]; intros [].
Qed.

Lemma fits_subtree (w : WorkItem) :
  forall allowed parent d,
    fits allowed w = true ->
    In (wi_type (wi_props w)) allowed
    /\ Forall (fun e => wp_depth e <= d + type_rank (wi_type (wi_props w)))
         (subtree_entries parent d w)
    /\ Forall (fun n => n = w \/ wi_type (wi_props n) <> "Issue")
         (subtree w).
Proof.
  induction w as [props ado children IH] using WorkItem_children_ind.
  intros allowed parent d. rewrite fits_eq, andb_true_iff, includes_In.
  cbn [wi_children wi_props]. intros [Hroot Hch].
  split; [exact Hroot|].
  rewrite subtree_entries_eq, subtree_eq. cbn [wi_children wi_props].
  set (w := mkWorkItem props ado children) in *.
  rewrite forallb_forall in Hch.
  assert (Hc : Forall (fun c =>
              In (wi_type (wi_props c)) (validChildTypes (wi_type props))
              /\ Forall (fun e => wp_depth e
                                  <= S d + type_rank (wi_type (wi_props c)))
                   (subtree_entries
                      (Some (mkWithParent w parent d)) (S d) c)
              /\ Forall (fun n => n = c \/ wi_type (wi_props n) <> "Issue")
                   (subtree c)) children).
  { rewrite Forall_forall in IH. apply Forall_forall. intros c Hin.
    apply IH; [exact Hin|]. apply Hch. apply list_elem_of_In. exact Hin. }
  split.
  - constructor; [cbn; lia|]. apply Forall_flat_map_intro.
    eapply Forall_impl; [exact Hc|]. intros c (Hin & Hd & _). cbn beta.
    apply validChildTypes_cases in Hin. destruct Hin as [Hr _].
    eapply Forall_impl; [exact Hd|]. cbn. intros e He. lia.
  - constructor; [left; reflexivity|]. apply Forall_flat_map_intro.
    eapply Forall_impl; [exact Hc|]. intros c (Hin & _ & Hi). cbn beta.
    apply validChildTypes_cases in Hin. destruct Hin as [_ Hne].
    eapply Forall_impl; [exact Hi|]. cbn. intros n [-> | Hn]; right; assumption.
Qed.

(** X21.  [validateHierarchyTypes] adds no error exactly when the types
    of the document fit the tables: every root has a type allowed for
    the hierarchy and every child a type allowed below the type of its
    parent.  No table allows the type [Issue], which the schema
    accepts: a document with an item of type [Issue] always gets an
    error.  A document without error is at most four levels deep for
    the hierarchy [full], three for [medium] and two for [simple].
    The tables are those of [getValidRootTypes] and
    [getValidChildTypes] of the hierarchy utilities, except below
    [Issue], where those allow [Task]. *)
Theorem validateHierarchyTypes_fits (doc : WorkItemsDocument) :
  let errors := f_errors (validateHierarchyTypes doc [] []) in
  (errors = []
   <-> forallb (fits (validRootTypes (hierarchyType doc))) (workItems doc)
       = true)
  /\ (forall n, n ∈ document_nodes doc -> wi_type (wi_props n) = "Issue" ->
                errors <> [])
  /\ (errors = [] -> getMaxDepth doc <= hierarchy_depth (hierarchyType doc))
  /\ (forall h, validRootTypes h = getValidRootTypes h)
  /\ (forall type, type <> "Issue" ->
                   validChildTypes type = getValidChildTypes type)
  /\ validChildTypes "Issue" = []
  /\ getValidChildTypes "Issue" = ["Task"].
Proof.
  cbn zeta. unfold validateHierarchyTypes.
  destruct (checkHierarchy_children (hierarchyType doc)
              (validRootTypes (hierarchyType doc)) (workItems doc))
    with (path := "workItems") (i := 0)
         (st := {| f_errors := []; f_warnings := [] |})
    as (new & E & Hfit).
  { apply Forall_forall. intros w _. apply checkHierarchy_fits. }
  rewrite E. cbn [f_errors app].
  assert (Hroots : forall w, In w (workItems doc) ->
            new = [] ->
            In (wi_type (wi_props w)) (validRootTypes (hierarchyType doc))
            /\ Forall (fun e => wp_depth e
                                <= 0 + type_rank (wi_type (wi_props w)))
                 (subtree_entries None 0 w)
            /\ Forall (fun n => n = w \/ wi_type (wi_props n) <> "Issue")
                 (subtree w)).
  { intros w Hin Hnil. apply fits_subtree.
    apply Hfit in Hnil. rewrite forallb_forall in Hnil. apply Hnil.
    exact Hin. }
  assert (Hrank : forall t, In t (validRootTypes (hierarchyType doc)) ->
            type_rank t <= hierarchy_depth (hierarchyType doc)
            /\ t <> "Issue").
  { intros t. destruct (hierarchyType doc); simpl;
      intros H; repeat (destruct H as [<- | H]; [split; [cbn; lia | discriminate]|]);
      destruct H. }
  split; [exact Hfit|]. split; [|split; [|split; [|split; [|split]]]].
  - intros n Hn Hty Hnil. rewrite document_nodes_subtrees in Hn.
    apply list_elem_of_In, in_flat_map in Hn. destruct Hn as (w & Hw & Hn).
    destruct (Hroots w Hw Hnil) as (Hroot & _ & Hi).
    rewrite Forall_forall in Hi. apply list_elem_of_In in Hn.
    destruct (Hi n Hn) as [-> | Hne]; [|contradiction].
    apply Hrank in Hroot. destruct Hroot as [_ Hne]. contradiction.
  - intros Hnil. rewrite getMaxDepth_flatten, flattenHierarchy_subtrees.
    apply list_max_le, Forall_fmap, Forall_flat_map_intro, Forall_forall.
    intros w Hw. apply list_elem_of_In in Hw.
    destruct (Hroots w Hw Hnil) as (Hroot & Hd & _).
    apply Hrank in Hroot. destruct Hroot as [Hr _].
    eapply Forall_impl; [exact Hd|]. cbn. intros e He. lia.
  - intros h. destruct h; reflexivity.
  - intros type Hne. unfold validChildTypes, getValidChildTypes.
    destruct (String.eqb_spec type "Issue") as [->|_]; [contradiction|].
    reflexivity.
  - reflexivity.
  - reflexivity.
Qed.

Lemma validateHierarchyTypes_fits_witness :
  f_errors (validateHierarchyTypes Sample.doc [] []) = []
  /\ getMaxDepth Sample.doc <= hierarchy_depth (hierarchyType Sample.doc).
Proof.
  assert (H : f_errors (validateHierarchyTypes Sample.doc [] []) = [])
    by reflexivity.
  split; [exact H|].
  apply (proj1 (proj2 (proj2 (validateHierarchyTypes_fits Sample.doc)))).
  exact H.
Defined.

Lemma validateUniqueIds_reports_repeats_witness :
  NoDup (document_ids Sample.doc) /\ validateUniqueIds Sample.doc [] = [].
Proof.
  assert (H : NoDup (document_ids Sample.doc)).
  { apply (bool_decide_unpack (NoDup (document_ids Sample.doc))).
    vm_compute. exact I. }
  split; [exact H|].
  apply (proj2 (proj1 (proj2 (validateUniqueIds_reports_repeats Sample.doc)))).
  exact H.
Defined.

Lemma checkItems_eq (path : string) (w : WorkItem) (index : nat)
  (warnings : list ValidationWarning) :
  checkItems path w index warnings
  = let itemPath := item_path path index in
    let warnings :=
      match recorded_id w, recorded_rev w with
      | Some _, None =>
          warnings
          ++ [ {| vw_path := itemPath +:+ "._ado";
                  vw_message :=
                    "Work item " +:+ QUOTE +:+ wi_id (wi_props w) +:+ QUOTE
                      +:+ " has ADO ID but no revision number";
                  vw_code := "MISSING_REV" |} ]
      | _, _ => warnings
      end in
    if Nat.ltb 0 (length (wi_children w))
    then forEach_index (checkItems (itemPath +:+ ".children")) 0
           (wi_children w) warnings
    else warnings.
Proof. destruct w; reflexivity. Qed.

Lemma checkItems_count (w : WorkItem) :
  forall path i warnings,
    length (checkItems path w i warnings)
    = fold_left (fun k n => k + (if missing_rev n then 1 else 0))
        (subtree w) (length warnings).
Proof.
  induction w as [props ado children IH] using WorkItem_children_ind.
  intros path i warnings. rewrite checkItems_eq, subtree_eq. cbv zeta.
  cbn [wi_children fold_left].
  set (w := mkWorkItem props ado children).
  match goal with
  | |- context [if _ then forEach_index _ 0 _ ?x else _] => set (ws := x)
  end.
  assert (Hl : length ws
               = length warnings + (if missing_rev w then 1 else 0)).
  { unfold ws, missing_rev.
    destruct (recorded_id w); [destruct (recorded_rev w)|];
      rewrite ?length_app; cbn [length]; lia. }
  rewrite <- Hl. destruct children as [|c cs]; [reflexivity|].
  change (Nat.ltb 0 (length (c :: cs))) with true. cbv iota.
  apply (forEach_index_subtrees (@length ValidationWarning)
           (fun k n => k + (if missing_rev n then 1 else 0)) checkItems).
  exact IH.
Qed.

Lemma fold_count {A} (t : A -> bool) (l : list A) :
  forall k,
    fold_left (fun k n => k + (if t n then 1 else 0)) l k
    = k + length (List.filter t l).
Proof.
  induction l as [|x l IH]; intros k; cbn [fold_left List.filter length];
    [lia|].
  rewrite IH. destruct (t x); cbn [length]; lia.
Qed.

Lemma preorder_from_length (ws : list WorkItem) :
  Forall (fun w => length (preorder_item w) = length (subtree w)) ws ->
  forall i, length (preorder_from i ws) = length (flat_map subtree ws).
Proof.
  induction 1 as [|w r Hw _ IH]; intros i; [reflexivity|].
  cbn [preorder_from flat_map].
  rewrite !length_app, length_fmap. f_equal; [exact Hw | apply IH].
Qed.

Lemma preorder_item_length (w : WorkItem) :
  length (preorder_item w) = length (subtree w).
Proof.
  induction w as [props ado children IH] using WorkItem_children_ind.
  rewrite preorder_item_eq, subtree_eq. cbn [length wi_children].
  f_equal. apply preorder_from_length. exact IH.
Qed.

Lemma flat_map_zip_app {A B C} (f : A * B -> list C) (l1 l2 : list A)
  (k1 k2 : list B) :
  length l1 = length k1 ->
  flat_map f (zip (l1 ++ l2) (k1 ++ k2))
  = flat_map f (zip l1 k1) ++ flat_map f (zip l2 k2).
Proof.
  intros H. rewrite zip_with_app by exact H. apply flat_map_app.
Qed.

Lemma flat_map_zip_fmap {A A' B C} (g : A -> A') (f : A' * B -> list C)
  (l : list A) (k : list B) :
  flat_map f (zip (g <$> l) k)
  = flat_map (fun pn => f (g pn.1, pn.2)) (zip l k).
Proof.
  revert k. induction l as [|x l IH]; intros [|y k]; try reflexivity.
  cbn [fmap list_fmap zip_with flat_map fst snd]. rewrite <- IH. reflexivity.
Qed.

Lemma flat_map_zip_ext {A B C} (P : A -> Prop) (f g : A * B -> list C)
  (l : list A) (k : list B) :
  Forall P l -> (forall a b, P a -> f (a, b) = g (a, b)) ->
  flat_map f (zip l k) = flat_map g (zip l k).
Proof.
  intros Hl H. revert k. induction Hl as [|x l Hx _ IH]; intros [|y k];
    try reflexivity.
  cbn [zip_with flat_map]. rewrite (H x y Hx), IH. reflexivity.
Qed.

Lemma flat_map_zip_lookup {A B C} (look : A -> option B)
  (f : A * B -> list C) (l : list A) (k : list B) :
  Forall2 (fun b a => look a = Some b) k l ->
  flat_map f (zip l k)
  = flat_map (fun a => match look a with
                       | Some b => f (a, b)
                       | None => []
                       end) l.
Proof.
  induction 1 as [|b a k l E _ IH]; [reflexivity|].
  cbn [zip_with flat_map]. rewrite E, IH. reflexivity.
Qed.

(** The nodes of a list of items, parent first, are the nodes at the
    positions of the list, in the same order. *)
Lemma subtrees_at_positions (ws : list WorkItem) :
  Forall2 (fun n p => node_at ws p = Some n)
    (flat_map subtree ws) (preorder_from 0 ws).
Proof.
  set (doc := {| schemaVersion := ""; hierarchyType := simple;
                 project := {| pc_organization := ""; pc_project := "";
                               pc_areaPath := None;
                               pc_iterationPath := None |};
                 workItems := ws |}).
  change ws with (workItems doc).
  rewrite <- document_nodes_subtrees. unfold document_nodes.
  apply Forall2_fmap_l.
  eapply Forall2_impl; [apply flattenHierarchy_entries|].
  intros e p He. unfold entry_at in He. apply entry_from_facts in He.
  apply He.
Qed.

Lemma forEach_checkItems_positions (ws : list WorkItem) :
  Forall (fun w => forall path index warnings,
            checkItems path w index warnings
            = warnings
              ++ flat_map (fun pn => missing_rev_of path (index :: pn.1, pn.2))
                   (zip (preorder_item w) (subtree w))) ws ->
  forall path i warnings,
    forEach_index (checkItems path) i ws warnings
    = warnings
      ++ flat_map (missing_rev_of path)
           (zip (preorder_from i ws) (flat_map subtree ws)).
Proof.
  induction 1 as [|w r Hw _ IH]; intros path i warnings.
  - cbn. rewrite app_nil_r. reflexivity.
  - cbn [forEach_index preorder_from flat_map].
    rewrite IH, Hw, <- app_assoc. f_equal.
    rewrite flat_map_zip_app
      by (rewrite length_fmap; apply preorder_item_length).
    rewrite flat_map_zip_fmap. reflexivity.
Qed.

Lemma checkItems_positions (w : WorkItem) :
  forall path index warnings,
    checkItems path w index warnings
    = warnings
      ++ flat_map (fun pn => missing_rev_of path (index :: pn.1, pn.2))
           (zip (preorder_item w) (subtree w)).
Proof.
  induction w as [props ado children IH] using WorkItem_children_ind.
  intros path index warnings.
  rewrite checkItems_eq, preorder_item_eq, subtree_eq. cbv zeta.
  cbn [wi_children zip_with flat_map].
  set (w := mkWorkItem props ado children).
  set (itemPath := item_path path index).
  assert (E0 : match recorded_id w, recorded_rev w with
               | Some _, None => warnings ++ [missing_rev_warning itemPath w]
               | _, _ => warnings
               end
               = warnings ++ missing_rev_of path ([index], w)).
  { unfold missing_rev_of, missing_rev. cbn [fst snd path_of].
    destruct (recorded_id w); [destruct (recorded_rev w)|];
      rewrite ?app_nil_r; reflexivity. }
  unfold missing_rev_warning in E0. rewrite E0. clear E0.
  cbn [fst snd].
  destruct children as [|c cs].
  - cbn. rewrite app_nil_r. reflexivity.
  - change (Nat.ltb 0 (length (c :: cs))) with true. cbv iota.
    rewrite (forEach_checkItems_positions (c :: cs) IH), <- app_assoc.
    f_equal. f_equal.
    apply (flat_map_zip_ext (fun p => p <> [])).
    + apply Forall_forall. intros p Hp ->.
      revert Hp. apply preorder_nonempty.
    + intros [|j q] n Hq; [contradiction|]. reflexivity.
Qed.

Lemma validateAdoConsistency_positions (doc : WorkItemsDocument) :
  validateAdoConsistency doc
  = flat_map (missing_rev_at (workItems doc))
      (preorder_from 0 (workItems doc)).
Proof.
  unfold validateAdoConsistency.
  rewrite forEach_checkItems_positions
    by (apply Forall_forall; intros w _; apply checkItems_positions).
  cbn [app].
  apply (flat_map_zip_lookup (node_at (workItems doc))).
  apply subtrees_at_positions.
Qed.

(** X22.  [validateAdoConsistency] gives one warning for each node that
    records a remote id and no revision, and nothing else: taking the
    positions of the document parent first, the warnings are, in that
    order, those of the nodes that lack their revision, each with the
    code [MISSING_REV], the path of the node followed by [._ado] and
    the message naming the local id of the node.  So in a document for
    which it gives no warning, every item that push would update is
    sent with the condition on its recorded revision: the patch
    document of the update starts with the test of [/rev] against that
    revision. *)
Theorem validateAdoConsistency_missing_rev (doc : WorkItemsDocument) :
  validateAdoConsistency doc
  = flat_map
      (fun p =>
         match node_at (workItems doc) p with
         | Some n =>
             if missing_rev n
             then [ {| vw_path := position_path p +:+ "._ado";
                       vw_message :=
                         "Work item " +:+ QUOTE +:+ wi_id (wi_props n)
                           +:+ QUOTE
                           +:+ " has ADO ID but no revision number";
                       vw_code := "MISSING_REV" |} ]
             else []
         | None => []
         end)
      (preorder_from 0 (workItems doc))
  /\ position_path [1; 0; 2] = "workItems[1].children[0].children[2]"
  /\ length (validateAdoConsistency doc)
     = length (List.filter missing_rev (document_nodes doc))
  /\ (validateAdoConsistency doc = [] ->
      forall n adoId,
        n ∈ document_nodes doc -> recorded_id n = Some adoId ->
        exists rev,
          rev <> 0%Z /\ wi_ado n ≫= md_rev = Some rev
          /\ updatePatchDocument (wi_props n) (wi_ado n ≫= md_rev)
             = {| op := op_test; path := "/rev";
                  value := Some (PField (Js.VNumber rev)) |}
               :: buildPatchDocument (wi_props n)).
Proof.
  assert (E : length (validateAdoConsistency doc)
              = length (List.filter missing_rev (document_nodes doc))).
  { unfold validateAdoConsistency. rewrite document_nodes_subtrees.
    rewrite (forEach_index_subtrees (@length ValidationWarning)
               (fun k n => k + (if missing_rev n then 1 else 0)) checkItems)
      by (apply Forall_forall; intros w _; apply checkItems_count).
    rewrite fold_count. reflexivity. }
  split; [apply validateAdoConsistency_positions|].
  split; [reflexivity|].
  split; [exact E|].
  intros Hnil n adoId Hn Hid. rewrite Hnil in E. cbn [length] in E.
  assert (Hm : missing_rev n = false).
  { destruct (missing_rev n) eqn:Em; [|reflexivity].
    assert (Hin : In n (List.filter missing_rev (document_nodes doc))).
    { apply filter_In. split; [apply list_elem_of_In; exact Hn | exact Em]. }
    destruct (List.filter missing_rev (document_nodes doc));
      [destruct Hin | discriminate]. }
  unfold missing_rev in Hm. rewrite Hid in Hm.
  unfold recorded_rev, Js.truthy_opt_number, Js.truthy_number in Hm.
  destruct (wi_ado n ≫= md_rev) as [rev|]; [|discriminate].
  destruct (Z.eqb_spec rev 0); [discriminate|].
  exists rev. split; [assumption|]. split; reflexivity.
Qed.

Lemma validateAdoConsistency_missing_rev_witness :
  validateAdoConsistency Sample.doc = []
  /\ exists rev,
       rev <> 0%Z /\ wi_ado Sample.pbi1 ≫= md_rev = Some rev
       /\ updatePatchDocument (wi_props Sample.pbi1)
            (wi_ado Sample.pbi1 ≫= md_rev)
          = {| op := op_test; path := "/rev";
               value := Some (PField (Js.VNumber rev)) |}
            :: buildPatchDocument (wi_props Sample.pbi1).
Proof.
  assert (H : validateAdoConsistency Sample.doc = []) by reflexivity.
  split; [exact H|].
  apply (proj2 (proj2 (proj2 (validateAdoConsistency_missing_rev Sample.doc)))
           H Sample.pbi1 2%Z).
  - apply list_elem_of_In. cbn. tauto.
  - reflexivity.
Defined.

(** The one warning of a document whose second root has, as its second
    child, a linked task without a revision. *)
Example validateAdoConsistency_example :
  validateAdoConsistency Sample3.doc
  = [ {| vw_path := "workItems[1].children[1]._ado";
         vw_message :=
           "Work item " +:+ QUOTE +:+ "task-7" +:+ QUOTE
             +:+ " has ADO ID but no revision number";
         vw_code := "MISSING_REV" |} ].
Proof. reflexivity. Qed.

(** ** Comments: the pagination *)

Lemma getAllComments_loop_ext {W} (fuel : nat) (project : string)
  (get get' : Comments.Get W) (workItemId : Z) :
  (forall w, get (Comments.path_of project workItemId) Comments.first_page w
             = get' (Comments.path_of project workItemId)
                 Comments.first_page w) ->
  forall acc w,
    Comments.getAllComments_loop fuel project get workItemId acc None w
    = Comments.getAllComments_loop fuel project get' workItemId acc None w.
Proof.
  intros H. induction fuel as [|fuel IH]; intros acc w; [reflexivity|].
  cbn [Comments.getAllComments_loop]. unfold Comments.getComments.
  change (get _ _ w)
    with (get (Comments.path_of project workItemId) Comments.first_page w).
  change (get' _ _ w)
    with (get' (Comments.path_of project workItemId) Comments.first_page w).
  rewrite H.
  destruct (get' _ _ w) as [[response | e] w1]; [|reflexivity].
  destruct (if (Comments.count response <? 100)%Z then false
            else (Comments.count response =? 100)%Z); [apply IH | reflexivity].
Qed.

Lemma getAllComments_paged (project : string) (workItemId : Z)
  (full : list Comments.AdoCommentsResponse) :
  Forall (fun page => Comments.count page = 100%Z) full ->
  forall last rest acc fuel,
    Comments.count last <> 100%Z ->
    length full < fuel ->
    Comments.getAllComments_loop fuel project Comments.paged workItemId acc
      None (full ++ last :: rest)
    = Some (Ok (acc ++ (Comments.transformComment
                          <$> concat (Comments.comments
                                        <$> full ++ [last]))), rest).
Proof.
  induction 1 as [|page full Hp _ IH]; intros last rest acc fuel Hl Hf;
    (destruct fuel as [|fuel]; [cbn in Hf; lia|]);
    cbn [Comments.getAllComments_loop app].
  - unfold Comments.getComments, Comments.paged.
    destruct (Z.ltb_spec (Comments.count last) 100).
    + cbn. rewrite app_nil_r. reflexivity.
    + destruct (Z.eqb_spec (Comments.count last) 100); [contradiction|].
      cbn. rewrite app_nil_r. reflexivity.
  - unfold Comments.getComments at 1, Comments.paged at 1. rewrite Hp.
    cbn [Z.ltb Z.eqb Z.compare Pos.compare Pos.compare_cont].
    rewrite IH by (cbn in Hf; lia || assumption).
    change ((100 =? 100)%positive) with true. cbv iota.
    rewrite fmap_cons. cbn [concat].
    rewrite (fmap_app Comments.transformComment), app_assoc.
    reflexivity.
Qed.

Lemma getAllComments_paged_out (project : string) (workItemId : Z)
  (full : list Comments.AdoCommentsResponse) :
  Forall (fun page => Comments.count page = 100%Z) full ->
  forall acc fuel,
    length full < fuel ->
    Comments.getAllComments_loop fuel project Comments.paged workItemId acc
      None full
    = Some (Throw "Request failed with status code 404", []).
Proof.
  induction 1 as [|page full Hp _ IH]; intros acc fuel Hf;
    (destruct fuel as [|fuel]; [cbn in Hf; lia|]);
    cbn [Comments.getAllComments_loop]; [reflexivity|].
  unfold Comments.getComments at 1, Comments.paged at 1. rewrite Hp.
  cbn [Z.ltb Z.eqb Z.compare Pos.compare Pos.compare_cont].
  change ((100 =? 100)%positive) with true. cbv iota.
  apply IH. cbn in Hf. lia.
Qed.

(** X23.  [getAllComments] never passes a continuation token: every
    turn of its loop makes the same request, for the first 100
    comments, and only the answers to that request matter.  It returns
    at the first answer whose [count] is not 100, with the comments of
    all the answers so far, and rethrows a failure, of the first
    request or of a later one (the comments read so far are then
    lost).  So, against a service that answers that request each time
    with the same page of 100 comments, it never returns, whatever
    number of turns it is given. *)
Theorem getAllComments_repeats_the_first_page {W} (project : string)
  (workItemId : Z) :
  (forall fuel (get get' : Comments.Get W) w,
     (forall w, get (Comments.path_of project workItemId)
                  Comments.first_page w
                = get' (Comments.path_of project workItemId)
                    Comments.first_page w) ->
     Comments.getAllComments fuel project get workItemId w
     = Comments.getAllComments fuel project get' workItemId w)
  /\ (forall (get : Comments.Get W) page,
        Comments.count page = 100%Z ->
        (forall w, get (Comments.path_of project workItemId)
                     Comments.first_page w = (Ok page, w)) ->
        forall fuel w,
          Comments.getAllComments fuel project get workItemId w = None)
  /\ (forall full last rest,
        Forall (fun page => Comments.count page = 100%Z) full ->
        Comments.count last <> 100%Z ->
        Comments.getAllComments (S (length full)) project Comments.paged
          workItemId (full ++ last :: rest)
        = Some (Ok (Comments.transformComment
                      <$> concat (Comments.comments <$> full ++ [last])),
                rest))
  /\ (forall fuel (get : Comments.Get W) e w w',
        get (Comments.path_of project workItemId) Comments.first_page w
        = (Throw e, w') ->
        Comments.getAllComments (S fuel) project get workItemId w
        = Some (Throw e, w'))
  /\ (forall full,
        Forall (fun page => Comments.count page = 100%Z) full ->
        Comments.getAllComments (S (length full)) project Comments.paged
          workItemId full
        = Some (Throw "Request failed with status code 404", [])).
Proof.
  split; [|split; [|split; [|split]]].
  - intros fuel get get' w H. apply getAllComments_loop_ext. exact H.
  - intros get page Hc Hget fuel w. unfold Comments.getAllComments.
    generalize (@nil AdoComment). revert w.
    induction fuel as [|fuel IH]; intros w acc; [reflexivity|].
    cbn [Comments.getAllComments_loop]. unfold Comments.getComments.
    change (get _ _ w)
      with (get (Comments.path_of project workItemId) Comments.first_page w).
    rewrite Hget, Hc. cbn [Z.ltb Z.eqb Z.compare Pos.compare Pos.compare_cont].
    apply IH.
  - intros full last rest Hfull Hlast. unfold Comments.getAllComments.
    rewrite (getAllComments_paged project workItemId full Hfull last rest [])
      by (assumption || lia).
    reflexivity.
  - intros fuel get e w w' Hget. unfold Comments.getAllComments.
    cbn [Comments.getAllComments_loop]. unfold Comments.getComments.
    change (get _ _ w)
      with (get (Comments.path_of project workItemId) Comments.first_page w).
    rewrite Hget. reflexivity.
  - intros full Hfull. unfold Comments.getAllComments.
    apply getAllComments_paged_out; [exact Hfull | lia].
Qed.

Lemma getAllComments_repeats_the_first_page_witness :
  let page :=
    {| Comments.totalCount := 250; Comments.count := 100;
       Comments.comments := [] |} in
  Comments.getAllComments 1000 "proj" (fun _ _ (w : unit) => (Ok page, w))
    7 tt = None.
Proof.
  cbn zeta.
  apply (proj1 (proj2 (getAllComments_repeats_the_first_page "proj" 7)))
    with (page := {| Comments.totalCount := 250; Comments.count := 100;
                     Comments.comments := [] |}).
  - reflexivity.
  - intros w. reflexivity.
Defined.

(** ** Writer: the metadata of an item *)

Lemma updateItem_eq (localId : string) (adoMetadata : PartialAdoMetadata)
  (w : WorkItem) :
  updateItem localId adoMetadata w
  = if has_id localId w
    then Some (mkWorkItem (wi_props w)
                 (Some (merge_metadata (wi_ado w) adoMetadata))
                 (wi_children w))
    else if Nat.ltb 0 (length (wi_children w))
         then mkWorkItem (wi_props w) (wi_ado w)
                <$> update_first (updateItem localId adoMetadata)
                      (wi_children w)
         else None.
Proof. destruct w; reflexivity. Qed.

Lemma update_first_outcome (localId : string)
  (adoMetadata : PartialAdoMetadata) (ws : list WorkItem) :
  Forall (fun w => update_outcome localId adoMetadata (subtree w)
                     (subtree <$> updateItem localId adoMetadata w)) ws ->
  update_outcome localId adoMetadata (flat_map subtree ws)
    (flat_map subtree
       <$> update_first (updateItem localId adoMetadata) ws).
Proof.
  induction 1 as [|w r Hw _ IH]; [constructor|].
  cbn [update_first flat_map].
  destruct (updateItem localId adoMetadata w) as [w'|].
  - cbn in Hw |- *. destruct Hw as (i & n & Hi & Hn & Hfirst & Hown).
    exists i, n. split; [apply lookup_app_l_Some; exact Hi|].
    split; [exact Hn|]. split.
    + intros j m Hj Hm. apply (Hfirst j m Hj).
      rewrite lookup_app_l in Hm; [exact Hm|].
      apply lookup_lt_Some in Hi. lia.
    + rewrite !fmap_app, Hown. symmetry. apply insert_app_l.
      rewrite length_fmap. eapply lookup_lt_Some, Hi.
  - cbn in Hw.
    destruct (update_first (updateItem localId adoMetadata) r) as [r'|].
    + cbn in IH |- *. destruct IH as (i & n & Hi & Hn & Hfirst & Hown).
      exists (length (subtree w) + i), n.
      split; [rewrite lookup_app_r by lia;
              replace (length (subtree w) + i - length (subtree w)) with i
                by lia; exact Hi|].
      split; [exact Hn|]. split.
      * intros j m Hj Hm.
        destruct (decide (j < length (subtree w))) as [Hlt | Hge].
        -- rewrite lookup_app_l in Hm by exact Hlt.
           rewrite Forall_forall in Hw. apply Hw.
           eapply list_elem_of_lookup_2, Hm.
        -- rewrite lookup_app_r in Hm by lia.
           apply (Hfirst (j - length (subtree w)) m); [lia | exact Hm].
      * rewrite !fmap_app, Hown.
        rewrite <- (length_fmap own (subtree w)).
        symmetry. apply insert_app_r.
    + cbn in IH |- *. apply Forall_app. split; assumption.
Qed.

Lemma updateItem_outcome (localId : string) (adoMetadata : PartialAdoMetadata)
  (w : WorkItem) :
  update_outcome localId adoMetadata (subtree w)
    (subtree <$> updateItem localId adoMetadata w).
Proof.
  induction w as [props ado children IH] using WorkItem_children_ind.
  rewrite updateItem_eq. cbn [wi_children wi_props wi_ado].
  set (w := mkWorkItem props ado children).
  destruct (has_id localId w) eqn:Eid.
  - cbn [fmap option_fmap option_map update_outcome].
    exists 0, w. rewrite !subtree_eq. cbn [wi_children w].
    split; [reflexivity|]. split; [exact Eid|].
    split; [intros j m Hj; lia | reflexivity].
  - pose proof (update_first_outcome localId adoMetadata children IH) as Hc.
    destruct children as [|c cs].
    + cbn [length Nat.ltb Nat.leb fmap option_fmap option_map update_outcome].
      rewrite subtree_eq. repeat constructor. exact Eid.
    + change (Nat.ltb 0 (length (c :: cs))) with true. cbv iota.
      destruct (update_first (updateItem localId adoMetadata) (c :: cs))
        as [cs'|]; cbn [fmap option_fmap option_map update_outcome] in Hc |- *.
      * destruct Hc as (i & n & Hi & Hn & Hfirst & Hown).
        exists (S i), n. rewrite !subtree_eq. cbn [wi_children w].
        split; [exact Hi|]. split; [exact Hn|]. split.
        -- intros j m Hj Hm. destruct j as [|j].
           ++ injection Hm as <-. exact Eid.
           ++ apply (Hfirst j m); [lia | exact Hm].
        -- rewrite !fmap_cons. cbn [insert list_insert]. f_equal. exact Hown.
      * rewrite (subtree_eq w). constructor; assumption.
Qed.

Lemma find_first_match {A} (t : A -> bool) (l : list A) (i : nat) (x : A) :
  l !! i = Some x -> t x = true ->
  (forall j m, j < i -> l !! j = Some m -> t m = false) ->
  List.find t l = Some x.
Proof.
  revert i. induction l as [|y l IH]; intros i Hi Hx Hfirst; [discriminate|].
  destruct i as [|i].
  - injection Hi as ->. cbn. rewrite Hx. reflexivity.
  - cbn [List.find]. rewrite (Hfirst 0 y) by (lia || reflexivity).
    apply (IH i); [exact Hi | exact Hx|].
    intros j m Hj Hm. apply (Hfirst (S j) m); [lia | exact Hm].
Qed.

(** X24.  [updateWorkItemAdoMetadata] changes the document in place:
    it returns [true] exactly when the document has a node with the
    id, and then the first such node, parent first (the one that
    [findItemById] returns), has received the metadata, merged over
    its [_ado] block or over the four [null] properties when it had
    none, while every other node holds what it held; afterwards
    [findItemById] returns the node with the merged block.  When no
    node has the id it returns [false] and the document is
    unchanged. *)
Theorem updateWorkItemAdoMetadata_first_match (doc : WorkItemsDocument)
  (localId : string) (adoMetadata : PartialAdoMetadata) :
  let found := (updateWorkItemAdoMetadata doc localId adoMetadata).1 in
  let doc' := (updateWorkItemAdoMetadata doc localId adoMetadata).2 in
  match findItemById doc localId with
  | None => found = false /\ doc' = doc
  | Some n =>
      found = true
      /\ own <$> findItemById doc' localId
         = Some (wi_props n, Some (merge_metadata (wi_ado n) adoMetadata))
      /\ document_ids doc' = document_ids doc
      /\ exists i,
           document_nodes doc !! i = Some n
           /\ own <$> document_nodes doc'
              = <[ i := (wi_props n,
                         Some (merge_metadata (wi_ado n) adoMetadata)) ]>
                  (own <$> document_nodes doc)
  end.
Proof.
  cbn zeta. unfold updateWorkItemAdoMetadata, findItemById.
  rewrite search_find.
  pose proof (update_first_outcome localId adoMetadata (workItems doc)) as H.
  rewrite <- document_nodes_subtrees in H.
  destruct (update_first (updateItem localId adoMetadata) (workItems doc))
    as [items|]; cbn [fst snd fmap option_fmap option_map] in *.
  - destruct H as (i & n & Hi & Hn & Hfirst & Hown).
    { apply Forall_forall. intros w _. apply updateItem_outcome. }
    rewrite (find_first_match _ _ i n Hi Hn Hfirst).
    set (doc' := {| schemaVersion := schemaVersion doc;
                    hierarchyType := hierarchyType doc;
                    project := project doc; workItems := items |}).
    assert (Hown' : own <$> document_nodes doc'
                    = <[ i := (wi_props n,
                               Some (merge_metadata (wi_ado n) adoMetadata)) ]>
                        (own <$> document_nodes doc)).
    { rewrite document_nodes_subtrees. exact Hown. }
    split; [reflexivity|]. split; [|split; [|exists i; split; assumption]].
    + rewrite search_find.
      assert (Hf : own <$> List.find (has_id localId) (document_nodes doc')
                   = List.find (fun o => String.eqb (wi_id o.1) localId)
                       (own <$> document_nodes doc')).
      { rewrite find_fmap. reflexivity. }
      rewrite Hf, Hown'.
      apply (find_first_match _ _ i).
      * apply list_lookup_insert_eq. rewrite length_fmap.
        eapply lookup_lt_Some, Hi.
      * exact Hn.
      * intros j m Hj Hm. rewrite list_lookup_insert_ne in Hm by lia.
        rewrite list_lookup_fmap in Hm.
        destruct (document_nodes doc !! j) as [x|] eqn:Ex; [|discriminate].
        injection Hm as <-. apply (Hfirst j x Hj Ex).
    + unfold document_ids.
      change (fun item : WorkItem => wi_id (wi_props item))
        with (fun item : WorkItem => wi_id (own item).1).
      rewrite !(list_fmap_compose own (fun o => wi_id o.1)), Hown'.
      rewrite list_fmap_insert. apply list_insert_id.
      rewrite !list_lookup_fmap, Hi. reflexivity.
  - assert (Hnone : Forall (fun m => has_id localId m = false)
                      (document_nodes doc)).
    { apply H. apply Forall_forall. intros w _. apply updateItem_outcome. }
    assert (E : List.find (has_id localId) (document_nodes doc) = None).
    { clear H. induction Hnone as [|x l Hx _ IH]; [reflexivity|].
      cbn [List.find]. rewrite Hx. exact IH. }
    rewrite E. split; reflexivity.
Qed.

(** ** Import: the hierarchy type, the local ids *)

Lemma collectTypes_loop_eq (children : list WorkItem) (types : list string) :
  (fix loop (children : list WorkItem) (types : list string) :=
     match children with
     | [] => types
     | child :: rest => loop rest (collectTypes child types)
     end) children types
  = fold_left (fun types child => collectTypes child types) children types.
Proof.
  revert types. induction children as [|c cs IH]; intros types; [reflexivity|].
  cbn [fold_left]. apply IH.
Qed.

Lemma collectTypes_eq (w : WorkItem) (types : list string) :
  collectTypes w types
  = fold_left (fun types child => collectTypes child types) (wi_children w)
      (wi_type (wi_props w) :: types).
Proof.
  destruct w as [props ado children]. cbn [wi_children wi_props].
  rewrite <- collectTypes_loop_eq. reflexivity.
Qed.

Lemma collectTypes_elem (w : WorkItem) :
  forall types x,
    x ∈ collectTypes w types
    <-> x ∈ types \/ exists n, n ∈ subtree w /\ wi_type (wi_props n) = x.
Proof.
  induction w as [props ado children IH] using WorkItem_children_ind.
  intros types x. rewrite collectTypes_eq, subtree_eq.
  cbn [wi_children wi_props].
  set (w := mkWorkItem props ado children).
  assert (Hfold : forall types,
            x ∈ fold_left (fun types child => collectTypes child types)
                  children types
            <-> x ∈ types
                \/ exists n, n ∈ flat_map subtree children
                             /\ wi_type (wi_props n) = x).
  { clear w. induction IH as [|c cs Hc _ IHcs]; intros ts; cbn [fold_left flat_map].
    - split; [auto|]. intros [H | (n & Hn & _)]; [exact H | inversion Hn].
    - rewrite IHcs, Hc. split.
      + intros [[H | (n & Hn & E)] | (n & Hn & E)]; auto.
        * right. exists n. split; [apply elem_of_app; left; exact Hn | exact E].
        * right. exists n. split; [apply elem_of_app; right; exact Hn | exact E].
      + intros [H | (n & Hn & E)]; [auto|].
        apply elem_of_app in Hn. destruct Hn as [Hn | Hn]; eauto 6. }
  rewrite Hfold, elem_of_cons. split.
  - intros [[-> | H] | (n & Hn & E)]; auto.
    + right. exists w. split; [left | reflexivity].
    + right. exists n. split; [right; exact Hn | exact E].
  - intros [H | (n & Hn & E)]; [auto|].
    apply elem_of_cons in Hn. destruct Hn as [-> | Hn].
    + left. left. symmetry. exact E.
    + right. eauto.
Qed.

Lemma has_type_spec (root : WorkItem) (type : string) :
  existsb (String.eqb type) (collectTypes root []) = true
  <-> has_type root type.
Proof.
  rewrite existsb_exists. unfold has_type. split.
  - intros (x & Hx & E). apply String.eqb_eq in E. subst x.
    apply list_elem_of_In, collectTypes_elem in Hx.
    destruct Hx as [Hx | Hx]; [inversion Hx | exact Hx].
  - intros H. exists type. split; [|apply String.eqb_refl].
    apply list_elem_of_In, collectTypes_elem. right. exact H.
Qed.

Lemma detectHierarchyType_cases (root : WorkItem) :
  match detectHierarchyType root with
  | full => has_type root "Epic" /\ has_type root "Feature" /\ has_backlog root
  | medium =>
      ~ has_type root "Epic" /\ has_type root "Feature" /\ has_backlog root
  | simple => ~ (has_type root "Feature" /\ has_backlog root)
  end.
Proof.
  unfold detectHierarchyType, has_backlog. cbv zeta.
  pose proof (has_type_spec root "Epic") as He.
  pose proof (has_type_spec root "Feature") as Hf.
  pose proof (has_type_spec root "Product Backlog Item") as Hp.
  pose proof (has_type_spec root "User Story") as Hu.
  destruct (existsb (String.eqb "Epic") _);
    destruct (existsb (String.eqb "Feature") _);
    destruct (existsb (String.eqb "Product Backlog Item") _);
    destruct (existsb (String.eqb "User Story") _);
    cbn [andb orb]; intuition discriminate.
Qed.

(** X25.  The document that [importFromAdo] builds has the fetched
    tree as its only root and the hierarchy type that
    [detectHierarchyType] reads off the types in the tree: [full] when
    it has an Epic, a Feature and a backlog item or user story,
    [medium] when it has no Epic but a Feature and a backlog item or
    story, [simple] otherwise.  Such a document passes
    [validateHierarchyTypes] only if its root is an Epic in the first
    case, a Feature in the second, and a backlog item, a user story or
    a bug in the third: the import of an Epic or of a Feature that has
    no backlog item below it, or of a Task, gives a document with a
    validation error. *)
Theorem imported_hierarchy_type {W} (client : AdoClient W) (parentId : Z)
  (config : ResolvedConfig) (options : ImportOptions) (w w' : W)
  (doc : WorkItemsDocument) (results : list ImportResult) :
  importFromAdo client parentId config options w = (Ok (doc, results), w') ->
  exists root,
    workItems doc = [root]
    /\ hierarchyType doc = detectHierarchyType root
    /\ match hierarchyType doc with
       | full =>
           has_type root "Epic" /\ has_type root "Feature"
           /\ has_backlog root
       | medium =>
           ~ has_type root "Epic" /\ has_type root "Feature"
           /\ has_backlog root
       | simple => ~ (has_type root "Feature" /\ has_backlog root)
       end
    /\ (f_errors (validateHierarchyTypes doc [] []) = [] ->
        In (wi_type (wi_props root)) (validRootTypes (hierarchyType doc)))
    /\ (In (wi_type (wi_props root)) ["Epic"; "Feature"; "Task"] ->
        ~ has_backlog root ->
        f_errors (validateHierarchyTypes doc [] []) <> []).
Proof.
  intros E. unfold importFromAdo in E.
  destruct (fetchWorkItemTree _ client parentId config _ _)
    as [[[tree|] s']|]; try discriminate.
  injection E as <- <- <-. exists tree. cbn [workItems hierarchyType].
  split; [reflexivity|]. split; [reflexivity|].
  pose proof (detectHierarchyType_cases tree) as Hc.
  split; [exact Hc|].
  set (doc := {| schemaVersion := "1.0";
                 hierarchyType := detectHierarchyType tree;
                 project := _; workItems := [tree] |}).
  assert (Hroot : f_errors (validateHierarchyTypes doc [] []) = [] ->
            In (wi_type (wi_props tree))
               (validRootTypes (detectHierarchyType tree))).
  { intros Hnil. unfold validateHierarchyTypes in Hnil.
    destruct (checkHierarchy_children (hierarchyType doc)
                (validRootTypes (hierarchyType doc)) (workItems doc))
      with (path := "workItems") (i := 0)
           (st := {| f_errors := []; f_warnings := [] |})
      as (new & En & Hfit).
    { apply Forall_forall. intros x _. apply checkHierarchy_fits. }
    rewrite En in Hnil. cbn [f_errors app] in Hnil. apply Hfit in Hnil.
    cbn [workItems doc forallb hierarchyType] in Hnil.
    rewrite andb_true_r, fits_eq, andb_true_iff in Hnil.
    apply includes_In. tauto. }
  split; [exact Hroot|].
  intros Hty Hnb Hnil. specialize (Hroot Hnil).
  destruct (detectHierarchyType tree); cbn [validRootTypes] in Hroot.
  - tauto.
  - tauto.
  - simpl in Hty, Hroot.
    destruct Hty as [Hty | [Hty | [Hty | []]]]; rewrite <- Hty in Hroot;
      destruct Hroot as [Hr | [Hr | [Hr | []]]]; discriminate Hr.
Qed.

Lemma imported_hierarchy_type_witness :
  let options :=
    {| io_includeComments := None; io_includePRs := None;
       io_maxDepth := Some 0%Z; io_filterTag := None;
       io_filterType := None |} in
  exists doc results w',
    importFromAdo Demo.client 1 Demo.config options Demo.service_with_tree
    = (Ok (doc, results), w')
    /\ hierarchyType doc = simple
    /\ f_errors (validateHierarchyTypes doc [] []) <> [].
Proof.
  cbn zeta.
  assert (E : exists doc results w',
            importFromAdo Demo.client 1 Demo.config
              {| io_includeComments := None; io_includePRs := None;
                 io_maxDepth := Some 0%Z; io_filterTag := None;
                 io_filterType := None |} Demo.service_with_tree
            = (Ok (doc, results), w')
            /\ hierarchyType doc = simple
            /\ map (fun n => wi_type (wi_props n)) (workItems doc)
               = ["Feature"]
            /\ document_ids doc = ["feat-1"])
    by (eexists _, _, _; vm_compute; repeat split; reflexivity).
  destruct E as (doc & results & w' & E & Hh & Hty & Hids).
  exists doc, results, w'. split; [exact E|]. split; [exact Hh|].
  destruct (imported_hierarchy_type Demo.client 1 Demo.config _
              Demo.service_with_tree w' doc results E)
    as (root & Hroot & _ & _ & _ & Herr).
  rewrite Hroot in Hty. injection Hty as Hty.
  apply Herr.
  - rewrite Hty. simpl. tauto.
  - unfold document_ids in Hids. rewrite document_nodes_subtrees, Hroot in Hids.
    cbn [flat_map] in Hids. rewrite app_nil_r in Hids.
    assert (Hone : subtree root = [root]).
    { rewrite subtree_eq in Hids |- *. cbn [fmap list_fmap] in Hids.
      injection Hids as _ Hnil. apply fmap_nil_inv in Hnil.
      rewrite Hnil. reflexivity. }
    intros [(n & Hn & Hn') | (n & Hn & Hn')]; rewrite Hone in Hn;
      apply list_elem_of_singleton in Hn; subst n; congruence.
Defined.

Lemma generateLocalId_parts (type : string) (adoId : Z) :
  (0 <= adoId)%Z ->
  take_digits (String.rev (generateLocalId type adoId))
  = (String.rev (Js.toString adoId),
     String "-" (String.rev (getTypePrefix type))).
Proof.
  intros H. destruct (toString_nonneg adoId H) as (ds & E & _ & Hall & _).
  unfold generateLocalId. rewrite E, !rev_append, append_assoc.
  apply take_digits_append; [rewrite all_digits_rev; exact Hall|].
  reflexivity.
Qed.

Lemma rev_inj (s t : string) : String.rev s = String.rev t -> s = t.
Proof.
  intros E. rewrite <- (rev_involutive s), E. apply rev_involutive.
Qed.

Lemma generateLocalId_inj (t1 t2 : string) (a b : Z) :
  (0 <= a)%Z -> (0 <= b)%Z ->
  generateLocalId t1 a = generateLocalId t2 b ->
  a = b /\ getTypePrefix t1 = getTypePrefix t2.
Proof.
  intros Ha Hb E.
  pose proof (generateLocalId_parts t1 a Ha) as E1.
  pose proof (generateLocalId_parts t2 b Hb) as E2.
  rewrite E, E2 in E1. injection E1 as Ed Ep.
  apply rev_inj in Ed. apply rev_inj in Ep. split; [|congruence].
  assert (Some a = Some b) as [= ->]; [|reflexivity].
  rewrite <- (parseInt_toString a), <- (parseInt_toString b), Ed.
  reflexivity.
Qed.

(** X26.  The local id that the import generates determines the work
    item: for ids that are not negative, two generated local ids are
    equal only for the same work item id (and the same prefix).  So a
    document whose nodes are as the import builds them, from work items
    with pairwise distinct, non-negative ids, has pairwise distinct
    local ids, and [validateUniqueIds] reports nothing on it. *)
Theorem generated_ids_are_distinct :
  (forall t1 t2 a b,
     (0 <= a)%Z -> (0 <= b)%Z ->
     generateLocalId t1 a = generateLocalId t2 b ->
     a = b /\ getTypePrefix t1 = getTypePrefix t2)
  /\ (forall doc,
        Forall imported_node (document_nodes doc) ->
        Forall (fun n => forall adoId,
                  wi_ado n ≫= md_workItemId = Some adoId -> (0 <= adoId)%Z)
          (document_nodes doc) ->
        NoDup ((fun n => wi_ado n ≫= md_workItemId) <$> document_nodes doc) ->
        NoDup (document_ids doc) /\ validateUniqueIds doc [] = []).
Proof.
  split; [exact generateLocalId_inj|].
  intros doc Himp Hpos Hnd.
  assert (H : NoDup (document_ids doc)).
  { unfold document_ids. revert Himp Hpos Hnd.
    generalize (document_nodes doc). intros nodes.
    induction nodes as [|n nodes IH]; intros Himp Hpos Hnd; [constructor|].
    rewrite !fmap_cons in *. apply NoDup_cons in Hnd.
    destruct Hnd as [Hn Hnd].
    apply Forall_cons in Himp. destruct Himp as [(a & Ha & Hida) Himp].
    apply Forall_cons in Hpos. destruct Hpos as [Hpa Hpos].
    apply NoDup_cons. split; [|apply IH; assumption].
    intros Hin. apply list_elem_of_fmap in Hin.
    destruct Hin as (m & Em & Hm). apply Hn.
    apply list_elem_of_fmap. exists m. split; [|exact Hm].
    rewrite Forall_forall in Himp, Hpos.
    destruct (Himp m Hm) as (b & Hb & Hidb).
    rewrite Hida, Hidb in Em.
    apply generateLocalId_inj in Em; [|apply Hpa; exact Ha
                                      |apply (Hpos m Hm); exact Hb].
    destruct Em as [-> _]. congruence. }
  split; [exact H|]. apply validateUniqueIds_NoDup. exact H.
Qed.

Lemma generated_ids_are_distinct_witness :
  let doc :=
    Demo.document
      [ mkWorkItem (Demo.props "Product Backlog Item" "pbi-2" "Cart page")
          (Some (Demo.linked 2 1))
          [ mkWorkItem (Demo.props "Task" "task-4" "Write tests")
              (Some (Demo.linked 4 1)) [] ] ] in
  (generateLocalId "Task" 4 = "task-4"
   /\ (4 = 4)%Z /\ getTypePrefix "Task" = getTypePrefix "Task")
  /\ NoDup (document_ids doc) /\ validateUniqueIds doc [] = [].
Proof.
  cbn zeta. split.
  - split; [reflexivity|].
    apply (proj1 generated_ids_are_distinct "Task" "Task" 4%Z 4%Z);
      [lia | lia | reflexivity].
  - apply (proj2 generated_ids_are_distinct).
    + repeat constructor.
      * exists 2%Z. split; reflexivity.
      * exists 4%Z. split; reflexivity.
    + repeat constructor; intros adoId [= <-]; lia.
    + apply (bool_decide_unpack
               (NoDup [Some 2%Z; Some 4%Z])). vm_compute. exact I.
Defined.

(** ** Closed instances *)

Lemma find_item_is_first_in_preorder_witness :
  findItemById Sample.doc "pbi-9" = None
  /\ ("pbi-9" ∉ document_ids Sample.doc)
  /\ findItemByAdoId Sample.doc 2 = Some Sample.pbi1.
Proof.
  assert (H : findItemById Sample.doc "pbi-9" = None) by reflexivity.
  split; [exact H|]. split; [|reflexivity].
  apply (proj1 (proj1 (proj2 (proj2
           (find_item_is_first_in_preorder Sample.doc))) "pbi-9")).
  exact H.
Defined.

Lemma diffDocument_covers_document_witness :
  let adoItems : gmap Z AdoWorkItemResponse :=
    {[ 2%Z := Demo.remote 2 1 "Cart page" ]} in
  wd_status <$> diffDocument Sample.doc adoItems
  = [SNew; SModified; SNew; SNew]
  /\ wd_localId <$> diffDocument Sample.doc adoItems
     = document_ids Sample.doc.
Proof.
  cbn zeta. split; [reflexivity|].
  apply (proj1 (diffDocument_covers_document Sample.doc
                  {[ 2%Z := Demo.remote 2 1 "Cart page" ]})).
Defined.

(** ** Diff engine: a field left unset *)

Lemma field_changes_field (item : WorkItem) (ado : AdoWorkItemResponse)
  (f : FieldName) :
  f ∈ fc_field <$> field_changes item ado
  <-> isEqual (local_field (wi_props item) f) (getAdoFieldValue ado f) = false.
Proof.
  unfold field_changes. rewrite list_elem_of_fmap. split.
  - intros (c & -> & Hc). apply list_elem_of_In, in_flat_map in Hc.
    destruct Hc as (g & _ & Hg). cbv zeta in Hg.
    destruct (isEqual (local_field (wi_props item) g) (getAdoFieldValue ado g))
      eqn:E; [destruct Hg|].
    destruct Hg as [<- | []]. exact E.
  - intros E.
    exists {| fc_field := f;
              fc_localValue := local_field (wi_props item) f;
              fc_adoValue := getAdoFieldValue ado f |}.
    split; [reflexivity|].
    apply list_elem_of_In, in_flat_map. exists f.
    split; [apply all_fields_compared|].
    cbv zeta. rewrite E. left. reflexivity.
Qed.

(** X10.  A field that the local item leaves unset is compared as
    [undefined]: it is listed among the changes exactly when the remote
    record carries a value for it, and the patch document of an update
    has no operation on it, so the update does not remove the
    difference.  Against a record that carries the field (the
    interface [AdoWorkItemFields] declares a state, an area path and an
    iteration path for every work item) the item is therefore never
    [unchanged]: its diff is [modified] or [conflict],
    [hasLocalChanges] holds, and a push that fetched the record never
    skips the item for lack of changes, it updates it or reports a
    conflict.  Against a record without the field, the field is no
    change. *)
Theorem unset_field_is_always_a_change {W} (client : AdoClient W)
  (item : WorkItem) (ado : AdoWorkItemResponse) (f : FieldName) :
  local_field (wi_props item) f = Js.VUndefined ->
  (f ∈ fc_field <$> field_changes item ado
   <-> Js.nullish (getAdoFieldValue ado f) = false)
  /\ (forall expectedRev,
        "/fields/" +:+ FIELD_MAP f
        ∉ path <$> updatePatchDocument (wi_props item) expectedRev)
  /\ (Js.nullish (getAdoFieldValue ado f) = false ->
      (wd_status (diffWorkItem item (Some ado)) = SModified
       \/ wd_status (diffWorkItem item (Some ado)) = SConflict)
      /\ hasLocalChanges item ado = true
      /\ (forall options adoId w w',
            recorded_id item = Some adoId ->
            createOnly options = false ->
            getWorkItem client (Some adoId) (Some ExRelations) w
            = (Ok ado, w') ->
            action (determineSyncAction client item options w).1 = AUpdate
            \/ action (determineSyncAction client item options w).1
               = AConflict)).
Proof.
  intros Hu.
  assert (Hiff : f ∈ fc_field <$> field_changes item ado
                 <-> Js.nullish (getAdoFieldValue ado f) = false).
  { rewrite field_changes_field. unfold isEqual. rewrite Hu. reflexivity. }
  split; [exact Hiff|]. split.
  - intros expectedRev Hin.
    assert (Hb : "/fields/" +:+ FIELD_MAP f
                 ∈ path <$> buildPatchDocument (wi_props item)).
    { unfold updatePatchDocument in Hin. destruct expectedRev; [|exact Hin].
      rewrite fmap_cons in Hin. apply elem_of_cons in Hin.
      destruct Hin as [Hin | Hin]; [discriminate Hin | exact Hin]. }
    rewrite buildPatchDocument_filter, <- list_fmap_compose in Hb.
    apply list_elem_of_fmap in Hb. destruct Hb as (g & Eg & Hg).
    cbn in Eg. apply (String.app_inj "/fields/"), FIELD_MAP_inj in Eg.
    subst g. apply list_elem_of_In, filter_In in Hg. destruct Hg as [_ Hg].
    rewrite Hu in Hg. discriminate Hg.
  - intros Hr.
    assert (Hc : field_changes item ado <> []).
    { intros E. apply Hiff in Hr. rewrite E in Hr. inversion Hr. }
    assert (Hl : hasLocalChanges item ado = true).
    { apply hasLocalChanges_spec. exact Hc. }
    split; [|split; [exact Hl|]].
    + unfold diffWorkItem. cbn [wd_status].
      rewrite (proj2 (length_pos_not_nil _) Hc).
      destruct (newer_revision item ado); [right | left]; reflexivity.
    + intros options adoId w w' Hid Hco Hget. unfold determineSyncAction.
      rewrite Hid, Hco, Hget, Hl.
      destruct (negb (force options) && newer_revision item ado);
        [right | left]; reflexivity.
Qed.

Lemma unset_field_is_always_a_change_witness :
  local_field (wi_props Demo.edited_item) state = Js.VUndefined
  /\ Js.nullish (getAdoFieldValue (Demo.remote 123 1 "New title") state)
     = false
  /\ (wd_status (diffWorkItem Demo.edited_item
                   (Some (Demo.remote 123 1 "New title"))) = SModified
      \/ wd_status (diffWorkItem Demo.edited_item
                      (Some (Demo.remote 123 1 "New title"))) = SConflict)
  /\ (action (determineSyncAction Demo.client Demo.edited_item Demo.push_all
                {| Demo.stored := [Demo.remote 123 1 "New title"];
                   Demo.log := [] |}).1 = AUpdate
      \/ action (determineSyncAction Demo.client Demo.edited_item
                   Demo.push_all
                   {| Demo.stored := [Demo.remote 123 1 "New title"];
                      Demo.log := [] |}).1 = AConflict).
Proof.
  split; [reflexivity|]. split; [reflexivity|].
  destruct (unset_field_is_always_a_change Demo.client Demo.edited_item
              (Demo.remote 123 1 "New title") state eq_refl)
    as (_ & _ & H3).
  destruct (H3 eq_refl) as (H1 & _ & H4).
  split; [exact H1|].
  eapply (H4 Demo.push_all 123%Z); reflexivity.
Defined.

(** ** Import: what is imported from a stable remote service *)

Lemma remote_tree_eq (remote : Z -> option AdoWorkItemResponse)
  (props_of : AdoWorkItemResponse -> WorkItemProps) (depth : nat) (id : Z) :
  remote_tree remote props_of depth id
  = match remote id with
    | None => None
    | Some r =>
        Some (mkWorkItem (props_of r) None
                (remote_children remote props_of depth (getChildIds r)))
    end.
Proof. destruct depth; reflexivity. Qed.

Lemma bare_eq (item : WorkItem) :
  bare item = mkWorkItem (wi_props item) None (bare <$> wi_children item).
Proof. destruct item; reflexivity. Qed.

Lemma shouldIncludeItem_bare (item : WorkItem) (t ty : option string) :
  shouldIncludeItem (bare item) t ty = shouldIncludeItem item t ty.
Proof. destruct item; reflexivity. Qed.

Lemma transformAdoToYaml_world {W} (client : AdoClient W)
  (adoItem : AdoWorkItemResponse) (config : ResolvedConfig) (w w0 : W) :
  (transformAdoToYaml client adoItem config w).2
  = (toISOString_now client w).2
  /\ wi_props (transformAdoToYaml client adoItem config w).1
     = imported_props client config w0 adoItem
  /\ wi_children (transformAdoToYaml client adoItem config w).1 = [].
Proof.
  unfold imported_props, transformAdoToYaml, extractAdoMetadata.
  destruct (toISOString_now client w) as [t w'].
  destruct (toISOString_now client w0) as [t0 w0'].
  repeat split; reflexivity.
Qed.

Lemma enrich_world {W} (client : AdoClient W) (stable : W -> Prop)
  (remote : Z -> option AdoWorkItemResponse) (context : ImportContext)
  (id : Z) (adoItem : AdoWorkItemResponse) (workItem : WorkItem) (w : W) :
  read_only client stable remote -> stable w ->
  stable (enrich client context id adoItem workItem w).2.
Proof.
  intros Hro Hw. unfold enrich.
  assert (H1 : forall x,
             stable (if ctx_includeComments context then
                       match getAllComments client id w with
                       | (Ok comments, w1) =>
                           (if Nat.ltb 0 (length comments)
                            then set_ado x (with_comments comments) else x,
                            w1)
                       | (Throw _, w1) => (x, w1)
                       end
                     else (x, w)).2).
  { intros x. destruct (ctx_includeComments context); [|exact Hw].
    pose proof (ro_comments _ _ _ Hro id w Hw) as Hc.
    destruct (getAllComments client id w) as [[comments | e] w1]; exact Hc. }
  specialize (H1 workItem).
  destruct (if ctx_includeComments context then _ else _) as [x1 w1].
  cbn [snd] in H1.
  destruct (ctx_includePRs context); [|exact H1].
  pose proof (ro_pull_requests _ _ _ Hro adoItem w1 H1) as Hp.
  destruct (getLinkedPullRequests client adoItem w1) as [[prs | e] w2];
    exact Hp.
Qed.

Lemma omap_none {A B} (l : list A) : omap (fun _ : A => @None B) l = [].
Proof. induction l as [|x l IH]; [reflexivity | exact IH]. Qed.

Lemma filter_fmap_bare (t ty : option string) (l : list WorkItem) :
  bare <$> List.filter (fun c => shouldIncludeItem c t ty) l
  = List.filter (fun c => shouldIncludeItem c t ty) (bare <$> l).
Proof.
  induction l as [|c l IH]; [reflexivity|].
  cbn [List.filter fmap list_fmap]. rewrite shouldIncludeItem_bare.
  destruct (shouldIncludeItem c t ty); cbn [fmap list_fmap]; rewrite <- IH;
    reflexivity.
Qed.

(** The loop over the child ids, when each child is fetched as [G]
    says: the children kept are those [G] gives, filtered when the
    filter applies. *)
Lemma fetch_children_stable {W} (stable : W -> Prop)
  (f : Z -> ImportState W -> option (option WorkItem * ImportState W))
  (b : bool) (t ty : option string) (G : Z -> option WorkItem) :
  (forall cid s, stable (is_world s) ->
     exists t' s', f cid s = Some (t', s') /\ stable (is_world s')
                   /\ bare <$> t' = G cid) ->
  forall ids acc s,
    stable (is_world s) ->
    exists children s',
      fetch_children f b t ty ids acc s = Some (children, s')
      /\ stable (is_world s')
      /\ bare <$> children
         = (bare <$> acc)
           ++ (if b then List.filter (fun c => shouldIncludeItem c t ty)
               else fun l => l) (omap G ids).
Proof.
  intros Hf. induction ids as [|cid ids IH]; intros acc s Hs.
  - exists acc, s. cbn [fetch_children omap list_omap].
    split; [reflexivity|]. split; [exact Hs|].
    destruct b; cbn; rewrite app_nil_r; reflexivity.
  - cbn [fetch_children omap list_omap].
    destruct (Hf cid s Hs) as (t' & s1 & E & Hs1 & Hg). rewrite E.
    destruct t' as [child|]; cbn in Hg; rewrite <- Hg.
    + assert (Hkeep : exists children s',
                 fetch_children f b t ty ids (acc ++ [child]) s1
                 = Some (children, s')
                 /\ stable (is_world s')
                 /\ bare <$> children
                    = (bare <$> acc)
                      ++ bare child
                         :: (if b
                             then List.filter
                                    (fun c => shouldIncludeItem c t ty)
                             else fun l => l) (omap G ids)).
      { destruct (IH (acc ++ [child]) s1 Hs1) as (children & s' & E' & Hs' & Hc).
        exists children, s'. split; [exact E'|]. split; [exact Hs'|].
        rewrite Hc, fmap_app, <- app_assoc. reflexivity. }
      destruct b.
      * cbn [List.filter]. rewrite shouldIncludeItem_bare.
        destruct (shouldIncludeItem child t ty); [exact Hkeep|].
        apply IH. exact Hs1.
      * exact Hkeep.
    + apply IH. exact Hs1.
Qed.

(** With a stable remote service [fetchWorkItemTree] returns the
    remote hierarchy below the item, down to the depth ceiling; the
    direct children are filtered when the filter applies to the call,
    which is the case of the root only. *)
Lemma fetch_stable {W} (client : AdoClient W) (stable : W -> Prop)
  (remote : Z -> option AdoWorkItemResponse) (config : ResolvedConfig)
  (w0 : W) :
  read_only client stable remote ->
  forall (fuel : nat) (id : Z) (context : ImportContext) (s : ImportState W),
    stable (is_world s) -> depth_budget context <= fuel ->
    exists t s',
      fetchWorkItemTree fuel client id config context s = Some (t, s')
      /\ stable (is_world s')
      /\ bare <$> t
         = if (maxDepth context <? currentDepth context)%Z then None
           else
             match remote id with
             | None => None
             | Some r =>
                 Some (mkWorkItem (imported_props client config w0 r) None
                         ((if shouldApplyFilter context
                           then List.filter
                                  (fun c => shouldIncludeItem c
                                              (filterTag context)
                                              (filterType context))
                           else fun l => l)
                            (remote_children remote
                               (imported_props client config w0)
                               (Z.to_nat (maxDepth context
                                          - currentDepth context))
                               (getChildIds r))))
             end.
Proof.
  intros Hro. induction fuel as [|fuel IH]; intros id context s Hs Hb;
    cbn [fetchWorkItemTree];
    destruct (Z.ltb_spec (maxDepth context) (currentDepth context))
      as [Hlt | Hge];
    try (exists None, s; split; [reflexivity|]; split; [exact Hs|reflexivity]).
  - unfold depth_budget in Hb. lia.
  - destruct (ro_item _ _ _ Hro id (is_world s) Hs) as [Hw1 Hr].
    destruct (getWorkItem client (Some id) (Some ExRelations) (is_world s))
      as [[adoItem | e] w1]; cbn [fst snd] in *.
    + destruct (remote id) as [r|]; [|destruct Hr as [e He]; discriminate].
      injection Hr as ->.
      destruct (transformAdoToYaml_world client r config w1 w0)
        as (Ew & Ep & Ec).
      pose proof (ro_clock _ _ _ Hro w1 Hw1) as Hw2. rewrite <- Ew in Hw2.
      destruct (transformAdoToYaml client r config w1) as [workItem w2].
      cbn [fst snd] in *.
      pose proof (enrich_world client stable remote context id r workItem w2
                    Hro Hw2) as Hw3.
      pose proof (enrich_keeps client context id r workItem w2) as [Ek _].
      destruct (enrich client context id r workItem w2) as [workItem' w3].
      cbn [fst snd] in *.
      set (s3 := {| is_world := w3; is_results := _ |}).
      set (context' := descend context
                         (if shouldApplyFilter context then Some true
                          else filterDisabled context)).
      set (G := fun cid : Z =>
                  if (maxDepth context <? currentDepth context + 1)%Z
                  then None
                  else remote_tree remote (imported_props client config w0)
                         (Z.to_nat (maxDepth context
                                    - (currentDepth context + 1))) cid).
      destruct (fetch_children_stable stable
                  (fun childId s =>
                     fetchWorkItemTree fuel client childId config context' s)
                  (shouldApplyFilter context) (filterTag context)
                  (filterType context) G) with (ids := getChildIds r)
        (acc := @nil WorkItem) (s := s3)
        as (children & s4 & E & Hs4 & Hc).
      { intros cid s' Hs'.
        destruct (IH cid context' s' Hs') as (t' & s'' & E' & Hs'' & Ht').
        { unfold depth_budget, context', descend in *. cbn. lia. }
        exists t', s''. split; [exact E'|]. split; [exact Hs''|].
        rewrite Ht'. unfold G, context', descend, shouldApplyFilter.
        cbn [maxDepth currentDepth isRoot filterDisabled filterTag filterType
             truthy_flag default].
        rewrite andb_false_r.
        destruct (maxDepth context <? currentDepth context + 1)%Z;
          [reflexivity|].
        rewrite remote_tree_eq. reflexivity. }
      { exact Hw3. }
      rewrite E.
      exists (Some (mkWorkItem (wi_props workItem') (wi_ado workItem')
                      children)), s4.
      split; [reflexivity|]. split; [exact Hs4|].
      cbn [fmap option_fmap option_map]. rewrite bare_eq.
      cbn [wi_props wi_children]. rewrite Hc, Ek, Ep. cbn [fmap list_fmap app].
      f_equal. f_equal. f_equal.
      unfold G, remote_children.
      destruct (Z.ltb_spec (maxDepth context) (currentDepth context + 1))
        as [Hl | Hg].
      * rewrite omap_none.
        replace (Z.to_nat (maxDepth context - currentDepth context)) with 0
          by lia.
        reflexivity.
      * replace (Z.to_nat (maxDepth context - currentDepth context))
          with (S (Z.to_nat (maxDepth context - (currentDepth context + 1))))
          by lia.
        reflexivity.
    + destruct (remote id) as [r|]; [discriminate|].
      eexists None, _. split; [reflexivity|]. split; [exact Hw1|reflexivity].
Qed.

Lemma Backlog_read_only :
  read_only Demo.client Backlog.stable Backlog.remote.
Proof.
  unfold Backlog.stable. split.
  - intros id w ->. split.
    + unfold getWorkItem. cbn [get_item Demo.client]. unfold Demo.get.
      destruct (Demo.id_of_path _ ≫= _); reflexivity.
    + unfold Backlog.remote.
      destruct (getWorkItem Demo.client (Some id) (Some ExRelations)
                  Backlog.service) as [[r | e] w']; cbn; eauto.
  - intros id w ->. reflexivity.
  - intros r w ->. reflexivity.
  - intros w ->. reflexivity.
Qed.

(** C8.  The import from a remote service that answers its reads in
    the same way throughout, with a depth ceiling that is not negative.
    When the root work item cannot be read the import throws.
    Otherwise it returns one tree, which is, [_ado] blocks apart: the
    root, whatever the filter says of it, and below it the remote
    hierarchies of those direct children of the root that pass
    [shouldIncludeItem].  A direct child that fails the predicate is
    left out with its whole subtree; a direct child that passes comes
    with its complete remote hierarchy down to the depth ceiling, in
    which no descendant has been tested against the filter.  This is
    also what the code does for any service, stable or not: the
    filtered import is the unfiltered one in which the direct children
    of the root that fail the predicate have been removed, with the
    same requests and the same result log; and the depth ceiling bounds
    the recursion, so the import returns. *)
Theorem import_filters_direct_children_only {W} (client : AdoClient W)
  (config : ResolvedConfig) (id : Z) :
  (forall (stable : W -> Prop) (remote : Z -> option AdoWorkItemResponse)
          (options : ImportOptions) (w : W),
      read_only client stable remote -> stable w ->
      (0 <= default 10 (io_maxDepth options))%Z ->
      match remote id with
      | None =>
          exists w',
            importFromAdo client id config options w
            = (Throw ("Could not fetch work item " +:+ Js.toString id), w')
      | Some root =>
          exists doc results w',
            importFromAdo client id config options w
            = (Ok (doc, results), w')
            /\ bare <$> workItems doc
               = [ mkWorkItem (imported_props client config w root) None
                     (List.filter
                        (fun child =>
                           shouldIncludeItem child (io_filterTag options)
                             (io_filterType options))
                        (remote_children remote
                           (imported_props client config w)
                           (Z.to_nat (default 10%Z (io_maxDepth options)))
                           (getChildIds root))) ]
      end)
  /\ (forall options (w : W),
        importFromAdo client id config options w
        = match importFromAdo client id config (unfiltered options) w with
          | (Ok (doc, results), w') =>
              let roots :=
                map (prune (io_filterTag options) (io_filterType options))
                    (workItems doc) in
              (Ok ({| schemaVersion := schemaVersion doc;
                      hierarchyType :=
                        match roots with
                        | tree :: _ => detectHierarchyType tree
                        | [] => hierarchyType doc
                        end;
                      project := project doc;
                      workItems := roots |}, results), w')
          | (Throw e, w') => (Throw e, w')
          end)
  /\ (forall context (s : ImportState W),
        fetchWorkItemTree (depth_budget context) client id config context s
        <> None).
Proof.
  split; [|split].
  - intros stable remote options w Hro Hw HD. unfold importFromAdo.
    destruct (fetch_stable client stable remote config w Hro
                (depth_budget (root_context options)) id
                (root_context options) {| is_world := w; is_results := [] |}
                Hw (le_n _)) as (t & s' & E & _ & Ht).
    rewrite E.
    change (maxDepth (root_context options))
      with (default 10%Z (io_maxDepth options)) in Ht.
    change (currentDepth (root_context options)) with 0%Z in Ht.
    destruct (Z.ltb_spec (default 10%Z (io_maxDepth options)) 0) as [H|_];
      [lia|].
    destruct (remote id) as [root|].
    + destruct t as [tree|]; [|discriminate].
      eexists _, _, _. split; [reflexivity|].
      cbn [workItems fmap list_fmap]. cbn in Ht. injection Ht as ->.
      f_equal. f_equal. rewrite Z.sub_0_r.
      change (filterTag (root_context options)) with (io_filterTag options).
      change (filterType (root_context options)) with (io_filterType options).
      assert (Ha : shouldApplyFilter (root_context options)
                   = hasFilters (root_context options)).
      { unfold shouldApplyFilter. cbn. rewrite !andb_true_r. reflexivity. }
      rewrite Ha. destruct (hasFilters (root_context options)) eqn:Eh;
        [reflexivity|].
      symmetry.
      apply (shouldIncludeItem_no_filter (root_context options)). exact Eh.
    + destruct t as [tree|]; [discriminate|].
      eexists. reflexivity.
  - intros options w. unfold importFromAdo.
    change (root_context (unfiltered options))
      with (without_filters (root_context options)).
    change (depth_budget (without_filters (root_context options)))
      with (depth_budget (root_context options)).
    rewrite (fetch_at_root client config _ id (root_context options))
      by reflexivity.
    destruct (fetchWorkItemTree _ client id config
                (without_filters (root_context options)) _)
      as [[[tree|] s']|]; reflexivity.
  - intros; apply fetch_total; lia.
Qed.

Lemma import_filters_direct_children_only_witness :
  exists doc results w',
    importFromAdo Demo.client 1 Demo.config Backlog.frontend_only
      Backlog.service
    = (Ok (doc, results), w')
    /\ bare <$> workItems doc
       = [ mkWorkItem
             (imported_props Demo.client Demo.config Backlog.service
                (Demo.node 1 "Feature" "Checkout" None [2; 3]%Z)) None
             (List.filter
                (fun child => shouldIncludeItem child (Some "Frontend") None)
                (remote_children Backlog.remote
                   (imported_props Demo.client Demo.config Backlog.service)
                   10 [2; 3]%Z)) ].
Proof.
  exact (proj1 (import_filters_direct_children_only Demo.client Demo.config 1)
           Backlog.stable Backlog.remote Backlog.frontend_only
           Backlog.service Backlog_read_only eq_refl
           ltac:(discriminate)).
Defined.

(** The import of the witness.  The feature comes with the backlog item
    tagged [frontend] and with the task of that item, which does not
    carry the tag; the other backlog item is left out together with its
    task, which does carry it.  All five work items were read. *)
Example import_frontend_only :
  let run :=
    importFromAdo Demo.client 1 Demo.config Backlog.frontend_only
      Backlog.service in
  (Demo.outline <$> (fst <$> Ok_value run.1))
  = Some [("feat-1", 0); ("pbi-2", 1); ("task-4", 2)]
  /\ (map ir_localId <$> (snd <$> Ok_value run.1))
     = Some ["feat-1"; "pbi-2"; "task-4"; "pbi-3"; "task-5"]
  /\ (Demo.outline <$>
        (fst <$> Ok_value
           (importFromAdo Demo.client 1 Demo.config
              (unfiltered Backlog.frontend_only) Backlog.service).1))
     = Some [("feat-1", 0); ("pbi-2", 1); ("task-4", 2); ("pbi-3", 1);
             ("task-5", 2)].
Proof. vm_compute. repeat split; reflexivity. Qed.

(** ** The records of the test suite

    Two expectations of the test suite of the repository on records
    without area path and iteration path: an item whose values match
    is [unchanged] with no change, and a push skips it; and a trailing
    space in the title is no change of the title. *)
Example unchanged_when_values_match :
  wd_status (diffWorkItem (Suite.item "Test Item")
               (Some (Suite.response "Test Item" (Some "New"))))
  = SUnchanged
  /\ wd_changes (diffWorkItem (Suite.item "Test Item")
                   (Some (Suite.response "Test Item" (Some "New"))))
     = []
  /\ sr_action
       <$> (pushWorkItems Demo.client
              (Demo.document [Suite.item "Same Title"]) Demo.config
              Demo.push_all
              {| Demo.stored := [Suite.response "Same Title" (Some "New")];
                 Demo.log := [] |}).1.1
     = [ASkip]
  /\ List.filter (fun c => match fc_field c with title => true | _ => false end)
       (wd_changes (diffWorkItem (Suite.item "Test Item ")
                      (Some (Suite.response "Test Item" None))))
     = [].
Proof. vm_compute. repeat split; reflexivity. Qed.
